(** * Arioneo race-chart ingestion: a shallow embedding of server.js

    The development embeds, function by function, the parts of the Express
    back end that turn race-chart text into deduplicated history entries:

    - [RaceChartParser.parsePositions]      (position digit disambiguator)
    - [normalizeHorseNameForMatch], [resolveHorseAlias],
      [formatHorseNameForDisplay]           (horse identity resolver)
    - [POST /api/horses/merge|unmerge|rename] (alias graph)
    - [checkDuplicateRace], [POST /api/race-charts/save] (duplicate guard)
    - [RaceChartParser.extractRaceMetadata] (surface, distance, track, class)
    - the final-time selection of [RaceChartParser.parseHorseFromChart].

    Conventions of the embedding.
    - A JavaScript string is a [list ascii]; every text is taken to be 7-bit
      ASCII, so [toUpperCase]/[toLowerCase] only move the 26 letters and a
      UTF-16 code unit is a character.
    - A JavaScript object used as a dictionary is an association list in
      insertion order ([Object.keys]/[Object.entries] enumerate it in that
      order).  A key that spells an array index is enumerated before the
      others: [own_set] puts it there where a handler stores a name that a
      request gives.
    - Regular expressions are kept as syntax ([regex]) and run by one
      backtracking matcher ([run]) that lists every way to match in the
      priority order of ECMAScript; the first element is what the engine of
      the language returns.
    - Numbers are [jsnum]: exact rationals together with NaN and the two
      infinities.  Every finite value that occurs in a statement below is a
      dyadic rational of small height, on which IEEE-754 doubles are exact. *)

From Stdlib Require Import List Ascii Bool Arith Lia ZArith QArith Qround Permutation.
From Stdlib Require String.
Import ListNotations.
Import String.StringSyntax.

Local Open Scope char_scope.
Local Open Scope list_scope.
Local Open Scope nat_scope.

(** ** Strings *)

Definition str := list ascii.

(** A string literal of the source. *)
Definition js (s : String.string) : str := String.list_ascii_of_string s.
Arguments js s%_string_scope.

Definition code (c : ascii) : nat := nat_of_ascii c.

Definition in_range (lo hi c : ascii) : bool :=
  (code lo <=? code c) && (code c <=? code hi).

Definition is_digit (c : ascii) : bool := in_range "0" "9" c.
Definition is_upper (c : ascii) : bool := in_range "A" "Z" c.
Definition is_lower (c : ascii) : bool := in_range "a" "z" c.
Definition is_letter (c : ascii) : bool := is_upper c || is_lower c.
Definition is_alnum (c : ascii) : bool := is_letter c || is_digit c.

(** [\w] *)
Definition is_word (c : ascii) : bool := is_alnum c || (c =? "_")%char.

(** LineTerminator of ECMAScript, restricted to ASCII: LF and CR. *)
Definition is_line_terminator (c : ascii) : bool :=
  (code c =? 10) || (code c =? 13).

(** [\s] and the characters removed by [trim]: TAB, LF, VT, FF, CR, SPACE. *)
Definition is_space (c : ascii) : bool :=
  ((9 <=? code c) && (code c <=? 13)) || (code c =? 32).

Definition upper_char (c : ascii) : ascii :=
  if is_lower c then ascii_of_nat (code c - 32) else c.

Definition lower_char (c : ascii) : ascii :=
  if is_upper c then ascii_of_nat (code c + 32) else c.

Definition toUpperCase (s : str) : str := map upper_char s.
Definition toLowerCase (s : str) : str := map lower_char s.

Fixpoint str_eqb (a b : str) : bool :=
  match a, b with
  | [], [] => true
  | x :: a', y :: b' => (x =? y)%char && str_eqb a' b'
  | _, _ => false
  end.

Fixpoint starts_with (p s : str) : bool :=
  match p, s with
  | [], _ => true
  | x :: p', y :: s' => (x =? y)%char && starts_with p' s'
  | _ :: _, [] => false
  end.

(** [s.indexOf(p)]: the least index at which [p] occurs, [None] for -1. *)
Fixpoint indexOf (s p : str) : option nat :=
  if starts_with p s then Some 0
  else match s with
       | [] => None
       | _ :: s' => option_map S (indexOf s' p)
       end.

(** [s.lastIndexOf(p)] *)
Fixpoint lastIndexOf (s p : str) : option nat :=
  match s with
  | [] => if starts_with p s then Some 0 else None
  | _ :: s' =>
    match lastIndexOf s' p with
    | Some i => Some (S i)
    | None => if starts_with p s then Some 0 else None
    end
  end.

(** [s.includes(p)] *)
Definition includes (s p : str) : bool :=
  match indexOf s p with Some _ => true | None => false end.

(** [s.substring(i)] and [s.substring(i, j)] for [i <= j]. *)
Definition substring_from (s : str) (i : nat) : str := skipn i s.
Definition substring (s : str) (i j : nat) : str := firstn (j - i) (skipn i s).

Fixpoint trimStart (s : str) : str :=
  match s with
  | c :: s' => if is_space c then trimStart s' else s
  | [] => []
  end.

Definition trimEnd (s : str) : str := rev (trimStart (rev s)).

Definition trim (s : str) : str := trimEnd (trimStart s).

(** [s.slice(-2)] *)
Definition slice_last2 (s : str) : str := skipn (length s - 2) s.

(** ** Numbers

    Rationals are kept in lowest terms ([Qred]), so that two results denote
    the same number exactly when they are equal terms. *)

Inductive jsnum :=
| NaN
| Inf (positive : bool)
| Num (q : Q).

Definition numZ (z : Z) : jsnum := Num (inject_Z z).
Definition numN (n : nat) : jsnum := numZ (Z.of_nat n).

Definition digit_value (c : ascii) : Z := Z.of_nat (code c - 48).

(** The value of a run of decimal digits, most significant first. *)
Definition digits_value (ds : str) : Z :=
  fold_left (fun acc c => (10 * acc + digit_value c)%Z) ds 0%Z.

Fixpoint take_while (p : ascii -> bool) (s : str) : str :=
  match s with
  | c :: s' => if p c then c :: take_while p s' else []
  | [] => []
  end.

Fixpoint drop_while (p : ascii -> bool) (s : str) : str :=
  match s with
  | c :: s' => if p c then drop_while p s' else s
  | [] => []
  end.

(** [parseInt(s)] in radix 10: leading white space, an optional sign, then
    the longest run of digits; NaN when that run is empty.  (The source only
    applies it to one character or to a run of digits, so the "0x" prefix of
    the language never occurs.) *)
Definition parseInt (s : str) : jsnum :=
  let t := trimStart s in
  let '(neg, t) :=
    match t with
    | c :: t' =>
      if (c =? "-")%char then (true, t')
      else if (c =? "+")%char then (false, t') else (false, t)
    | [] => (false, t)
    end in
  match take_while is_digit t with
  | [] => NaN
  | ds => numZ (if neg then - digits_value ds else digits_value ds)
  end.

(** [parseFloat] on the shapes the source feeds it: digits with an optional
    fraction ([\d+(?:\.\d+)?]). *)
Definition parseFloat (s : str) : jsnum :=
  let t := trimStart s in
  match take_while is_digit t with
  | [] => NaN
  | ds =>
    match drop_while is_digit t with
    | dot :: frac =>
      if (dot =? ".")%char then
        let fs := take_while is_digit frac in
        Num (Qred (inject_Z (digits_value ds)
                   + inject_Z (digits_value fs)
                     / inject_Z (10 ^ Z.of_nat (length fs))))
      else numZ (digits_value ds)
    | [] => numZ (digits_value ds)
    end
  end.

Definition js_add (a b : jsnum) : jsnum :=
  match a, b with
  | NaN, _ | _, NaN => NaN
  | Inf p, Inf p' => if Bool.eqb p p' then Inf p else NaN
  | Inf p, _ | _, Inf p => Inf p
  | Num x, Num y => Num (Qred (x + y))
  end.

Definition q_sign (x : Q) : comparison := (Qnum x ?= 0)%Z.

Definition js_mul (a b : jsnum) : jsnum :=
  match a, b with
  | NaN, _ | _, NaN => NaN
  | Inf p, Inf p' => Inf (Bool.eqb p p')
  | Inf p, Num y | Num y, Inf p =>
    match q_sign y with
    | Eq => NaN
    | Gt => Inf p
    | Lt => Inf (negb p)
    end
  | Num x, Num y => Num (Qred (x * y))
  end.

Definition js_div (a b : jsnum) : jsnum :=
  match a, b with
  | NaN, _ | _, NaN => NaN
  | Inf _, Inf _ => NaN
  | Inf p, Num y => match q_sign y with Lt => Inf (negb p) | _ => Inf p end
  | Num _, Inf _ => Num 0
  | Num x, Num y =>
    match q_sign y with
    | Eq =>
      match q_sign x with
      | Eq => NaN
      | Gt => Inf true
      | Lt => Inf false
      end
    | _ => Num (Qred (x / y))
    end
  end.

(** [Math.round]: the integer nearest to [x], ties towards +infinity. *)
Definition math_round (a : jsnum) : jsnum :=
  match a with
  | Num x => numZ (Qfloor (x + (1 # 2)))
  | other => other
  end.

(** Equality of numbers as values ([===] on numbers; NaN differs from itself). *)
Definition js_num_eqb (a b : jsnum) : bool :=
  match a, b with
  | Num x, Num y => Qeq_bool x y
  | Inf p, Inf p' => Bool.eqb p p'
  | _, _ => false
  end.

(** ** The position digit disambiguator

    [RaceChartParser.parsePositions(digitsStr, expectedCount = 0)]. *)

(** [digitsStr[i]]; [None] is [undefined]. *)
Definition charAt (s : str) (i : nat) : option ascii := nth_error s i.

Definition char_is (o : option ascii) (c : ascii) : bool :=
  match o with Some d => (d =? c)%char | None => false end.

Definition char_str (o : option ascii) : str :=
  match o with Some d => [d] | None => js "undefined" end.

(** The [while (i < digitsStr.length)] loop; [fuel] bounds the number of
    iterations, [positions] is the array filled by [push]. *)
Fixpoint parsePositions_loop (fuel : nat) (digitsStr : str) (expectedCount : nat)
         (i : nat) (positions : list jsnum) : list jsnum :=
  match fuel with
  | 0 => positions
  | S fuel' =>
    if i <? length digitsStr then
      if char_is (charAt digitsStr i) "1" && (i + 1 <? length digitsStr)
         && char_is (charAt digitsStr (i + 1)) "0" then
        parsePositions_loop fuel' digitsStr expectedCount (i + 2)
                            (positions ++ [numN 10])
      else if char_is (charAt digitsStr i) "1" && (i + 1 <? length digitsStr)
              && (char_is (charAt digitsStr (i + 1)) "1"
                  || char_is (charAt digitsStr (i + 1)) "2")
              && ((expectedCount =? 0) || (expectedCount <? length digitsStr)) then
        parsePositions_loop fuel' digitsStr expectedCount (i + 2)
                            (positions ++ [parseInt (substring digitsStr i (i + 2))])
      else
        parsePositions_loop fuel' digitsStr expectedCount (i + 1)
                            (positions ++ [parseInt (char_str (charAt digitsStr i))])
    else positions
  end.

Definition parsePositions (digitsStr : str) (expectedCount : nat) : list jsnum :=
  if (0 <? expectedCount) && (length digitsStr =? expectedCount) then
    map (fun d => parseInt [d]) digitsStr
  else
    parsePositions_loop (length digitsStr) digitsStr expectedCount 0 [].

(** The rule of the specification, read off its words: (1) a run whose length
    equals the expected count is read digit by digit; (2) otherwise the run is
    scanned from the left, "10" is always one position, "11" and "12" are one
    position only when the run is longer than the expected count, and
    everything else is a single digit. *)
Fixpoint scan_positions (longer : bool) (ds : str) : list jsnum :=
  match ds with
  | [] => []
  | c :: tl =>
    match tl with
    | d :: rest =>
      if (c =? "1")%char && (d =? "0")%char then
        numN 10 :: scan_positions longer rest
      else if (c =? "1")%char && ((d =? "1")%char || (d =? "2")%char) && longer then
        parseInt [c; d] :: scan_positions longer rest
      else parseInt [c] :: scan_positions longer tl
    | [] => [parseInt [c]]
    end
  end.

Definition disambiguate (ds : str) (expected : nat) : list jsnum :=
  if length ds =? expected then map (fun d => parseInt [d]) ds
  else scan_positions (expected <? length ds) ds.

(** ** Regular expressions

    The patterns of the source are kept as syntax.  [run] is the matcher of
    ECMAScript read as a function that lists, in the order in which
    backtracking would try them, all the states in which a match of the
    pattern started at a given state can end. *)

Inductive cset :=
| CChar (c : ascii)            (* a single character of a class *)
| CRange (lo hi : ascii)       (* lo-hi *)
| CDigit                       (* \d *)
| CSpace                       (* \s *)
| CWord.                       (* \w *)

Inductive regex :=
| Eps
| Lit (c : ascii)
| Dot                                   (* . *)
| Class (items : list cset)             (* [...] *)
| NotClass (items : list cset)          (* [^...] *)
| Cat (r1 r2 : regex)
| Alt (r1 r2 : regex)                   (* r1|r2 *)
| Rep (min : nat) (max : option nat) (greedy : bool) (r : regex)
| Group (n : nat) (r : regex)           (* the n-th capturing parenthesis *)
| Bol                                   (* ^ *)
| Eol                                   (* $ *)
| WordB.                                (* \b *)

Record flags := { ignoreCase : bool; multiline : bool }.

Definition no_flags := {| ignoreCase := false; multiline := false |}.
Definition flag_i := {| ignoreCase := true; multiline := false |}.
Definition flag_m := {| ignoreCase := false; multiline := true |}.

(** A matcher state: the text already passed (last character first), the
    text still ahead, and the captures made so far (latest first). *)
Record mstate := { before : str; after : str; caps : list (nat * str) }.

Definition cset_has (i : cset) (c : ascii) : bool :=
  match i with
  | CChar d => (c =? d)%char
  | CRange lo hi => in_range lo hi c
  | CDigit => is_digit c
  | CSpace => is_space c
  | CWord => is_word c
  end.

(** Membership in a class; with the [i] flag a character belongs to the class
    as soon as one of its two cases does. *)
Definition class_has (fl : flags) (items : list cset) (c : ascii) : bool :=
  existsb (fun i => cset_has i c
                    || (ignoreCase fl
                        && (cset_has i (upper_char c) || cset_has i (lower_char c))))
          items.

Definition lit_has (fl : flags) (c d : ascii) : bool :=
  if ignoreCase fl then (upper_char d =? upper_char c)%char else (d =? c)%char.

(** Consume one character that satisfies [p]. *)
Definition eat (p : ascii -> bool) (s : mstate) : list mstate :=
  match after s with
  | c :: rest =>
    if p c then [{| before := c :: before s; after := rest; caps := caps s |}]
    else []
  | [] => []
  end.

(** The [min] compulsory iterations of a quantifier. *)
Fixpoint rep_exact (step : mstate -> list mstate) (n : nat) (s : mstate)
  : list mstate :=
  match n with
  | 0 => [s]
  | S n' => flat_map (rep_exact step n') (step s)
  end.

(** The optional iterations: at most [n] more, each of which has to consume
    something; a greedy quantifier tries one more iteration before it tries
    to stop, a lazy one the other way round. *)
Fixpoint rep_more (step : mstate -> list mstate) (greedy : bool) (n : nat)
         (s : mstate) : list mstate :=
  match n with
  | 0 => [s]
  | S n' =>
    let again :=
        flat_map (fun s' => if length (after s') <? length (after s)
                            then rep_more step greedy n' s' else [])
                 (step s) in
    if greedy then again ++ [s] else s :: again
  end.

Definition set_cap (n : nat) (s s' : mstate) : mstate :=
  {| before := before s';
     after := after s';
     caps := (n, firstn (length (after s) - length (after s')) (after s)) :: caps s' |}.

Definition at_bol (fl : flags) (s : mstate) : bool :=
  match before s with
  | [] => true
  | c :: _ => multiline fl && is_line_terminator c
  end.

Definition at_eol (fl : flags) (s : mstate) : bool :=
  match after s with
  | [] => true
  | c :: _ => multiline fl && is_line_terminator c
  end.

Definition at_word_boundary (s : mstate) : bool :=
  xorb (match before s with c :: _ => is_word c | [] => false end)
       (match after s with c :: _ => is_word c | [] => false end).

Fixpoint run (fl : flags) (r : regex) (s : mstate) {struct r} : list mstate :=
  match r with
  | Eps => [s]
  | Lit c => eat (lit_has fl c) s
  | Dot => eat (fun d => negb (is_line_terminator d)) s
  | Class items => eat (class_has fl items) s
  | NotClass items => eat (fun d => negb (class_has fl items d)) s
  | Cat r1 r2 => flat_map (run fl r2) (run fl r1 s)
  | Alt r1 r2 => run fl r1 s ++ run fl r2 s
  | Rep mn mx greedy r' =>
    flat_map (fun s1 =>
                rep_more (run fl r') greedy
                         (match mx with
                          | Some m => m - mn
                          | None => length (after s1)
                          end) s1)
             (rep_exact (run fl r') mn s)
  | Group n r' => map (set_cap n s) (run fl r' s)
  | Bol => if at_bol fl s then [s] else []
  | Eol => if at_eol fl s then [s] else []
  | WordB => if at_word_boundary s then [s] else []
  end.

(** [regex.exec(s)] without the [g] flag, and [s.match(regex)]: the first
    start index, from the left, at which the pattern matches, with the match
    that backtracking finds first there.  The result is the pair of the state
    at the start and the state at the end of the match. *)
Fixpoint exec_from (fl : flags) (r : regex) (bef aft : str)
  : option (mstate * mstate) :=
  let st := {| before := bef; after := aft; caps := [] |} in
  match run fl r st with
  | e :: _ => Some (st, e)
  | [] =>
    match aft with
    | [] => None
    | c :: aft' => exec_from fl r (c :: bef) aft'
    end
  end.

Definition exec (fl : flags) (r : regex) (s : str) : option (mstate * mstate) :=
  exec_from fl r [] s.

(** [regex.test(s)], also the truth value of [s.match(regex)]. *)
Definition test (fl : flags) (r : regex) (s : str) : bool :=
  match exec fl r s with Some _ => true | None => false end.

(** [m[0]], the matched text. *)
Definition match_text (m : mstate * mstate) : str :=
  firstn (length (after (fst m)) - length (after (snd m))) (after (fst m)).

(** [m.index] *)
Definition match_index (m : mstate * mstate) : nat := length (before (fst m)).

Fixpoint assoc_nat (l : list (nat * str)) (n : nat) : option str :=
  match l with
  | [] => None
  | (k, v) :: l' => if k =? n then Some v else assoc_nat l' n
  end.

(** [m[n]] for a group that took part in the match; [[]] stands for the
    [undefined] of a group that did not. *)
Definition match_group (m : mstate * mstate) (n : nat) : str :=
  match assoc_nat (caps (snd m)) n with Some v => v | None => [] end.

(** [s.replace(regex, '')] without the [g] flag. *)
Definition replace_first (fl : flags) (r : regex) (s : str) : str :=
  match exec fl r s with
  | None => s
  | Some (st, e) => rev (before st) ++ after e
  end.

(** [s.replace(regex, '')] with the [g] flag: every match, found from where
    the previous one ended, is removed; after an empty match the search
    moves one character on. *)
Fixpoint replace_all_from (fuel : nat) (fl : flags) (r : regex) (bef aft : str)
  : str :=
  match fuel with
  | 0 => aft
  | S fuel' =>
    match exec_from fl r bef aft with
    | None => aft
    | Some (st, e) =>
      let skipped := firstn (length aft - length (after st)) aft in
      if length (after e) <? length (after st) then
        skipped ++ replace_all_from fuel' fl r (before e) (after e)
      else
        match after e with
        | [] => skipped
        | c :: rest => skipped ++ c :: replace_all_from fuel' fl r (c :: before e) rest
        end
    end
  end.

Definition replace_all (fl : flags) (r : regex) (s : str) : str :=
  replace_all_from (S (length s)) fl r [] s.

(** [s.match(regex) || []] with the [g] flag: the matched texts, in order. *)
Fixpoint match_all_from (fuel : nat) (fl : flags) (r : regex) (bef aft : str)
  : list str :=
  match fuel with
  | 0 => []
  | S fuel' =>
    match exec_from fl r bef aft with
    | None => []
    | Some (st, e) =>
      match_text (st, e) ::
      (if length (after e) <? length (after st) then
         match_all_from fuel' fl r (before e) (after e)
       else
         match after e with
         | [] => []
         | c :: rest => match_all_from fuel' fl r (c :: before e) rest
         end)
    end
  end.

Definition match_all (fl : flags) (r : regex) (s : str) : list str :=
  match_all_from (S (length s)) fl r [] s.

(** Notation-like helpers to write patterns as the source does. *)
Definition seq (rs : list regex) : regex := fold_right Cat Eps rs.
Definition lit (s : String.string) : regex := seq (map Lit (js s)).
Arguments lit s%_string_scope.
Definition alts (rs : list regex) : regex :=
  match rs with
  | [] => Eps
  | r :: rs' => fold_left Alt rs' r
  end.
Definition star (r : regex) : regex := Rep 0 None true r.       (* r* *)
Definition plus (r : regex) : regex := Rep 1 None true r.       (* r+ *)
Definition lazy_plus (r : regex) : regex := Rep 1 None false r. (* r+? *)
Definition opt (r : regex) : regex := Rep 0 (Some 1) true r.    (* r? *)
Definition times (n : nat) (r : regex) : regex := Rep n (Some n) true r. (* r{n} *)
Definition between (n m : nat) (r : regex) : regex := Rep n (Some m) true r.
Definition digit : regex := Class [CDigit].                     (* \d *)
Definition space : regex := Class [CSpace].                     (* \s *)
Definition word : regex := Class [CWord].                       (* \w *)
Definition letters : list cset := [CRange "a" "z"; CRange "A" "Z"].
Definition alnums : list cset := [CRange "a" "z"; CRange "A" "Z"; CRange "0" "9"].

(** ** Objects used as dictionaries *)

Section Objects.
Context {V : Type}.

Definition obj := list (str * V).

(** [o[k]] *)
Fixpoint obj_get (o : obj) (k : str) : option V :=
  match o with
  | [] => None
  | (k', v) :: o' => if str_eqb k' k then Some v else obj_get o' k
  end.

(** [o[k] = v]: an existing key keeps its place, a new one goes last. *)
Fixpoint obj_set (o : obj) (k : str) (v : V) : obj :=
  match o with
  | [] => [(k, v)]
  | (k', v') :: o' =>
    if str_eqb k' k then (k', v) :: o' else (k', v') :: obj_set o' k v
  end.

(** [delete o[k]] *)
Fixpoint obj_delete (o : obj) (k : str) : obj :=
  match o with
  | [] => []
  | (k', v') :: o' =>
    if str_eqb k' k then obj_delete o' k else (k', v') :: obj_delete o' k
  end.

(** [Object.keys(o)] *)
Definition obj_keys (o : obj) : list str := map fst o.
End Objects.

Arguments obj V : clear implicits.

(** [xs.includes(x)] on an array of strings. *)
Definition array_includes (xs : list str) (x : str) : bool :=
  existsb (str_eqb x) xs.

(** The truth value of a string: only the empty one is falsy. *)
Definition truthy (s : str) : bool :=
  match s with [] => false | _ => true end.

(** Every match of [r] reaches the end of the text. *)
Definition ends_text (fl : flags) (r : regex) : Prop :=
  forall s e, In e (run fl r s) -> after e = [].

(** [e] is reached from [s] by reading the text [m]. *)
Definition reads (s e : mstate) (m : str) : Prop :=
  after s = m ++ after e /\ before e = rev m ++ before s.

(** The state reached from [s] by reading the text [m] that lies ahead. *)
Definition advance (m : str) (s : mstate) : mstate :=
  {| before := rev m ++ before s; after := skipn (length m) (after s); caps := caps s |}.

(** The text ahead of [s] starts with [w], a run of characters that satisfy
    [p] and that ends there. *)
Definition run_ahead (p : ascii -> bool) (w : str) (s : mstate) : Prop :=
  exists rest, after s = w ++ rest
               /\ forallb p w = true
               /\ match rest with c :: _ => p c = false | [] => True end.

(** The pattern [r] matches exactly one character, one that satisfies [p]. *)
Definition one_char (fl : flags) (r : regex) (p : ascii -> bool) : Prop :=
  forall s, run fl r s = eat p s.

(** The first end state that backtracking reaches, if any. *)
Definition first_end (fl : flags) (r : regex) (s : mstate) : option mstate :=
  hd_error (run fl r s).

(** The least number of characters a match of the pattern reads. *)
Fixpoint min_len (r : regex) : nat :=
  match r with
  | Eps | Bol | Eol | WordB => 0
  | Lit _ | Dot | Class _ | NotClass _ => 1
  | Cat r1 r2 => min_len r1 + min_len r2
  | Alt r1 r2 => Nat.min (min_len r1) (min_len r2)
  | Rep mn _ _ r' => mn * min_len r'
  | Group _ r' => min_len r'
  end.

(** ** Horse identity resolver *)

(** [/[^a-zA-Z]/g] *)
Definition re_non_letter : regex := NotClass letters.
(** [/[^a-zA-Z0-9]/g] *)
Definition re_non_alnum : regex := NotClass alnums.
(** [/\b(19|20)\d{2}\b/] *)
Definition re_four_digit_year : regex :=
  seq [WordB; Group 1 (Alt (lit "19") (lit "20")); times 2 digit; WordB].
(** [/\b(\d{2})\b/] *)
Definition re_two_digit_year : regex :=
  seq [WordB; Group 1 (times 2 digit); WordB].

(** [normalizeHorseNameForMatch(name)] *)
Definition normalizeHorseNameForMatch (name : str) : str :=
  if negb (truthy name) then []
  else
    let letters := toLowerCase (replace_all no_flags re_non_letter name) in
    let fourDigitYear := exec no_flags re_four_digit_year name in
    let twoDigitYear := exec no_flags re_two_digit_year name in
    let year :=
        match fourDigitYear with
        | Some m => slice_last2 (match_text m)
        | None =>
          match twoDigitYear with
          | Some m => match_group m 1
          | None => []
          end
        end in
    letters ++ year.

(** An entry of the horse mapping.  The time stamps [addedAt], [updatedAt]
    and the note [renamedFrom] are written but never read by the operations
    below and are left out; an absent or empty [owner]/[country] is the empty
    string; [aliases] is [None] for an entry stored without the field. *)
Record HorseData := {
  owner : str;
  country : str;
  isHistoric : bool;
  aliases : option (list str)
}.

Definition horse_mapping := obj HorseData.

(** The three comparisons of [resolveHorseAlias] between a stored spelling
    [k] and the name looked up. *)
Definition spelling_matches (nameLower nameStripped nameNormalized k : str) : bool :=
  str_eqb (toLowerCase k) nameLower
  || str_eqb (toLowerCase (replace_all no_flags re_non_alnum k)) nameStripped
  || str_eqb (normalizeHorseNameForMatch k) nameNormalized.

(** The [for ... of Object.entries(horseMapping)] loop over the aliases. *)
Fixpoint resolve_in_aliases (nameLower nameStripped nameNormalized : str)
         (entries : horse_mapping) : option str :=
  match entries with
  | [] => None
  | (primaryName, data) :: rest =>
    let found :=
        match aliases data with
        | Some al =>
          match find (spelling_matches nameLower nameStripped nameNormalized) al with
          | Some aliasMatch => truthy aliasMatch
          | None => false
          end
        | None => false
        end in
    if found then Some primaryName
    else resolve_in_aliases nameLower nameStripped nameNormalized rest
  end.

(** [resolveHorseAlias(horseName, horseMapping)] *)
Definition resolveHorseAlias (horseName : str) (horseMapping : horse_mapping) : str :=
  if negb (truthy horseName) then horseName
  else
    let nameLower := trim (toLowerCase horseName) in
    let nameStripped := toLowerCase (replace_all no_flags re_non_alnum horseName) in
    let nameNormalized := normalizeHorseNameForMatch horseName in
    let directMatch :=
        find (spelling_matches nameLower nameStripped nameNormalized)
             (obj_keys horseMapping) in
    match directMatch with
    | Some k =>
      if truthy k then k
      else
        match resolve_in_aliases nameLower nameStripped nameNormalized horseMapping with
        | Some primaryName => primaryName
        | None => horseName
        end
    | None =>
      match resolve_in_aliases nameLower nameStripped nameNormalized horseMapping with
      | Some primaryName => primaryName
      | None => horseName
      end
    end.

(** [/^[^a-zA-Z0-9]+/] *)
Definition re_leading_junk : regex := seq [Bol; plus (NotClass alnums)].
(** [/^(20[2-9]\d)\s*(.+)$/] *)
Definition re_year4_start : regex :=
  seq [Bol; Group 1 (seq [lit "20"; Class [CRange "2" "9"]; digit]);
       star space; Group 2 (plus Dot); Eol].
(** [/^([2-9]\d)[^a-zA-Z0-9]*(.+)$/] *)
Definition re_year2_start : regex :=
  seq [Bol; Group 1 (seq [Class [CRange "2" "9"]; digit]);
       star (NotClass alnums); Group 2 (plus Dot); Eol].
(** [/^(.+?)[^a-zA-Z0-9]*([2-9]\d)[^a-zA-Z0-9]*$/] *)
Definition re_year_end : regex :=
  seq [Bol; Group 1 (lazy_plus Dot); star (NotClass alnums);
       Group 2 (seq [Class [CRange "2" "9"]; digit]);
       star (NotClass alnums); Eol].
(** [/^[^a-zA-Z]+|[^a-zA-Z]+$/g] *)
Definition re_outer_non_letters : regex :=
  Alt (seq [Bol; plus (NotClass letters)]) (seq [plus (NotClass letters); Eol]).

(** [formatHorseNameForDisplay(name)] *)
Definition formatHorseNameForDisplay (name : str) : str :=
  if negb (truthy name) then []
  else
    let horseName := trim name in
    let horseName := replace_first no_flags re_leading_junk horseName in
    (* Pattern 1: 4-digit year at start *)
    let '(year, horseName) :=
        match exec no_flags re_year4_start horseName with
        | Some m => (Some (slice_last2 (match_group m 1)), match_group m 2)
        | None => (None, horseName)
        end in
    (* Pattern 2: 2-digit year at start *)
    let '(year, horseName) :=
        match year with
        | Some _ => (year, horseName)
        | None =>
          match exec no_flags re_year2_start horseName with
          | Some m => (Some (match_group m 1), match_group m 2)
          | None => (None, horseName)
          end
        end in
    (* Pattern 3: year at end *)
    let '(year, horseName) :=
        match year with
        | Some _ => (year, horseName)
        | None =>
          match exec no_flags re_year_end horseName with
          | Some m =>
            if 2 <? length (match_group m 1)
            then (Some (match_group m 2), match_group m 1)
            else (None, horseName)
          | None => (None, horseName)
          end
        end in
    let horseName :=
        toUpperCase (trim (replace_all no_flags re_outer_non_letters horseName)) in
    match year with
    | Some y => horseName ++ js " " ++ y
    | None => horseName
    end.

(** ** The alias graph: merge, unmerge, rename

    Each handler reads the stored mapping, works on it and stores it back.
    The result of a handler is either the mapping it stored or the status of
    the error response it sent, in which case the stored mapping is as it
    was. *)

Inductive outcome :=
| Stored (m : horse_mapping)
| Refused (status : nat).

Definition blank_horse : HorseData :=
  {| owner := []; country := []; isHistoric := false; aliases := Some [] |}.

Definition with_aliases (d : HorseData) (a : option (list str)) : HorseData :=
  {| owner := owner d; country := country d; isHistoric := isHistoric d; aliases := a |}.

Definition with_owner (d : HorseData) (o : str) : HorseData :=
  {| owner := o; country := country d; isHistoric := isHistoric d; aliases := aliases d |}.

Definition with_country (d : HorseData) (c : str) : HorseData :=
  {| owner := owner d; country := c; isHistoric := isHistoric d; aliases := aliases d |}.

(** [data.aliases && data.aliases.includes(aliasName)] *)
Definition has_alias (d : HorseData) (aliasName : str) : bool :=
  match aliases d with
  | Some al => array_includes al aliasName
  | None => false
  end.

(** [if (mapping[aliasName]) { ... delete mapping[aliasName]; }]: an alias
    that is itself an entry hands its owner and country (where the primary
    has none) and its aliases over to the primary and is removed.  [None] is
    the exception of a property read on [undefined]. *)
Definition absorb_entry (primaryName : str) (mapping : horse_mapping) (aliasName : str)
  : option horse_mapping :=
  match obj_get mapping aliasName with
  | Some a =>
    match obj_get mapping primaryName with
    | Some p =>
      let p := if negb (truthy (owner p)) && truthy (owner a)
               then with_owner p (owner a) else p in
      let p := if negb (truthy (country p)) && truthy (country a)
               then with_country p (country a) else p in
      match aliases a with
      | Some al =>
        match aliases p with
        | Some pl =>
          Some (obj_delete (obj_set mapping primaryName
                                    (with_aliases p (Some (pl ++ al))))
                           aliasName)
        | None => None
        end
      | None => Some (obj_delete (obj_set mapping primaryName p) aliasName)
      end
    | None => None
    end
  | None => Some mapping
  end.

(** [if (!mapping[primaryName].aliases.includes(aliasName)) push(aliasName)] *)
Definition add_alias (primaryName : str) (mapping : horse_mapping) (aliasName : str)
  : option horse_mapping :=
  match obj_get mapping primaryName with
  | Some p =>
    match aliases p with
    | Some pl =>
      if array_includes pl aliasName then Some mapping
      else Some (obj_set mapping primaryName
                         (with_aliases p (Some (pl ++ [aliasName]))))
    | None => None
    end
  | None => None
  end.

(** The body of [for (const aliasName of aliasNames)] in the merge handler.
    The exception [None] cannot happen once the entry of [primaryName] and
    its array are in place (see [merge_loop_succeeds]). *)
Definition merge_step (primaryName : str) (mapping : horse_mapping) (aliasName : str)
  : option horse_mapping :=
  if str_eqb aliasName primaryName then Some mapping
  else if existsb (fun e => negb (str_eqb (fst e) primaryName)
                            && has_alias (snd e) aliasName) mapping
  then Some mapping
  else
    match absorb_entry primaryName mapping aliasName with
    | Some mapping => add_alias primaryName mapping aliasName
    | None => None
    end.

Fixpoint merge_loop (primaryName : str) (mapping : horse_mapping)
         (aliasNames : list str) : option horse_mapping :=
  match aliasNames with
  | [] => Some mapping
  | aliasName :: rest =>
    match merge_step primaryName mapping aliasName with
    | Some mapping' => merge_loop primaryName mapping' rest
    | None => None
    end
  end.

(** [POST /api/horses/merge] *)
Definition merge_horses (primaryName : str) (aliasNames : list str)
           (stored : horse_mapping) : outcome :=
  if negb (truthy primaryName) || (length aliasNames =? 0) then Refused 400
  else
    let mapping := stored in
    (* Ensure primary horse exists in mapping *)
    let mapping :=
        match obj_get mapping primaryName with
        | Some _ => mapping
        | None => obj_set mapping primaryName blank_horse
        end in
    (* Initialize aliases array if not exists *)
    let mapping :=
        match obj_get mapping primaryName with
        | Some p =>
          match aliases p with
          | Some _ => mapping
          | None => obj_set mapping primaryName (with_aliases p (Some []))
          end
        | None => mapping
        end in
    match merge_loop primaryName mapping aliasNames with
    | Some mapping => Stored mapping
    | None => Refused 500
    end.

(** [POST /api/horses/unmerge] *)
Definition unmerge_horse (primaryName aliasName : str) (stored : horse_mapping)
  : outcome :=
  if negb (truthy primaryName) || negb (truthy aliasName) then Refused 400
  else
    match obj_get stored primaryName with
    | None => Refused 404
    | Some p =>
      match aliases p with
      | None => Refused 404
      | Some pl =>
        if negb (array_includes pl aliasName) then Refused 404
        else
          let mapping :=
              obj_set stored primaryName
                      (with_aliases p
                         (Some (filter (fun a => negb (str_eqb a aliasName)) pl))) in
          Stored (obj_set mapping aliasName blank_horse)
      end
    end.

(** [POST /api/horses/rename] *)
Definition rename_horse (oldName newName : str) (stored : horse_mapping) : outcome :=
  if negb (truthy oldName) || negb (truthy newName) then Refused 400
  else if str_eqb (toLowerCase oldName) (toLowerCase newName) then Refused 400
  else
    let mapping := stored in
    let oldNameLower := toLowerCase oldName in
    let oldNameStripped := toLowerCase (replace_all no_flags re_non_alnum oldName) in
    let oldKey :=
        find (fun k => str_eqb (toLowerCase k) oldNameLower
                       || str_eqb (toLowerCase (replace_all no_flags re_non_alnum k))
                                  oldNameStripped)
             (obj_keys mapping) in
    (* [oldKey ? mapping[oldKey] : {...}]: the empty key is falsy *)
    let oldKey := match oldKey with
                  | Some k => if truthy k then Some k else None
                  | None => None
                  end in
    let oldData :=
        match oldKey with
        | Some k => match obj_get mapping k with Some d => d | None => blank_horse end
        | None => blank_horse
        end in
    let newNameLower := toLowerCase newName in
    let existingNew :=
        match find (fun k => str_eqb (toLowerCase k) newNameLower) (obj_keys mapping) with
        | Some k => truthy k
        | None => false
        end in
    if existingNew then Refused 400
    else
      let al := match aliases oldData with Some l => l | None => [] end in
      (* Add old name(s) as aliases so training data resolves *)
      let al := match oldKey with
                | Some k => if array_includes al k then al else al ++ [k]
                | None => al
                end in
      let al := if (match oldKey with
                    | Some k => negb (str_eqb oldName k)
                    | None => true
                    end) && negb (array_includes al oldName)
                then al ++ [oldName] else al in
      let mapping := obj_set mapping newName (with_aliases oldData (Some al)) in
      (* Delete old entry if it existed *)
      let mapping := match oldKey with
                     | Some k => obj_delete mapping k
                     | None => mapping
                     end in
      Stored mapping.

(** The operations of the alias graph as data, and their effect on the
    stored mapping. *)
Inductive operation :=
| Merge (primaryName : str) (aliasNames : list str)
| Unmerge (primaryName aliasName : str)
| Rename (oldName newName : str).

Definition handle (op : operation) (stored : horse_mapping) : outcome :=
  match op with
  | Merge primaryName aliasNames => merge_horses primaryName aliasNames stored
  | Unmerge primaryName aliasName => unmerge_horse primaryName aliasName stored
  | Rename oldName newName => rename_horse oldName newName stored
  end.

Definition apply_operation (stored : horse_mapping) (op : operation) : horse_mapping :=
  match handle op stored with
  | Stored m => m
  | Refused _ => stored
  end.

Definition apply_operations (ops : list operation) (stored : horse_mapping)
  : horse_mapping :=
  fold_left apply_operation ops stored.

(** [a] is in the alias set of the entry [d]. *)
Definition owns (d : HorseData) (a : str) : Prop :=
  exists al, aliases d = Some al /\ In a al.

(** The alias partition invariant: no spelling is in the alias sets of two
    different entries. *)
Definition alias_partition (m : horse_mapping) : Prop :=
  forall k1 d1 k2 d2 a,
    In (k1, d1) m -> In (k2, d2) m -> owns d1 a -> owns d2 a -> k1 = k2.

(** An object has each key once. *)
Definition well_keyed {V : Type} (o : obj V) : Prop := NoDup (obj_keys o).

(** The entry of the primary horse exists and has its array of aliases, as
    the merge handler arranges before its loop. *)
Definition primary_ready (P : str) (m : horse_mapping) : Prop :=
  exists p pl, obj_get m P = Some p /\ aliases p = Some pl.

(** The test that [resolveHorseAlias] applies to each stored spelling [k]
    when it looks up [horseName]. *)
Definition name_matches (horseName : str) : str -> bool :=
  spelling_matches (trim (toLowerCase horseName))
                   (toLowerCase (replace_all no_flags re_non_alnum horseName))
                   (normalizeHorseNameForMatch horseName).

(** A name written with letters and blanks that begins and ends with a
    letter. *)
Definition plain_name (w : str) : bool :=
  forallb (fun c => is_letter c || (c =? " ")%char) w
  && match w with c :: _ => is_letter c | [] => false end
  && match rev w with c :: _ => is_letter c | [] => false end.

(** The canonical spelling "20YY Name". *)
Definition year_prefixed (y3 y4 : ascii) (w : str) : str :=
  "2" :: "0" :: y3 :: y4 :: " " :: w.

(** ** Duplicate guard and the save handler *)

(** An entry of a horse's history.  A race entry carries some thirty more
    columns copied from the request (or "-"); the guard reads none of them
    and they are left out. *)
Record Entry := {
  date : str;
  horse : str;
  track : str;
  isRace : bool;
  isWork : bool
}.

(** [sessionData.allHorseDetailData]: horse key to entries. *)
Definition history := obj (list Entry).

(** A reviewed race of the request body of [POST /api/race-charts/save]; the
    guard and the bookkeeping of the handler read these three fields. *)
Record Race := {
  race_horseName : str;
  race_date : str;
  race_track : str
}.

(** [/\s*\([A-Z]{2,3}\)$/g] *)
Definition re_country_suffix : regex :=
  seq [star space; Lit "("; between 2 3 (Class [CRange "A" "Z"]); Lit ")"; Eol].

(** [horseName.toUpperCase().replace(/\s*\([A-Z]{2,3}\)$/g, '').trim()] *)
Definition normalizedName (horseName : str) : str :=
  trim (replace_all no_flags re_country_suffix (toUpperCase horseName)).

(** The inner loop: some entry is a race on that date at that track. *)
Definition has_race_on (entries : list Entry) (raceDate trk : str) : bool :=
  existsb (fun entry => isRace entry && str_eqb (date entry) raceDate
                        && str_eqb (track entry) trk) entries.

(** The test on a key of the history. *)
Definition key_matches (key name : str) : bool :=
  let keyNormalized := toUpperCase key in
  str_eqb keyNormalized name || includes keyNormalized name
  || includes name keyNormalized.

(** [checkDuplicateRace(horseName, raceDate, track)], as a function of what
    [getSession('arioneo-main-session')] returns ([None] when there is no
    session). *)
Definition checkDuplicateRace (session : option history)
           (horseName raceDate trk : str) : bool :=
  match session with
  | None => false
  | Some allHorseDetailData =>
    existsb (fun e => key_matches (fst e) (normalizedName horseName)
                      && has_race_on (snd e) raceDate trk)
            allHorseDetailData
  end.

(** The session store: Redis when the client is configured, with the value
    kept under the session key, and the in-memory map.  Reads and writes of
    Redis are taken not to fail. *)
Inductive backing :=
| Redis (persisted : option history)
| MemoryOnly.

Record store := { persistent : backing; memory : option history }.

(** What [getSession] returns.  From Redis it is a fresh copy parsed from the
    stored text; otherwise it is the very object held in memory. *)
Definition getSession (st : store) : option history :=
  match persistent st with
  | Redis (Some h) => Some h
  | _ => memory st
  end.

(** What a call of [getSession] made during the loop of the save handler
    returns, when [local] is the history the handler is filling in: a copy
    of the persisted value (the handler has not saved yet), or the object in
    memory, which is the one the handler works on, or nothing. *)
Definition visible_session (st : store) (local : history) : option history :=
  match persistent st with
  | Redis (Some h) => Some h
  | _ => match memory st with
         | Some _ => Some local
         | None => None
         end
  end.

Record SkippedRace := { skipped_horseName : str; skipped_date : str; skipped_reason : str }.

Record save_state := {
  allHorseDetailData : history;
  savedRaces : list (str * str);
  skippedRaces : list SkippedRace
}.

(** [Object.keys(...).find(k => k.toLowerCase() === race.horseName.toLowerCase())],
    then [horseKey = matchingKey] when it is truthy. *)
Definition horse_key (detail : history) (race : Race) : str :=
  match find (fun k => str_eqb (toLowerCase k) (toLowerCase (race_horseName race)))
             (obj_keys detail) with
  | Some matchingKey => if truthy matchingKey then matchingKey else race_horseName race
  | None => race_horseName race
  end.

Definition race_entry (horseKey : str) (race : Race) : Entry :=
  {| date := race_date race; horse := horseKey; track := race_track race;
     isRace := true; isWork := false |}.

Section Save.
  (** [entries.sort((a, b) => new Date(b.date) - new Date(a.date))]: the
      order it produces depends on how the engine reads the date strings; all
      that is used of it is that it rearranges the array. *)
Variable sort_by_date : list Entry -> list Entry.

(** The body of [for (const race of races)].  (The update of the horse
    mapping for a manually created horse does not touch the history and is
    left out.) *)
Definition save_race (st : store) (s : save_state) (race : Race) : save_state :=
  let horseKey := horse_key (allHorseDetailData s) race in
  let isDuplicate :=
      checkDuplicateRace (visible_session st (allHorseDetailData s))
                         horseKey (race_date race) (race_track race) in
  if isDuplicate then
    {| allHorseDetailData := allHorseDetailData s;
       savedRaces := savedRaces s;
       skippedRaces := skippedRaces s
                       ++ [{| skipped_horseName := horseKey;
                              skipped_date := race_date race;
                              skipped_reason := js "Duplicate entry" |}] |}
  else
    let entries :=
        match obj_get (allHorseDetailData s) horseKey with
        | Some es => es
        | None => []
        end in
    {| allHorseDetailData :=
         obj_set (allHorseDetailData s) horseKey
                 (sort_by_date (entries ++ [race_entry horseKey race]));
       savedRaces := savedRaces s ++ [(horseKey, race_date race)];
       skippedRaces := skippedRaces s |}.

Definition save_loop (st : store) (s : save_state) (races : list Race) : save_state :=
  fold_left (save_race st) races s.

(** [POST /api/race-charts/save]: the store after the request and the body
    of the response, or the status of the error response. *)
Definition save_races (st : store) (races : list Race)
  : store * (save_state + nat) :=
  if length races =? 0 then (st, inr 400)
  else
    let sessionData := match getSession st with Some h => h | None => [] end in
    let s := save_loop st {| allHorseDetailData := sessionData;
                             savedRaces := []; skippedRaces := [] |} races in
    ({| persistent := match persistent st with
                      | Redis _ => Redis (Some (allHorseDetailData s))
                      | MemoryOnly => MemoryOnly
                      end;
        memory := Some (allHorseDetailData s) |},
     inl s).
End Save.

(** The number of race entries of the key [k] on a date at a track. *)
Definition races_on (h : history) (k raceDate trk : str) : nat :=
  match obj_get h k with
  | Some entries =>
    length (filter (fun entry => isRace entry && str_eqb (date entry) raceDate
                                 && str_eqb (track entry) trk) entries)
  | None => 0
  end.

(** What the loop of the save handler keeps true of the history [local] it
    fills in, when the key [k] has a race entry on [d] at [t] in the stored
    history [h0]: the entry is still there, their number has not changed, and
    the guard still sees it. *)
Definition race_kept (st : store) (h0 : history) (k d t : str) (local : history)
  : Prop :=
  (exists es, obj_get local k = Some es /\ has_race_on es d t = true)
  /\ races_on local k d t = races_on h0 k d t
  /\ exists hv es, visible_session st local = Some hv
                   /\ obj_get hv k = Some es /\ has_race_on es d t = true.

(** ** Document metadata extractor *)

Definition newline : ascii := ascii_of_nat 10.

(** [trackAbbreviations] *)
Definition trackAbbreviations : obj str :=
  [(js "churchill downs", js "CD"); (js "churchill", js "CD");
   (js "woodbine", js "WO"); (js "santa anita", js "SA");
   (js "belmont", js "BEL"); (js "belmont park", js "BEL");
   (js "saratoga", js "SAR"); (js "keeneland", js "KEE");
   (js "gulfstream", js "GP"); (js "gulfstream park", js "GP");
   (js "del mar", js "DMR"); (js "arlington", js "AP");
   (js "oaklawn", js "OP"); (js "oaklawn park", js "OP");
   (js "aqueduct", js "AQU"); (js "laurel", js "LRL");
   (js "laurel park", js "LRL"); (js "pimlico", js "PIM");
   (js "monmouth", js "MTH"); (js "monmouth park", js "MTH");
   (js "tampa bay", js "TAM"); (js "tampa bay downs", js "TAM");
   (js "fair grounds", js "FG"); (js "los alamitos", js "LA");
   (js "golden gate", js "GG"); (js "golden gate fields", js "GG");
   (js "turfway", js "TP"); (js "turfway park", js "TP");
   (js "parx", js "PRX"); (js "penn national", js "PEN");
   (js "charles town", js "CT"); (js "remington", js "RP");
   (js "remington park", js "RP"); (js "lone star", js "LS");
   (js "lone star park", js "LS"); (js "indiana grand", js "IND");
   (js "canterbury", js "CBY"); (js "ellis park", js "ELP");
   (js "colonial downs", js "CNL"); (js "horseshoe indianapolis", js "IND")].

(** [s.split(' ').filter(w => w.length > 0)] *)
Fixpoint split_words (s : str) (cur : str) : list str :=
  match s with
  | [] => match cur with [] => [] | _ => [rev cur] end
  | c :: s' =>
    if (c =? " ")%char
    then match cur with
         | [] => split_words s' []
         | _ => rev cur :: split_words s' []
         end
    else split_words s' (c :: cur)
  end.

(** [getTrackAbbreviation(trackName)] *)
Definition getTrackAbbreviation (trackName : str) : str :=
  if negb (truthy trackName) then js "UNK"
  else
    let lower := trim (toLowerCase trackName) in
    match obj_get trackAbbreviations lower with
    | Some abbrev => abbrev
    | None =>
      match find (fun e => includes lower (fst e) || includes (fst e) lower)
                 trackAbbreviations with
      | Some (_, abbrev) => abbrev
      | None =>
        match split_words trackName [] with
        | w0 :: w1 :: _ => toUpperCase (firstn 1 w0 ++ firstn 1 w1)
        | _ => toUpperCase (substring trackName 0 3)
        end
      end
    end.

(** The names tried in turn by [extractRaceMetadata]. *)
Definition trackNames : list str :=
  [js "Churchill Downs"; js "Woodbine"; js "Santa Anita"; js "Belmont";
   js "Saratoga"; js "Keeneland"; js "Gulfstream"; js "Del Mar"; js "Arlington";
   js "Oaklawn"; js "Aqueduct"; js "Laurel"; js "Pimlico"; js "Monmouth";
   js "Tampa Bay"; js "Fair Grounds"; js "Los Alamitos"; js "Golden Gate";
   js "Turfway"; js "Parx"; js "Penn National"; js "Charles Town"; js "Remington";
   js "Lone Star"; js "Indiana Grand"; js "Canterbury"; js "Ellis Park";
   js "Colonial Downs"; js "Horseshoe Indianapolis"].

(** [new RegExp(trackName.replace(' ', '\\s+'), 'i')]: the first blank of the
    name stands for a run of white space. *)
Fixpoint track_pattern (replaced : bool) (name : str) : regex :=
  match name with
  | [] => Eps
  | c :: name' =>
    if (c =? " ")%char && negb replaced
    then Cat (plus space) (track_pattern true name')
    else Cat (Lit c) (track_pattern replaced name')
  end.

(** The surface read off the text, before the track is known. *)
Definition detect_surface (text : str) : str :=
  if test flag_i (seq [lit "inner"; plus space; lit "turf"]) text
     || test flag_i (lit "turf") text
  then js "T"
  else if test flag_i (lit "synthetic") text
          || test flag_i (seq [lit "all"; opt (Class [CSpace; CChar "-"]); lit "weather"])
                  text
  then js "AWT"
  else if test flag_i (lit "dirt") text then js "D"
  else js "D".

(** The [for (const trackName of trackNames)] loop with its [break]. *)
Definition detect_track (text : str) : str :=
  match find (fun trackName => test flag_i (track_pattern false trackName) text)
             trackNames with
  | Some trackName => getTrackAbbreviation trackName
  | None => js "UNK"
  end.

(** [/(\d+)\s+(\d+)\/(\d+)\s*Miles?/i] *)
Definition re_miles_fraction : regex :=
  seq [Group 1 (plus digit); plus space; Group 2 (plus digit); Lit "/";
       Group 3 (plus digit); star space; lit "Mile"; opt (Lit "s")].
(** [/(\d+)\s*Miles?(?:\s|$)/i] *)
Definition re_miles_whole : regex :=
  seq [Group 1 (plus digit); star space; lit "Mile"; opt (Lit "s"); Alt space Eol].
(** [/(\d+)\s+(\d+)\/(\d+)\s*Furlong/i] *)
Definition re_furlongs_fraction : regex :=
  seq [Group 1 (plus digit); plus space; Group 2 (plus digit); Lit "/";
       Group 3 (plus digit); star space; lit "Furlong"].
(** [/(\d+(?:\.\d+)?)\s*Furlong/i] *)
Definition re_furlongs_decimal : regex :=
  seq [Group 1 (seq [plus digit; opt (seq [Lit "."; plus digit])]);
       star space; lit "Furlong"].
(** [/(\d+|Seven|Six|Five|Eight|Nine)\s*Furlong/i] *)
Definition re_furlongs_word : regex :=
  seq [Group 1 (alts [plus digit; lit "Seven"; lit "Six"; lit "Five"; lit "Eight";
                      lit "Nine"]);
       star space; lit "Furlong"].

(** [wordToNumber] *)
Definition wordToNumber : obj nat :=
  [(js "five", 5); (js "six", 6); (js "seven", 7); (js "eight", 8); (js "nine", 9)].

(** The distance part of [extractRaceMetadata]: [distanceInFurlongs].  (The
    text [distance], the same number printed with an "F", is left out.)
    The numbers are exact and [\s] is an ASCII blank: the definition is the
    code on texts of ASCII characters whose digit runs stay below 2^53 and
    whose fractions are dyadic, which is where the statements about it
    stay. *)
Definition detect_distance (text : str) : jsnum :=
  match exec flag_i re_miles_fraction text with
  | Some milesMatch =>
    let wholeMiles := parseInt (match_group milesMatch 1) in
    let numerator := parseInt (match_group milesMatch 2) in
    let denominator := parseInt (match_group milesMatch 3) in
    let miles := js_add wholeMiles (js_div numerator denominator) in
    js_div (math_round (js_mul (js_mul miles (numN 8)) (numN 10))) (numN 10)
  | None =>
    match exec flag_i re_miles_whole text with
    | Some milesMatch =>
      let miles := parseInt (match_group milesMatch 1) in
      js_mul miles (numN 8)
    | None =>
      match exec flag_i re_furlongs_fraction text with
      | Some furlongMatch =>
        let wholeFurlongs := parseInt (match_group furlongMatch 1) in
        let numerator := parseInt (match_group furlongMatch 2) in
        let denominator := parseInt (match_group furlongMatch 3) in
        js_add wholeFurlongs (js_div numerator denominator)
      | None =>
        match exec flag_i re_furlongs_decimal text with
        | Some furlongMatch => parseFloat (match_group furlongMatch 1)
        | None =>
          match exec flag_i re_furlongs_word text with
          | Some furlongMatch =>
            let furlongStr := toLowerCase (match_group furlongMatch 1) in
            match obj_get wordToNumber furlongStr with
            | Some n => numN n
            | None => parseInt (match_group furlongMatch 1)
            end
          | None => numN 0
          end
        end
      end
    end
  end.

(** [/(\w+,\s+\w+\s+\d{1,2},\s+\d{4})/] *)
Definition re_date : regex :=
  Group 1 (seq [plus word; Lit ","; plus space; plus word; plus space;
                between 1 2 digit; Lit ","; plus space; times 4 digit]).

(** The date part of [extractRaceMetadata]. *)
Definition detect_date (text : str) : str :=
  match exec flag_i
             (seq [re_date; plus space;
                   alts [lit "Saratoga"; lit "Churchill"; lit "Woodbine";
                         lit "Belmont"; lit "Keeneland"]]) text with
  | Some dateMatch => match_group dateMatch 1
  | None =>
    match exec no_flags
               (seq [re_date; plus space; Class [CRange "A" "Z"];
                     plus (Class letters)]) text with
    | Some dateMatch => match_group dateMatch 1
    | None =>
      match rev (match_all no_flags re_date text) with
      | lastDate :: _ => lastDate
      | [] => js "Unknown Date"
      end
    end
  end.

(** The pattern of a stakes race name on the line after a track name. *)
Definition re_stakes_name : regex :=
  seq [alts [lit "Saratoga"; lit "Churchill"; lit "Belmont"; lit "Keeneland";
             lit "Gulfstream"; lit "Del Mar"; lit "Santa Anita"; lit "Aqueduct";
             lit "Woodbine"; lit "Oaklawn"; lit "Tampa Bay"; lit "Fair Grounds";
             lit "Monmouth"; lit "Laurel"; lit "Parx"; lit "Pimlico"];
       star space; Lit newline; star space;
       Group 1 (seq [Class [CRange "A" "Z"];
                     plus (Class [CRange "A" "Z"; CRange "a" "z"; CChar "'"; CSpace;
                                  CChar "-"; CChar "."]);
                     alts [lit "S."; lit "Stakes"; lit "H."; lit "Handicap";
                           lit "Derby"; lit "Oaks"; lit "Cup"; lit "Futurity";
                           lit "Classic"; lit "Mile"; lit "Sprint"; lit "Distaff";
                           lit "Breeders'"]])].

(** [raceName] *)
Definition detect_race_name (text : str) : str :=
  match exec flag_i re_stakes_name text with
  | Some stakesNameMatch => trim (match_group stakesNameMatch 1)
  | None => []
  end.

(** [/Allowance\s+Optional\s+Claiming/i] *)
Definition re_allowance_optional_claiming : regex :=
  seq [lit "Allowance"; plus space; lit "Optional"; plus space; lit "Claiming"].
(** [/Optional\s+Claiming/i] *)
Definition re_optional_claiming : regex :=
  seq [lit "Optional"; plus space; lit "Claiming"].
(** [/Maiden\s+Special\s+Weight/i] *)
Definition re_maiden_special_weight : regex :=
  seq [lit "Maiden"; plus space; lit "Special"; plus space; lit "Weight"].
(** [/Grade\s*([I1]{1,3}|\d+)/i] *)
Definition re_grade : regex :=
  seq [lit "Grade"; star space;
       Group 1 (Alt (between 1 3 (Class [CChar "I"; CChar "1"])) (plus digit))].
(** [/\bStakes\s+\d+yo/i] *)
Definition re_stakes_age : regex :=
  seq [WordB; lit "Stakes"; plus space; plus digit; lit "yo"].
(** [/^\s*Stakes\b/m] *)
Definition re_stakes_line : regex :=
  seq [Bol; star space; lit "Stakes"; WordB].
(** [/Maiden\s+Claiming/i] *)
Definition re_maiden_claiming : regex :=
  seq [lit "Maiden"; plus space; lit "Claiming"].
(** [/Starter\s+Allowance/i] *)
Definition re_starter_allowance : regex :=
  seq [lit "Starter"; plus space; lit "Allowance"].
(** [/\bAllowance\b/i] *)
Definition re_allowance : regex := seq [WordB; lit "Allowance"; WordB].
(** [/Claiming\s+Price\s*\$/i] *)
Definition re_claiming_price : regex :=
  seq [lit "Claiming"; plus space; lit "Price"; star space; Lit "$"].
(** [/\bClaiming\s+\$\d/i] *)
Definition re_claiming_dollar : regex :=
  seq [WordB; lit "Claiming"; plus space; Lit "$"; digit].
(** [/\bHandicap\b/i] *)
Definition re_handicap : regex := seq [WordB; lit "Handicap"; WordB].

(** The code of a graded stakes race from the text captured after "Grade". *)
Definition grade_code (grade : str) : str :=
  let grade :=
      if str_eqb grade (js "I") then js "1"
      else if str_eqb grade (js "II") then js "2"
      else if str_eqb grade (js "III") then js "3"
      else grade in
  js "G" ++ grade.

(** The race class part of [extractRaceMetadata]: [raceType]. *)
Definition detect_race_type (text : str) : str :=
  let raceName := detect_race_name text in
  if test flag_i re_allowance_optional_claiming text
     || test flag_i re_optional_claiming text
  then js "AOC"
  else if test flag_i re_maiden_special_weight text then js "MSW"
  else if test flag_i re_grade text then
    match exec flag_i re_grade text with
    | Some gradeMatch => grade_code (match_group gradeMatch 1)
    | None => js "UNK"
    end
  else if truthy raceName || test flag_i re_stakes_age text
          || test flag_m re_stakes_line text
  then js "STK"
  else if test flag_i re_maiden_claiming text then js "MCL"
  else if test flag_i re_starter_allowance text then js "STR"
  else if test flag_i re_allowance text && negb (test flag_i re_claiming_price text)
  then js "ALW"
  else if test flag_i re_claiming_price text || test flag_i re_claiming_dollar text
  then js "CLM"
  else if test flag_i re_handicap text then js "HCP"
  else js "UNK".

Record RaceMetadata := {
  raceDate : str;
  meta_track : str;
  surface : str;
  raceType : str;
  raceName : str;
  distanceInFurlongs : jsnum
}.

(** [RaceChartParser.extractRaceMetadata(text)] *)
Definition extractRaceMetadata (text : str) : RaceMetadata :=
  let surface := detect_surface text in
  let distanceInFurlongs := detect_distance text in
  let track := detect_track text in
  (* Turfway Park has a synthetic surface - always AWT *)
  let surface := if str_eqb track (js "TP") then js "AWT" else surface in
  {| raceDate := detect_date text;
     meta_track := track;
     surface := surface;
     raceType := detect_race_type text;
     raceName := detect_race_name text;
     distanceInFurlongs := distanceInFurlongs |}.

(** The race class rules as the specification lists them: an ordered list of
    (condition, class) pairs, the first condition that holds decides. *)
Definition class_rules (text : str) : list (bool * str) :=
  [ (* allowance optional claiming *)
    (test flag_i re_allowance_optional_claiming text
     || test flag_i re_optional_claiming text, js "AOC");
    (* maiden special weight *)
    (test flag_i re_maiden_special_weight text, js "MSW");
    (* graded stakes *)
    (test flag_i re_grade text,
     match exec flag_i re_grade text with
     | Some gradeMatch => grade_code (match_group gradeMatch 1)
     | None => js "UNK"
     end);
    (* named stakes *)
    (truthy (detect_race_name text) || test flag_i re_stakes_age text
     || test flag_m re_stakes_line text, js "STK");
    (* maiden claiming *)
    (test flag_i re_maiden_claiming text, js "MCL");
    (* starter allowance *)
    (test flag_i re_starter_allowance text, js "STR");
    (* allowance, unless a claiming price is printed *)
    (test flag_i re_allowance text && negb (test flag_i re_claiming_price text),
     js "ALW");
    (* claiming with an explicit price *)
    (test flag_i re_claiming_price text || test flag_i re_claiming_dollar text,
     js "CLM");
    (* handicap *)
    (test flag_i re_handicap text, js "HCP") ].

Fixpoint first_rule (rules : list (bool * str)) (default : str) : str :=
  match rules with
  | [] => default
  | (cond, class) :: rest => if cond then class else first_rule rest default
  end.

(** No rule of higher priority than maiden claiming applies to the text. *)
Definition higher_rules_silent (text : str) : bool :=
  forallb (fun rule => negb (fst rule)) (firstn 4 (class_rules text)).

(** ** Final time of a horse row *)

(** [/[12]:\d{2}\.\d{2}/g] *)
Definition re_minutes_time : regex :=
  seq [Class [CChar "1"; CChar "2"]; Lit ":"; times 2 digit; Lit "."; times 2 digit].

(** [horseLine.substring(horseLine.toLowerCase().indexOf(horseName.toLowerCase())
    + horseName.length)]; an index of -1 leaves one character less to skip. *)
Definition afterHorse (horseLine horseName : str) : str :=
  match indexOf (toLowerCase horseLine) (toLowerCase horseName) with
  | Some horseIndex => substring_from horseLine (horseIndex + length horseName)
  | None => substring_from horseLine (length horseName - 1)
  end.

(** [afterHorse.match(/[12]:\d{2}\.\d{2}/g) || []] *)
Definition allMinutesTimes (after_horse : str) : list str :=
  match_all no_flags re_minutes_time after_horse.

(** [allMinutesTimes.length > 0 ? allMinutesTimes[0] : '-'] *)
Definition finalTime (after_horse : str) : str :=
  match allMinutesTimes after_horse with
  | t :: _ => t
  | [] => js "-"
  end.

(** The text starts with a time written M:SS.SS, M being 1 or 2. *)
Definition time_shaped (s : str) : bool :=
  match s with
  | m :: colon :: s1 :: s2 :: dot :: h1 :: h2 :: _ =>
    ((m =? "1")%char || (m =? "2")%char) && (colon =? ":")%char
    && is_digit s1 && is_digit s2 && (dot =? ".")%char
    && is_digit h1 && is_digit h2
  | _ => false
  end.

(** The first occurrence, from the left, of a time written M:SS.SS. *)
Fixpoint first_time (s : str) : option str :=
  if time_shaped s then Some (firstn 7 s)
  else match s with
       | [] => None
       | _ :: s' => first_time s'
       end.
(** ** Horse mapping endpoints and the automatic registration of horses *)

(** The text is the canonical spelling of an array index: "0", or digits
    without a leading zero, of a value of at most 2^32 - 2. *)
Definition array_index (k : str) : bool :=
  match k with
  | [] => false
  | c :: rest =>
    forallb is_digit k
    && (negb (c =? "0")%char || (length rest =? 0))
    && (digits_value k <=? 4294967294)%Z
  end.

(** [o[k] = v] for a key that [o] does not have and that spells an array
    index: the keys of an object are listed with the array indices first, in
    ascending order, and the other keys after them in the order in which
    they were added. *)
Fixpoint insert_index {V : Type} (o : obj V) (k : str) (v : V) : obj V :=
  match o with
  | [] => [(k, v)]
  | (k', v') :: o' =>
    if array_index k' && (digits_value k' <? digits_value k)%Z
    then (k', v') :: insert_index o' k v
    else (k, v) :: o
  end.

(** [o[k] = v], for every key. *)
Definition own_set {V : Type} (o : obj V) (k : str) (v : V) : obj V :=
  if array_index k && negb (existsb (str_eqb k) (obj_keys o))
  then insert_index o k v
  else obj_set o k v.

(** [POST /api/horses]: add or update one entry.  The body's [owner] and
    [country] are strings (an absent one is the empty string), [isHistoric]
    a boolean.  The entry is replaced as a whole and is stored without an
    [aliases] field. *)
Definition add_horse (name owner country : str) (isHistoric : bool)
           (stored : horse_mapping) : outcome :=
  if negb (truthy name) then Refused 400
  else
    let mapping := stored in
    let nameLower := toLowerCase name in
    let nameStripped := toLowerCase (replace_all no_flags re_non_alnum name) in
    let existingKey :=
        find (fun k => str_eqb (toLowerCase k) nameLower) (obj_keys mapping) in
    let existingKey :=
        match existingKey with
        | Some k =>
          if truthy k then Some k
          else find (fun k => str_eqb (toLowerCase (replace_all no_flags re_non_alnum k))
                                      nameStripped)
                    (obj_keys mapping)
        | None =>
          find (fun k => str_eqb (toLowerCase (replace_all no_flags re_non_alnum k))
                                 nameStripped)
               (obj_keys mapping)
        end in
    (* Use existing key if found, otherwise use the provided name *)
    let keyToUse :=
        match existingKey with
        | Some k => if truthy k then k else name
        | None => name
        end in
    Stored (own_set mapping keyToUse
                    {| owner := owner; country := country; isHistoric := isHistoric;
                       aliases := None |}).

(** The value of a hexadecimal digit. *)
Definition hex_value (c : ascii) : option nat :=
  if is_digit c then Some (code c - 48)
  else if in_range "a" "f" c then Some (code c - 87)
  else if in_range "A" "F" c then Some (code c - 55)
  else None.

(** The byte that an escape "%XX" at the head of the text writes, and the
    text after the escape. *)
Definition escaped_byte (s : str) : option (nat * str) :=
  match s with
  | p :: h :: l :: rest =>
    if (p =? "%")%char
    then match hex_value h, hex_value l with
         | Some a, Some b => Some (16 * a + b, rest)
         | _, _ => None
         end
    else None
  | _ => None
  end.

(** An escape of a byte from [lo] to [hi] at the head of the text. *)
Definition continuation (lo hi : nat) (s : str) : option str :=
  match escaped_byte s with
  | Some (b, rest) => if (lo <=? b) && (b <=? hi) then Some rest else None
  | None => None
  end.

Definition and_then (a : option str) (f : str -> option str) : option str :=
  match a with
  | Some s => f s
  | None => None
  end.

(** The escapes that complete the UTF-8 encoding of a character whose first
    byte is [b], 128 or more: the text after them, when the encoding is well
    formed. *)
Definition utf8_rest (b : nat) (s : str) : option str :=
  if (194 <=? b) && (b <=? 223) then continuation 128 191 s
  else if b =? 224
  then and_then (continuation 160 191 s) (continuation 128 191)
  else if ((225 <=? b) && (b <=? 236)) || ((238 <=? b) && (b <=? 239))
  then and_then (continuation 128 191 s) (continuation 128 191)
  else if b =? 237
  then and_then (continuation 128 159 s) (continuation 128 191)
  else if b =? 240
  then and_then (and_then (continuation 144 191 s) (continuation 128 191))
                (continuation 128 191)
  else if (241 <=? b) && (b <=? 243)
  then and_then (and_then (continuation 128 191 s) (continuation 128 191))
                (continuation 128 191)
  else if b =? 244
  then and_then (and_then (continuation 128 143 s) (continuation 128 191))
                (continuation 128 191)
  else None.

(** What [decodeURIComponent] makes of an ASCII text: the decoded text, the
    exception [URIError], or a text with a character outside ASCII, which
    the embedding does not write down. *)
Inductive uri_decoded :=
| Decoded (s : str)
| URIError
| BeyondAscii.

Definition decoded_cons (c : ascii) (d : uri_decoded) : uri_decoded :=
  match d with
  | Decoded s => Decoded (c :: s)
  | other => other
  end.

Definition decoded_beyond (d : uri_decoded) : uri_decoded :=
  match d with
  | URIError => URIError
  | _ => BeyondAscii
  end.

Fixpoint decode_uri (fuel : nat) (s : str) : uri_decoded :=
  match fuel with
  | 0 => Decoded []
  | S fuel' =>
    match s with
    | [] => Decoded []
    | c :: rest =>
      if (c =? "%")%char then
        match escaped_byte s with
        | None => URIError
        | Some (b, after_escape) =>
          if b <? 128 then decoded_cons (ascii_of_nat b) (decode_uri fuel' after_escape)
          else
            match utf8_rest b after_escape with
            | None => URIError
            | Some after_char => decoded_beyond (decode_uri fuel' after_char)
            end
        end
      else decoded_cons c (decode_uri fuel' rest)
    end
  end.

(** [decodeURIComponent(s)] *)
Definition decodeURIComponent (s : str) : uri_decoded :=
  decode_uri (length s) s.

(** [DELETE /api/horses/:name], as a function of [req.params.name], which
    the handler decodes once more.  A [URIError] is answered 500 by the
    handler's [catch]; a name with a character outside ASCII is no key of
    the mapping, whose keys are ASCII, and is answered 404. *)
Definition delete_horse (name : str) (stored : horse_mapping) : outcome :=
  match decodeURIComponent name with
  | URIError => Refused 500
  | BeyondAscii => Refused 404
  | Decoded horseName =>
    match obj_get stored horseName with
    | None => Refused 404
    | Some _ => Stored (obj_delete stored horseName)
    end
  end.

(** The placeholder names that are never taken for horses. *)
Definition invalidNames : list str :=
  [js "worksheet"; js "sheet"; js "sheet1"; js "sheet2"; js "sheet3"; js "data";
   js "horse"; js "horse name"; js "name"].

(** [data.aliases && data.aliases.some(alias => ...)] *)
Definition some_alias (p : str -> bool) (data : HorseData) : bool :=
  match aliases data with
  | Some al => existsb p al
  | None => false
  end.

(** The body of [for (const horseName of Object.keys(allHorseDetailData))] in
    [ensureHorsesInMapping]. *)
Definition ensure_step (mapping : horse_mapping) (horseName : str) : horse_mapping :=
  if array_includes invalidNames (trim (toLowerCase horseName)) then mapping
  else
    let nameLower := toLowerCase horseName in
    let nameStripped := toLowerCase (replace_all no_flags re_non_alnum horseName) in
    let nameNormalized := normalizeHorseNameForMatch horseName in
    let existingKey :=
        find (spelling_matches nameLower nameStripped nameNormalized)
             (obj_keys mapping) in
    let isAlias :=
        existsb (fun e => some_alias (spelling_matches nameLower nameStripped
                                                       nameNormalized) (snd e))
                mapping in
    if negb (match existingKey with Some k => truthy k | None => false end)
       && negb isAlias
    then obj_set mapping horseName blank_horse
    else mapping.

(** [ensureHorsesInMapping(allHorseDetailData)], on the keys of the training
    data and the stored mapping; the result is the mapping it returns. *)
Definition ensureHorsesInMapping (dataKeys : list str) (stored : horse_mapping)
  : horse_mapping :=
  fold_left ensure_step dataKeys stored.

(** No canonical name and no alias of the mapping is the empty string. *)
Definition named (m : horse_mapping) : Prop :=
  (forall k, In k (obj_keys m) -> truthy k = true)
  /\ (forall k d al a, In (k, d) m -> aliases d = Some al -> In a al -> truthy a = true).

(** Some canonical name or some alias of the mapping passes for the name. *)
Definition known_name (horseName : str) (m : horse_mapping) : Prop :=
  (exists k, In k (obj_keys m) /\ name_matches horseName k = true)
  \/ (exists k d al a, In (k, d) m /\ aliases d = Some al /\ In a al
                       /\ name_matches horseName a = true).

(** ** Training data: rows, merging, aliases, edits and notes *)

(** The values held by the rows of the training data: strings, booleans,
    and [undefined] for a property that is absent or set to [undefined]. *)
Inductive jsval :=
| JUndefined
| JBool (b : bool)
| JStr (s : str).

(** A row of the training data (a training session, a race or a note), as
    the object it is: property names to values, in insertion order. *)
Definition row := obj jsval.

(** [allHorseDetailData] with full rows: horse name to rows. *)
Definition detail_data := obj (list row).

(** [o.k] *)
Definition field (o : row) (k : String.string) : jsval :=
  match obj_get o (js k) with
  | Some v => v
  | None => JUndefined
  end.
Arguments field o k%_string_scope.

(** [{...o, k: v}] and [o.k = v] *)
Definition with_field (o : row) (k : String.string) (v : jsval) : row :=
  obj_set o (js k) v.
Arguments with_field o k%_string_scope v.

Definition val_truthy (v : jsval) : bool :=
  match v with
  | JUndefined => false
  | JBool b => b
  | JStr s => truthy s
  end.

(** [v === w] *)
Definition strict_eq (v w : jsval) : bool :=
  match v, w with
  | JUndefined, JUndefined => true
  | JBool a, JBool b => Bool.eqb a b
  | JStr a, JStr b => str_eqb a b
  | _, _ => false
  end.

(** The text of a value in a template literal. *)
Definition to_string (v : jsval) : str :=
  match v with
  | JUndefined => js "undefined"
  | JBool true => js "true"
  | JBool false => js "false"
  | JStr s => s
  end.

(** [o[k] || []] *)
Definition get_or_nil {A : Type} (o : obj (list A)) (k : str) : list A :=
  match obj_get o k with
  | Some es => es
  | None => []
  end.

(** [Object.keys(o).forEach(k => { o[k] = f(k, o[k]) })] *)
Definition update_each {V : Type} (f : str -> V -> V) (o : obj V) : obj V :=
  fold_left (fun acc k => match obj_get acc k with
                          | Some v => obj_set acc k (f k v)
                          | None => acc
                          end)
            (obj_keys o) o.

Section TrainingData.
  (** [rows.sort((a, b) => new Date(b.date) - new Date(a.date))]: as for
      the save handler, all that is used of the sort is that it rearranges
      the array. *)
Variable sort_rows : list row -> list row.

(** [existing.date === row.date && existing.horse === row.horse] *)
Definition same_session (r existing : row) : bool :=
  strict_eq (field existing "date") (field r "date")
  && strict_eq (field existing "horse") (field r "horse").

(** The body of [newData.forEach(row => ...)] in [mergeTrainingData].
    [None] is the [TypeError] of [horseName.toLowerCase()] on a horse name
    that is [true]. *)
Definition merge_row (merged : detail_data) (r : row) : option detail_data :=
  match field r "horse" with
  | JUndefined => Some merged
  | JBool false => Some merged
  | JBool true => None
  | JStr horseName =>
    if negb (truthy horseName) then Some merged
    else if array_includes invalidNames (trim (toLowerCase horseName)) then Some merged
    else
      let entries := get_or_nil merged horseName in
      let isDuplicate := existsb (same_session r) entries in
      if isDuplicate then Some merged
      else Some (obj_set merged horseName (entries ++ [r]))
  end.

Fixpoint merge_rows (merged : detail_data) (newData : list row) : option detail_data :=
  match newData with
  | [] => Some merged
  | r :: rest =>
    match merge_row merged r with
    | Some merged' => merge_rows merged' rest
    | None => None
    end
  end.

(** [mergeTrainingData(existingData, newData)] *)
Definition mergeTrainingData (existingData : detail_data) (newData : list row)
  : option detail_data :=
  match merge_rows existingData newData with
  | Some merged => Some (update_each (fun _ rows => sort_rows rows) merged)
  | None => None
  end.

(** The body of [Object.keys(allHorseDetailData).forEach(horseName => ...)]
    in [mergeAliasedHorseData]. *)
Definition alias_step (allHorseDetailData : detail_data) (horseMapping : horse_mapping)
           (merged : detail_data) (horseName : str) : detail_data :=
  let primaryName := resolveHorseAlias horseName horseMapping in
  let entries :=
      map (fun entry =>
             with_field (with_field entry "horse" (JStr primaryName))
                        "originalName"
                        (if negb (str_eqb horseName primaryName)
                         then JStr horseName else JUndefined))
          (get_or_nil allHorseDetailData horseName) in
  obj_set merged primaryName (get_or_nil merged primaryName ++ entries).

(** [mergeAliasedHorseData(allHorseDetailData, horseMapping)] *)
Definition mergeAliasedHorseData (allHorseDetailData : detail_data)
           (horseMapping : horse_mapping) : detail_data :=
  update_each (fun _ rows => sort_rows rows)
              (fold_left (alias_step allHorseDetailData horseMapping)
                         (obj_keys allHorseDetailData) []).
End TrainingData.

(** An edit stored by [PUT /api/training/edit]: the four fields of the
    request body, each a string or absent. *)
Record Edit := {
  edit_type : option str;
  edit_track : option str;
  edit_surface : option str;
  edit_notes : option str
}.

(** [e !== undefined ? e : v] *)
Definition edited (e : option str) (v : jsval) : jsval :=
  match e with
  | Some s => JStr s
  | None => v
  end.

(** The function mapped over the rows of each horse in [applyTrainingEdits]. *)
Definition apply_edit (edits : obj Edit) (entry : row) : row :=
  let editKey := to_string (field entry "horse") ++ js "|" ++ to_string (field entry "date") in
  match obj_get edits editKey with
  | Some edit =>
    let type := edited (edit_type edit) (field entry "type") in
    let track := edited (edit_track edit) (field entry "track") in
    let surface := edited (edit_surface edit) (field entry "surface") in
    let notes := edited (edit_notes edit)
                        (if val_truthy (field entry "notes") then field entry "notes"
                         else JStr []) in
    let isRace := match edit_type edit with
                  | Some t => if truthy t then JBool (includes (toLowerCase t) (js "race"))
                              else field entry "isRace"
                  | None => field entry "isRace"
                  end in
    let isWork := match edit_type edit with
                  | Some t => if truthy t then JBool (includes (toLowerCase t) (js "work"))
                              else field entry "isWork"
                  | None => field entry "isWork"
                  end in
    with_field
      (with_field
         (with_field
            (with_field (with_field (with_field entry "type" type) "track" track)
                        "surface" surface)
            "notes" notes)
         "isRace" isRace)
      "isWork" isWork
  | None => entry
  end.

(** [applyTrainingEdits(allHorseDetailData, edits)] *)
Definition applyTrainingEdits (allHorseDetailData : detail_data) (edits : obj Edit)
  : detail_data :=
  if length (obj_keys edits) =? 0 then allHorseDetailData
  else update_each (fun _ rows => map (apply_edit edits) rows) allHorseDetailData.

(** A note stored by [POST /api/notes]: its date and its text. *)
Record Note := { note_date : str; note_note : str }.

(** The row that [applyHorseNotes] makes of a note. *)
Definition note_row (horseName : str) (note : Note) : row :=
  [(js "date", JStr (note_date note)); (js "horse", JStr horseName);
   (js "type", JStr (js "Note")); (js "notes", JStr (note_note note));
   (js "isNote", JBool true)]
    ++ map (fun k => (k, JStr (js "-")))
           [js "track"; js "surface"; js "distance"; js "avgSpeed"; js "maxSpeed";
            js "best1f"; js "best2f"; js "best3f"; js "best4f"; js "best5f";
            js "best6f"; js "best7f"; js "maxHR"; js "fastRecovery"; js "fastQuality";
            js "fastPercent"; js "recovery15"; js "quality15"; js "hr15Percent";
            js "maxSL"; js "slGallop"; js "sfGallop"; js "slWork"; js "sfWork";
            js "hr2min"; js "hr5min"; js "symmetry"; js "regularity"; js "bpm120";
            js "zone5"; js "age"; js "sex"; js "temp"; js "distanceCol";
            js "trotHR"; js "walkHR"].

(** [entry => !entry.isNote] *)
Definition not_note (entry : row) : bool := negb (val_truthy (field entry "isNote")).

(** The first loop of [applyHorseNotes]: the data without its note rows. *)
Definition without_notes (allHorseDetailData : detail_data) : detail_data :=
  fold_left (fun result horseName =>
               obj_set result horseName
                       (filter not_note (get_or_nil allHorseDetailData horseName)))
            (obj_keys allHorseDetailData) [].

(** The body of [Object.keys(notes).forEach(horseName => ...)]. *)
Definition add_notes (notes : obj (list Note)) (result : detail_data) (horseName : str)
  : detail_data :=
  let horseNotes := get_or_nil notes horseName in
  if 0 <? length horseNotes
  then obj_set result horseName
               (get_or_nil result horseName ++ map (note_row horseName) horseNotes)
  else result.

(** [applyHorseNotes(allHorseDetailData, notes)] *)
Definition applyHorseNotes (allHorseDetailData : detail_data) (notes : obj (list Note))
  : detail_data :=
  let result := without_notes allHorseDetailData in
  if length (obj_keys notes) =? 0 then result
  else fold_left (add_notes notes) (obj_keys notes) result.
(** What identifies a training session in [mergeTrainingData]: its date and
    its horse. *)
Definition session_key (r : row) : jsval * jsval := (field r "date", field r "horse").

(** The number of rows of the data, all horses together. *)
Definition total_rows {A : Type} (o : obj (list A)) : nat :=
  length (concat (map snd o)).
(** ** Deleting a training entry *)

(** The store once [getSession] has been called: a session found in Redis
    has been put in the memory cache as well. *)
Definition after_getSession (st : store) : store :=
  {| persistent := persistent st;
     memory := match persistent st with
               | Redis (Some h) => Some h
               | _ => memory st
               end |}.

(** The store once [saveSession] has been called with this history. *)
Definition saveSession (st : store) (h : history) : store :=
  {| persistent := match persistent st with
                   | Redis _ => Redis (Some h)
                   | MemoryOnly => MemoryOnly
                   end;
     memory := Some h |}.

(** [DELETE /api/training/delete]: the store after the request and the
    status of the response. *)
Definition delete_training (horseName entryDate : str) (st : store) : store * nat :=
  if negb (truthy horseName) || negb (truthy entryDate) then (st, 400)
  else
    match getSession st with
    | None => (after_getSession st, 404)
    | Some detail =>
      let st := after_getSession st in
      (* Find the horse in detail data (case-insensitive) *)
      match find (fun k => str_eqb (toLowerCase k) (toLowerCase horseName))
                 (obj_keys detail) with
      | None => (st, 404)
      | Some matchingKey =>
        if negb (truthy matchingKey) then (st, 404)
        else
          match obj_get detail matchingKey with
          | None => (st, 404)
          | Some entries =>
            (* Find and remove the entry with the matching date *)
            let kept := filter (fun entry => negb (str_eqb (date entry) entryDate))
                               entries in
            if length kept =? length entries then (st, 404)
            else
              (* If horse has no more entries, remove the horse key *)
              let detail :=
                  if length kept =? 0 then obj_delete detail matchingKey
                  else obj_set detail matchingKey kept in
              (saveSession st detail, 200)
          end
      end
    end.
(** ** Arioneo CSV transformations *)

(** [transformTrackName(trackName)], on a string. *)
Definition transformTrackName (trackName : str) : str :=
  if negb (truthy trackName) then []
  else
    let track := toLowerCase trackName in
    (* Saratoga *)
    if includes track (js "saratoga - turf") || includes track (js "saratoga - grass")
    then js "SAR T"
    else if includes track (js "saratoga - main") || includes track (js "saratoga")
    then js "SAR"
    (* Oklahoma (Saratoga training) *)
    else if includes track (js "oklahoma grass") || includes track (js "oklahoma turf")
    then js "SARtr T"
    else if includes track (js "oklahoma dirt") || includes track (js "oklahoma")
    then js "SARtr"
    (* Belmont *)
    else if includes track (js "belmont training") then js "BELtr"
    else if includes track (js "belmont main") || includes track (js "belmont")
    then js "BEL"
    else if includes track (js "churchill") then js "CD"
    else if includes track (js "keeneland") then js "KEE"
    (* Payson *)
    else if includes track (js "payson turf") || includes track (js "payson grass")
    then js "PAY T"
    else if includes track (js "payson dirt") || includes track (js "payson")
    then js "PAY"
    (* Palm Beach *)
    else if includes track (js "palm beach turf") || includes track (js "palm beach grass")
    then js "PBD T"
    else if includes track (js "palm beach dirt") || includes track (js "palm beach downs")
    then js "PBD"
    else if includes track (js "turfway") then js "TP"
    else if includes track (js "palm meadows") then js "PMM"
    else if includes track (js "winstar") then js "WS"
    else if includes track (js "woodbine") then js "WO"
    else if includes track (js "gulfstream") then js "GP"
    else if includes track (js "aqueduct") then js "AQU"
    else trackName.

(** [transformSurface(surface)], on a string. *)
Definition transformSurface (surface : str) : str :=
  if negb (truthy surface) then []
  else
    let s := toLowerCase surface in
    if includes s (js "weather") then js "AWT"
    else if includes s (js "dirt") then js "D"
    else if includes s (js "turf") || includes s (js "grass") then js "T"
    else surface.

(** The abbreviations that [transformTrackName] gives. *)
Definition track_codes : list str :=
  [js "SAR T"; js "SAR"; js "SARtr T"; js "SARtr"; js "BELtr"; js "BEL"; js "CD";
   js "KEE"; js "PAY T"; js "PAY"; js "PBD T"; js "PBD"; js "TP"; js "PMM"; js "WS";
   js "WO"; js "GP"; js "AQU"].

(** The abbreviations that [transformSurface] gives. *)
Definition surface_codes : list str := [js "AWT"; js "D"; js "T"].
(** ** Times of the training data and their colour *)

(** [a <= b] on numbers; a comparison with NaN is false. *)
Definition js_le (a b : jsnum) : bool :=
  match a, b with
  | NaN, _ | _, NaN => false
  | Inf p, Inf p' => implb p p'
  | Inf p, Num _ => negb p
  | Num _, Inf p => p
  | Num x, Num y => Qle_bool x y
  end.

(** [s.split(c)] for a separator of one character. *)
Fixpoint split_on (c : ascii) (s : str) : list str :=
  match s with
  | [] => [[]]
  | x :: s' =>
    if (x =? c)%char then [] :: split_on c s'
    else match split_on c s' with
         | p :: ps => (x :: p) :: ps
         | [] => [[x]]
         end
  end.

(** [/^\d{2}:\d{2}\.\d{2}$/] *)
Definition re_valid_time : regex :=
  seq [Bol; times 2 digit; Lit ":"; times 2 digit; Lit "."; times 2 digit; Eol].

(** [isValidTime(timeStr)], on a string. *)
Definition isValidTime (timeStr : str) : bool :=
  if negb (truthy timeStr) then false
  else
    let s := trim timeStr in
    if str_eqb s (js "-") || str_eqb s [] || str_eqb s (js "NaN") then false
    else test no_flags re_valid_time s.

(** [timeToSeconds(timeStr)], on a string.  [None] is the [TypeError] of
    [parts[1].split] when the text has no colon; a missing part after the
    point is [undefined], of which [parseInt] makes NaN. *)
Definition timeToSeconds (timeStr : str) : option jsnum :=
  let parts := split_on ":" (trim timeStr) in
  let minutes := parseInt (nth 0 parts []) in
  match nth_error parts 1 with
  | None => None
  | Some part =>
    let secondsParts := split_on "." part in
    let seconds := parseInt (nth 0 secondsParts []) in
    let hundredths := match nth_error secondsParts 1 with
                      | Some h => parseInt h
                      | None => NaN
                      end in
    Some (js_add (js_add (js_mul minutes (numN 60)) seconds)
                 (js_div hundredths (numN 100)))
  end.

(** [getBest5FColor(timeStr)]; [None] is [null].  (A valid time has its
    colon, so that [timeToSeconds] does not throw here.  The seconds are
    compared with whole numbers and are a whole number plus some hundredths,
    so that the outcome of the comparisons is the same on doubles as on the
    rationals of the embedding.) *)
Definition getBest5FColor (timeStr : str) : option str :=
  if negb (truthy timeStr) || str_eqb timeStr (js "-") || negb (isValidTime timeStr)
  then None
  else
    match timeToSeconds timeStr with
    | None => None
    | Some seconds =>
      if js_le seconds (numN 60) then Some (js "#d1ecf1")
      else if js_le seconds (numN 65) then Some (js "#d4edda")
      else if js_le seconds (numN 70) then Some (js "#f9f7e3")
      else if js_le seconds (numN 75) then Some (js "#fff3cd")
      else Some (js "#fdeaea")
    end.

(** The text is a time written MM:SS.hh. *)
Definition clock_shaped (s : str) : bool :=
  match s with
  | [m1; m2; colon; s1; s2; dot; h1; h2] =>
    is_digit m1 && is_digit m2 && (colon =? ":")%char
    && is_digit s1 && is_digit s2 && (dot =? ".")%char
    && is_digit h1 && is_digit h2
  | _ => false
  end.

(** The colour of a time of so many hundredths of a second. *)
Definition colour_of_hundredths (t : Z) : str :=
  if (t <=? 6000)%Z then js "#d1ecf1"
  else if (t <=? 6500)%Z then js "#d4edda"
  else if (t <=? 7000)%Z then js "#f9f7e3"
  else if (t <=? 7500)%Z then js "#fff3cd"
  else js "#fdeaea".

(** ** Position tokens *)

(** [a > b] on numbers; a comparison with NaN is false. *)
Definition js_gt (a b : jsnum) : bool :=
  match a, b with
  | NaN, _ | _, NaN => false
  | Inf p, Inf p' => p && negb p'
  | Inf p, Num _ => p
  | Num _, Inf p => negb p
  | Num x, Num y => negb (Qle_bool x y)
  end.

(** [/^(\d+)/] *)
Definition re_leading_digits : regex := seq [Bol; Group 1 (plus digit)].

(** [RaceChartParser.extractPositionFromToken(token)] *)
Definition extractPositionFromToken (token : str) : jsnum :=
  if negb (truthy token) then numN 0
  else
    match exec no_flags re_leading_digits token with
    | None => numN 0
    | Some digitMatch =>
      let digits := match_group digitMatch 1 in
      if str_eqb digits (js "10") then numN 10
      else if str_eqb digits (js "11") && (length token =? 2) then numN 11
      else if str_eqb digits (js "12") && (length token =? 2) then numN 12
      else if length digits <? length token
      then parseInt (char_str (charAt digits 0))
      else if js_gt (parseInt digits) (numN 12)
      then parseInt (char_str (charAt digits 0))
      else parseInt (char_str (charAt digits 0))
    end.
(** ** The horses named in a chart *)

(** [regex.exec(s)] called again and again with the [g] flag, as in
    [while ((match = pattern.exec(s)) !== null)]: the matches in order, each
    searched from where the previous one ended.  (The two patterns so used
    match no empty text; were one to, the loop of the source would not end,
    and the list stops there.) *)
Fixpoint exec_all_from (fuel : nat) (fl : flags) (r : regex) (bef aft : str)
  : list (mstate * mstate) :=
  match fuel with
  | 0 => []
  | S fuel' =>
    match exec_from fl r bef aft with
    | None => []
    | Some (st, e) =>
      (st, e) ::
      (if length (after e) <? length (after st) then
         exec_all_from fuel' fl r (before e) (after e)
       else [])
    end
  end.

Definition exec_all (fl : flags) (r : regex) (s : str) : list (mstate * mstate) :=
  exec_all_from (S (length s)) fl r [] s.

(** [s.split(regex)[1]] for a pattern that matches no empty text: the text
    between the first match and the next one; [None] when there is no match
    ([parts.length < 2]). *)
Definition second_part (fl : flags) (r : regex) (s : str) : option str :=
  match exec fl r s with
  | None => None
  | Some (_, e1) =>
    Some (match exec_from fl r (before e1) (after e1) with
          | None => after e1
          | Some (st2, _) => firstn (length (after e1) - length (after st2)) (after e1)
          end)
  end.

(** [/H\s*Wt/i] *)
Definition re_h_wt : regex := seq [Lit "H"; star space; Lit "W"; Lit "t"].

(** [[A-Z][a-zA-Z']+] *)
Definition re_name_word : regex :=
  seq [Class [CRange "A" "Z"]; plus (Class [CRange "a" "z"; CRange "A" "Z"; CChar "'"])].

(** [[A-Z][a-zA-Z']+(?:\s+[A-Z][a-zA-Z']+)*(?:\s*\([A-Z]{2,3}\))?] *)
Definition re_chart_name : regex :=
  seq [re_name_word;
       star (seq [plus space; re_name_word]);
       opt (seq [star space; Lit "("; between 2 3 (Class [CRange "A" "Z"]); Lit ")"])].

(** [/\n(<name>)\s*(\d+\.\d+)/g] *)
Definition re_horse_odds : regex :=
  seq [Lit "010"; Group 1 re_chart_name; star space;
       Group 2 (seq [plus digit; Lit "."; plus digit])].

(** [/\n(<name>)\n[A-Z][a-z]+\s+[A-Z]/g] *)
Definition re_horse_jockey : regex :=
  seq [Lit "010"; Group 1 re_chart_name; Lit "010";
       Class [CRange "A" "Z"]; plus (Class [CRange "a" "z"]); plus space;
       Class [CRange "A" "Z"]].

(** [/^(Scratches|Horse|Jockey|Trainer|Owner|Pool|Exacta|Trifecta|Super|Daily|Pick|WPS|Omni)/i] *)
Definition re_not_a_horse : regex :=
  seq [Bol; Group 1 (alts [lit "Scratches"; lit "Horse"; lit "Jockey"; lit "Trainer";
                           lit "Owner"; lit "Pool"; lit "Exacta"; lit "Trifecta";
                           lit "Super"; lit "Daily"; lit "Pick"; lit "WPS"; lit "Omni"])].

(** [/^(Scratches|Horse|Jockey|Trainer|Owner|Last|Raced|Fin)/i] *)
Definition re_not_a_horse_alt : regex :=
  seq [Bol; Group 1 (alts [lit "Scratches"; lit "Horse"; lit "Jockey"; lit "Trainer";
                           lit "Owner"; lit "Last"; lit "Raced"; lit "Fin"])].

(** The body of the two [while] loops: the name captured by a match is
    added unless it is short, is a heading, or is there already. *)
Definition add_horse_name (heading : regex) (horses : list str) (m : mstate * mstate)
  : list str :=
  let name := trim (match_group m 1) in
  if (2 <? length name)
     && negb (test flag_i heading name)
     && negb (existsb (fun h => str_eqb (toLowerCase h) (toLowerCase name)) horses)
  then horses ++ [name]
  else horses.

(** [RaceChartParser.findAllHorsesInChart(text)] *)
Definition findAllHorsesInChart (text : str) : list str :=
  match second_part flag_i re_h_wt text with
  | None => []
  | Some raceDataSection =>
    let horses :=
        fold_left (add_horse_name re_not_a_horse)
                  (exec_all no_flags re_horse_odds raceDataSection) [] in
    fold_left (add_horse_name re_not_a_horse_alt)
              (exec_all no_flags re_horse_jockey text) horses
  end.
(** ** The owner shown in the summary *)

(** The look-up of [generateHorseSummary] for a horse of the training data:
    the entry of the mapping under the first key equal to the name up to
    letter case or, failing that, up to what is not a letter or a digit;
    [None] is the empty object it takes when there is none. *)
Definition summary_mapping (horseName : str) (horseMapping : horse_mapping)
  : option HorseData :=
  let horseNameLower := toLowerCase horseName in
  let horseNameStripped := toLowerCase (replace_all no_flags re_non_alnum horseName) in
  let mappingKey :=
      find (fun k => str_eqb (toLowerCase k) horseNameLower) (obj_keys horseMapping) in
  let mappingKey :=
      match mappingKey with
      | Some k =>
        if truthy k then Some k
        else find (fun k => str_eqb (toLowerCase (replace_all no_flags re_non_alnum k))
                                    horseNameStripped)
                  (obj_keys horseMapping)
      | None =>
        find (fun k => str_eqb (toLowerCase (replace_all no_flags re_non_alnum k))
                               horseNameStripped)
             (obj_keys horseMapping)
      end in
  match mappingKey with
  | Some k => if truthy k then obj_get horseMapping k else None
  | None => None
  end.

(** [owner], [country] and [isHistoric] of the row that [generateHorseSummary]
    makes for a horse of the training data ([mapping.owner || ''],
    [mapping.country || ''], [mapping.isHistoric || false]); a horse without
    entries and a placeholder name get no row. *)
Definition summary_ownership (horseName : str) (entries : list row)
           (horseMapping : horse_mapping) : option (str * str * bool) :=
  match entries with
  | [] => None
  | _ :: _ =>
    if array_includes invalidNames (trim (toLowerCase horseName)) then None
    else
      match summary_mapping horseName horseMapping with
      | Some d => Some (owner d, country d, isHistoric d)
      | None => Some ([], [], false)
      end
  end.
(** ** Editing a training entry *)

(** [PUT /api/training/edit], as a function of the stored edits and of what
    [getSession] returns: the edits it stores and the detail data it saves
    to the session, if any; [None] is the answer 400.  The time stamp
    [editedAt] of the stored edit is read nowhere and left out. *)
Definition edit_training (horse date : str) (edit : Edit) (stored : obj Edit)
           (session : option detail_data)
  : option (obj Edit * option detail_data) :=
  if negb (truthy horse) || negb (truthy date) then None
  else
    let edits := stored in
    let editKey := horse ++ js "|" ++ date in
    let edits := obj_set edits editKey edit in
    match session with
    | Some allHorseDetailData =>
      Some (edits, Some (applyTrainingEdits allHorseDetailData edits))
    | None => Some (edits, None)
    end.
(** ** Notes *)

(** [POST /api/notes], as a function of the stored notes: the notes it
    stores; [None] is the answer 400.  The time stamp [createdAt] of a note
    is not part of [Note]: [applyHorseNotes] and the deletion do not read
    it. *)
Definition add_note (horseName date note : str) (stored : obj (list Note))
  : option (obj (list Note)) :=
  if negb (truthy horseName) || negb (truthy date) || negb (truthy note) then None
  else
    let notes := stored in
    (* Initialize array for this horse if needed *)
    let notes := match obj_get notes horseName with
                 | Some _ => notes
                 | None => obj_set notes horseName []
                 end in
    (* Add the new note *)
    Some (obj_set notes horseName
                  (get_or_nil notes horseName
                              ++ [{| note_date := date; note_note := note |}])).

(** [DELETE /api/notes]: the notes stored after the request and the status
    of the answer. *)
Definition delete_note (horseName date : str) (stored : obj (list Note))
  : obj (list Note) * nat :=
  if negb (truthy horseName) || negb (truthy date) then (stored, 400)
  else
    let notes := stored in
    match obj_get notes horseName with
    | None => (notes, 404)
    | Some horseNotes =>
      if length horseNotes =? 0 then (notes, 404)
      else
        (* Filter out the note with the matching date *)
        let originalLength := length horseNotes in
        let kept := filter (fun n => negb (str_eqb (note_date n) date)) horseNotes in
        if length kept =? originalLength then (notes, 404)
        else (obj_set notes horseName kept, 200)
    end.
(** ** Times of a race chart *)

(** The decimal digits of a whole number that is not negative, most
    significant first, in front of [acc]. *)
Fixpoint decimal_digits (fuel : nat) (n : Z) (acc : str) : str :=
  match fuel with
  | 0 => acc
  | S fuel' =>
    let acc' := ascii_of_nat (48 + Z.to_nat (n mod 10)) :: acc in
    if (n / 10 =? 0)%Z then acc' else decimal_digits fuel' (n / 10) acc'
  end.

(** [x.toString()] for NaN, the infinities and the whole numbers that are
    not negative; the source applies it to what [parseInt] makes of a run
    of digits. *)
Definition number_to_string (x : jsnum) : str :=
  match x with
  | NaN => js "NaN"
  | Inf true => js "Infinity"
  | Inf false => js "-Infinity"
  | Num q => decimal_digits (S (Z.to_nat (Z.log2 (Qnum q)))) (Qnum q) []
  end.

(** [s.padStart(n, c)] *)
Definition padStart (s : str) (n : nat) (c : ascii) : str :=
  repeat c (n - length s) ++ s.

(** [/(?:(\d{1,2}):)?(\d{1,2})\.(\d{2})/] *)
Definition re_parse_time : regex :=
  seq [opt (seq [Group 1 (between 1 2 digit); Lit ":"]);
       Group 2 (between 1 2 digit); Lit "."; Group 3 (times 2 digit)].

(** [minutes * 60 + seconds + hundredths / 100], as the exact value: the
    double of the source is the one nearest to it. *)
Definition total_seconds (minutes seconds hundredths : jsnum) : jsnum :=
  js_add (js_add (js_mul minutes (numN 60)) seconds) (js_div hundredths (numN 100)).

Record RaceTime := { display : str; seconds : jsnum }.

(** What [parseTime] returns for a match whose groups are [g1], [g2] and
    [g3] ([[]] for a group that took no part). *)
Definition time_of_match (g1 g2 g3 : str) : RaceTime :=
  let minutes := if truthy g1 then parseInt g1 else numN 0 in
  let seconds := parseInt g2 in
  let hundredths := parseInt g3 in
  let totalSeconds := total_seconds minutes seconds hundredths in
  let display :=
      if js_gt minutes (numN 0)
      then number_to_string minutes ++ js ":"
           ++ padStart (number_to_string seconds) 2 "0" ++ js "."
           ++ padStart (number_to_string hundredths) 2 "0"
      else number_to_string seconds ++ js "."
           ++ padStart (number_to_string hundredths) 2 "0" in
  {| display := display; seconds := totalSeconds |}.

(** [RaceChartParser.parseTime(timeString)]; [None] is [null]. *)
Definition parseTime (timeString : str) : option RaceTime :=
  if negb (truthy timeString) then None
  else
    match exec no_flags re_parse_time timeString with
    | None => None
    | Some m => Some (time_of_match (match_group m 1) (match_group m 2) (match_group m 3))
    end.

(** A time as [parseHorseLineFromResults] collects them
    ([/(\d{1,2}:\d{2}\.\d{2}|\d{2}\.\d{2})/g]). *)
Definition race_time (s : str) : bool :=
  match s with
  | [s1; s2; dot; h1; h2] =>
    is_digit s1 && is_digit s2 && (dot =? ".")%char && is_digit h1 && is_digit h2
  | [m; colon; s1; s2; dot; h1; h2] =>
    is_digit m && (colon =? ":")%char && is_digit s1 && is_digit s2
    && (dot =? ".")%char && is_digit h1 && is_digit h2
  | [m1; m2; colon; s1; s2; dot; h1; h2] =>
    is_digit m1 && is_digit m2 && (colon =? ":")%char && is_digit s1 && is_digit s2
    && (dot =? ".")%char && is_digit h1 && is_digit h2
  | _ => false
  end.
(** ** The type of a training *)

(** [s.replace(regex, by)] with the [g] flag, for a replacement text
    without [$]: every match, found from where the previous one ended, is
    replaced; after an empty match the search moves one character on. *)
Fixpoint replace_all_with_from (fuel : nat) (fl : flags) (r : regex) (by_ : str)
         (bef aft : str) : str :=
  match fuel with
  | 0 => aft
  | S fuel' =>
    match exec_from fl r bef aft with
    | None => aft
    | Some (st, e) =>
      let skipped := firstn (length aft - length (after st)) aft in
      if length (after e) <? length (after st) then
        skipped ++ by_ ++ replace_all_with_from fuel' fl r by_ (before e) (after e)
      else
        match after e with
        | [] => skipped ++ by_
        | c :: rest =>
          skipped ++ by_ ++ c :: replace_all_with_from fuel' fl r by_ (c :: before e) rest
        end
    end
  end.

Definition replace_all_with (fl : flags) (r : regex) (by_ : str) (s : str) : str :=
  replace_all_with_from (S (length s)) fl r by_ [] s.

(** [/breeze/gi] *)
Definition re_breeze : regex := lit "breeze".

(** [transformTrainingType(type)], on a string. *)
Definition transformTrainingType (type : str) : str :=
  if negb (truthy type) then []
  else
    let t := trim (toLowerCase type) in
    (* Clear N/A *)
    if str_eqb t (js "n/a") then []
    (* Gate work variations *)
    else if includes t (js "work g") || includes t (js "work gate")
            || includes t (js "work from the gate")
            || includes t (js "breeze gate") || includes t (js "breeze g")
    then js "Work - G"
    (* Breeze to Work *)
    else if includes t (js "breeze")
    then replace_all_with flag_i re_breeze (js "Work") type
    else type.

(** The text begins with "breeze", in whatever letter case. *)
Definition breeze_here (s : str) : bool := starts_with (js "breeze") (toLowerCase s).

(** "breeze" begins nowhere in the text. *)
Fixpoint no_breeze (s : str) : bool :=
  match s with
  | [] => true
  | _ :: s' => negb (breeze_here s) && no_breeze s'
  end.
(** ** Track abbreviations *)

(** One to three characters, none a small letter. *)
Definition abbreviation_shaped (a : str) : bool :=
  (1 <=? length a) && (length a <=? 3) && str_eqb (toUpperCase a) a.
(** ** Uploading training data *)

(** [POST /api/upload/arioneo], from the rows that [processArioneoCSV] makes
    of the file on, as a function of what [getSession] returns and of the
    stored edits: the detail data that it saves to the session and the
    number [newEntries] of its answer; [None] is the answer 500 of a merge
    that throws.  The mapping, the aliases and the notes, which are taken
    not to throw, bear on what is displayed and not on what is saved. *)
Definition upload_arioneo (sort_rows : list row -> list row) (processedRows : list row)
           (session : option detail_data) (trainingEdits : obj Edit)
  : option (detail_data * Z) :=
  let existingDetailData := match session with Some d => d | None => [] end in
  match mergeTrainingData sort_rows existingDetailData processedRows with
  | None => None
  | Some mergedDetailData =>
    (* [mergeTrainingData] copies the object and not its arrays: the rows of
       a horse of the session have been pushed into the array that the
       existing data holds, and that array has been sorted in place.  When
       the entries are counted, the existing data has the arrays of the
       merged data. *)
    let existingDetailData :=
        map (fun e => (fst e, get_or_nil mergedDetailData (fst e))) existingDetailData in
    let editedDetailData := applyTrainingEdits mergedDetailData trainingEdits in
    let totalEntries := total_rows editedDetailData in
    let previousEntries := total_rows existingDetailData in
    Some (editedDetailData, (Z.of_nat totalEntries - Z.of_nat previousEntries)%Z)
  end.

(** ** The written forms of a distance *)

(** The forms in which a chart writes a distance; digit runs are kept as
    they are written. *)
Inductive distance_form :=
| MixedMiles (w n d : str)               (* "W N/D Mile" *)
| WholeMiles (w : str) (plural : bool)   (* "W Mile", "W Miles" *)
| MixedFurlongs (w n d : str)            (* "W N/D Furlong" *)
| DecimalFurlongs (w f : str)            (* "W.F Furlong" *)
| WholeFurlongs (w : str)                (* "W Furlong" *)
| WordFurlongs (word : str).             (* "Five Furlong" to "Nine Furlong" *)

(** The text of a form, up to the unit. *)
Definition form_text (f : distance_form) : str :=
  match f with
  | MixedMiles w n d => w ++ " " :: n ++ "/" :: d ++ js " Mile"
  | WholeMiles w plural => w ++ js " Mile" ++ (if plural then js "s" else [])
  | MixedFurlongs w n d => w ++ " " :: n ++ "/" :: d ++ js " Furlong"
  | DecimalFurlongs w f => w ++ "." :: f ++ js " Furlong"
  | WholeFurlongs w => w ++ js " Furlong"
  | WordFurlongs word => word ++ js " Furlong"
  end.

(** One to nine digits: a whole number that every step of the computation
    of the source handles exactly. *)
Definition short_number (w : str) : bool :=
  forallb is_digit w && (1 <=? length w) && (length w <=? 9).

(** Halves, quarters, eighths and sixteenths: the denominators that the
    doubles of the source divide by exactly. *)
Definition binary_denominators : list str := [js "2"; js "4"; js "8"; js "16"].

(** Halves and quarters written as decimals. *)
Definition binary_decimals : list str := [js "5"; js "25"; js "75"].

(** The furlong counts that a chart spells out, with their numbers. *)
Definition furlong_words : obj nat :=
  [(js "Five", 5); (js "Six", 6); (js "Seven", 7); (js "Eight", 8); (js "Nine", 9)].

(** The numbers of the form are written as the claim reads them. *)
Definition form_ok (f : distance_form) : bool :=
  match f with
  | MixedMiles w n d | MixedFurlongs w n d =>
    short_number w && short_number n && array_includes binary_denominators d
  | WholeMiles w _ | WholeFurlongs w => short_number w
  | DecimalFurlongs w f => short_number w && array_includes binary_decimals f
  | WordFurlongs word => array_includes (obj_keys furlong_words) word
  end.

(** What may follow the form: whole miles are read when a blank or the end
    of the text follows. *)
Definition tail_ok (f : distance_form) (tail : str) : bool :=
  match f with
  | WholeMiles _ _ => match tail with [] => true | c :: _ => is_space c end
  | _ => true
  end.

(** The patterns of [extractRaceMetadata] for the distance, in the order in
    which it tries them. *)
Definition distance_patterns : list regex :=
  [re_miles_fraction; re_miles_whole; re_furlongs_fraction; re_furlongs_decimal;
   re_furlongs_word].

(** The place in that order of the pattern that reads the form. *)
Definition form_rank (f : distance_form) : nat :=
  match f with
  | MixedMiles _ _ _ => 0
  | WholeMiles _ _ => 1
  | MixedFurlongs _ _ _ => 2
  | DecimalFurlongs _ _ | WholeFurlongs _ => 3
  | WordFurlongs _ => 4
  end.

(** No pattern tried before the one of the form matches the text. *)
Definition earlier_silent (f : distance_form) (text : str) : bool :=
  forallb (fun r => negb (test flag_i r text)) (firstn (form_rank f) distance_patterns).

(** The number of furlongs that the form writes: miles times 8. *)
Definition form_furlongs (f : distance_form) : jsnum :=
  match f with
  | MixedMiles w n d =>
    Num (Qred ((inject_Z (digits_value w)
                + (digits_value n # Z.to_pos (digits_value d))) * 8))
  | WholeMiles w _ => numZ (digits_value w * 8)
  | MixedFurlongs w n d =>
    Num (Qred (inject_Z (digits_value w)
               + (digits_value n # Z.to_pos (digits_value d))))
  | DecimalFurlongs w f =>
    Num (Qred (inject_Z (digits_value w)
               + (digits_value f # Z.to_pos (10 ^ Z.of_nat (length f)))))
  | WholeFurlongs w => numZ (digits_value w)
  | WordFurlongs word =>
    match obj_get furlong_words word with
    | Some n => numN n
    | None => NaN
    end
  end.

(** The pattern of [extractRaceMetadata] that reads the form. *)
Definition form_pattern (f : distance_form) : regex :=
  nth (form_rank f) distance_patterns Eps.

(** The pattern matches at no place of [pre], the part of the text
    [pre ++ rest] that has [bef] (in reverse) before it. *)
Fixpoint silent_before (r : regex) (bef pre rest : str) : bool :=
  match pre with
  | [] => true
  | c :: pre' =>
    match run flag_i r {| before := bef; after := pre ++ rest; caps := [] |} with
    | [] => silent_before r (c :: bef) pre' rest
    | _ :: _ => false
    end
  end.

(** The characters of the text are 7-bit ASCII. *)
Definition ascii_text (s : str) : bool := forallb (fun c => code c <? 128) s.

(** ** Scenarios used in the statements *)

(** A merge followed by a rename of the merged spelling. *)
Definition ginger_ops : list operation :=
  [Merge (js "Ginger Punch 22") [js "Ginger Punch"];
   Rename (js "Ginger Punch") (js "Ginger Punch (IRE)")].

Definition horse_with_aliases (al : list str) : HorseData :=
  {| owner := []; country := []; isHistoric := false; aliases := Some al |}.

(** Three spellings of one horse registered as three entries, before
    "Ginger Punch" is merged into "2022 Ginger Punch". *)
Definition ginger_three : horse_mapping :=
  [(js "Ginger Punch 22", blank_horse);
   (js "2022 Ginger Punch", blank_horse);
   (js "Ginger Punch", blank_horse)].

Definition ginger_merged : horse_mapping :=
  apply_operation ginger_three (Merge (js "2022 Ginger Punch") [js "Ginger Punch"]).

(** A row of the results table in which the row of the next horse has run
    into the row of "Paradise". *)
Definition paradise_row : str :=
  js "Paradise3.80brkout,3-5p,kpt at bay23.1246.19$24,0001011:11.077422Ontario6.15chased23.5047.01$8,0001021:12.553311".

(** Two canonical entries whose names differ only in where the year is
    written. *)
Definition ginger_two_entries : horse_mapping :=
  [(js "Ginger Punch 22", blank_horse); (js "2022 Ginger Punch", blank_horse)].
(** * Proofs *)

(** ** Position digit disambiguator *)

Example parsePositions_1111 :
  parsePositions (js "1111") 4 = [numN 1; numN 1; numN 1; numN 1].
Proof. reflexivity. Qed.

Example parsePositions_109765 :
  parsePositions (js "109765") 5 = [numN 10; numN 9; numN 7; numN 6; numN 5].
Proof. reflexivity. Qed.

Example parsePositions_119765 :
  parsePositions (js "119765") 5 = [numN 11; numN 9; numN 7; numN 6; numN 5].
Proof. reflexivity. Qed.

Example parsePositions_12865 :
  parsePositions (js "12865") 5 = [numN 1; numN 2; numN 8; numN 6; numN 5].
Proof. reflexivity. Qed.

Lemma charAt_app_here (pre suf : str) :
  charAt (pre ++ suf) (length pre) = hd_error suf.
Proof.
  unfold charAt. induction pre as [|x pre IH]; simpl.
  - destruct suf; reflexivity.
  - exact IH.
Qed.

Lemma charAt_app_next (pre : str) (c : ascii) (tl : str) :
  charAt (pre ++ c :: tl) (length pre + 1) = hd_error tl.
Proof.
  replace (pre ++ c :: tl) with ((pre ++ [c]) ++ tl) by (rewrite <- app_assoc; reflexivity).
  replace (length pre + 1) with (length (pre ++ [c])) by (rewrite length_app; reflexivity).
  apply charAt_app_here.
Qed.

Lemma substring_app_two (pre : str) (c d : ascii) (rest : str) :
  substring (pre ++ c :: d :: rest) (length pre) (length pre + 2) = [c; d].
Proof.
  unfold substring.
  replace (length pre + 2 - length pre) with 2 by lia.
  rewrite skipn_app, skipn_all, Nat.sub_diag. reflexivity.
Qed.

(** The loop, started at index [length pre] with enough fuel for the rest of
    the run, appends to [positions] what the left-to-right scan of the rest
    yields. *)
Lemma parsePositions_loop_scan (expectedCount : nat) :
  forall (fuel : nat) (pre suf : str) (positions : list jsnum),
    length suf <= fuel ->
    parsePositions_loop fuel (pre ++ suf) expectedCount (length pre) positions
    = positions
      ++ scan_positions ((expectedCount =? 0)
                         || (expectedCount <? length (pre ++ suf))) suf.
Proof.
  induction fuel as [|fuel IH]; intros pre suf positions Hlen.
  - destruct suf; [|simpl in Hlen; lia]. simpl. now rewrite app_nil_r.
  - destruct suf as [|c tl].
    + simpl. rewrite app_nil_r, Nat.ltb_irrefl. now rewrite app_nil_r.
    + cbn [parsePositions_loop].
      assert (Hin : (length pre <? length (pre ++ c :: tl)) = true).
      { apply Nat.ltb_lt. rewrite length_app. simpl. lia. }
      rewrite Hin, charAt_app_here, charAt_app_next. cbn [hd_error char_is char_str].
      assert (Hnext : (length pre + 1 <? length (pre ++ c :: tl))
                      = match tl with [] => false | _ => true end).
      { rewrite length_app. destruct tl; simpl.
        - apply Nat.ltb_ge. lia.
        - apply Nat.ltb_lt. lia. }
      rewrite Hnext.
      set (longer := (expectedCount =? 0) || (expectedCount <? length (pre ++ c :: tl))).
      assert (Hstep1 : pre ++ c :: tl = (pre ++ [c]) ++ tl)
        by (rewrite <- app_assoc; reflexivity).
      assert (Hlen1 : length pre + 1 = length (pre ++ [c]))
        by (rewrite length_app; reflexivity).
      destruct tl as [|d rest].
      * cbn [hd_error char_is scan_positions].
        rewrite !andb_false_r. cbn [andb].
        rewrite Hstep1, Hlen1, IH by (simpl; lia).
        simpl. now rewrite app_nil_r.
      * cbn [hd_error char_is scan_positions].
        rewrite !andb_true_r.
        assert (Hstep2 : pre ++ c :: d :: rest = (pre ++ [c; d]) ++ rest)
          by (rewrite <- app_assoc; reflexivity).
        assert (Hlen2 : length pre + 2 = length (pre ++ [c; d]))
          by (rewrite length_app; reflexivity).
        destruct ((c =? "1")%char && (d =? "0")%char) eqn:E10.
        { rewrite Hstep2 at 1. rewrite Hlen2, IH by (simpl in *; lia).
          rewrite <- Hstep2. fold longer. rewrite <- app_assoc. reflexivity. }
        destruct ((c =? "1")%char && ((d =? "1")%char || (d =? "2")%char) && longer)
          eqn:E1x.
        { rewrite substring_app_two.
          rewrite Hstep2 at 1. rewrite Hlen2, IH by (simpl in *; lia).
          rewrite <- Hstep2. fold longer. rewrite <- app_assoc. reflexivity. }
        { rewrite Hstep1 at 1. rewrite Hlen1, IH by (simpl in *; lia).
          rewrite <- Hstep1. fold longer. rewrite <- app_assoc. reflexivity. }
Qed.

Lemma parsePositions_loop_from_start (digitsStr : str) (expectedCount fuel : nat) :
  length digitsStr <= fuel ->
  parsePositions_loop fuel digitsStr expectedCount 0 []
  = scan_positions ((expectedCount =? 0) || (expectedCount <? length digitsStr))
                   digitsStr.
Proof.
  intro H. exact (parsePositions_loop_scan expectedCount fuel [] digitsStr [] H).
Qed.

(** More fuel than the length of the run changes nothing: the [while] loop
    has ended by then. *)
Lemma parsePositions_loop_fuel (digitsStr : str) (expectedCount fuel : nat) :
  length digitsStr <= fuel ->
  parsePositions_loop fuel digitsStr expectedCount 0 []
  = parsePositions_loop (length digitsStr) digitsStr expectedCount 0 [].
Proof.
  intro H.
  rewrite (parsePositions_loop_from_start _ _ _ H).
  now rewrite (parsePositions_loop_from_start _ _ _ (le_n _)).
Qed.

Lemma parsePositions_disambiguate (digitsStr : str) (expectedCount : nat) :
  parsePositions digitsStr expectedCount = disambiguate digitsStr expectedCount.
Proof.
  unfold parsePositions, disambiguate.
  rewrite (parsePositions_loop_from_start _ _ _ (le_n _)).
  destruct (length digitsStr =? expectedCount) eqn:Elen.
  - apply Nat.eqb_eq in Elen.
    destruct (0 <? expectedCount) eqn:Epos; cbn [andb]; [reflexivity|].
    apply Nat.ltb_ge in Epos.
    destruct digitsStr; [reflexivity | simpl in Elen; lia].
  - rewrite andb_false_r. apply Nat.eqb_neq in Elen.
    destruct (expectedCount =? 0) eqn:E0; cbn [orb]; [|reflexivity].
    apply Nat.eqb_eq in E0.
    replace (expectedCount <? length digitsStr) with true; [reflexivity|].
    symmetry. apply Nat.ltb_lt. lia.
Qed.

(** C1.  [parsePositions] gives the four readings of the specification, and
    on every run and every expected count it is the rule of the
    specification: singles when the length equals the count, otherwise the
    left-to-right scan in which "10" is always one position and "11"/"12"
    are one position exactly when the run is longer than the count. *)
Theorem parsePositions_spec :
  parsePositions (js "1111") 4 = [numN 1; numN 1; numN 1; numN 1]
  /\ parsePositions (js "109765") 5 = [numN 10; numN 9; numN 7; numN 6; numN 5]
  /\ parsePositions (js "119765") 5 = [numN 11; numN 9; numN 7; numN 6; numN 5]
  /\ parsePositions (js "12865") 5 = [numN 1; numN 2; numN 8; numN 6; numN 5]
  /\ (forall (digitsStr : str) (expectedCount : nat),
         parsePositions digitsStr expectedCount
         = if length digitsStr =? expectedCount
           then map (fun d => parseInt [d]) digitsStr
           else scan_positions (expectedCount <? length digitsStr) digitsStr).
Proof.
  repeat split; try reflexivity.
  intros. apply parsePositions_disambiguate.
Qed.

(** ** Sanity checks of the matcher *)

Example run_greedy_then_backtrack :
  option_map match_text
    (exec no_flags (seq [plus (Class [CRange "a" "z"]); lit "b"]) (js "xaabab!"))
  = Some (js "xaabab").
Proof. reflexivity. Qed.

Example run_lazy :
  option_map match_text
    (exec no_flags (seq [lazy_plus (Class [CRange "a" "z"]); lit "b"]) (js "xaabab!"))
  = Some (js "xaab").
Proof. reflexivity. Qed.

Example replace_all_nonletters :
  replace_all no_flags (NotClass letters) (js "2022 Ginger Punch") = js "GingerPunch".
Proof. reflexivity. Qed.

(** ** Horse identity resolver *)

Example normalize_year_first :
  normalizeHorseNameForMatch (js "2022 Ginger Punch") = js "gingerpunch22".
Proof. reflexivity. Qed.

Example normalize_year_last :
  normalizeHorseNameForMatch (js "GINGER PUNCH 22") = js "gingerpunch22".
Proof. reflexivity. Qed.

Example format_year_first :
  formatHorseNameForDisplay (js "2022 Stoweshoe") = js "STOWESHOE 22".
Proof. reflexivity. Qed.

Example format_year_quote :
  formatHorseNameForDisplay (js "23' GINGER PUNCH") = js "GINGER PUNCH 23".
Proof. reflexivity. Qed.

Example format_2015 :
  formatHorseNameForDisplay (js "2015 Foo") = js "FOO 20".
Proof. reflexivity. Qed.

(** ** Dictionaries *)

Lemma str_eqb_eq (a b : str) : str_eqb a b = true <-> a = b.
Proof.
  revert b. induction a as [|x a IH]; destruct b as [|y b]; simpl;
    try (split; [discriminate | discriminate]); try tauto.
  rewrite andb_true_iff, Ascii.eqb_eq, IH.
  split; [intros [-> ->]; reflexivity | intros [= -> ->]; auto].
Qed.

Lemma str_eqb_refl (a : str) : str_eqb a a = true.
Proof. now apply str_eqb_eq. Qed.

Lemma str_eqb_neq (a b : str) : str_eqb a b = false <-> a <> b.
Proof.
  destruct (str_eqb a b) eqn:E.
  - apply str_eqb_eq in E. split; [discriminate | tauto].
  - split; [|reflexivity]. intros _ H. apply str_eqb_eq in H. congruence.
Qed.

Lemma array_includes_In (xs : list str) (x : str) :
  array_includes xs x = true <-> In x xs.
Proof.
  unfold array_includes. rewrite existsb_exists. split.
  - intros (y & Hy & E). apply str_eqb_eq in E. now subst.
  - intro H. exists x. split; [assumption | apply str_eqb_refl].
Qed.

Section ObjectLemmas.
Context {V : Type}.
Implicit Types (o : obj V) (k : str) (v : V).

Lemma obj_get_In o k v : obj_get o k = Some v -> In (k, v) o.
Proof.
  induction o as [|[k' v'] o IH]; simpl; [discriminate|].
  destruct (str_eqb k' k) eqn:E.
  - apply str_eqb_eq in E. intros [= ->]. left. now subst.
  - intro H. right. auto.
Qed.

Lemma obj_get_None o k : obj_get o k = None <-> ~ In k (obj_keys o).
Proof.
  induction o as [|[k' v'] o IH]; simpl; [tauto|].
  destruct (str_eqb k' k) eqn:E.
  - apply str_eqb_eq in E. split; [discriminate | intro H; exfalso; auto].
  - apply str_eqb_neq in E. rewrite IH. tauto.
Qed.

Lemma In_obj_keys o k v : In (k, v) o -> In k (obj_keys o).
Proof. intro H. apply (in_map fst) in H. exact H. Qed.

Lemma In_obj_get o k v : well_keyed o -> In (k, v) o -> obj_get o k = Some v.
Proof.
  unfold well_keyed.
  induction o as [|[k' v'] o IH]; simpl; [tauto|].
  intros Hnd [H|H].
  - injection H as -> ->. now rewrite str_eqb_refl.
  - inversion Hnd as [|? ? Hnot Hnd']; subst.
    destruct (str_eqb k' k) eqn:E.
    + apply str_eqb_eq in E. subst. exfalso. apply Hnot.
      eapply In_obj_keys; eauto.
    + auto.
Qed.

Lemma obj_keys_set o k v :
  obj_keys (obj_set o k v)
  = if existsb (str_eqb k) (obj_keys o) then obj_keys o else obj_keys o ++ [k].
Proof.
  induction o as [|[k' v'] o IH]; simpl; [reflexivity|].
  destruct (str_eqb k' k) eqn:E.
  - apply str_eqb_eq in E. subst. now rewrite str_eqb_refl.
  - assert (E' : str_eqb k k' = false).
    { apply str_eqb_neq. apply str_eqb_neq in E. congruence. }
    rewrite E'. simpl. rewrite IH.
    now destruct (existsb (str_eqb k) (obj_keys o)).
Qed.

Lemma well_keyed_set o k v : well_keyed o -> well_keyed (obj_set o k v).
Proof.
  unfold well_keyed. intro H. rewrite obj_keys_set.
  destruct (existsb (str_eqb k) (obj_keys o)) eqn:E; [assumption|].
  apply NoDup_app; [assumption | repeat constructor; auto |].
  intros x Hx [Hk|[]]. subst x.
  enough (existsb (str_eqb k) (obj_keys o) = true) by congruence.
  apply existsb_exists. exists k. split; [assumption | apply str_eqb_refl].
Qed.

Lemma In_obj_set o k v k' v' :
  well_keyed o ->
  In (k', v') (obj_set o k v)
  <-> (k' = k /\ v' = v) \/ (k' <> k /\ In (k', v') o).
Proof.
  unfold well_keyed.
  induction o as [|[k0 v0] o IH]; simpl; intro Hnd.
  - split.
    + intros [[= <- <-]|[]]. now left.
    + intros [[-> ->]|[_ []]]. now left.
  - inversion Hnd as [|? ? Hnot Hnd']; subst.
    destruct (str_eqb k0 k) eqn:E.
    + apply str_eqb_eq in E. subst k0. simpl. split.
      * intros [[= <- <-]|H]; [now left|].
        right. split; [|now right].
        intros ->. apply Hnot. eapply In_obj_keys; eauto.
      * intros [[-> ->]|[Hne [[= <- <-]|H]]]; [now left | congruence | now right].
    + apply str_eqb_neq in E. simpl. rewrite (IH Hnd'). split.
      * intros [[= <- <-]|[H|[Hne H]]]; [right; split; [congruence | now left] | now left |].
        right. split; [assumption | now right].
      * intros [H|[Hne [[= <- <-]|H]]]; [right; now left | now left |].
        right. right. now split.
Qed.

Lemma obj_get_set_same o k v : obj_get (obj_set o k v) k = Some v.
Proof.
  induction o as [|[k0 v0] o IH]; simpl.
  - now rewrite str_eqb_refl.
  - destruct (str_eqb k0 k) eqn:E; simpl; now rewrite E.
Qed.

Lemma obj_get_set_other o k v k' :
  k' <> k -> obj_get (obj_set o k v) k' = obj_get o k'.
Proof.
  intro Hne. induction o as [|[k0 v0] o IH]; simpl.
  - assert (E : str_eqb k k' = false) by (apply str_eqb_neq; congruence).
    now rewrite E.
  - destruct (str_eqb k0 k) eqn:E; simpl.
    + apply str_eqb_eq in E. subst k0.
      assert (E : str_eqb k k' = false) by (apply str_eqb_neq; congruence).
      now rewrite E.
    + now rewrite IH.
Qed.

Lemma In_obj_delete o k k' v' :
  In (k', v') (obj_delete o k) <-> k' <> k /\ In (k', v') o.
Proof.
  induction o as [|[k0 v0] o IH]; simpl; [tauto|].
  destruct (str_eqb k0 k) eqn:E.
  - apply str_eqb_eq in E. subst k0. rewrite IH. split.
    + intros [? ?]. auto.
    + intros [Hne [[= <- <-]|H]]; [congruence | auto].
  - apply str_eqb_neq in E. simpl. rewrite IH. split.
    + intros [[= <- <-]|[? ?]]; auto.
    + intros [Hne [H|H]]; auto.
Qed.

Lemma obj_get_delete_other o k k' :
  k' <> k -> obj_get (obj_delete o k) k' = obj_get o k'.
Proof.
  intro Hne. induction o as [|[k0 v0] o IH]; simpl; [reflexivity|].
  destruct (str_eqb k0 k) eqn:E; simpl.
  - apply str_eqb_eq in E. subst k0.
    assert (E : str_eqb k k' = false) by (apply str_eqb_neq; congruence).
    now rewrite E.
  - now rewrite IH.
Qed.

Lemma well_keyed_delete o k : well_keyed o -> well_keyed (obj_delete o k).
Proof.
  unfold well_keyed.
  induction o as [|[k0 v0] o IH]; simpl; [auto|].
  intro Hnd. inversion Hnd as [|? ? Hnot Hnd']; subst.
  destruct (str_eqb k0 k); [auto|].
  simpl. constructor; [|auto].
  intro H. apply Hnot. apply in_map_iff in H. destruct H as [[k1 v1] [<- H]].
  apply In_obj_delete in H. simpl. eapply In_obj_keys. apply H.
Qed.
End ObjectLemmas.

(** ** The alias graph *)

Lemma has_alias_owns (d : HorseData) (a : str) : has_alias d a = true <-> owns d a.
Proof.
  unfold has_alias, owns. destruct (aliases d) as [al|].
  - rewrite array_includes_In. split.
    + intro H. now exists al.
    + intros (al' & [= <-] & H). exact H.
  - split; [discriminate | intros (al' & [=] & _)].
Qed.

(** Replacing the alias set of one entry (and dropping other entries) keeps
    the partition as long as the new aliases are owned by nobody else. *)
Lemma alias_partition_update (P : str) (nl : list str) (m m' : horse_mapping) :
  alias_partition m ->
  (forall k d, In (k, d) m' ->
               (k = P /\ aliases d = Some nl) \/ (k <> P /\ In (k, d) m)) ->
  (forall x k d, In x nl -> In (k, d) m' -> k <> P -> ~ owns d x) ->
  alias_partition m'.
Proof.
  intros Hpart Hent Hnew k1 d1 k2 d2 a H1 H2 O1 O2.
  destruct (Hent _ _ H1) as [[-> A1]|[N1 I1]], (Hent _ _ H2) as [[-> A2]|[N2 I2]].
  - reflexivity.
  - exfalso. destruct O1 as (al & E & Hin). rewrite A1 in E. injection E as <-.
    exact (Hnew a k2 d2 Hin H2 N2 O2).
  - exfalso. destruct O2 as (al & E & Hin). rewrite A2 in E. injection E as <-.
    exact (Hnew a k1 d1 Hin H1 N1 O1).
  - eapply Hpart; eauto.
Qed.

Lemma aliases_copy_owner_country (p a : HorseData) :
  aliases (let p1 := if negb (truthy (owner p)) && truthy (owner a)
                     then with_owner p (owner a) else p in
           if negb (truthy (country p1)) && truthy (country a)
           then with_country p1 (country a) else p1)
  = aliases p.
Proof.
  cbv zeta.
  destruct (negb (truthy (owner p)) && truthy (owner a));
    match goal with |- context [if ?b then _ else _] => destruct b end; reflexivity.
Qed.

Lemma absorb_entry_preserves (P a : str) (m : horse_mapping) :
  well_keyed m -> alias_partition m -> primary_ready P m -> a <> P ->
  exists m1,
    absorb_entry P m a = Some m1
    /\ well_keyed m1 /\ alias_partition m1 /\ primary_ready P m1
    /\ (forall k d, In (k, d) m1 -> k <> P -> In (k, d) m).
Proof.
  intros Hwf Hpart (p & pl & Gp & Ap) Hne.
  unfold absorb_entry. destruct (obj_get m a) as [ad|] eqn:Ga.
  2:{ exists m. repeat split; auto. now exists p, pl. }
  rewrite Gp.
  pose proof (aliases_copy_owner_country p ad) as Hal. cbv zeta in Hal.
  set (p2 := if negb (truthy (country _)) && _ then _ else _) in *.
  rewrite Ap in Hal. rewrite Hal.
  assert (Hold : forall x k d, In x pl -> In (k, d) m -> k <> P -> ~ owns d x).
  { intros x k d Hx Hk HkP Hown. apply HkP. symmetry.
    eapply (Hpart P p k d x); eauto using obj_get_In. now exists pl. }
  destruct (aliases ad) as [al|] eqn:Aad.
  - eexists. split; [reflexivity|].
    split; [apply well_keyed_delete, well_keyed_set, Hwf|].
    assert (Hent : forall k d,
               In (k, d) (obj_delete (obj_set m P (with_aliases p2 (Some (pl ++ al)))) a) ->
               (k = P /\ aliases d = Some (pl ++ al)) \/ (k <> P /\ k <> a /\ In (k, d) m)).
    { intros k d H. apply In_obj_delete in H. destruct H as [Hka H].
      apply In_obj_set in H; [|exact Hwf].
      destruct H as [[-> ->]|[HkP H]]; [left; split; reflexivity | right; auto]. }
    split; [|split].
    + eapply (alias_partition_update P (pl ++ al) m); [exact Hpart | |].
      * intros k d H. destruct (Hent k d H) as [?|(? & ? & ?)]; auto.
      * intros x k d Hx H HkP Hown.
        destruct (Hent k d H) as [[? _]|(_ & Hka & Hin)]; [contradiction|].
        apply in_app_or in Hx. destruct Hx as [Hx|Hx].
        -- exact (Hold x k d Hx Hin HkP Hown).
        -- apply Hka. symmetry.
           eapply (Hpart a ad k d x); eauto using obj_get_In. now exists al.
    + exists (with_aliases p2 (Some (pl ++ al))), (pl ++ al). split; [|reflexivity].
      rewrite obj_get_delete_other by congruence. apply obj_get_set_same.
    + intros k d H HkP. destruct (Hent k d H) as [[? _]|(_ & _ & Hin)]; tauto.
  - eexists. split; [reflexivity|].
    split; [apply well_keyed_delete, well_keyed_set, Hwf|].
    assert (Hent : forall k d,
               In (k, d) (obj_delete (obj_set m P p2) a) ->
               (k = P /\ aliases d = Some pl) \/ (k <> P /\ k <> a /\ In (k, d) m)).
    { intros k d H. apply In_obj_delete in H. destruct H as [Hka H].
      apply In_obj_set in H; [|exact Hwf].
      destruct H as [[-> ->]|[HkP H]]; [left; split; [reflexivity | exact Hal] | right; auto]. }
    split; [|split].
    + eapply (alias_partition_update P pl m); [exact Hpart | |].
      * intros k d H. destruct (Hent k d H) as [?|(? & ? & ?)]; auto.
      * intros x k d Hx H HkP Hown.
        destruct (Hent k d H) as [[? _]|(_ & Hka & Hin)]; [contradiction|].
        exact (Hold x k d Hx Hin HkP Hown).
    + exists p2, pl. split; [|exact Hal].
      rewrite obj_get_delete_other by congruence. apply obj_get_set_same.
    + intros k d H HkP. destruct (Hent k d H) as [[? _]|(_ & _ & Hin)]; tauto.
Qed.

Lemma add_alias_preserves (P a : str) (m : horse_mapping) :
  well_keyed m -> alias_partition m -> primary_ready P m ->
  (forall k d, In (k, d) m -> k <> P -> ~ owns d a) ->
  exists m',
    add_alias P m a = Some m'
    /\ well_keyed m' /\ alias_partition m' /\ primary_ready P m'.
Proof.
  intros Hwf Hpart (p & pl & Gp & Ap) Hfree.
  unfold add_alias. rewrite Gp, Ap.
  destruct (array_includes pl a) eqn:Einc.
  - exists m. repeat split; auto. now exists p, pl.
  - eexists. split; [reflexivity|].
    split; [apply well_keyed_set, Hwf|]. split.
    + eapply (alias_partition_update P (pl ++ [a]) m); [exact Hpart | |].
      * intros k d H. apply In_obj_set in H; [|exact Hwf].
        destruct H as [[-> ->]|[HkP H]]; [left; split; reflexivity | right; auto].
      * intros x k d Hx H HkP Hown.
        apply In_obj_set in H; [|exact Hwf].
        destruct H as [[? _]|[_ Hin]]; [contradiction|].
        apply in_app_or in Hx. destruct Hx as [Hx|[<-|[]]].
        -- apply HkP. symmetry.
           eapply (Hpart P p k d x); eauto using obj_get_In. now exists pl.
        -- exact (Hfree k d Hin HkP Hown).
    + exists (with_aliases p (Some (pl ++ [a]))), (pl ++ [a]).
      split; [apply obj_get_set_same | reflexivity].
Qed.

Lemma merge_step_preserves (P a : str) (m : horse_mapping) :
  well_keyed m -> alias_partition m -> primary_ready P m ->
  exists m',
    merge_step P m a = Some m'
    /\ well_keyed m' /\ alias_partition m' /\ primary_ready P m'.
Proof.
  intros Hwf Hpart Hready. unfold merge_step.
  destruct (str_eqb a P) eqn:EaP; [exists m; auto|].
  apply str_eqb_neq in EaP.
  destruct (existsb _ m) eqn:Eused; [exists m; auto|].
  assert (Hfree : forall k d, In (k, d) m -> k <> P -> ~ owns d a).
  { intros k d Hin HkP Hown.
    enough (existsb (fun e => negb (str_eqb (fst e) P) && has_alias (snd e) a) m = true)
      by congruence.
    apply existsb_exists. exists (k, d). split; [assumption|]. simpl.
    apply andb_true_iff. split.
    - apply negb_true_iff, str_eqb_neq, HkP.
    - now apply has_alias_owns. }
  destruct (absorb_entry_preserves P a m Hwf Hpart Hready EaP)
    as (m1 & -> & Hwf1 & Hpart1 & Hready1 & Hsub).
  apply add_alias_preserves; auto.
  intros k d Hin HkP. apply (Hfree k d); auto.
Qed.

(** The loop of the merge handler never raises and keeps the invariant. *)
Lemma merge_loop_succeeds (P : str) (aliasNames : list str) :
  forall m,
    well_keyed m -> alias_partition m -> primary_ready P m ->
    exists m',
      merge_loop P m aliasNames = Some m'
      /\ well_keyed m' /\ alias_partition m' /\ primary_ready P m'.
Proof.
  induction aliasNames as [|a rest IH]; intros m Hwf Hpart Hready; simpl.
  - exists m. auto.
  - destruct (merge_step_preserves P a m Hwf Hpart Hready)
      as (m1 & -> & Hwf1 & Hpart1 & Hready1).
    apply IH; assumption.
Qed.

(** Entries whose alias sets only shrink keep the partition. *)
Lemma alias_partition_shrink (m m' : horse_mapping) :
  alias_partition m ->
  (forall k d, In (k, d) m' ->
               (forall x, ~ owns d x)
               \/ exists d0, In (k, d0) m /\ forall x, owns d x -> owns d0 x) ->
  alias_partition m'.
Proof.
  intros Hpart Hent k1 d1 k2 d2 a H1 H2 O1 O2.
  destruct (Hent _ _ H1) as [N1|(e1 & I1 & S1)]; [exfalso; exact (N1 a O1)|].
  destruct (Hent _ _ H2) as [N2|(e2 & I2 & S2)]; [exfalso; exact (N2 a O2)|].
  exact (Hpart k1 e1 k2 e2 a I1 I2 (S1 a O1) (S2 a O2)).
Qed.

Lemma owns_blank (x : str) : ~ owns blank_horse x.
Proof. intros (al & [= <-] & []). Qed.

Lemma merge_horses_preserves (primaryName : str) (aliasNames : list str)
      (stored : horse_mapping) :
  well_keyed stored -> alias_partition stored ->
  match merge_horses primaryName aliasNames stored with
  | Stored m => well_keyed m /\ alias_partition m
  | Refused status => status = 400
  end.
Proof.
  intros Hwf Hpart. unfold merge_horses.
  destruct (negb (truthy primaryName) || (length aliasNames =? 0)); [reflexivity|].
  set (m1 := match obj_get stored primaryName with
             | Some _ => stored
             | None => obj_set stored primaryName blank_horse
             end).
  assert (H1 : well_keyed m1 /\ alias_partition m1
               /\ exists p, obj_get m1 primaryName = Some p).
  { subst m1. destruct (obj_get stored primaryName) as [p|] eqn:G.
    - repeat split; auto. now exists p.
    - split; [apply well_keyed_set, Hwf|]. split.
      + apply (alias_partition_shrink stored); [exact Hpart|].
        intros k d H. apply In_obj_set in H; [|exact Hwf].
        destruct H as [[-> ->]|[_ H]].
        * left. apply owns_blank.
        * right. exists d. auto.
      + exists blank_horse. apply obj_get_set_same. }
  destruct H1 as (Hwf1 & Hpart1 & p & Gp). rewrite Gp.
  set (m2 := match aliases p with
             | Some _ => m1
             | None => obj_set m1 primaryName (with_aliases p (Some []))
             end).
  assert (H2 : well_keyed m2 /\ alias_partition m2 /\ primary_ready primaryName m2).
  { subst m2. destruct (aliases p) as [pl|] eqn:Ap.
    - repeat split; auto. now exists p, pl.
    - split; [apply well_keyed_set, Hwf1|]. split.
      + apply (alias_partition_shrink m1); [exact Hpart1|].
        intros k d H. apply In_obj_set in H; [|exact Hwf1].
        destruct H as [[-> ->]|[_ H]].
        * left. intros x (al & [= <-] & []).
        * right. exists d. auto.
      + exists (with_aliases p (Some [])), []. split; [apply obj_get_set_same | reflexivity]. }
  destruct H2 as (Hwf2 & Hpart2 & Hready2).
  destruct (merge_loop_succeeds primaryName aliasNames m2 Hwf2 Hpart2 Hready2)
    as (m' & -> & Hwf' & Hpart' & _).
  auto.
Qed.

Lemma unmerge_horse_preserves (primaryName aliasName : str) (stored : horse_mapping) :
  well_keyed stored -> alias_partition stored ->
  match unmerge_horse primaryName aliasName stored with
  | Stored m => well_keyed m /\ alias_partition m
  | Refused _ => True
  end.
Proof.
  intros Hwf Hpart. unfold unmerge_horse.
  destruct (negb (truthy primaryName) || negb (truthy aliasName)); [exact I|].
  destruct (obj_get stored primaryName) as [p|] eqn:Gp; [|exact I].
  destruct (aliases p) as [pl|] eqn:Ap; [|exact I].
  destruct (negb (array_includes pl aliasName)); [exact I|].
  split; [apply well_keyed_set, well_keyed_set, Hwf|].
  apply (alias_partition_shrink stored); [exact Hpart|].
  intros k d H.
  apply In_obj_set in H; [|apply well_keyed_set, Hwf].
  destruct H as [[-> ->]|[_ H]]; [left; apply owns_blank|].
  apply In_obj_set in H; [|exact Hwf].
  destruct H as [[-> ->]|[_ H]].
  - right. exists p. split; [eauto using obj_get_In|].
    intros x (al & [= <-] & Hx). exists pl. split; [assumption|].
    apply filter_In in Hx. tauto.
  - right. exists d. auto.
Qed.

Lemma rename_horse_well_keyed (oldName newName : str) (stored : horse_mapping) :
  well_keyed stored ->
  match rename_horse oldName newName stored with
  | Stored m => well_keyed m
  | Refused _ => True
  end.
Proof.
  intro Hwf. unfold rename_horse.
  repeat match goal with
         | |- context [if ?b then Refused _ else _] => destruct b; [exact I|]
         end.
  cbv zeta.
  match goal with
  | |- context [match ?k with Some k0 => obj_delete _ k0 | None => _ end] => destruct k
  end; [apply well_keyed_delete|]; apply well_keyed_set, Hwf.
Qed.

(** Merge and unmerge keep the alias partition. *)
Lemma merge_unmerge_preserve_partition (op : operation) (stored : horse_mapping) :
  (forall oldName newName, op <> Rename oldName newName) ->
  well_keyed stored -> alias_partition stored ->
  well_keyed (apply_operation stored op) /\ alias_partition (apply_operation stored op).
Proof.
  intros Hop Hwf Hpart. unfold apply_operation.
  destruct op as [P al|P a|o n]; simpl.
  - pose proof (merge_horses_preserves P al stored Hwf Hpart) as H.
    destruct (merge_horses P al stored); auto.
  - pose proof (unmerge_horse_preserves P a stored Hwf Hpart) as H.
    destruct (unmerge_horse P a stored); auto.
  - exfalso. exact (Hop o n eq_refl).
Qed.

Example ginger_ops_result :
  apply_operations ginger_ops []
  = [(js "Ginger Punch 22",
      {| owner := []; country := []; isHistoric := false;
         aliases := Some [js "Ginger Punch"] |});
     (js "Ginger Punch (IRE)",
      {| owner := []; country := []; isHistoric := false;
         aliases := Some [js "Ginger Punch"] |})].
Proof. reflexivity. Qed.

(** C3.  Starting from the empty mapping, which trivially satisfies the
    alias partition invariant, a merge followed by a rename stores a mapping
    in which the spelling "Ginger Punch" is in the alias sets of two
    different entries: the rename handler adds the old name to the aliases of
    the new entry without the ownership test that the merge handler makes. *)
Theorem rename_breaks_alias_partition :
  well_keyed ([] : horse_mapping)
  /\ alias_partition []
  /\ well_keyed (apply_operations ginger_ops [])
  /\ ~ alias_partition (apply_operations ginger_ops []).
Proof.
  split; [constructor|]. split; [intros k1 d1 k2 d2 a []|].
  rewrite ginger_ops_result. split.
  - repeat constructor; simpl; intuition discriminate.
  - intro H.
    specialize (H (js "Ginger Punch 22") _ (js "Ginger Punch (IRE)") _ (js "Ginger Punch")
                  (or_introl eq_refl) (or_intror (or_introl eq_refl))).
    assert (O : owns {| owner := []; country := []; isHistoric := false;
                        aliases := Some [js "Ginger Punch"] |} (js "Ginger Punch")).
    { eexists. split; [reflexivity | now left]. }
    specialize (H O O). discriminate H.
Qed.

(** ** Resolution of spellings *)

Lemma find_app_first {A : Type} (p : A -> bool) (l1 l2 : list A) (y : A) :
  (forall x, In x l1 -> p x = false) -> p y = true ->
  find p (l1 ++ y :: l2) = Some y.
Proof.
  intros Hno Hy. induction l1 as [|x l1 IH]; simpl.
  - now rewrite Hy.
  - rewrite (Hno x (or_introl eq_refl)). apply IH. intros z Hz. apply Hno. now right.
Qed.

(** A stored canonical name that passes the test is returned as soon as no
    canonical name before it passes. *)
Lemma resolveHorseAlias_direct (horseName k : str) (m : horse_mapping) :
  truthy horseName = true -> truthy k = true ->
  find (name_matches horseName) (obj_keys m) = Some k ->
  resolveHorseAlias horseName m = k.
Proof.
  intros Hn Hk Hfind. unfold resolveHorseAlias. rewrite Hn. cbn [negb].
  unfold name_matches in Hfind. cbv zeta. rewrite Hfind, Hk. reflexivity.
Qed.

Lemma resolveHorseAlias_first_key (horseName k : str) (d : HorseData)
      (m1 m2 : horse_mapping) :
  truthy horseName = true -> truthy k = true ->
  (forall k', In k' (obj_keys m1) -> name_matches horseName k' = false) ->
  name_matches horseName k = true ->
  resolveHorseAlias horseName (m1 ++ (k, d) :: m2) = k.
Proof.
  intros Hn Hk Hbefore Hmatch. apply resolveHorseAlias_direct; auto.
  unfold obj_keys. rewrite map_app. simpl. now apply find_app_first.
Qed.

Example ginger_merged_value :
  ginger_merged
  = [(js "Ginger Punch 22", blank_horse);
     (js "2022 Ginger Punch", horse_with_aliases [js "Ginger Punch"])].
Proof. reflexivity. Qed.

(** With "Ginger Punch" merged into "2022 Ginger Punch" while the third
    spelling "Ginger Punch 22" is an entry of its own, the look-up of
    "GINGER PUNCH 22" stops at that entry. *)
Lemma resolve_ginger_other_entry :
  obj_get ginger_merged (js "2022 Ginger Punch")
  = Some (horse_with_aliases [js "Ginger Punch"])
  /\ resolveHorseAlias (js "GINGER PUNCH 22") ginger_merged <> js "2022 Ginger Punch".
Proof.
  split; [reflexivity|]. vm_compute. discriminate.
Qed.

(** C4 (amended).  The two spellings have the same normalized key, and in
    every mapping that holds the entry "2022 Ginger Punch" (whatever its
    data, in particular with "Ginger Punch" among its aliases) the look-up of
    "GINGER PUNCH 22" returns that entry, provided no entry stored before it
    passes the test for that spelling. *)
Theorem resolve_ginger_punch (m1 m2 : horse_mapping) (d : HorseData) :
  (forall k, In k (obj_keys m1) -> name_matches (js "GINGER PUNCH 22") k = false) ->
  normalizeHorseNameForMatch (js "2022 Ginger Punch")
  = normalizeHorseNameForMatch (js "GINGER PUNCH 22")
  /\ normalizeHorseNameForMatch (js "GINGER PUNCH 22") = js "gingerpunch22"
  /\ resolveHorseAlias (js "GINGER PUNCH 22") (m1 ++ (js "2022 Ginger Punch", d) :: m2)
     = js "2022 Ginger Punch".
Proof.
  intro Hbefore. split; [reflexivity|]. split; [reflexivity|].
  apply resolveHorseAlias_first_key; auto.
Qed.

Lemma resolve_ginger_punch_witness :
  (forall k, In k (obj_keys [(js "Stoweshoe", blank_horse)]) ->
             name_matches (js "GINGER PUNCH 22") k = false)
  /\ resolveHorseAlias (js "GINGER PUNCH 22")
       ([(js "Stoweshoe", blank_horse)]
          ++ (js "2022 Ginger Punch", horse_with_aliases [js "Ginger Punch"]) :: [])
     = js "2022 Ginger Punch".
Proof.
  assert (H : forall k, In k (obj_keys [(js "Stoweshoe", blank_horse)]) ->
                        name_matches (js "GINGER PUNCH 22") k = false).
  { intros k [<-|[]]. reflexivity. }
  split; [exact H|].
  apply (resolve_ginger_punch [(js "Stoweshoe", blank_horse)] []
           (horse_with_aliases [js "Ginger Punch"]) H).
Defined.

(** ** Display names *)

Example display_ginger_punch :
  formatHorseNameForDisplay (js "2022 Ginger Punch") = js "GINGER PUNCH 22".
Proof. vm_compute. reflexivity. Qed.

(** A year before 2020 written in full is not read as a year: the first two
    digits are. *)
Example display_year_2012 :
  formatHorseNameForDisplay (js "2012 American Pharoah") = js "AMERICAN PHAROAH 20"
  /\ resolveHorseAlias (js "AMERICAN PHAROAH 20")
                       [(js "2012 American Pharoah", blank_horse)]
     = js "AMERICAN PHAROAH 20".
Proof. split; vm_compute; reflexivity. Qed.

(** The display form of the canonical name "2022 Ginger Punch" resolves to
    the other canonical entry "Ginger Punch 22", which is stored before it. *)
Lemma display_round_trip_other_entry :
  In (js "2022 Ginger Punch") (obj_keys ginger_two_entries)
  /\ formatHorseNameForDisplay (js "2022 Ginger Punch") = js "GINGER PUNCH 22"
  /\ resolveHorseAlias (formatHorseNameForDisplay (js "2022 Ginger Punch"))
                       ginger_two_entries
     <> js "2022 Ginger Punch".
Proof.
  split; [simpl; tauto|]. split; [vm_compute; reflexivity|].
  vm_compute. discriminate.
Qed.

(** Resolving the display form of a canonical name returns the name when
    the display form is not empty and passes the test against the name, and
    no canonical name stored before it passes. *)
Lemma display_resolves_when_matching (m1 m2 : horse_mapping) (k : str) (d : HorseData) :
  truthy (formatHorseNameForDisplay k) = true ->
  name_matches (formatHorseNameForDisplay k) k = true ->
  (forall k', In k' (obj_keys m1) ->
              name_matches (formatHorseNameForDisplay k) k' = false) ->
  resolveHorseAlias (formatHorseNameForDisplay k) (m1 ++ (k, d) :: m2) = k.
Proof.
  intros Hdisplay Hmatch Hbefore.
  apply resolveHorseAlias_first_key; auto.
  destruct k; [discriminate Hdisplay | reflexivity].
Qed.

(** ** Strings *)

Lemma starts_with_spec (p s : str) :
  starts_with p s = true <-> exists b, s = p ++ b.
Proof.
  revert s. induction p as [|x p IH]; intro s; simpl.
  - split; [intros _; now exists s | reflexivity].
  - destruct s as [|y s].
    + split; [discriminate | intros (b & [=])].
    + rewrite andb_true_iff, Ascii.eqb_eq, IH. split.
      * intros [-> (b & ->)]. now exists b.
      * intros (b & [= -> ->]). split; [reflexivity | now exists b].
Qed.

Lemma indexOf_Some (s p : str) (i : nat) :
  indexOf s p = Some i -> exists a b, s = a ++ p ++ b /\ length a = i.
Proof.
  revert i. induction s as [|c s IH]; intro i; simpl.
  - destruct (starts_with p []) eqn:E; [|discriminate].
    intros [= <-]. apply starts_with_spec in E. destruct E as (b & E).
    exists [], b. split; [exact E | reflexivity].
  - destruct (starts_with p (c :: s)) eqn:E.
    + intros [= <-]. apply starts_with_spec in E. destruct E as (b & E).
      exists [], b. split; [exact E | reflexivity].
    + destruct (indexOf s p) as [j|]; [|discriminate].
      intros [= <-]. destruct (IH j eq_refl) as (a & b & -> & <-).
      exists (c :: a), b. split; reflexivity.
Qed.

Lemma indexOf_None (s p : str) :
  indexOf s p = None -> forall a b, s <> a ++ p ++ b.
Proof.
  induction s as [|c s IH]; simpl.
  - destruct (starts_with p []) eqn:E; [discriminate|].
    intros _ a b H. symmetry in H. apply app_eq_nil in H. destruct H as [-> H].
    apply app_eq_nil in H. destruct H as [-> ->]. discriminate E.
  - destruct (starts_with p (c :: s)) eqn:E; [discriminate|].
    destruct (indexOf s p) as [j|] eqn:Ei; [discriminate|].
    intros _ a b H. destruct a as [|x a].
    + simpl in H.
      assert (starts_with p (c :: s) = true) by (apply starts_with_spec; now exists b).
      congruence.
    + injection H as -> H. exact (IH eq_refl a b H).
Qed.

(** [includes] is the relation "occurs somewhere in". *)
Lemma includes_spec (s p : str) :
  includes s p = true <-> exists a b, s = a ++ p ++ b.
Proof.
  unfold includes. destruct (indexOf s p) as [i|] eqn:E.
  - split; [intros _ | reflexivity].
    destruct (indexOf_Some _ _ _ E) as (a & b & H & _). now exists a, b.
  - split; [discriminate|]. intros (a & b & H).
    exfalso. exact (indexOf_None _ _ E a b H).
Qed.

Lemma trimStart_suffix (s : str) : exists a, s = a ++ trimStart s.
Proof.
  induction s as [|c s (a & IH)]; simpl.
  - now exists [].
  - destruct (is_space c).
    + exists (c :: a). simpl. now rewrite <- IH.
    + now exists [].
Qed.

Lemma trimEnd_prefix (s : str) : exists b, s = trimEnd s ++ b.
Proof.
  unfold trimEnd. destruct (trimStart_suffix (rev s)) as (a & H).
  exists (rev a). rewrite <- rev_app_distr, <- H. symmetry. apply rev_involutive.
Qed.

(** What [trim] returns occurs in its argument. *)
Lemma trim_occurs (s : str) : exists a b, s = a ++ trim s ++ b.
Proof.
  unfold trim. destruct (trimStart_suffix s) as (a & Ha).
  destruct (trimEnd_prefix (trimStart s)) as (b & Hb).
  exists a, b. now rewrite <- Hb.
Qed.

Lemma upper_lower_char (c : ascii) : upper_char (lower_char c) = upper_char c.
Proof. destruct c as [[] [] [] [] [] [] [] []]; reflexivity. Qed.

(** On ASCII, two names equal in lower case are equal in upper case. *)
Lemma toLowerCase_toUpperCase (a b : str) :
  toLowerCase a = toLowerCase b -> toUpperCase a = toUpperCase b.
Proof.
  unfold toLowerCase, toUpperCase. revert b.
  induction a as [|x a IH]; destruct b as [|y b]; simpl; try discriminate; auto.
  intros [= Hc Hr]. f_equal; [|auto].
  rewrite <- (upper_lower_char x), <- (upper_lower_char y). now rewrite Hc.
Qed.

(** ** Duplicate guard *)

Lemma has_race_on_spec (entries : list Entry) (raceDate trk : str) :
  has_race_on entries raceDate trk = true
  <-> exists entry, In entry entries /\ isRace entry = true
                    /\ date entry = raceDate /\ track entry = trk.
Proof.
  unfold has_race_on. rewrite existsb_exists. split.
  - intros (e & Hin & H). apply andb_true_iff in H. destruct H as [H Ht].
    apply andb_true_iff in H. destruct H as [Hr Hd].
    apply str_eqb_eq in Hd, Ht. eauto.
  - intros (e & Hin & Hr & Hd & Ht). exists e. split; [assumption|].
    rewrite Hr, <- Hd, <- Ht, !str_eqb_refl. reflexivity.
Qed.

Lemma key_matches_spec (key name : str) :
  key_matches key name = true
  <-> toUpperCase key = name
      \/ (exists a b, toUpperCase key = a ++ name ++ b)
      \/ (exists a b, name = a ++ toUpperCase key ++ b).
Proof.
  unfold key_matches. cbv zeta.
  rewrite !orb_true_iff, str_eqb_eq, !includes_spec. tauto.
Qed.

(** A history in which "Punch" raced, and a race of "Ginger Punch" at the
    same track on the same day. *)
Example duplicate_against_other_horse :
  checkDuplicateRace
    (Some [(js "Punch",
            [{| date := js "8/3/2024"; horse := js "Punch"; track := js "SAR";
                isRace := true; isWork := false |}])])
    (js "Ginger Punch (IRE)") (js "8/3/2024") (js "SAR")
  = true.
Proof. reflexivity. Qed.

(** C10.  The guard answers true exactly when the session holds a key whose
    upper-case form equals, contains or is contained in the normalized
    upper-case name and whose entries hold a race on that date at that track;
    so a race of "Ginger Punch (IRE)" is flagged against the history of the
    different horse "Punch". *)
Theorem checkDuplicateRace_spec :
  (forall (session : option history) (horseName raceDate trk : str),
      checkDuplicateRace session horseName raceDate trk = true
      <-> exists allHorseDetailData key entries,
          session = Some allHorseDetailData
          /\ In (key, entries) allHorseDetailData
          /\ (toUpperCase key = normalizedName horseName
              \/ (exists a b, toUpperCase key = a ++ normalizedName horseName ++ b)
              \/ (exists a b, normalizedName horseName = a ++ toUpperCase key ++ b))
          /\ exists entry, In entry entries /\ isRace entry = true
                           /\ date entry = raceDate /\ track entry = trk)
  /\ normalizedName (js "Ginger Punch (IRE)") = js "GINGER PUNCH"
  /\ checkDuplicateRace
       (Some [(js "Punch",
               [{| date := js "8/3/2024"; horse := js "Punch"; track := js "SAR";
                   isRace := true; isWork := false |}])])
       (js "Ginger Punch (IRE)") (js "8/3/2024") (js "SAR")
     = true.
Proof.
  split; [|split; reflexivity].
  intros session horseName raceDate trk. unfold checkDuplicateRace.
  destruct session as [h|].
  - rewrite existsb_exists. split.
    + intros ([key entries] & Hin & H). simpl in H.
      apply andb_true_iff in H. destruct H as [Hk Hr].
      exists h, key, entries. split; [reflexivity|]. split; [assumption|].
      split; [now apply key_matches_spec | now apply has_race_on_spec].
    + intros (h' & key & entries & [= <-] & Hin & Hk & Hr).
      exists (key, entries). split; [assumption|]. simpl.
      apply andb_true_iff. split; [now apply key_matches_spec | now apply has_race_on_spec].
  - split; [discriminate|]. intros (h' & key & entries & [=] & _).
Qed.

(** ** The matcher only moves forward *)

Lemma reads_refl (s : mstate) : reads s s [].
Proof. split; reflexivity. Qed.

Lemma reads_trans (s1 s2 s3 : mstate) (m1 m2 : str) :
  reads s1 s2 m1 -> reads s2 s3 m2 -> reads s1 s3 (m1 ++ m2).
Proof.
  intros [A1 B1] [A2 B2]. split.
  - rewrite A1, A2. now rewrite app_assoc.
  - rewrite B2, B1, rev_app_distr. now rewrite app_assoc.
Qed.

Lemma reads_length (s e : mstate) (m : str) :
  reads s e m -> length (after s) = length m + length (after e).
Proof. intros [A _]. rewrite A. apply length_app. Qed.

Lemma eat_reads (p : ascii -> bool) (s e : mstate) :
  In e (eat p s) ->
  exists c, p c = true /\ reads s e [c] /\ caps e = caps s.
Proof.
  unfold eat. destruct (after s) as [|c rest] eqn:E; [intros []|].
  destruct (p c) eqn:Ep; [|intros []].
  intros [<-|[]]. exists c. split; [assumption|]. split; [|reflexivity].
  split; simpl; [exact E | reflexivity].
Qed.

Section Repetition.
Variable step : mstate -> list mstate.
Hypothesis step_reads : forall s e, In e (step s) -> exists m, reads s e m.

Lemma rep_exact_reads (n : nat) :
  forall s e, In e (rep_exact step n s) -> exists m, reads s e m.
Proof.
  induction n as [|n IH]; intros s e; simpl.
  - intros [<-|[]]. exists []. apply reads_refl.
  - intro H. apply in_flat_map in H. destruct H as (s1 & H1 & H2).
    destruct (step_reads _ _ H1) as (m1 & R1).
    destruct (IH _ _ H2) as (m2 & R2).
    exists (m1 ++ m2). eapply reads_trans; eauto.
Qed.

Lemma rep_more_reads (greedy : bool) (n : nat) :
  forall s e, In e (rep_more step greedy n s) -> exists m, reads s e m.
Proof.
  induction n as [|n IH]; intros s e; simpl.
  - intros [<-|[]]. exists []. apply reads_refl.
  - intro H.
    assert (Hcases : e = s \/ In e (flat_map
              (fun s' => if length (after s') <? length (after s)
                         then rep_more step greedy n s' else []) (step s))).
    { destruct greedy.
      - apply in_app_or in H. destruct H as [H|[<-|[]]]; auto.
      - destruct H as [<-|H]; auto. }
    destruct Hcases as [->|Hin]; [exists []; apply reads_refl|].
    apply in_flat_map in Hin. destruct Hin as (s1 & H1 & H2).
    destruct (length (after s1) <? length (after s)); [|destruct H2].
    destruct (step_reads _ _ H1) as (m1 & R1).
    destruct (IH _ _ H2) as (m2 & R2).
    exists (m1 ++ m2). eapply reads_trans; eauto.
Qed.
End Repetition.

(** Every end state of a match is reached by reading a piece of the text
    ahead. *)
Lemma run_reads (fl : flags) (r : regex) :
  forall s e, In e (run fl r s) -> exists m, reads s e m.
Proof.
  induction r as [ |c| |items|items|r1 IH1 r2 IH2|r1 IH1 r2 IH2
                  |mn mx greedy r IH|n r IH| | | ];
    intros s e; simpl.
  - intros [<-|[]]. exists []. apply reads_refl.
  - intro H. apply eat_reads in H. destruct H as (c' & _ & R & _). eauto.
  - intro H. apply eat_reads in H. destruct H as (c' & _ & R & _). eauto.
  - intro H. apply eat_reads in H. destruct H as (c' & _ & R & _). eauto.
  - intro H. apply eat_reads in H. destruct H as (c' & _ & R & _). eauto.
  - intro H. apply in_flat_map in H. destruct H as (s1 & H1 & H2).
    destruct (IH1 _ _ H1) as (m1 & R1). destruct (IH2 _ _ H2) as (m2 & R2).
    exists (m1 ++ m2). eapply reads_trans; eauto.
  - intro H. apply in_app_or in H. destruct H as [H|H]; eauto.
  - intro H. apply in_flat_map in H. destruct H as (s1 & H1 & H2).
    destruct (rep_exact_reads _ IH _ _ _ H1) as (m1 & R1).
    destruct (rep_more_reads _ IH _ _ _ _ H2) as (m2 & R2).
    exists (m1 ++ m2). eapply reads_trans; eauto.
  - intro H. apply in_map_iff in H. destruct H as (e' & <- & H).
    destruct (IH _ _ H) as (m & R). exists m. exact R.
  - destruct (at_bol fl s); [|intros []]. intros [<-|[]]. exists []. apply reads_refl.
  - destruct (at_eol fl s); [|intros []]. intros [<-|[]]. exists []. apply reads_refl.
  - destruct (at_word_boundary s); [|intros []]. intros [<-|[]].
    exists []. apply reads_refl.
Qed.

(** [exec_from] returns a start state further on in the text and a first end
    state of the pattern from there; no start before it has a match. *)
Lemma exec_from_Some (fl : flags) (r : regex) :
  forall aft bef st e,
    exec_from fl r bef aft = Some (st, e) ->
    exists pre,
      aft = pre ++ after st /\ before st = rev pre ++ bef /\ caps st = []
      /\ (exists rest, run fl r st = e :: rest)
      /\ forall i, i < length pre ->
                   run fl r {| before := rev (firstn i pre) ++ bef;
                               after := skipn i aft; caps := [] |} = [].
Proof.
  induction aft as [|c aft IH]; intros bef st e; simpl.
  - destruct (run fl r _) as [|e' rest] eqn:E; [discriminate|].
    intros [= <- <-]. exists []. simpl. repeat split; eauto. intros i Hi. lia.
  - destruct (run fl r _) as [|e' rest] eqn:E.
    + intro H. destruct (IH _ _ _ H) as (pre & -> & Hb & Hc & Hrun & Hno).
      exists (c :: pre). simpl. split; [reflexivity|].
      split; [rewrite Hb, <- app_assoc; reflexivity|].
      split; [assumption|]. split; [assumption|].
      intros [|i] Hi; simpl.
      * exact E.
      * rewrite <- app_assoc. simpl. apply Hno. lia.
    + intros [= <- <-]. exists []. simpl. repeat split; eauto. intros i Hi. lia.
Qed.

Lemma exec_from_None (fl : flags) (r : regex) :
  forall aft bef,
    exec_from fl r bef aft = None ->
    forall i, i <= length aft ->
              run fl r {| before := rev (firstn i aft) ++ bef;
                          after := skipn i aft; caps := [] |} = [].
Proof.
  induction aft as [|c aft IH]; intros bef; simpl.
  - destruct (run fl r _) eqn:E; [|discriminate]. intros _ i Hi.
    replace i with 0 by lia. exact E.
  - destruct (run fl r _) eqn:E; [|discriminate]. intros H [|i] Hi; simpl.
    + exact E.
    + rewrite <- app_assoc. simpl. apply (IH _ H). lia.
Qed.

(** ** Patterns anchored at the end of the text *)

Lemma ends_text_eol : ends_text no_flags (Cat Eol Eps).
Proof.
  intros s e. simpl. unfold at_eol. simpl.
  destruct (after s) eqn:E; simpl; [|intros []].
  intros [<-|[]]. exact E.
Qed.

Lemma ends_text_cat (fl : flags) (r1 r2 : regex) :
  ends_text fl r2 -> ends_text fl (Cat r1 r2).
Proof.
  intros H s e Hin. simpl in Hin. apply in_flat_map in Hin.
  destruct Hin as (s1 & _ & H2). eauto.
Qed.

Lemma replace_all_from_nil (fl : flags) (r : regex) (fuel : nat) (bef : str) :
  replace_all_from fuel fl r bef [] = [].
Proof.
  destruct fuel as [|fuel]; simpl; [reflexivity|].
  destruct (run fl r _) as [|e rest] eqn:E; [reflexivity|].
  assert (Hin : In e (run fl r {| before := bef; after := []; caps := [] |}))
    by (rewrite E; now left).
  destruct (run_reads _ _ _ _ Hin) as (m & Ha & _). simpl in Ha.
  symmetry in Ha. apply app_eq_nil in Ha. destruct Ha as [_ Ha].
  rewrite Ha. reflexivity.
Qed.

(** Removing all matches of a pattern anchored at the end of the text leaves
    a prefix of the text. *)
Lemma replace_all_prefix (fl : flags) (r : regex) (s : str) :
  ends_text fl r -> exists b, s = replace_all fl r s ++ b.
Proof.
  intro Hend. unfold replace_all. simpl.
  destruct (exec_from fl r [] s) as [[st e]|] eqn:E.
  2:{ exists []. now rewrite app_nil_r. }
  destruct (exec_from_Some _ _ _ _ _ _ E) as (pre & Hs & _ & _ & (rest & Hrun) & _).
  assert (He : after e = []).
  { apply (Hend st). rewrite Hrun. now left. }
  rewrite He, replace_all_from_nil, app_nil_r. simpl.
  assert (Hsk : firstn (length s - length (after st)) s = pre).
  { rewrite Hs, length_app, Nat.add_sub.
    rewrite firstn_app, Nat.sub_diag, firstn_all. simpl. apply app_nil_r. }
  rewrite Hsk. exists (after st).
  destruct (after st); simpl; [now rewrite app_nil_r in * | exact Hs].
Qed.

Lemma ends_text_country_suffix : ends_text no_flags re_country_suffix.
Proof.
  unfold re_country_suffix, seq. simpl.
  do 4 apply ends_text_cat. apply ends_text_eol.
Qed.

(** The name that [checkDuplicateRace] looks up occurs in the upper-case
    form of the name it is given. *)
Lemma normalizedName_occurs (horseName : str) :
  exists a b, toUpperCase horseName = a ++ normalizedName horseName ++ b.
Proof.
  unfold normalizedName.
  destruct (replace_all_prefix no_flags re_country_suffix (toUpperCase horseName)
                               ends_text_country_suffix) as (b & Hb).
  destruct (trim_occurs (replace_all no_flags re_country_suffix (toUpperCase horseName)))
    as (a' & b' & Ht).
  exists a', (b' ++ b). rewrite Hb at 1. rewrite Ht at 1.
  now rewrite <- !app_assoc.
Qed.

(** A key is matched by its own name, whatever the letter case. *)
Lemma key_matches_own_name (key horseName : str) :
  toLowerCase key = toLowerCase horseName ->
  key_matches key (normalizedName horseName) = true.
Proof.
  intro H. apply toLowerCase_toUpperCase in H.
  apply key_matches_spec. right. left. rewrite H. apply normalizedName_occurs.
Qed.

(** ** The save handler *)

Lemma has_race_on_perm (l l' : list Entry) (d t : str) :
  Permutation l l' -> has_race_on l d t = has_race_on l' d t.
Proof.
  intro H. unfold has_race_on.
  destruct (existsb _ l') eqn:E.
  - apply existsb_exists in E. destruct E as (x & Hx & Hp).
    apply existsb_exists. exists x. split; [|assumption].
    eapply Permutation_in; [symmetry; eassumption | assumption].
  - destruct (existsb _ l) eqn:E'; [|reflexivity].
    apply existsb_exists in E'. destruct E' as (x & Hx & Hp).
    rewrite <- E. symmetry. apply existsb_exists. exists x. split; [|assumption].
    eapply Permutation_in; eassumption.
Qed.

Lemma filter_length_perm {A : Type} (p : A -> bool) (l l' : list A) :
  Permutation l l' -> length (filter p l) = length (filter p l').
Proof.
  induction 1; simpl.
  - reflexivity.
  - destruct (p x); simpl; congruence.
  - destruct (p x), (p y); reflexivity.
  - congruence.
Qed.

Lemma find_lower_key (name : str) (keys : list str) (k : str) :
  In k keys -> toLowerCase k = toLowerCase name ->
  exists k1, find (fun k' => str_eqb (toLowerCase k') (toLowerCase name)) keys = Some k1
             /\ toLowerCase k1 = toLowerCase name.
Proof.
  intros Hin Hk.
  destruct (find _ keys) as [k1|] eqn:E.
  - exists k1. split; [reflexivity|]. apply find_some in E. now apply str_eqb_eq.
  - exfalso. apply (find_none _ _ E) in Hin. rewrite Hk, str_eqb_refl in Hin.
    discriminate.
Qed.

Lemma horse_key_lower (detail : history) (race : Race) :
  toLowerCase (horse_key detail race) = toLowerCase (race_horseName race).
Proof.
  unfold horse_key. destruct (find _ (obj_keys detail)) as [k1|] eqn:E; [|reflexivity].
  destruct (truthy k1); [|reflexivity].
  apply find_some in E. now apply str_eqb_eq.
Qed.

(** The name that the guard looks for depends on the spelling of the horse
    name up to letter case only. *)
Lemma normalizedName_lower (a b : str) :
  toLowerCase a = toLowerCase b -> normalizedName a = normalizedName b.
Proof.
  intro H. unfold normalizedName. now rewrite (toLowerCase_toUpperCase a b H).
Qed.

Section SaveProofs.
Variable sort_by_date : list Entry -> list Entry.
Hypothesis sort_permutes : forall l, Permutation (sort_by_date l) l.

Variable st : store.
Variable h0 : history.
Hypothesis session_found : getSession st = Some h0.

(** The key [k] has a race entry on [d] at [t]. *)
Variables k d t : str.

Local Abbreviation keeps_race := (race_kept st h0 k d t).

Lemma keeps_race_initially (es : list Entry) :
  obj_get h0 k = Some es -> has_race_on es d t = true -> keeps_race h0.
Proof.
  intros G R. split; [eauto|]. split; [reflexivity|].
  unfold visible_session. unfold getSession in session_found.
  destruct (persistent st) as [[h|]|].
  - injection session_found as ->. eauto.
  - rewrite session_found. eauto.
  - rewrite session_found. eauto.
Qed.

(** With the race entry of [k] in sight, a race on that date at that track
    is a duplicate for every name that the guard takes for [k]. *)
Lemma duplicate_for_matching (local : history) (name : str) :
  keeps_race local -> key_matches k (normalizedName name) = true ->
  checkDuplicateRace (visible_session st local) name d t = true.
Proof.
  intros (_ & _ & hv & es & -> & G & R) Hk. simpl.
  apply existsb_exists. exists (k, es). split; [eauto using obj_get_In|].
  simpl. now rewrite R, andb_true_r.
Qed.

(** In particular for every spelling of [k] up to letter case. *)
Lemma duplicate_in_sight (local : history) (name : str) :
  keeps_race local -> toLowerCase k = toLowerCase name ->
  checkDuplicateRace (visible_session st local) name d t = true.
Proof.
  intros Hkept Hk. apply duplicate_for_matching; [exact Hkept|].
  now apply key_matches_own_name.
Qed.

Lemma visible_after_set (local : history) (key : str) (es es' : list Entry) :
  (exists hv es0, visible_session st local = Some hv
                  /\ obj_get hv k = Some es0 /\ has_race_on es0 d t = true) ->
  obj_get (obj_set local key es') k = Some es -> has_race_on es d t = true ->
  exists hv es0, visible_session st (obj_set local key es') = Some hv
                 /\ obj_get hv k = Some es0 /\ has_race_on es0 d t = true.
Proof.
  intros (hv & es0 & V & G & R) G' R'. unfold visible_session in *.
  destruct (persistent st) as [[h|]|].
  - eauto.
  - destruct (memory st); [|discriminate]. eauto.
  - destruct (memory st); [|discriminate]. eauto.
Qed.

Lemma save_race_keeps (s : save_state) (race : Race) :
  keeps_race (allHorseDetailData s) ->
  keeps_race (allHorseDetailData (save_race sort_by_date st s race)).
Proof.
  intro Hk. unfold save_race. cbv zeta.
  destruct (checkDuplicateRace _ _ _ _) eqn:Edup; [exact Hk|]. simpl.
  set (local := allHorseDetailData s) in *.
  set (key := horse_key local race) in *.
  destruct Hk as ((es & G & R) & Hcount & Hvis).
  destruct (list_eq_dec ascii_dec key k) as [Ekey|Ekey].
  - (* the race goes to the history of [k]: it is not on [d] at [t] *)
    assert (Hnew : (str_eqb (race_date race) d && str_eqb (race_track race) t) = false).
    { destruct (str_eqb (race_date race) d) eqn:Ed; [|reflexivity].
      destruct (str_eqb (race_track race) t) eqn:Et; [|reflexivity].
      apply str_eqb_eq in Ed, Et. exfalso.
      assert (Hd : checkDuplicateRace (visible_session st local) key d t = true).
      { apply duplicate_in_sight.
        - split; [eauto|]. split; assumption.
        - now rewrite Ekey. }
      fold local in Edup. rewrite Ed, Et in Edup. congruence. }
    rewrite Ekey in *. rewrite G.
    assert (Hget : obj_get (obj_set local k (sort_by_date (es ++ [race_entry k race]))) k
                   = Some (sort_by_date (es ++ [race_entry k race])))
      by apply obj_get_set_same.
    assert (Hrace : has_race_on (sort_by_date (es ++ [race_entry k race])) d t = true).
    { rewrite (has_race_on_perm _ _ d t (sort_permutes _)).
      unfold has_race_on in *. rewrite existsb_app, R. reflexivity. }
    split; [eauto|]. split.
    + unfold races_on at 1. rewrite Hget.
      rewrite (filter_length_perm _ _ _ (sort_permutes _)).
      rewrite filter_app, length_app. simpl.
      rewrite Hnew. simpl. rewrite Nat.add_0_r.
      rewrite <- Hcount. unfold races_on. now rewrite G.
    + eapply visible_after_set; eauto.
  - assert (Hget : forall v, obj_get (obj_set local key v) k = obj_get local k).
    { intro v. apply obj_get_set_other. congruence. }
    split; [rewrite Hget; eauto|]. split.
    + unfold races_on in *. now rewrite Hget.
    + eapply visible_after_set; eauto. now rewrite Hget.
Qed.

Lemma save_loop_keeps (races : list Race) :
  forall s, keeps_race (allHorseDetailData s) ->
            keeps_race (allHorseDetailData (save_loop sort_by_date st s races)).
Proof.
  induction races as [|r races IH]; intros s Hk; simpl; [exact Hk|].
  apply IH. now apply save_race_keeps.
Qed.

Lemma save_race_skipped_grows (s : save_state) (race : Race) (x : SkippedRace) :
  In x (skippedRaces s) -> In x (skippedRaces (save_race sort_by_date st s race)).
Proof.
  intro H. unfold save_race. cbv zeta.
  destruct (checkDuplicateRace _ _ _ _); simpl; [apply in_or_app; now left | exact H].
Qed.

Lemma save_loop_skipped_grows (races : list Race) (x : SkippedRace) :
  forall s, In x (skippedRaces s) ->
            In x (skippedRaces (save_loop sort_by_date st s races)).
Proof.
  induction races as [|r races IH]; intros s H; simpl; [exact H|].
  apply IH. now apply save_race_skipped_grows.
Qed.

(** A race on [d] at [t] whose horse name the guard takes for [k] is skipped
    and reported, wherever it is in the request. *)
Lemma save_loop_reports (races : list Race) (race : Race) :
  race_date race = d -> race_track race = t ->
  key_matches k (normalizedName (race_horseName race)) = true ->
  In race races ->
  forall s, keeps_race (allHorseDetailData s) ->
            exists horseKey,
              toLowerCase horseKey = toLowerCase (race_horseName race)
              /\ In {| skipped_horseName := horseKey; skipped_date := race_date race;
                       skipped_reason := js "Duplicate entry" |}
                    (skippedRaces (save_loop sort_by_date st s races)).
Proof.
  intros Hd Ht Hname. induction races as [|r races IH]; intros Hin s Hk; [destruct Hin|].
  simpl. destruct Hin as [->|Hin].
  - exists (horse_key (allHorseDetailData s) race).
    split; [apply horse_key_lower|].
    apply save_loop_skipped_grows. unfold save_race. cbv zeta.
    rewrite Hd, Ht, duplicate_for_matching; auto.
    + simpl. apply in_or_app. right. now left.
    + rewrite (normalizedName_lower _ (race_horseName race)); [exact Hname|].
      apply horse_key_lower.
  - apply IH; auto. now apply save_race_keeps.
Qed.
End SaveProofs.




Lemma has_race_on_count (es : list Entry) (d t : str) :
  has_race_on es d t = false ->
  length (filter (fun entry => isRace entry && str_eqb (date entry) d
                               && str_eqb (track entry) t) es) = 0.
Proof.
  unfold has_race_on. induction es as [|e es IH]; simpl; [reflexivity|].
  destruct (isRace e && str_eqb (date e) d && str_eqb (track e) t); simpl;
    [discriminate | exact IH].
Qed.

(** What the guard sees when the handler starts is the session it read, if
    there is one. *)
Lemma visible_session_initially (st : store) :
  visible_session st (match getSession st with Some h => h | None => [] end)
  = getSession st.
Proof.
  unfold visible_session, getSession.
  destruct (persistent st) as [[h|]|]; try reflexivity; destruct (memory st); reflexivity.
Qed.

(** A race that the guard lets through is not yet in the history of its
    key. *)
Lemma not_duplicate_no_race (session : option history) (key d t : str) :
  checkDuplicateRace session key d t = false ->
  races_on (match session with Some h => h | None => [] end) key d t = 0.
Proof.
  intro Hdup. unfold races_on.
  destruct session as [h|]; [|reflexivity].
  destruct (obj_get h key) as [es|] eqn:G; [|reflexivity].
  apply has_race_on_count.
  destruct (has_race_on es d t) eqn:R; [|reflexivity].
  exfalso. simpl in Hdup.
  assert (Hex : existsb (fun e => key_matches (fst e) (normalizedName key)
                                  && has_race_on (snd e) d t) h = true).
  { apply existsb_exists. exists (key, es). split; [eauto using obj_get_In|].
    simpl. rewrite R, andb_true_r. now apply key_matches_own_name. }
  congruence.
Qed.

(** The same race committed twice: when the first request saves it, the
    second request skips it as a duplicate and the stored history has
    exactly one race entry of that horse on that date at that track. *)
Lemma save_twice_one_entry (sort_by_date : list Entry -> list Entry) (st : store)
      (race : Race) :
  (forall l, Permutation (sort_by_date l) l) ->
  let key := horse_key (match getSession st with Some h => h | None => [] end) race in
  exists st1 s1 st2 s2,
    save_races sort_by_date st [race] = (st1, inl s1)
    /\ save_races sort_by_date st1 [race] = (st2, inl s2)
    /\ (savedRaces s1 = [(key, race_date race)] ->
        (exists horseKey,
            toLowerCase horseKey = toLowerCase (race_horseName race)
            /\ In {| skipped_horseName := horseKey; skipped_date := race_date race;
                     skipped_reason := js "Duplicate entry" |} (skippedRaces s2))
        /\ getSession st2 = Some (allHorseDetailData s2)
        /\ races_on (allHorseDetailData s2) key (race_date race) (race_track race) = 1).
Proof.
  intros Hsort key.
  set (h := match getSession st with Some h => h | None => [] end) in *.
  set (init := {| allHorseDetailData := h; savedRaces := []; skippedRaces := [] |}).
  set (s1 := save_race sort_by_date st init race).
  set (st1 := {| persistent := match persistent st with
                               | Redis _ => Redis (Some (allHorseDetailData s1))
                               | MemoryOnly => MemoryOnly
                               end;
                 memory := Some (allHorseDetailData s1) |}).
  assert (E1 : save_races sort_by_date st [race] = (st1, inl s1)) by reflexivity.
  assert (Hs1 : getSession st1 = Some (allHorseDetailData s1)).
  { unfold getSession, st1. simpl. destruct (persistent st); reflexivity. }
  assert (E2 : exists st2 s2, save_races sort_by_date st1 [race] = (st2, inl s2)).
  { unfold save_races. cbn [length Nat.eqb]. eauto. }
  destruct E2 as (st2 & s2 & E2).
  exists st1, s1, st2, s2. split; [exact E1|]. split; [exact E2|].
  (* what the first request did *)
  set (es := match obj_get h key with Some es => es | None => [] end).
  assert (Hcases :
            savedRaces s1 = []
            \/ (checkDuplicateRace (getSession st) key (race_date race) (race_track race)
                = false
                /\ allHorseDetailData s1
                   = obj_set h key (sort_by_date (es ++ [race_entry key race])))).
  { unfold s1, save_race. cbn [allHorseDetailData init]. fold key.
    rewrite visible_session_initially.
    destruct (checkDuplicateRace (getSession st) key (race_date race) (race_track race));
      [left; reflexivity | right; split; reflexivity]. }
  intro Hsaved. destruct Hcases as [Hnone|[Edup Hh1]]; [rewrite Hnone in Hsaved; discriminate|].
  assert (Hnew : has_race_on (sort_by_date (es ++ [race_entry key race]))
                             (race_date race) (race_track race) = true).
  { rewrite (has_race_on_perm _ _ _ _ (Hsort _)). unfold has_race_on.
    rewrite existsb_app. simpl. rewrite !str_eqb_refl. simpl. apply orb_true_r. }
  assert (Hkey : toLowerCase key = toLowerCase (race_horseName race))
    by apply horse_key_lower.
  assert (Hget : obj_get (allHorseDetailData s1) key
                 = Some (sort_by_date (es ++ [race_entry key race]))).
  { rewrite Hh1. apply obj_get_set_same. }
  set (h1 := allHorseDetailData s1) in *.
  set (s0 := {| allHorseDetailData := h1; savedRaces := []; skippedRaces := [] |}).
  assert (Hk0 : race_kept st1 h1 key (race_date race) (race_track race)
                          (allHorseDetailData s0))
    by (eapply keeps_race_initially; eauto).
  pose proof (save_loop_keeps sort_by_date Hsort st1 h1 key _ _ [race] s0 Hk0)
    as (_ & Hcount & _).
  pose proof (save_loop_reports sort_by_date Hsort st1 h1 key _ _ [race] race
                                eq_refl eq_refl (key_matches_own_name _ _ Hkey)
                                (or_introl eq_refl) s0 Hk0)
    as Hskip.
  assert (Hs2 : getSession st2 = Some (allHorseDetailData s2)
                /\ s2 = save_loop sort_by_date st1 s0 [race]).
  { unfold save_races in E2. cbn [length Nat.eqb] in E2. rewrite Hs1 in E2.
    cbv zeta in E2. fold s0 in E2. injection E2 as <- <-. split; [|reflexivity].
    unfold getSession, st1. simpl. destruct (persistent st); reflexivity. }
  destruct Hs2 as [Hs2 ->].
  split; [exact Hskip|]. split; [exact Hs2|].
  rewrite Hcount. unfold races_on. rewrite Hget.
  rewrite (filter_length_perm _ _ _ (Hsort _)), filter_app, length_app.
  simpl. rewrite !str_eqb_refl. simpl.
  pose proof (not_duplicate_no_race _ _ _ _ Edup) as H0. fold h in H0.
  unfold races_on in H0. subst es.
  destruct (obj_get h key); [now rewrite H0 | reflexivity].
Qed.

(** With Redis as the store the guard reads the persisted history, which the
    handler has not written yet: the same race twice in one request is saved
    twice. *)
Example same_race_twice_in_one_request :
  let race := {| race_horseName := js "Blanco"; race_date := js "8/3/2024";
                 race_track := js "SAR" |} in
  match save_races (fun l => l) {| persistent := Redis (Some []); memory := None |}
                   [race; race] with
  | (_, inl s) =>
    races_on (allHorseDetailData s) (js "Blanco") (js "8/3/2024") (js "SAR") = 2
  | _ => False
  end.
Proof. vm_compute. reflexivity. Qed.

(** ** Document metadata extractor *)

Example distance_mixed_miles :
  detect_distance (js "1 1/16 Miles Inner Turf") = Num (17 # 2).
Proof. vm_compute. reflexivity. Qed.

Example distance_mixed_furlongs :
  detect_distance (js "5 1/2 Furlongs Dirt") = Num (11 # 2).
Proof. vm_compute. reflexivity. Qed.

Example distance_decimal_furlongs :
  detect_distance (js "6.5 Furlongs Dirt") = Num (13 # 2).
Proof. vm_compute. reflexivity. Qed.

Example distance_word_furlongs :
  detect_distance (js "Six Furlongs On The Dirt") = Num 6.
Proof. vm_compute. reflexivity. Qed.

Example distance_whole_mile :
  detect_distance (js "1 Mile Turf") = Num 8.
Proof. vm_compute. reflexivity. Qed.

Example distance_word_mile :
  detect_distance (js "One Mile On The Turf") = Num 0.
Proof. vm_compute. reflexivity. Qed.

Example distance_decimal_miles :
  detect_distance (js "1.5 Miles Turf") = Num 40.
Proof. vm_compute. reflexivity. Qed.

Example race_type_maiden_claiming :
  detect_race_type (js "MAIDEN CLAIMING - For Maidens, Three Years Old") = js "MCL".
Proof. vm_compute. reflexivity. Qed.

Example race_type_msw_before_mcl :
  detect_race_type
    (js "Maiden Special Weight. (Originally carded as Maiden Claiming)") = js "MSW".
Proof. vm_compute. reflexivity. Qed.

Example race_type_allowance_with_price :
  detect_race_type (js "Allowance. Claiming Price $25,000") = js "CLM".
Proof. vm_compute. reflexivity. Qed.

Example metadata_turfway :
  let m := extractRaceMetadata (js "Turfway Park - 6 Furlongs Turf") in
  meta_track m = js "TP" /\ surface m = js "AWT" /\ detect_surface (js "Turfway Park - 6 Furlongs Turf") = js "T".
Proof. vm_compute. repeat split; reflexivity. Qed.

Example date_example :
  detect_date (js "Saturday, August 3, 2024 Saratoga") = js "Saturday, August 3, 2024".
Proof. vm_compute. reflexivity. Qed.

Lemma getTrackAbbreviation_TP (trackName : str) :
  In trackName trackNames -> getTrackAbbreviation trackName = js "TP" ->
  trackName = js "Turfway".
Proof.
  intro Hin. unfold trackNames in Hin. simpl in Hin.
  repeat (destruct Hin as [<-|Hin];
          [first [ reflexivity | vm_compute; discriminate ]|]).
  destruct Hin.
Qed.

(** C9.  Whenever the extracted track is "TP", which happens exactly when
    Turfway is the first known track name found in the text, the surface
    returned is "AWT", whatever the turf/synthetic/dirt detection found. *)
Theorem turfway_surface_is_awt (text : str) :
  meta_track (extractRaceMetadata text) = js "TP" ->
  surface (extractRaceMetadata text) = js "AWT"
  /\ find (fun trackName => test flag_i (track_pattern false trackName) text) trackNames
     = Some (js "Turfway").
Proof.
  unfold extractRaceMetadata. cbn [meta_track surface]. intro H. split.
  - rewrite H. reflexivity.
  - unfold detect_track in H.
    destruct (find _ trackNames) as [n|] eqn:E; [|vm_compute in H; discriminate].
    apply find_some in E. destruct E as [Hin _].
    f_equal. now apply getTrackAbbreviation_TP.
Qed.

Lemma turfway_surface_is_awt_witness :
  meta_track (extractRaceMetadata (js "Turfway Park - 6 Furlongs Turf")) = js "TP"
  /\ detect_surface (js "Turfway Park - 6 Furlongs Turf") = js "T"
  /\ surface (extractRaceMetadata (js "Turfway Park - 6 Furlongs Turf")) = js "AWT".
Proof.
  split; [vm_compute; reflexivity|]. split; [vm_compute; reflexivity|].
  apply (turfway_surface_is_awt (js "Turfway Park - 6 Furlongs Turf")).
  vm_compute. reflexivity.
Defined.

(** ** Race class *)

Lemma test_at_occurrence (fl : flags) (r : regex) (a rest : str) :
  run fl r {| before := rev a; after := rest; caps := [] |} <> [] ->
  test fl r (a ++ rest) = true.
Proof.
  intro H. unfold test, exec.
  destruct (exec_from fl r [] (a ++ rest)) eqn:E; [reflexivity|].
  exfalso. apply H.
  pose proof (exec_from_None _ _ _ _ E (length a)) as Hno.
  rewrite firstn_app, Nat.sub_diag, firstn_all, skipn_app, Nat.sub_diag, skipn_all in Hno.
  simpl in Hno. rewrite !app_nil_r in Hno. apply Hno.
  rewrite length_app. lia.
Qed.

(** A text in which "Maiden Claiming" is printed matches the maiden claiming
    pattern. *)
Lemma maiden_claiming_found (a b : str) :
  test flag_i re_maiden_claiming (a ++ js "Maiden Claiming" ++ b) = true.
Proof.
  apply test_at_occurrence. vm_compute. discriminate.
Qed.

(** The chain of tests of the extractor is the ordered rule list. *)
Lemma detect_race_type_rules (text : str) :
  detect_race_type text = first_rule (class_rules text) (js "UNK").
Proof.
  unfold detect_race_type, class_rules. cbv zeta. cbn [first_rule].
  repeat match goal with
         | |- context [if ?b then _ else _] => destruct b
         end; reflexivity.
Qed.

Lemma grade_code_not_clm (grade : str) : grade_code grade <> js "CLM".
Proof.
  unfold grade_code.
  destruct (str_eqb grade (js "I")); [discriminate|].
  destruct (str_eqb grade (js "II")); [discriminate|].
  destruct (str_eqb grade (js "III")); discriminate.
Qed.

(** A text that prints "Maiden Claiming" above "Maiden Special Weight" and
    has no claiming price: the class is maiden special weight. *)
Lemma maiden_claiming_outranked :
  let text := js "Maiden Special Weight. (Originally carded as Maiden Claiming)" in
  (exists a b, text = a ++ js "Maiden Claiming" ++ b)
  /\ test flag_i re_claiming_price text = false
  /\ test flag_i re_claiming_dollar text = false
  /\ detect_race_type text <> js "MCL".
Proof.
  cbv zeta. split.
  - exists (js "Maiden Special Weight. (Originally carded as "), (js ")"). reflexivity.
  - split; [vm_compute; reflexivity|]. split; [vm_compute; reflexivity|].
    vm_compute. discriminate.
Qed.

(** C5 (amended).  The race class is decided by the first rule that applies
    in the order AOC, MSW, graded stakes, named stakes, maiden claiming,
    starter allowance, allowance (only when no claiming price is printed),
    claiming with a price, handicap.  For every text that prints "Maiden
    Claiming" the class is never generic claiming, with or without a "$"
    price, and it is maiden claiming whenever none of the four rules of
    higher priority applies. *)
Theorem race_class_priority (text : str) :
  detect_race_type text = first_rule (class_rules text) (js "UNK")
  /\ ((exists a b, text = a ++ js "Maiden Claiming" ++ b) ->
      detect_race_type text <> js "CLM"
      /\ (higher_rules_silent text = true -> detect_race_type text = js "MCL")).
Proof.
  split; [apply detect_race_type_rules|].
  intros (a & b & ->). rewrite detect_race_type_rules.
  unfold higher_rules_silent, class_rules. cbn [first_rule firstn forallb fst].
  rewrite maiden_claiming_found.
  destruct (test flag_i re_allowance_optional_claiming _ || test flag_i re_optional_claiming _);
    [split; [discriminate | discriminate]|].
  destruct (test flag_i re_maiden_special_weight _);
    [split; [discriminate | discriminate]|].
  destruct (test flag_i re_grade _).
  { split; [|discriminate].
    destruct (exec flag_i re_grade _); [apply grade_code_not_clm | discriminate]. }
  destruct (truthy _ || test flag_i re_stakes_age _ || test flag_m re_stakes_line _);
    [split; [discriminate | discriminate]|].
  split; [discriminate | reflexivity].
Qed.

Lemma race_class_priority_witness :
  let text := js "Maiden Claiming - For Maidens, Three Years Old" in
  (exists a b, text = a ++ js "Maiden Claiming" ++ b)
  /\ higher_rules_silent text = true
  /\ detect_race_type text <> js "CLM"
  /\ detect_race_type text = js "MCL".
Proof.
  cbv zeta.
  assert (Hin : exists a b, js "Maiden Claiming - For Maidens, Three Years Old"
                            = a ++ js "Maiden Claiming" ++ b).
  { exists [], (js " - For Maidens, Three Years Old"). reflexivity. }
  assert (Hsilent : higher_rules_silent
                      (js "Maiden Claiming - For Maidens, Three Years Old") = true)
    by (vm_compute; reflexivity).
  destruct (race_class_priority (js "Maiden Claiming - For Maidens, Three Years Old"))
    as [_ H].
  destruct (H Hin) as [Hnot Hmcl].
  split; [exact Hin|]. split; [exact Hsilent|]. split; [exact Hnot | exact (Hmcl Hsilent)].
Defined.

(** ** Distance *)

(** A distance spelled out in miles is not read at all, and a decimal number
    of miles is read as its fractional digits. *)
Lemma miles_forms_not_read :
  detect_distance (js "One Mile On The Turf") = numN 0
  /\ detect_distance (js "One And One Sixteenth Miles") = numN 0
  /\ detect_distance (js "1.5 Miles") = numN 40
  /\ numN 0 <> numN 8 /\ numN 40 <> numN 12.
Proof. repeat split; try (vm_compute; reflexivity); discriminate. Qed.

(** ** Final time *)

(** At any place of the text the pattern M:SS.SS has a match exactly when
    the text ahead is shaped like such a time, and the match is its first
    seven characters. *)
Lemma run_minutes_time (bef aft : str) :
  map after (run no_flags re_minutes_time {| before := bef; after := aft; caps := [] |})
  = if time_shaped aft then [skipn 7 aft] else [].
Proof.
  unfold time_shaped.
  destruct aft as [|m [|colon [|s1 [|s2 [|dot [|h1 [|h2 rest]]]]]]];
    cbn -[is_digit Ascii.eqb]; try reflexivity.
  all: destruct (m =? "1")%char, (m =? "2")%char; cbn -[is_digit Ascii.eqb];
    try reflexivity.
  all: try (destruct (colon =? ":")%char; cbn -[is_digit Ascii.eqb]; try reflexivity).
  all: try (destruct (is_digit s1); cbn -[is_digit Ascii.eqb]; try reflexivity).
  all: try (destruct (is_digit s2); cbn -[is_digit Ascii.eqb]; try reflexivity).
  all: try (destruct (dot =? ".")%char; cbn -[is_digit Ascii.eqb]; try reflexivity).
  all: try (destruct (is_digit h1); cbn -[is_digit Ascii.eqb]; try reflexivity).
  all: try (destruct (is_digit h2); cbn -[is_digit Ascii.eqb]; try reflexivity).
Qed.

Lemma exec_from_unfold (fl : flags) (r : regex) (bef aft : str) :
  exec_from fl r bef aft
  = match run fl r {| before := bef; after := aft; caps := [] |} with
    | e :: _ => Some ({| before := bef; after := aft; caps := [] |}, e)
    | [] => match aft with
            | [] => None
            | c :: aft' => exec_from fl r (c :: bef) aft'
            end
    end.
Proof. destruct aft; reflexivity. Qed.

Lemma time_shaped_length (s : str) : time_shaped s = true -> 7 <= length s.
Proof.
  destruct s as [|m [|colon [|s1 [|s2 [|dot [|h1 [|h2 rest]]]]]]];
    simpl; try discriminate. intros _. lia.
Qed.

(** The search of the pattern from the left finds the first time. *)
Lemma exec_minutes_time :
  forall aft bef,
    option_map match_text (exec_from no_flags re_minutes_time bef aft) = first_time aft.
Proof.
  induction aft as [|c aft IH]; intro bef; rewrite exec_from_unfold;
    pose proof (run_minutes_time bef) as Hrun.
  - specialize (Hrun []). change (time_shaped []) with false in Hrun. cbv iota in Hrun.
    destruct (run no_flags re_minutes_time _); [reflexivity | discriminate Hrun].
  - specialize (Hrun (c :: aft)). cbn [first_time].
    destruct (time_shaped (c :: aft)) eqn:Eshape.
    + destruct (run no_flags re_minutes_time _) as [|e l]; [discriminate Hrun|].
      assert (He : after e = skipn 7 (c :: aft)) by (injection Hrun; auto).
      cbn [option_map]. f_equal.
      unfold match_text. cbn [fst snd after]. rewrite He.
      apply time_shaped_length in Eshape.
      rewrite length_skipn.
      replace (length (c :: aft) - (length (c :: aft) - 7)) with 7 by lia.
      reflexivity.
    + destruct (run no_flags re_minutes_time _); [apply IH | discriminate Hrun].
Qed.

Lemma finalTime_first_time (s : str) :
  finalTime s = match first_time s with Some t => t | None => js "-" end.
Proof.
  unfold finalTime, allMinutesTimes, match_all. cbn [match_all_from].
  rewrite <- (exec_minutes_time s []).
  destruct (exec_from no_flags re_minutes_time [] s) as [[st e]|]; reflexivity.
Qed.

(** [first_time] is the leftmost occurrence. *)
Lemma first_time_leftmost (pre t post : str) :
  length t = 7 -> time_shaped (t ++ post) = true ->
  (forall i, i < length pre -> time_shaped (skipn i (pre ++ t ++ post)) = false) ->
  first_time (pre ++ t ++ post) = Some t.
Proof.
  intros Hlen Hshape. induction pre as [|c pre IH]; intro Hno.
  - cbn [app]. 
    assert (H : forall s, time_shaped s = true -> first_time s = Some (firstn 7 s)).
    { intros s Hs. destruct s; simpl in *; [discriminate | now rewrite Hs]. }
    rewrite (H _ Hshape).
    now rewrite firstn_app, <- Hlen, Nat.sub_diag, firstn_all, app_nil_r.
  - cbn [first_time app].
    assert (H0 : time_shaped (c :: pre ++ t ++ post) = false)
      by exact (Hno 0 (Nat.lt_0_succ _)).
    rewrite H0.
    apply IH. intros i Hi. apply (Hno (S i)). simpl. lia.
Qed.

Example paradise_row_times :
  allMinutesTimes (afterHorse paradise_row (js "paradise")) = [js "1:11.07"; js "1:12.55"].
Proof. vm_compute. reflexivity. Qed.

(** C6.  For every row and horse name the final time is the first
    occurrence, from the left, of a time written M:SS.SS in the text after
    the name ("-" when there is none): whenever that text is [pre ++ t ++
    post] with [t] such a time and no such time starting inside [pre], the
    final time is [t], whatever follows.  In the row of "Paradise" into which
    the row of "Ontario" has run, it is 1:11.07 and not the last time
    1:12.55. *)
Theorem final_time_is_first_occurrence :
  (forall horseLine horseName : str,
      finalTime (afterHorse horseLine horseName)
      = match first_time (afterHorse horseLine horseName) with
        | Some t => t
        | None => js "-"
        end)
  /\ (forall horseLine horseName pre t post : str,
         afterHorse horseLine horseName = pre ++ t ++ post ->
         length t = 7 -> time_shaped (t ++ post) = true ->
         (forall i, i < length pre -> time_shaped (skipn i (pre ++ t ++ post)) = false) ->
         finalTime (afterHorse horseLine horseName) = t)
  /\ finalTime (afterHorse paradise_row (js "paradise")) = js "1:11.07".
Proof.
  split; [|split].
  - intros. apply finalTime_first_time.
  - intros horseLine horseName pre t post -> Hlen Hshape Hno.
    rewrite finalTime_first_time, (first_time_leftmost pre t post Hlen Hshape Hno).
    reflexivity.
  - vm_compute. reflexivity.
Qed.

Lemma final_time_is_first_occurrence_witness :
  afterHorse paradise_row (js "Paradise")
  = js "3.80brkout,3-5p,kpt at bay23.1246.19$24,000101" ++ js "1:11.07"
       ++ js "7422Ontario6.15chased23.5047.01$8,0001021:12.553311"
  /\ finalTime (afterHorse paradise_row (js "Paradise")) = js "1:11.07".
Proof.
  assert (E : afterHorse paradise_row (js "Paradise")
              = js "3.80brkout,3-5p,kpt at bay23.1246.19$24,000101" ++ js "1:11.07"
                   ++ js "7422Ontario6.15chased23.5047.01$8,0001021:12.553311")
    by (vm_compute; reflexivity).
  split; [exact E|].
  destruct final_time_is_first_occurrence as (_ & H & _).
  apply (H paradise_row (js "Paradise") _ _ _ E).
  - reflexivity.
  - vm_compute. reflexivity.
  - intros i Hi.
    do 46 (destruct i as [|i]; [vm_compute; reflexivity|]).
    exfalso. vm_compute in Hi. lia.
Defined.

(** ** Runs of one character class *)

Lemma eat_hit (p : ascii -> bool) (s : mstate) (c : ascii) (rest : str) :
  after s = c :: rest -> p c = true -> eat p s = [advance [c] s].
Proof.
  intros E Hp. unfold eat, advance. rewrite E, Hp. simpl. reflexivity.
Qed.

Lemma eat_miss (p : ascii -> bool) (s : mstate) :
  match after s with c :: _ => p c = false | [] => True end -> eat p s = [].
Proof.
  unfold eat. destruct (after s) as [|c rest]; [reflexivity|]. now intros ->.
Qed.

Lemma advance_app (m1 m2 : str) (s : mstate) :
  advance m2 (advance m1 s) = advance (m1 ++ m2) s.
Proof.
  unfold advance. simpl. f_equal.
  - now rewrite rev_app_distr, app_assoc.
  - rewrite length_app, Nat.add_comm. now rewrite skipn_skipn.
Qed.

Lemma advance_nil (s : mstate) : advance [] s = s.
Proof. destruct s. reflexivity. Qed.

Lemma advance_after (m rest : str) (s : mstate) :
  after s = m ++ rest -> after (advance m s) = rest.
Proof.
  intro E. unfold advance. simpl. rewrite E, skipn_app, Nat.sub_diag, skipn_all.
  reflexivity.
Qed.

Lemma run_ahead_tail (p : ascii -> bool) (c : ascii) (w : str) (s : mstate) :
  run_ahead p (c :: w) s -> run_ahead p w (advance [c] s).
Proof.
  intros (rest & E & Hall & Hend). exists rest. simpl in *.
  rewrite E. apply andb_true_iff in Hall. tauto.
Qed.

Section ClassRuns.
Variable p : ascii -> bool.
Variable step : mstate -> list mstate.
Hypothesis step_eat : forall s, step s = eat p s.

(** A greedy quantifier first tries to take the whole run. *)
Lemma rep_more_greedy_hd (w : str) :
  forall n s, length w <= n -> run_ahead p w s ->
              exists others, rep_more step true n s = advance w s :: others.
Proof.
  induction w as [|c w IH]; intros n s Hn Hrun.
  - rewrite advance_nil. destruct n as [|n]; simpl; [now exists []|].
    destruct Hrun as (rest & E & _ & Hend). simpl in E.
    rewrite step_eat, eat_miss; [now exists [] | now rewrite E].
  - destruct n as [|n]; [simpl in Hn; lia|]. simpl.
    pose proof Hrun as (rest & E & Hall & Hend). simpl in Hall.
    apply andb_true_iff in Hall. destruct Hall as [Hc Hall].
    rewrite step_eat, (eat_hit p s c (w ++ rest) E Hc). simpl.
    rewrite E. simpl.
    assert (Hlt : (length (w ++ rest) <? S (length (w ++ rest))) = true)
      by (apply Nat.ltb_lt; lia).
    rewrite Hlt, app_nil_r.
    destruct (IH n (advance [c] s)) as (others & Ho).
    + simpl in Hn. lia.
    + now apply run_ahead_tail.
    + rewrite Ho, advance_app. simpl. eauto.
Qed.

Lemma rep_exact_hd (w : str) :
  forall s, run_ahead p w s ->
            forall k, k <= length w ->
                      rep_exact step k s = [advance (firstn k w) s].
Proof.
  induction w as [|c w IH]; intros s Hrun k Hk.
  - replace k with 0 by (simpl in Hk; lia). simpl. now rewrite advance_nil.
  - destruct k as [|k]; simpl; [now rewrite advance_nil|].
    pose proof Hrun as (rest & E & Hall & Hend). simpl in Hall.
    apply andb_true_iff in Hall. destruct Hall as [Hc Hall].
    rewrite step_eat, (eat_hit p s c (w ++ rest) E Hc). simpl.
    rewrite app_nil_r, (IH (advance [c] s)).
    + now rewrite advance_app.
    + now apply run_ahead_tail.
    + simpl in Hk. lia.
Qed.

(** Whatever a quantifier over the class reads is made of characters of the
    class. *)
Lemma rep_exact_class (k : nat) :
  forall s e, In e (rep_exact step k s) ->
              exists m, e = advance m s /\ after s = m ++ after e
                        /\ forallb p m = true /\ length m = k.
Proof.
  induction k as [|k IH]; intros s e; simpl.
  - intros [<-|[]]. exists []. rewrite advance_nil. auto.
  - intro H. apply in_flat_map in H. destruct H as (s1 & H1 & H2).
    rewrite step_eat in H1. unfold eat in H1.
    destruct (after s) as [|c rest] eqn:E; [destruct H1|].
    destruct (p c) eqn:Hc; [|destruct H1]. destruct H1 as [<-|[]].
    destruct (IH _ _ H2) as (m & -> & Ha & Hall & Hlen).
    exists (c :: m). simpl in Ha. split; [|split; [|split]].
    + unfold advance. simpl. rewrite E. simpl. f_equal. now rewrite <- app_assoc.
    + simpl. now rewrite <- Ha.
    + simpl. now rewrite Hc.
    + simpl. now rewrite Hlen.
Qed.

Lemma rep_more_class (greedy : bool) (n : nat) :
  forall s e, In e (rep_more step greedy n s) ->
              exists m, e = advance m s /\ after s = m ++ after e
                        /\ forallb p m = true.
Proof.
  induction n as [|n IH]; intros s e; simpl.
  - intros [<-|[]]. exists []. rewrite advance_nil. auto.
  - intro H.
    assert (Hcases : e = s \/ In e (flat_map
              (fun s' => if length (after s') <? length (after s)
                         then rep_more step greedy n s' else []) (step s))).
    { destruct greedy.
      - apply in_app_or in H. destruct H as [H|[<-|[]]]; auto.
      - destruct H as [<-|H]; auto. }
    destruct Hcases as [->|Hin]; [exists []; rewrite advance_nil; auto|].
    apply in_flat_map in Hin. destruct Hin as (s1 & H1 & H2).
    rewrite step_eat in H1. unfold eat in H1.
    destruct (after s) as [|c rest] eqn:E; [destruct H1|].
    destruct (p c) eqn:Hc; [|destruct H1]. destruct H1 as [<-|[]].
    simpl in H2. destruct (length rest <? S (length rest)); [|destruct H2].
    destruct (IH _ _ H2) as (m & -> & Ha & Hall).
    exists (c :: m). simpl in Ha. split; [|split].
    + unfold advance. simpl. rewrite E. simpl. f_equal. now rewrite <- app_assoc.
    + simpl. now rewrite <- Ha.
    + simpl. now rewrite Hc.
Qed.
End ClassRuns.

Lemma one_char_lit (fl : flags) (c : ascii) : one_char fl (Lit c) (lit_has fl c).
Proof. intro s. reflexivity. Qed.

Lemma one_char_dot (fl : flags) :
  one_char fl Dot (fun d => negb (is_line_terminator d)).
Proof. intro s. reflexivity. Qed.

Lemma one_char_class (fl : flags) (items : list cset) :
  one_char fl (Class items) (class_has fl items).
Proof. intro s. reflexivity. Qed.

Lemma one_char_notclass (fl : flags) (items : list cset) :
  one_char fl (NotClass items) (fun d => negb (class_has fl items d)).
Proof. intro s. reflexivity. Qed.

Lemma run_ahead_split (p : ascii -> bool) (w : str) (k : nat) (s : mstate) :
  run_ahead p w s -> run_ahead p (skipn k w) (advance (firstn k w) s).
Proof.
  intros (rest & E & Hall & Hend). exists rest. split; [|split; [|exact Hend]].
  - apply advance_after. now rewrite app_assoc, firstn_skipn.
  - rewrite <- (firstn_skipn k w), forallb_app in Hall.
    apply andb_true_iff in Hall. tauto.
Qed.

(** A greedy quantifier over one character class first reads the whole run
    of the class that lies ahead. *)
Lemma run_rep_hd (fl : flags) (r : regex) (p : ascii -> bool)
      (mn : nat) (mx : option nat) (w : str) (s : mstate) :
  one_char fl r p -> run_ahead p w s -> mn <= length w ->
  match mx with Some M => length w <= M | None => True end ->
  exists others, run fl (Rep mn mx true r) s = advance w s :: others.
Proof.
  intros Hone Hrun Hmn Hmx. cbn [run].
  rewrite (rep_exact_hd p (run fl r) Hone w s Hrun mn Hmn). cbn [flat_map].
  rewrite app_nil_r.
  pose proof (run_ahead_split p w mn s Hrun) as Hrun'.
  destruct (rep_more_greedy_hd p (run fl r) Hone (skipn mn w)
              (match mx with
               | Some m => m - mn
               | None => length (after (advance (firstn mn w) s))
               end) (advance (firstn mn w) s)) as (others & Ho); [|exact Hrun'|].
  - rewrite length_skipn. destruct mx as [M|]; [lia|].
    destruct Hrun' as (rest & E & _). rewrite E, length_app, length_skipn. lia.
  - rewrite Ho, advance_app, firstn_skipn. eauto.
Qed.

(** Whatever a quantifier over one character class reads is made of
    characters of the class, at least [mn] of them. *)
Lemma run_rep_class (fl : flags) (r : regex) (p : ascii -> bool)
      (mn : nat) (mx : option nat) (greedy : bool) (s e : mstate) :
  one_char fl r p -> In e (run fl (Rep mn mx greedy r) s) ->
  exists m, e = advance m s /\ after s = m ++ after e
            /\ forallb p m = true /\ mn <= length m.
Proof.
  intros Hone H. cbn [run] in H. apply in_flat_map in H. destruct H as (s1 & H1 & H2).
  destruct (rep_exact_class p (run fl r) Hone _ _ _ H1) as (m1 & -> & A1 & P1 & L1).
  destruct (rep_more_class p (run fl r) Hone _ _ _ _ H2) as (m2 & -> & A2 & P2).
  exists (m1 ++ m2). split; [|split; [|split]].
  - apply advance_app.
  - rewrite A1, A2. now rewrite app_assoc.
  - rewrite forallb_app, P1, P2. reflexivity.
  - rewrite length_app. lia.
Qed.

(** ** First results *)

Lemma first_end_cat (fl : flags) (r1 r2 : regex) (s x y : mstate) :
  first_end fl r1 s = Some x -> first_end fl r2 x = Some y ->
  first_end fl (Cat r1 r2) s = Some y.
Proof.
  unfold first_end. simpl.
  destruct (run fl r1 s) as [|x' l]; [discriminate|]. intros [= ->]. simpl.
  destruct (run fl r2 x) as [|y' l']; [discriminate|]. intros [= ->]. reflexivity.
Qed.

Lemma first_end_eps (fl : flags) (s : mstate) : first_end fl Eps s = Some s.
Proof. reflexivity. Qed.

Lemma first_end_group (fl : flags) (n : nat) (r : regex) (s x : mstate) :
  first_end fl r s = Some x -> first_end fl (Group n r) s = Some (set_cap n s x).
Proof.
  unfold first_end. simpl. destruct (run fl r s); [discriminate|].
  intros [= ->]. reflexivity.
Qed.

Lemma first_end_rep (fl : flags) (r : regex) (p : ascii -> bool)
      (mn : nat) (mx : option nat) (w : str) (s : mstate) :
  one_char fl r p -> run_ahead p w s -> mn <= length w ->
  match mx with Some M => length w <= M | None => True end ->
  first_end fl (Rep mn mx true r) s = Some (advance w s).
Proof.
  intros Hone Hrun Hmn Hmx. unfold first_end.
  destruct (run_rep_hd fl r p mn mx w s Hone Hrun Hmn Hmx) as (others & ->).
  reflexivity.
Qed.

Lemma first_end_exec (fl : flags) (r : regex) (bef aft : str) (e : mstate) :
  first_end fl r {| before := bef; after := aft; caps := [] |} = Some e ->
  exec_from fl r bef aft = Some ({| before := bef; after := aft; caps := [] |}, e).
Proof.
  unfold first_end. rewrite exec_from_unfold.
  destruct (run fl r _); [discriminate|]. now intros [= ->].
Qed.

(** ** Searches that find nothing *)

Lemma exec_from_nowhere (fl : flags) (r : regex) :
  forall aft bef,
    (forall i, i <= length aft ->
               run fl r {| before := rev (firstn i aft) ++ bef;
                           after := skipn i aft; caps := [] |} = []) ->
    exec_from fl r bef aft = None.
Proof.
  induction aft as [|c aft IH]; intros bef H; rewrite exec_from_unfold.
  - pose proof (H 0 (le_n _)) as H0. simpl in H0. rewrite H0. reflexivity.
  - pose proof (H 0 (Nat.le_0_l _)) as H0. simpl in H0. rewrite H0.
    apply IH. intros i Hi. specialize (H (S i)). simpl in H.
    rewrite <- app_assoc in H. apply H. lia.
Qed.

(** Positions at which the pattern cannot start are passed over. *)
Lemma exec_from_skip (fl : flags) (r : regex) :
  forall pre rest bef,
    (forall i, i < length pre ->
               run fl r {| before := rev (firstn i pre) ++ bef;
                           after := skipn i pre ++ rest; caps := [] |} = []) ->
    exec_from fl r bef (pre ++ rest) = exec_from fl r (rev pre ++ bef) rest.
Proof.
  induction pre as [|c pre IH]; intros rest bef H; [reflexivity|].
  pose proof (H 0 (Nat.lt_0_succ _)) as H0. simpl in H0.
  cbn [app rev]. rewrite (exec_from_unfold fl r bef (c :: pre ++ rest)), H0.
  rewrite <- app_assoc. cbn [app]. apply IH.
  intros i Hi. specialize (H (S i)). simpl in H.
  rewrite <- app_assoc in H. apply H. lia.
Qed.

Lemma replace_all_none (fl : flags) (r : regex) (s : str) :
  exec_from fl r [] s = None -> replace_all fl r s = s.
Proof. intro H. unfold replace_all. simpl. now rewrite H. Qed.

Lemma flat_map_nil {A B : Type} (f : A -> list B) (l : list A) :
  (forall x, In x l -> f x = []) -> flat_map f l = [].
Proof.
  induction l as [|x l IH]; intro H; simpl; [reflexivity|].
  rewrite (H x (or_introl eq_refl)), IH; [reflexivity|].
  intros y Hy. apply H. now right.
Qed.

(** ** The spelling "20YY Name" *)

Lemma letter_not_space (c : ascii) : is_letter c = true -> is_space c = false.
Proof. destruct c as [[] [] [] [] [] [] [] []]; simpl; intro H; try reflexivity; discriminate H. Qed.

Lemma letter_not_digit (c : ascii) : is_letter c = true -> is_digit c = false.
Proof. destruct c as [[] [] [] [] [] [] [] []]; simpl; intro H; try reflexivity; discriminate H. Qed.

Lemma letter_or_blank_not_terminator (c : ascii) :
  is_letter c || (c =? " ")%char = true -> is_line_terminator c = false.
Proof. destruct c as [[] [] [] [] [] [] [] []]; simpl; intro H; try reflexivity; discriminate H. Qed.

Lemma letter_or_blank_not_digit (c : ascii) :
  is_letter c || (c =? " ")%char = true -> is_digit c = false.
Proof. destruct c as [[] [] [] [] [] [] [] []]; simpl; intro H; try reflexivity; discriminate H. Qed.

Lemma is_letter_upper (c : ascii) : is_letter (upper_char c) = is_letter c.
Proof. destruct c as [[] [] [] [] [] [] [] []]; reflexivity. Qed.

Lemma lower_upper_char (c : ascii) : lower_char (upper_char c) = lower_char c.
Proof. destruct c as [[] [] [] [] [] [] [] []]; reflexivity. Qed.

Lemma upper_letter_or_blank (c : ascii) :
  is_letter (upper_char c) || (upper_char c =? " ")%char
  = is_letter c || (c =? " ")%char.
Proof. destruct c as [[] [] [] [] [] [] [] []]; reflexivity. Qed.

Lemma digit_is_word (c : ascii) : is_digit c = true -> is_word c = true.
Proof. destruct c as [[] [] [] [] [] [] [] []]; simpl; intro H; try reflexivity; discriminate H. Qed.

Lemma digit_is_alnum (c : ascii) : is_digit c = true -> is_alnum c = true.
Proof. destruct c as [[] [] [] [] [] [] [] []]; simpl; intro H; try reflexivity; discriminate H. Qed.

Lemma year_digit_is_digit (c : ascii) : in_range "2" "9" c = true -> is_digit c = true.
Proof. destruct c as [[] [] [] [] [] [] [] []]; simpl; intro H; try reflexivity; discriminate H. Qed.

Lemma trimStart_id (s : str) :
  match s with c :: _ => is_space c = false | [] => True end -> trimStart s = s.
Proof. destruct s as [|c s]; simpl; [reflexivity | now intros ->]. Qed.

Lemma trim_id (s : str) :
  match s with c :: _ => is_space c = false | [] => True end ->
  match rev s with c :: _ => is_space c = false | [] => True end ->
  trim s = s.
Proof.
  intros H1 H2. unfold trim, trimEnd.
  rewrite (trimStart_id s H1), (trimStart_id (rev s) H2). apply rev_involutive.
Qed.

Lemma plain_name_inv (w : str) :
  plain_name w = true ->
  forallb (fun c => is_letter c || (c =? " ")%char) w = true
  /\ (exists a w', w = a :: w' /\ is_letter a = true)
  /\ (exists z w', rev w = z :: w' /\ is_letter z = true).
Proof.
  unfold plain_name. intro H.
  apply andb_true_iff in H. destruct H as [H Hlast].
  apply andb_true_iff in H. destruct H as [Hall Hfirst].
  split; [exact Hall|]. split.
  - destruct w as [|a w']; [discriminate|]. eauto.
  - destruct (rev w) as [|z w']; [discriminate|]. eauto.
Qed.

(** A pattern that begins with [^] has no match after the start of the
    text. *)
Lemma run_bol_inside (r : regex) (s : mstate) :
  before s <> [] -> run no_flags (Cat Bol r) s = [].
Proof.
  intro H. simpl. unfold at_bol. destruct (before s); [congruence|]. reflexivity.
Qed.

(** A quantifier that needs one character of the class cannot start on
    another character. *)
Lemma run_rep_cannot_start (fl : flags) (r : regex) (p : ascii -> bool)
      (mn : nat) (mx : option nat) (greedy : bool) (s : mstate) :
  one_char fl r p -> 1 <= mn ->
  match after s with c :: _ => p c = false | [] => True end ->
  run fl (Rep mn mx greedy r) s = [].
Proof.
  intros Hone Hmn Hhead.
  destruct (run fl (Rep mn mx greedy r) s) as [|e l] eqn:E; [reflexivity|].
  exfalso.
  destruct (run_rep_class fl r p mn mx greedy s e Hone) as (m & _ & Ha & Hall & Hlen).
  { rewrite E. now left. }
  destruct m as [|c m]; [simpl in Hlen; lia|].
  rewrite Ha in Hhead. simpl in Hhead, Hall. rewrite Hhead in Hall. discriminate.
Qed.

(** Stripping what is not alphanumeric at the start changes nothing when the
    text starts with a digit or a letter. *)
Lemma leading_junk_none (c : ascii) (s : str) :
  is_alnum c = true -> replace_first no_flags re_leading_junk (c :: s) = c :: s.
Proof.
  intro Hc. unfold replace_first, exec.
  rewrite exec_from_nowhere; [reflexivity|].
  intros i Hi. destruct i as [|i].
  - unfold re_leading_junk, seq. cbn [fold_right]. cbn [run firstn rev app skipn].
    unfold at_bol. cbn [before flat_map].
    rewrite (run_rep_cannot_start no_flags (NotClass alnums) _ 1 None true _
               (one_char_notclass _ _) (le_n _)); [reflexivity|].
    cbn [after]. change (class_has no_flags alnums c) with
        ((is_lower c || false) || ((is_upper c || false) || ((is_digit c || false) || false))).
    unfold is_alnum, is_letter in Hc.
    destruct (is_lower c), (is_upper c), (is_digit c); try reflexivity; discriminate Hc.
  - apply run_bol_inside. cbn [before firstn rev]. intro H.
    apply app_eq_nil in H. destruct H as [H _]. apply app_eq_nil in H.
    destruct H as [_ H]. discriminate H.
Qed.

Lemma take_drop_while (p : ascii -> bool) (s : str) :
  s = take_while p s ++ drop_while p s
  /\ filter p (take_while p s) = take_while p s
  /\ match drop_while p s with c :: _ => p c = false | [] => True end.
Proof.
  induction s as [|c s (IH1 & IH2 & IH3)]; simpl; [auto|].
  destruct (p c) eqn:E; simpl.
  - rewrite E. repeat split; [now f_equal | now f_equal | exact IH3].
  - auto.
Qed.

(** The search for one character outside a class stops at the first such
    character. *)
Lemma exec_from_not_class (items : list cset) :
  forall aft bef,
    exec_from no_flags (NotClass items) bef aft
    = match drop_while (class_has no_flags items) aft with
      | [] => None
      | c :: rest =>
        Some ({| before := rev (take_while (class_has no_flags items) aft) ++ bef;
                 after := c :: rest; caps := [] |},
              {| before := c :: rev (take_while (class_has no_flags items) aft) ++ bef;
                 after := rest; caps := [] |})
      end.
Proof.
  induction aft as [|c aft IH]; intro bef; rewrite exec_from_unfold; cbn [run].
  - reflexivity.
  - unfold eat. cbn [after before caps take_while drop_while].
    destruct (class_has no_flags items c) eqn:E; cbn [negb].
    + rewrite IH. destruct (drop_while _ aft); [reflexivity|].
      cbn [rev]. now rewrite <- !app_assoc.
    + reflexivity.
Qed.

(** Removing every character outside a class keeps the characters of the
    class. *)
Lemma replace_all_from_not_class (items : list cset) :
  forall fuel aft bef,
    length aft < fuel ->
    replace_all_from fuel no_flags (NotClass items) bef aft
    = filter (class_has no_flags items) aft.
Proof.
  induction fuel as [|fuel IH]; intros aft bef Hlen; [lia|].
  cbn [replace_all_from]. rewrite exec_from_not_class.
  destruct (take_drop_while (class_has no_flags items) aft) as (Hsplit & Hpre & Hhead).
  remember (take_while (class_has no_flags items) aft) as pre eqn:Epre.
  destruct (drop_while (class_has no_flags items) aft) as [|c rest] eqn:Ed.
  - rewrite app_nil_r in Hsplit. now rewrite Hsplit, Hpre.
  - clear Epre Ed. subst aft. cbn [after before].
    assert (Hlt : (length rest <? length (c :: rest)) = true)
      by (apply Nat.ltb_lt; simpl; lia).
    rewrite Hlt, length_app, Nat.add_sub.
    rewrite firstn_app, Nat.sub_diag, firstn_all, app_nil_r. cbn [firstn].
    rewrite IH.
    + rewrite filter_app, Hpre. simpl. now rewrite Hhead.
    + rewrite length_app in Hlen. simpl in Hlen. lia.
Qed.

Lemma replace_all_not_class (items : list cset) (s : str) :
  replace_all no_flags (NotClass items) s = filter (class_has no_flags items) s.
Proof. apply replace_all_from_not_class. lia. Qed.

Lemma class_has_letters (c : ascii) : class_has no_flags letters c = is_letter c.
Proof. destruct c as [[] [] [] [] [] [] [] []]; reflexivity. Qed.

Lemma letters_of (s : str) :
  replace_all no_flags re_non_letter s = filter is_letter s.
Proof.
  unfold re_non_letter. rewrite replace_all_not_class.
  apply filter_ext. apply class_has_letters.
Qed.

(** Nothing is stripped from the two ends of a plain name. *)
Lemma outer_non_letters_none (w : str) :
  plain_name w = true -> replace_all no_flags re_outer_non_letters w = w.
Proof.
  intro Hw. destruct (plain_name_inv w Hw) as (Hall & (a & w' & Ew & Ha) & (z & wz & Ez & Hz)).
  apply replace_all_none, exec_from_nowhere. intros i Hi.
  unfold re_outer_non_letters, seq. cbn [fold_right].
  change (run no_flags (Alt ?A ?B) ?s) with (run no_flags A s ++ run no_flags B s).
  assert (HA : run no_flags (Cat Bol (Cat (plus (NotClass letters)) Eps))
                   {| before := rev (firstn i w) ++ []; after := skipn i w; caps := [] |}
               = []).
  { destruct i as [|i].
    - cbn [run firstn rev app skipn]. unfold at_bol. cbn [before flat_map].
      rewrite (run_rep_cannot_start no_flags (NotClass letters) _ 1 None true _
                 (one_char_notclass _ _) (le_n _)); [reflexivity|].
      cbn [after]. rewrite Ew, class_has_letters, Ha. reflexivity.
    - apply run_bol_inside. cbn [before]. rewrite Ew. cbn [firstn rev]. intro H.
      apply app_eq_nil in H. destruct H as [H _]. apply app_eq_nil in H.
      destruct H as [_ H]. discriminate H. }
  rewrite HA. cbn [app].
  change (run no_flags (Cat ?A ?B) ?s) with (flat_map (run no_flags B) (run no_flags A s)).
  apply flat_map_nil. intros e He.
  destruct (run_rep_class no_flags (NotClass letters) _ 1 None true _ e
              (one_char_notclass _ _) He) as (m & _ & Hafter & Hm & Hlen).
  cbn [after] in Hafter.
  cbn [run]. unfold at_eol. cbn [multiline no_flags andb].
  destruct (after e) as [|c rest] eqn:Ee; [|reflexivity].
  exfalso. rewrite app_nil_r in Hafter.
  assert (Hrev : rev w = rev m ++ rev (firstn i w)).
  { rewrite <- (firstn_skipn i w) at 1. now rewrite Hafter, rev_app_distr. }
  destruct (rev m) as [|c' m'] eqn:Em.
  - apply (f_equal (@length ascii)) in Em. rewrite length_rev in Em. simpl in Em. lia.
  - rewrite Ez in Hrev. injection Hrev as -> _.
    assert (Hin : In c' m) by (apply in_rev; rewrite Em; now left).
    rewrite forallb_forall in Hm. specialize (Hm _ Hin).
    rewrite class_has_letters, Hz in Hm. discriminate Hm.
Qed.
Lemma class_year_digit (c : ascii) :
  class_has no_flags [CRange "2" "9"] c = in_range "2" "9" c.
Proof. destruct c as [[] [] [] [] [] [] [] []]; reflexivity. Qed.

Lemma class_digit (c : ascii) : class_has no_flags [CDigit] c = is_digit c.
Proof. destruct c as [[] [] [] [] [] [] [] []]; reflexivity. Qed.

Lemma class_space (c : ascii) : class_has no_flags [CSpace] c = is_space c.
Proof. destruct c as [[] [] [] [] [] [] [] []]; reflexivity. Qed.

Lemma advance_reads (m rest : str) (s : mstate) :
  after s = m ++ rest ->
  advance m s = {| before := rev m ++ before s; after := rest; caps := caps s |}.
Proof.
  intro E. unfold advance. f_equal.
  now rewrite E, skipn_app, Nat.sub_diag, skipn_all.
Qed.

Lemma set_cap_reads (n : nat) (m : str) (s s' : mstate) :
  after s = m ++ after s' ->
  set_cap n s s'
  = {| before := before s'; after := after s'; caps := (n, m) :: caps s' |}.
Proof.
  intro E. unfold set_cap. f_equal.
  rewrite E, length_app, Nat.add_sub.
  now rewrite firstn_app, Nat.sub_diag, firstn_all, app_nil_r.
Qed.

Lemma first_end_single (fl : flags) (r : regex) (s e : mstate) :
  run fl r s = [e] -> first_end fl r s = Some e.
Proof. unfold first_end. now intros ->. Qed.

Lemma year4_start_match (y3 y4 : ascii) (w : str) :
  in_range "2" "9" y3 = true -> is_digit y4 = true -> plain_name w = true ->
  exists m, exec no_flags re_year4_start (year_prefixed y3 y4 w) = Some m
            /\ match_group m 1 = ["2"; "0"; y3; y4]
            /\ match_group m 2 = w.
Proof.
  intros H3 H4 Hw.
  destruct (plain_name_inv w Hw) as (Hall & (a & w' & Ew & Ha) & _).
  unfold exec, year_prefixed.
  set (s0 := {| before := []; after := "2" :: "0" :: y3 :: y4 :: " " :: w; caps := [] |}).
  set (s1 := {| before := [y4; y3; "0"; "2"]; after := " " :: w;
                caps := [(1, ["2"; "0"; y3; y4])] |}).
  set (s2 := {| before := " " :: before s1; after := w; caps := caps s1 |}).
  set (s3 := {| before := rev w ++ before s2; after := []; caps := (2, w) :: caps s1 |}).
  assert (H1 : first_end no_flags
                 (Group 1 (seq [lit "20"; Class [CRange "2" "9"]; digit])) s0 = Some s1).
  { apply first_end_single.
    unfold seq, lit, digit. cbn -[class_has set_cap].
    unfold eat. cbn -[class_has set_cap].
    rewrite class_year_digit, H3. cbn -[class_has set_cap].
    rewrite class_digit, H4. cbn -[class_has set_cap].
    rewrite (set_cap_reads 1 ["2"; "0"; y3; y4]); reflexivity. }
  assert (H2 : first_end no_flags (star space) s1 = Some s2).
  { unfold star, space.
    rewrite (first_end_rep no_flags _ _ 0 None [" "] s1 (one_char_class _ _)).
    - now rewrite (advance_reads [" "] w).
    - exists w. split; [reflexivity|]. split; [reflexivity|].
      rewrite Ew, class_space. now apply letter_not_space.
    - simpl. lia.
    - exact I. }
  assert (H3' : first_end no_flags (Group 2 (plus Dot)) s2 = Some s3).
  { unfold plus.
    rewrite (first_end_group no_flags 2 _ s2 (advance w s2)).
    - rewrite (advance_reads w [] s2) by (simpl; now rewrite app_nil_r).
      rewrite (set_cap_reads 2 w); [reflexivity | simpl; now rewrite app_nil_r].
    - apply (first_end_rep no_flags Dot _ 1 None w s2 (one_char_dot _)).
      + exists []. split; [simpl; now rewrite app_nil_r|]. split; [|exact I].
        apply forallb_forall. intros c Hc. rewrite forallb_forall in Hall.
        apply negb_true_iff, letter_or_blank_not_terminator, Hall, Hc.
      + rewrite Ew. simpl. lia.
      + exact I. }
  exists (s0, s3). split; [|split; reflexivity].
  apply first_end_exec. unfold re_year4_start, seq. cbn [fold_right].
  eapply first_end_cat; [reflexivity|].
  eapply first_end_cat; [exact H1|].
  eapply first_end_cat; [exact H2|].
  eapply first_end_cat; [exact H3'|].
  reflexivity.
Qed.
Lemma trim_year_prefixed (y3 y4 : ascii) (w : str) :
  plain_name w = true -> trim (year_prefixed y3 y4 w) = year_prefixed y3 y4 w.
Proof.
  intro Hw. destruct (plain_name_inv w Hw) as (_ & _ & (z & wz & Ez & Hz)).
  apply trim_id; [reflexivity|].
  unfold year_prefixed.
  change ("2" :: "0" :: y3 :: y4 :: " " :: w) with (["2"; "0"; y3; y4; " "] ++ w).
  rewrite rev_app_distr, Ez. simpl. now apply letter_not_space.
Qed.

Lemma trim_plain_name (w : str) : plain_name w = true -> trim w = w.
Proof.
  intro Hw. destruct (plain_name_inv w Hw) as (_ & (a & w' & Ew & Ha) & (z & wz & Ez & Hz)).
  apply trim_id.
  - rewrite Ew. now apply letter_not_space.
  - rewrite Ez. now apply letter_not_space.
Qed.

(** The display form of "20YY Name" is "NAME YY". *)
Lemma format_year_prefixed (y3 y4 : ascii) (w : str) :
  in_range "2" "9" y3 = true -> is_digit y4 = true -> plain_name w = true ->
  formatHorseNameForDisplay (year_prefixed y3 y4 w) = toUpperCase w ++ [" "; y3; y4].
Proof.
  intros H3 H4 Hw. unfold formatHorseNameForDisplay.
  change (truthy (year_prefixed y3 y4 w)) with true. cbn [negb].
  rewrite (trim_year_prefixed y3 y4 w Hw).
  unfold year_prefixed at 1. rewrite leading_junk_none by reflexivity.
  destruct (year4_start_match y3 y4 w H3 H4 Hw) as (m & Hm & Hg1 & Hg2).
  unfold year_prefixed in Hm. rewrite Hm, Hg1, Hg2.
  rewrite (outer_non_letters_none w Hw), (trim_plain_name w Hw).
  reflexivity.
Qed.
Lemma digit_not_letter (c : ascii) : is_digit c = true -> is_letter c = false.
Proof. destruct c as [[] [] [] [] [] [] [] []]; simpl; intro H; try reflexivity; discriminate H. Qed.

Lemma non_digit_not_1 (c : ascii) : is_digit c = false -> (c =? "1")%char = false.
Proof. destruct c as [[] [] [] [] [] [] [] []]; simpl; intro H; try reflexivity; discriminate H. Qed.

Lemma non_digit_not_2 (c : ascii) : is_digit c = false -> (c =? "2")%char = false.
Proof. destruct c as [[] [] [] [] [] [] [] []]; simpl; intro H; try reflexivity; discriminate H. Qed.

Lemma year_digit_not_1 (c : ascii) : in_range "2" "9" c = true -> (c =? "1")%char = false.
Proof. destruct c as [[] [] [] [] [] [] [] []]; simpl; intro H; try reflexivity; discriminate H. Qed.

Lemma match_text_reads (st e : mstate) (m : str) :
  after st = m ++ after e -> match_text (st, e) = m.
Proof.
  intro E. unfold match_text. cbn [fst snd].
  rewrite E, length_app, Nat.add_sub.
  now rewrite firstn_app, Nat.sub_diag, firstn_all, app_nil_r.
Qed.

Lemma run_lit_miss (c1 : ascii) (r : regex) (s : mstate) :
  match after s with c :: _ => (c =? c1)%char = false | [] => True end ->
  run no_flags (Cat (Lit c1) r) s = [].
Proof.
  intro H. cbn [run]. unfold eat, lit_has. cbn [ignoreCase no_flags].
  destruct (after s) as [|c rest]; [reflexivity|]. now rewrite H.
Qed.

Lemma four_digit_cannot_start (s : mstate) :
  match after s with c :: _ => is_digit c = false | [] => True end ->
  run no_flags re_four_digit_year s = [].
Proof.
  intro H.
  assert (H19 : run no_flags (lit "19") s = []).
  { apply (run_lit_miss "1"). destruct (after s); [exact I | now apply non_digit_not_1]. }
  assert (H20 : run no_flags (lit "20") s = []).
  { apply (run_lit_miss "2"). destruct (after s); [exact I | now apply non_digit_not_2]. }
  unfold re_four_digit_year, seq. cbn [fold_right]. cbn [run].
  destruct (at_word_boundary s); [|reflexivity].
  cbn [flat_map]. now rewrite H19, H20.
Qed.

Lemma two_digit_cannot_start (s : mstate) :
  match after s with c :: _ => is_digit c = false | [] => True end ->
  run no_flags re_two_digit_year s = [].
Proof.
  intro H. unfold re_two_digit_year, seq, times, digit. cbn [fold_right].
  cbn [run]. destruct (at_word_boundary s); [|reflexivity].
  cbn [flat_map rep_exact]. unfold eat.
  destruct (after s) as [|c rest]; [reflexivity|].
  rewrite class_digit, H. reflexivity.
Qed.

Lemma first_end_wordb (fl : flags) (s : mstate) :
  at_word_boundary s = true -> first_end fl WordB s = Some s.
Proof. unfold first_end. cbn [run]. now intros ->. Qed.

(** The four-digit year is found at the start of "20YY Name". *)
Lemma four_digit_year_prefixed (y3 y4 : ascii) (w : str) :
  in_range "2" "9" y3 = true -> is_digit y4 = true ->
  exists m, exec no_flags re_four_digit_year (year_prefixed y3 y4 w) = Some m
            /\ match_text m = ["2"; "0"; y3; y4].
Proof.
  intros H3 H4. unfold exec, year_prefixed.
  set (s0 := {| before := []; after := "2" :: "0" :: y3 :: y4 :: " " :: w; caps := [] |}).
  set (s1 := {| before := ["0"; "2"]; after := y3 :: y4 :: " " :: w;
                caps := [(1, ["2"; "0"])] |}).
  set (s2 := {| before := [y4; y3; "0"; "2"]; after := " " :: w;
                caps := [(1, ["2"; "0"])] |}).
  assert (H1 : first_end no_flags (Group 1 (Alt (lit "19") (lit "20"))) s0 = Some s1).
  { apply first_end_single. unfold lit, seq. cbn -[set_cap].
    rewrite (set_cap_reads 1 ["2"; "0"]); reflexivity. }
  assert (H2 : first_end no_flags (times 2 digit) s1 = Some s2).
  { apply first_end_single. unfold times, digit. cbn -[class_has].
    unfold eat. cbn -[class_has].
    rewrite class_digit, (year_digit_is_digit y3 H3). cbn -[class_has].
    rewrite class_digit, H4. reflexivity. }
  exists (s0, s2). split.
  - apply first_end_exec. unfold re_four_digit_year, seq. cbn [fold_right].
    eapply first_end_cat; [apply first_end_wordb; reflexivity|].
    eapply first_end_cat; [exact H1|].
    eapply first_end_cat; [exact H2|].
    eapply first_end_cat; [|reflexivity].
    apply first_end_wordb. unfold at_word_boundary. cbn [before after s2].
    now rewrite (digit_is_word y4 H4).
  - now apply match_text_reads.
Qed.
Lemma skipn_head_in {A : Type} (l : list A) (i : nat) :
  i < length l -> exists c l', skipn i l = c :: l' /\ In c l.
Proof.
  revert i. induction l as [|x l IH]; intros i Hi; [simpl in Hi; lia|].
  destruct i as [|i]; simpl.
  - exists x, l. auto.
  - destruct (IH i) as (c & l' & E & Hin); [simpl in Hi; lia|].
    exists c, l'. auto.
Qed.

Lemma upper_name_no_digit (w : str) (c : ascii) :
  forallb (fun c => is_letter c || (c =? " ")%char) w = true ->
  In c (toUpperCase w ++ [" "]) -> is_digit c = false.
Proof.
  intros Hall Hin. apply in_app_or in Hin. destruct Hin as [Hin|[<-|[]]]; [|reflexivity].
  unfold toUpperCase in Hin. apply in_map_iff in Hin. destruct Hin as (c0 & <- & Hin).
  rewrite forallb_forall in Hall. specialize (Hall _ Hin).
  apply letter_or_blank_not_digit. now rewrite upper_letter_or_blank.
Qed.

(** ** Shortest matches *)

Section MinLen.
Variable step : mstate -> list mstate.
Variable k : nat.
Hypothesis step_len :
  forall s e, In e (step s) -> k + length (after e) <= length (after s).

Lemma rep_exact_len (n : nat) :
  forall s e, In e (rep_exact step n s) -> n * k + length (after e) <= length (after s).
Proof.
  induction n as [|n IH]; intros s e; simpl.
  - intros [<-|[]]. lia.
  - intro H. apply in_flat_map in H. destruct H as (s1 & H1 & H2).
    apply step_len in H1. apply IH in H2. lia.
Qed.
End MinLen.

Lemma run_min_len (fl : flags) (r : regex) :
  forall s e, In e (run fl r s) -> min_len r + length (after e) <= length (after s).
Proof.
  induction r as [ |c| |items|items|r1 IH1 r2 IH2|r1 IH1 r2 IH2
                  |mn mx greedy r IH|n r IH| | | ];
    intros s e; cbn [run min_len].
  - intros [<-|[]]. lia.
  - intro H. apply eat_reads in H. destruct H as (c' & _ & R & _).
    apply reads_length in R. simpl in R. lia.
  - intro H. apply eat_reads in H. destruct H as (c' & _ & R & _).
    apply reads_length in R. simpl in R. lia.
  - intro H. apply eat_reads in H. destruct H as (c' & _ & R & _).
    apply reads_length in R. simpl in R. lia.
  - intro H. apply eat_reads in H. destruct H as (c' & _ & R & _).
    apply reads_length in R. simpl in R. lia.
  - intro H. apply in_flat_map in H. destruct H as (s1 & H1 & H2).
    apply IH1 in H1. apply IH2 in H2. lia.
  - intro H. apply in_app_or in H. destruct H as [H|H]; [apply IH1 in H | apply IH2 in H]; lia.
  - intro H. apply in_flat_map in H. destruct H as (s1 & H1 & H2).
    apply (rep_exact_len (run fl r) (min_len r) IH) in H1.
    destruct (rep_more_reads (run fl r) (run_reads fl r) _ _ _ _ H2) as (m & R).
    apply reads_length in R. lia.
  - intro H. apply in_map_iff in H. destruct H as (e' & <- & H).
    apply IH in H. exact H.
  - destruct (at_bol fl s); [|intros []]. intros [<-|[]]. lia.
  - destruct (at_eol fl s); [|intros []]. intros [<-|[]]. lia.
  - destruct (at_word_boundary s); [|intros []]. intros [<-|[]]. lia.
Qed.

(** No match where less text is left than the pattern needs. *)
Lemma run_too_short (fl : flags) (r : regex) (s : mstate) :
  length (after s) < min_len r -> run fl r s = [].
Proof.
  intro H. destruct (run fl r s) as [|e l] eqn:E; [reflexivity|].
  exfalso. assert (Hin : In e (run fl r s)) by (rewrite E; now left).
  apply run_min_len in Hin. lia.
Qed.

Lemma exec_from_too_short (fl : flags) (r : regex) (bef aft : str) :
  length aft < min_len r -> exec_from fl r bef aft = None.
Proof.
  intro H. apply exec_from_nowhere. intros i Hi. apply run_too_short.
  cbn [after]. rewrite length_skipn. lia.
Qed.

(** In "NAME YY" no four-digit year is found. *)
Lemma four_digit_year_display (y3 y4 : ascii) (w : str) :
  forallb (fun c => is_letter c || (c =? " ")%char) w = true ->
  exec no_flags re_four_digit_year (toUpperCase w ++ [" "; y3; y4]) = None.
Proof.
  intros Hall. unfold exec.
  change (toUpperCase w ++ [" "; y3; y4]) with (toUpperCase w ++ [" "] ++ [y3; y4]).
  rewrite app_assoc, exec_from_skip.
  - apply exec_from_too_short. simpl. lia.
  - intros i Hi. apply four_digit_cannot_start. cbn [after].
    destruct (skipn_head_in _ i Hi) as (c & l' & -> & Hin).
    simpl. eapply upper_name_no_digit; eauto.
Qed.

(** In "NAME YY" the two-digit year found is YY. *)
Lemma two_digit_year_display (y3 y4 : ascii) (w : str) :
  is_digit y3 = true -> is_digit y4 = true ->
  forallb (fun c => is_letter c || (c =? " ")%char) w = true ->
  exists m, exec no_flags re_two_digit_year (toUpperCase w ++ [" "; y3; y4]) = Some m
            /\ match_group m 1 = [y3; y4].
Proof.
  intros H3 H4 Hall. unfold exec.
  change (toUpperCase w ++ [" "; y3; y4]) with (toUpperCase w ++ [" "] ++ [y3; y4]).
  rewrite app_assoc, exec_from_skip.
  2:{ intros i Hi. apply two_digit_cannot_start. cbn [after].
      destruct (skipn_head_in _ i Hi) as (c & l' & -> & Hin).
      simpl. eapply upper_name_no_digit; eauto. }
  rewrite rev_app_distr. cbn [rev app].
  set (bef := " " :: rev (toUpperCase w) ++ []).
  set (s0 := {| before := bef; after := [y3; y4]; caps := [] |}).
  set (s1 := {| before := y4 :: y3 :: bef; after := []; caps := [(1, [y3; y4])] |}).
  assert (H1 : first_end no_flags (Group 1 (times 2 digit)) s0 = Some s1).
  { apply first_end_single. unfold times, digit. cbn -[class_has set_cap].
    unfold eat. cbn -[class_has set_cap].
    rewrite class_digit, H3. cbn -[class_has set_cap].
    rewrite class_digit, H4. cbn -[class_has set_cap].
    rewrite (set_cap_reads 1 [y3; y4]); reflexivity. }
  exists (s0, s1). split; [|reflexivity].
  apply first_end_exec. unfold re_two_digit_year, seq. cbn [fold_right].
  eapply first_end_cat.
  { apply first_end_wordb. unfold at_word_boundary. cbn [before after s0 bef].
    now rewrite (digit_is_word y3 H3). }
  eapply first_end_cat; [exact H1|].
  eapply first_end_cat; [|reflexivity].
  apply first_end_wordb. unfold at_word_boundary. cbn [before after s1].
  now rewrite (digit_is_word y4 H4).
Qed.

Lemma lower_letters_upper (w : str) :
  toLowerCase (filter is_letter (toUpperCase w)) = toLowerCase (filter is_letter w).
Proof.
  unfold toLowerCase, toUpperCase. induction w as [|c w IH]; simpl; [reflexivity|].
  rewrite is_letter_upper. destruct (is_letter c); simpl; [|exact IH].
  now rewrite lower_upper_char, IH.
Qed.

Lemma normalize_year_prefixed (y3 y4 : ascii) (w : str) :
  in_range "2" "9" y3 = true -> is_digit y4 = true ->
  normalizeHorseNameForMatch (year_prefixed y3 y4 w)
  = toLowerCase (filter is_letter w) ++ [y3; y4].
Proof.
  intros H3 H4. unfold normalizeHorseNameForMatch.
  change (truthy (year_prefixed y3 y4 w)) with true. cbn [negb].
  destruct (four_digit_year_prefixed y3 y4 w H3 H4) as (m & -> & ->).
  rewrite letters_of. unfold year_prefixed. cbn [filter].
  rewrite (digit_not_letter y3 (year_digit_is_digit y3 H3)), (digit_not_letter y4 H4).
  reflexivity.
Qed.

Lemma normalize_display (y3 y4 : ascii) (w : str) :
  is_digit y3 = true -> is_digit y4 = true ->
  forallb (fun c => is_letter c || (c =? " ")%char) w = true ->
  normalizeHorseNameForMatch (toUpperCase w ++ [" "; y3; y4])
  = toLowerCase (filter is_letter w) ++ [y3; y4].
Proof.
  intros H3 H4 Hall. unfold normalizeHorseNameForMatch.
  assert (Ht : truthy (toUpperCase w ++ [" "; y3; y4]) = true) by (destruct w; reflexivity).
  rewrite Ht. cbn [negb].
  rewrite (four_digit_year_display y3 y4 w Hall).
  destruct (two_digit_year_display y3 y4 w H3 H4 Hall) as (m & -> & ->).
  rewrite letters_of, filter_app. cbn [filter].
  rewrite (digit_not_letter y3 H3), (digit_not_letter y4 H4). cbn [is_letter].
  change (is_letter " ") with false. cbv iota.
  rewrite app_nil_r. unfold toLowerCase at 1. fold (toLowerCase (filter is_letter (toUpperCase w))).
  now rewrite lower_letters_upper.
Qed.

(** The display form of "20YY Name" passes the test of [resolveHorseAlias]
    against "20YY Name": the two have the same normalized key. *)
Lemma year_prefixed_display_matches (y3 y4 : ascii) (w : str) :
  in_range "2" "9" y3 = true -> is_digit y4 = true -> plain_name w = true ->
  name_matches (formatHorseNameForDisplay (year_prefixed y3 y4 w))
               (year_prefixed y3 y4 w) = true.
Proof.
  intros H3 H4 Hw. destruct (plain_name_inv w Hw) as (Hall & _).
  rewrite (format_year_prefixed y3 y4 w H3 H4 Hw).
  unfold name_matches, spelling_matches.
  rewrite (normalize_year_prefixed y3 y4 w H3 H4).
  rewrite (normalize_display y3 y4 w (year_digit_is_digit y3 H3) H4 Hall).
  rewrite str_eqb_refl. apply orb_true_r.
Qed.

(** C7 (amended).  Resolving the display form of a canonical name [k] of the
    mapping returns [k] whenever the display form is not empty and passes,
    against [k] itself, the test of [resolveHorseAlias], and no canonical
    name stored before [k] passes that test.  This is so for every canonical
    name "20YY Name" with YY from 20 to 99 and Name made of letters and
    blanks between two letters: its display form is "NAME YY" and resolves
    back to it. *)
Theorem display_round_trip :
  (forall (m1 m2 : horse_mapping) (k : str) (d : HorseData),
      truthy (formatHorseNameForDisplay k) = true ->
      name_matches (formatHorseNameForDisplay k) k = true ->
      (forall k', In k' (obj_keys m1) ->
                  name_matches (formatHorseNameForDisplay k) k' = false) ->
      resolveHorseAlias (formatHorseNameForDisplay k) (m1 ++ (k, d) :: m2) = k)
  /\ (forall (m1 m2 : horse_mapping) (d : HorseData) (y3 y4 : ascii) (w : str),
         in_range "2" "9" y3 = true -> is_digit y4 = true -> plain_name w = true ->
         (forall k', In k' (obj_keys m1) ->
                     name_matches (toUpperCase w ++ [" "; y3; y4]) k' = false) ->
         formatHorseNameForDisplay (year_prefixed y3 y4 w)
         = toUpperCase w ++ [" "; y3; y4]
         /\ resolveHorseAlias (formatHorseNameForDisplay (year_prefixed y3 y4 w))
                              (m1 ++ (year_prefixed y3 y4 w, d) :: m2)
            = year_prefixed y3 y4 w).
Proof.
  split.
  - intros. now apply display_resolves_when_matching.
  - intros m1 m2 d y3 y4 w H3 H4 Hw Hbefore.
    pose proof (format_year_prefixed y3 y4 w H3 H4 Hw) as Hf.
    split; [exact Hf|].
    apply display_resolves_when_matching.
    + rewrite Hf. destruct w; reflexivity.
    + now apply year_prefixed_display_matches.
    + now rewrite Hf.
Qed.

Lemma display_round_trip_witness :
  year_prefixed "2" "2" (js "Ginger Punch") = js "2022 Ginger Punch"
  /\ formatHorseNameForDisplay (js "2022 Ginger Punch") = js "GINGER PUNCH 22"
  /\ resolveHorseAlias (formatHorseNameForDisplay (js "2022 Ginger Punch"))
       ([(js "2023 Stoweshoe", blank_horse)]
          ++ (js "2022 Ginger Punch", horse_with_aliases [js "Ginger Punch"]) :: [])
     = js "2022 Ginger Punch".
Proof.
  split; [reflexivity|].
  destruct display_round_trip as [_ H].
  apply (H [(js "2023 Stoweshoe", blank_horse)] []
           (horse_with_aliases [js "Ginger Punch"]) "2" "2" (js "Ginger Punch")).
  - reflexivity.
  - reflexivity.
  - reflexivity.
  - intros k' [<-|[]]. vm_compute. reflexivity.
Defined.

(** ** Mixed fractions of miles *)

Lemma class_digit_i (c : ascii) : class_has flag_i [CDigit] c = is_digit c.
Proof. destruct c as [[] [] [] [] [] [] [] []]; reflexivity. Qed.

Lemma class_space_i (c : ascii) : class_has flag_i [CSpace] c = is_space c.
Proof. destruct c as [[] [] [] [] [] [] [] []]; reflexivity. Qed.

Lemma digit_not_space (c : ascii) : is_digit c = true -> is_space c = false.
Proof. destruct c as [[] [] [] [] [] [] [] []]; simpl; intro H; try reflexivity; discriminate H. Qed.

Lemma forallb_ext_in {A : Type} (p q : A -> bool) (l : list A) :
  (forall x, p x = q x) -> forallb p l = forallb q l.
Proof. intro H. induction l as [|x l IH]; simpl; [reflexivity | now rewrite H, IH]. Qed.

(** A capturing group around a greedy run of one class captures the run. *)
Lemma first_end_group_run (fl : flags) (n : nat) (r : regex) (p : ascii -> bool)
      (w rest : str) (s : mstate) :
  one_char fl r p -> after s = w ++ rest -> forallb p w = true -> 1 <= length w ->
  match rest with c :: _ => p c = false | [] => True end ->
  first_end fl (Group n (plus r)) s
  = Some {| before := rev w ++ before s; after := rest; caps := (n, w) :: caps s |}.
Proof.
  intros Hone Ha Hall Hlen Hend.
  rewrite (first_end_group fl n _ s (advance w s)).
  - rewrite (advance_reads w rest s Ha).
    now rewrite (set_cap_reads n w) by exact Ha.
  - apply (first_end_rep fl r p 1 None w s Hone); [|exact Hlen | exact I].
    exists rest. auto.
Qed.

Lemma first_end_run (fl : flags) (r : regex) (p : ascii -> bool) (mn : nat)
      (w rest : str) (s : mstate) :
  one_char fl r p -> after s = w ++ rest -> forallb p w = true -> mn <= length w ->
  match rest with c :: _ => p c = false | [] => True end ->
  first_end fl (Rep mn None true r) s
  = Some {| before := rev w ++ before s; after := rest; caps := caps s |}.
Proof.
  intros Hone Ha Hall Hlen Hend.
  rewrite (first_end_rep fl r p mn None w s Hone); [|exists rest; auto | exact Hlen | exact I].
  now rewrite (advance_reads w rest s Ha).
Qed.

(** An optional character never fails and captures nothing. *)
Lemma first_end_opt (fl : flags) (r : regex) (p : ascii -> bool) (s : mstate) :
  one_char fl r p -> exists x, first_end fl (opt r) s = Some x /\ caps x = caps s.
Proof.
  intro Hone. unfold first_end, opt. cbn [run rep_exact flat_map rep_more Nat.sub].
  rewrite app_nil_r, Hone. unfold eat.
  destruct (after s) as [|c rest]; [exists s; auto|].
  destruct (p c); [|exists s; auto].
  cbn [flat_map after]. 
  assert (Hlt : (length rest <? length (c :: rest)) = true) by (apply Nat.ltb_lt; simpl; lia).
  rewrite Hlt. cbn. eauto.
Qed.

Lemma parseInt_digits (ds : str) :
  forallb is_digit ds = true -> 1 <= length ds -> parseInt ds = numZ (digits_value ds).
Proof.
  intros Hall Hlen. unfold parseInt.
  destruct ds as [|c ds]; [simpl in Hlen; lia|].
  simpl in Hall. apply andb_true_iff in Hall. destruct Hall as [Hc Hall].
  rewrite trimStart_id by (now apply digit_not_space).
  assert (Hm : (c =? "-")%char = false)
    by (destruct c as [[] [] [] [] [] [] [] []]; simpl in *; try reflexivity; discriminate Hc).
  assert (Hp : (c =? "+")%char = false)
    by (destruct c as [[] [] [] [] [] [] [] []]; simpl in *; try reflexivity; discriminate Hc).
  rewrite Hm, Hp.
  assert (Htw : forall l, forallb is_digit l = true -> take_while is_digit l = l).
  { induction l as [|x l IH]; simpl; [reflexivity|].
    intro H. apply andb_true_iff in H. destruct H as [-> H]. now rewrite IH. }
  cbn [take_while]. rewrite Hc, (Htw ds Hall). reflexivity.
Qed.

(** ** The distance, form by form *)

Lemma test_false_exec (r : regex) (text : str) :
  test flag_i r text = false -> exec flag_i r text = None.
Proof. unfold test. now destruct (exec flag_i r text). Qed.

Lemma short_number_digits (w : str) :
  short_number w = true -> forallb is_digit w = true /\ 1 <= length w.
Proof.
  unfold short_number. intro H.
  apply andb_true_iff in H. destruct H as [H _].
  apply andb_true_iff in H. destruct H as [H1 H2].
  apply Nat.leb_le in H2. now split.
Qed.

Lemma binary_denominator_digits (d : str) :
  array_includes binary_denominators d = true ->
  forallb is_digit d = true /\ 1 <= length d
  /\ (d = js "2" \/ d = js "4" \/ d = js "8" \/ d = js "16").
Proof.
  intro H. apply array_includes_In in H.
  destruct H as [<-|[<-|[<-|[<-|[]]]]]; (split; [reflexivity|]);
    (split; [cbn; lia|]); auto.
Qed.

(** An optional part that matches, and reads something, is taken. *)
Lemma first_end_opt_taken (fl : flags) (r : regex) (s y : mstate) :
  first_end fl r s = Some y -> length (after y) < length (after s) ->
  first_end fl (opt r) s = Some y.
Proof.
  unfold first_end, opt. intros Hr Hlt.
  cbn [run rep_exact flat_map rep_more Nat.sub]. rewrite app_nil_r.
  destruct (run fl r s) as [|y' l]; [discriminate|]. injection Hr as ->.
  cbn [flat_map]. apply Nat.ltb_lt in Hlt. rewrite Hlt. reflexivity.
Qed.

(** An optional part that cannot match is passed over. *)
Lemma first_end_opt_passed (fl : flags) (r : regex) (s : mstate) :
  run fl r s = [] -> first_end fl (opt r) s = Some s.
Proof.
  unfold first_end, opt. intro Hr.
  cbn [run rep_exact flat_map rep_more Nat.sub]. rewrite app_nil_r, Hr. reflexivity.
Qed.


(** "W N/D Furlong" is matched where it stands. *)
Lemma furlongs_fraction_match (bef : str) (w n d tail : str) :
  forallb is_digit w = true -> 1 <= length w ->
  forallb is_digit n = true -> 1 <= length n ->
  forallb is_digit d = true -> 1 <= length d ->
  exists m,
    exec_from flag_i re_furlongs_fraction bef
              (w ++ " " :: n ++ "/" :: d ++ js " Furlong" ++ tail)
    = Some m
    /\ match_group m 1 = w /\ match_group m 2 = n /\ match_group m 3 = d.
Proof.
  intros Hw Lw Hn Ln Hd Ld.
  assert (Hdig : forall l, forallb is_digit l = true ->
                           forallb (class_has flag_i [CDigit]) l = true).
  { intros l H. now rewrite (forallb_ext_in _ is_digit l class_digit_i). }
  destruct n as [|n0 n']; [simpl in Ln; lia|].
  destruct d as [|d0 d']; [simpl in Ld; lia|].
  pose proof Hn as Hn0. simpl in Hn0. apply andb_true_iff in Hn0. destruct Hn0 as [Hn0 _].
  pose proof Hd as Hd0. simpl in Hd0. apply andb_true_iff in Hd0. destruct Hd0 as [Hd0 _].
  set (text := w ++ " " :: (n0 :: n') ++ "/" :: (d0 :: d') ++ js " Furlong" ++ tail).
  set (s0 := {| before := bef; after := text; caps := [] |}).
  set (s1 := {| before := rev w ++ before s0;
                after := " " :: (n0 :: n') ++ "/" :: (d0 :: d') ++ js " Furlong" ++ tail;
                caps := (1, w) :: caps s0 |}).
  set (s2 := {| before := rev [" "] ++ before s1;
                after := (n0 :: n') ++ "/" :: (d0 :: d') ++ js " Furlong" ++ tail;
                caps := caps s1 |}).
  set (s3 := {| before := rev (n0 :: n') ++ before s2;
                after := "/" :: (d0 :: d') ++ js " Furlong" ++ tail;
                caps := (2, n0 :: n') :: caps s2 |}).
  set (s4 := {| before := "/" :: before s3; after := (d0 :: d') ++ js " Furlong" ++ tail;
                caps := caps s3 |}).
  set (s5 := {| before := rev (d0 :: d') ++ before s4; after := js " Furlong" ++ tail;
                caps := (3, d0 :: d') :: caps s4 |}).
  set (s6 := {| before := rev [" "] ++ before s5; after := js "Furlong" ++ tail;
                caps := caps s5 |}).
  set (s7 := {| before := rev (js "Furlong") ++ before s6; after := tail;
                caps := caps s6 |}).
  assert (H1 : first_end flag_i (Group 1 (plus digit)) s0 = Some s1).
  { apply (first_end_group_run flag_i 1 digit _ w _ s0 (one_char_class _ _));
      auto; reflexivity. }
  assert (H2 : first_end flag_i (plus space) s1 = Some s2).
  { apply (first_end_run flag_i space _ 1 [" "] _ s1 (one_char_class _ _));
      auto; try reflexivity.
    cbn [app]. rewrite class_space_i. now apply digit_not_space. }
  assert (H3 : first_end flag_i (Group 2 (plus digit)) s2 = Some s3).
  { apply (first_end_group_run flag_i 2 digit _ (n0 :: n') _ s2 (one_char_class _ _));
      auto; reflexivity. }
  assert (H4 : first_end flag_i (Lit "/") s3 = Some s4) by reflexivity.
  assert (H5 : first_end flag_i (Group 3 (plus digit)) s4 = Some s5).
  { apply (first_end_group_run flag_i 3 digit _ (d0 :: d') _ s4 (one_char_class _ _));
      auto; reflexivity. }
  assert (H6 : first_end flag_i (star space) s5 = Some s6).
  { apply (first_end_run flag_i space _ 0 [" "] _ s5 (one_char_class _ _));
      auto; try reflexivity. simpl. lia. }
  assert (H7 : first_end flag_i (lit "Furlong") s6 = Some s7) by reflexivity.
  exists (s0, s7). split.
  - apply first_end_exec. unfold re_furlongs_fraction, seq. cbn [fold_right].
    eapply first_end_cat; [exact H1|].
    eapply first_end_cat; [exact H2|].
    eapply first_end_cat; [exact H3|].
    eapply first_end_cat; [exact H4|].
    eapply first_end_cat; [exact H5|].
    eapply first_end_cat; [exact H6|].
    eapply first_end_cat; [exact H7|].
    reflexivity.
  - unfold match_group. cbn [snd]. repeat split; reflexivity.
Qed.

(** "W N/D Mile" is matched where it stands. *)
Lemma miles_fraction_match (bef : str) (w n d tail : str) :
  forallb is_digit w = true -> 1 <= length w ->
  forallb is_digit n = true -> 1 <= length n ->
  forallb is_digit d = true -> 1 <= length d ->
  exists m,
    exec_from flag_i re_miles_fraction bef
              (w ++ " " :: n ++ "/" :: d ++ js " Mile" ++ tail)
    = Some m
    /\ match_group m 1 = w /\ match_group m 2 = n /\ match_group m 3 = d.
Proof.
  intros Hw Lw Hn Ln Hd Ld.
  assert (Hdig : forall l, forallb is_digit l = true ->
                           forallb (class_has flag_i [CDigit]) l = true).
  { intros l H. now rewrite (forallb_ext_in _ is_digit l class_digit_i). }
  destruct n as [|n0 n']; [simpl in Ln; lia|].
  destruct d as [|d0 d']; [simpl in Ld; lia|].
  pose proof Hn as Hn0. simpl in Hn0. apply andb_true_iff in Hn0. destruct Hn0 as [Hn0 _].
  pose proof Hd as Hd0. simpl in Hd0. apply andb_true_iff in Hd0. destruct Hd0 as [Hd0 _].
  set (text := w ++ " " :: (n0 :: n') ++ "/" :: (d0 :: d') ++ js " Mile" ++ tail).
  set (s0 := {| before := bef; after := text; caps := [] |}).
  set (s1 := {| before := rev w ++ before s0;
                after := " " :: (n0 :: n') ++ "/" :: (d0 :: d') ++ js " Mile" ++ tail;
                caps := (1, w) :: caps s0 |}).
  set (s2 := {| before := rev [" "] ++ before s1;
                after := (n0 :: n') ++ "/" :: (d0 :: d') ++ js " Mile" ++ tail;
                caps := caps s1 |}).
  set (s3 := {| before := rev (n0 :: n') ++ before s2;
                after := "/" :: (d0 :: d') ++ js " Mile" ++ tail;
                caps := (2, n0 :: n') :: caps s2 |}).
  set (s4 := {| before := "/" :: before s3; after := (d0 :: d') ++ js " Mile" ++ tail;
                caps := caps s3 |}).
  set (s5 := {| before := rev (d0 :: d') ++ before s4; after := js " Mile" ++ tail;
                caps := (3, d0 :: d') :: caps s4 |}).
  set (s6 := {| before := rev [" "] ++ before s5; after := js "Mile" ++ tail;
                caps := caps s5 |}).
  set (s7 := {| before := rev (js "Mile") ++ before s6; after := tail; caps := caps s6 |}).
  assert (H1 : first_end flag_i (Group 1 (plus digit)) s0 = Some s1).
  { apply (first_end_group_run flag_i 1 digit _ w _ s0 (one_char_class _ _));
      auto; reflexivity. }
  assert (H2 : first_end flag_i (plus space) s1 = Some s2).
  { apply (first_end_run flag_i space _ 1 [" "] _ s1 (one_char_class _ _));
      auto; try reflexivity.
    cbn [app]. rewrite class_space_i. now apply digit_not_space. }
  assert (H3 : first_end flag_i (Group 2 (plus digit)) s2 = Some s3).
  { apply (first_end_group_run flag_i 2 digit _ (n0 :: n') _ s2 (one_char_class _ _));
      auto; reflexivity. }
  assert (H4 : first_end flag_i (Lit "/") s3 = Some s4) by reflexivity.
  assert (H5 : first_end flag_i (Group 3 (plus digit)) s4 = Some s5).
  { apply (first_end_group_run flag_i 3 digit _ (d0 :: d') _ s4 (one_char_class _ _));
      auto; reflexivity. }
  assert (H6 : first_end flag_i (star space) s5 = Some s6).
  { apply (first_end_run flag_i space _ 0 [" "] _ s5 (one_char_class _ _));
      auto; try reflexivity. simpl. lia. }
  assert (H7 : first_end flag_i (lit "Mile") s6 = Some s7) by reflexivity.
  destruct (first_end_opt flag_i (Lit "s") _ s7 (one_char_lit _ _)) as (x & H8 & Hcaps).
  exists (s0, x). split.
  - apply first_end_exec. unfold re_miles_fraction, seq. cbn [fold_right].
    eapply first_end_cat; [exact H1|].
    eapply first_end_cat; [exact H2|].
    eapply first_end_cat; [exact H3|].
    eapply first_end_cat; [exact H4|].
    eapply first_end_cat; [exact H5|].
    eapply first_end_cat; [exact H6|].
    eapply first_end_cat; [exact H7|].
    eapply first_end_cat; [exact H8|].
    reflexivity.
  - unfold match_group. cbn [snd]. rewrite Hcaps. repeat split; reflexivity.
Qed.



Lemma space_not_s (c : ascii) : is_space c = true -> lit_has flag_i "s" c = false.
Proof. destruct c as [[] [] [] [] [] [] [] []]; simpl; intro H; try reflexivity; discriminate H. Qed.

(** After "Mile" or "Miles", a blank or the end of the text. *)
Lemma miles_end_match (plural : bool) (tail : str) (bef : str) (cs : list (nat * str)) :
  match tail with [] => true | c :: _ => is_space c end = true ->
  exists y,
    first_end flag_i (Cat (opt (Lit "s")) (Cat (Alt space Eol) Eps))
              {| before := bef; after := (if plural then js "s" else []) ++ tail;
                 caps := cs |}
    = Some y
    /\ caps y = cs.
Proof.
  intro Ht.
  set (s3 := {| before := bef; after := (if plural then js "s" else []) ++ tail;
                caps := cs |}).
  assert (H4 : exists s4, first_end flag_i (opt (Lit "s")) s3 = Some s4
                          /\ after s4 = tail /\ caps s4 = cs).
  { destruct plural.
    - exists {| before := "s" :: bef; after := tail; caps := cs |}.
      split; [|split; reflexivity].
      apply first_end_opt_taken; [reflexivity|]. cbn. lia.
    - exists s3. split; [|split; reflexivity].
      apply first_end_opt_passed. cbn [run]. unfold eat, s3. cbn [after app].
      destruct tail as [|c rest]; [reflexivity|]. now rewrite (space_not_s c Ht). }
  destruct H4 as (s4 & H4 & Ha4 & Hc4).
  assert (H5 : exists y, first_end flag_i (Alt space Eol) s4 = Some y /\ caps y = cs).
  { unfold first_end, space. cbn [run]. unfold eat, at_eol. rewrite Ha4.
    destruct tail as [|c rest].
    - exists s4. split; [reflexivity | exact Hc4].
    - rewrite class_space_i, Ht. cbn [app hd_error]. eexists. split; [reflexivity|].
      exact Hc4. }
  destruct H5 as (y & H5 & Hcy).
  exists y. split; [|exact Hcy].
  eapply first_end_cat; [exact H4|].
  eapply first_end_cat; [exact H5|]. reflexivity.
Qed.

(** "W Mile" and "W Miles" are matched where they stand. *)
Lemma miles_whole_match (bef : str) (w : str) (plural : bool) (tail : str) :
  forallb is_digit w = true -> 1 <= length w ->
  match tail with [] => true | c :: _ => is_space c end = true ->
  exists m,
    exec_from flag_i re_miles_whole bef
              (w ++ js " Mile" ++ (if plural then js "s" else []) ++ tail)
    = Some m
    /\ match_group m 1 = w.
Proof.
  intros Hw Lw Ht.
  assert (Hdig : forallb (class_has flag_i [CDigit]) w = true)
    by now rewrite (forallb_ext_in _ is_digit w class_digit_i).
  set (sfx := (if plural then js "s" else []) ++ tail).
  set (s0 := {| before := bef; after := w ++ js " Mile" ++ sfx; caps := [] |}).
  set (s1 := {| before := rev w ++ before s0; after := js " Mile" ++ sfx;
                caps := (1, w) :: caps s0 |}).
  set (s2 := {| before := rev [" "] ++ before s1; after := js "Mile" ++ sfx;
                caps := caps s1 |}).
  set (s3 := {| before := rev (js "Mile") ++ before s2; after := sfx; caps := caps s2 |}).
  assert (H1 : first_end flag_i (Group 1 (plus digit)) s0 = Some s1).
  { apply (first_end_group_run flag_i 1 digit _ w _ s0 (one_char_class _ _));
      auto; reflexivity. }
  assert (H2 : first_end flag_i (star space) s1 = Some s2).
  { apply (first_end_run flag_i space _ 0 [" "] _ s1 (one_char_class _ _));
      auto; try reflexivity. simpl. lia. }
  assert (H3 : first_end flag_i (lit "Mile") s2 = Some s3) by reflexivity.
  destruct (miles_end_match plural tail (before s3) (caps s3) Ht) as (y & H4 & Hcy).
  exists (s0, y). split.
  - apply first_end_exec. unfold re_miles_whole, seq. cbn [fold_right].
    eapply first_end_cat; [exact H1|].
    eapply first_end_cat; [exact H2|].
    eapply first_end_cat; [exact H3|].
    exact H4.
  - unfold match_group. cbn [snd]. rewrite Hcy. reflexivity.
Qed.


(** "W.F Furlong" is matched where it stands. *)
Lemma furlongs_decimal_match (bef : str) (w f tail : str) :
  forallb is_digit w = true -> 1 <= length w ->
  forallb is_digit f = true -> 1 <= length f ->
  exists m,
    exec_from flag_i re_furlongs_decimal bef (w ++ "." :: f ++ js " Furlong" ++ tail)
    = Some m
    /\ match_group m 1 = w ++ "." :: f.
Proof.
  intros Hw Lw Hf Lf.
  assert (Hdig : forall l, forallb is_digit l = true ->
                           forallb (class_has flag_i [CDigit]) l = true).
  { intros l H. now rewrite (forallb_ext_in _ is_digit l class_digit_i). }
  destruct f as [|f0 f']; [simpl in Lf; lia|].
  set (s0 := {| before := bef; after := w ++ "." :: (f0 :: f') ++ js " Furlong" ++ tail;
                caps := [] |}).
  set (sA := {| before := rev w ++ before s0;
                after := "." :: (f0 :: f') ++ js " Furlong" ++ tail; caps := caps s0 |}).
  set (sB := {| before := "." :: before sA; after := (f0 :: f') ++ js " Furlong" ++ tail;
                caps := caps sA |}).
  set (sC := {| before := rev (f0 :: f') ++ before sB; after := js " Furlong" ++ tail;
                caps := caps sB |}).
  set (s1 := {| before := before sC; after := after sC;
                caps := (1, w ++ "." :: f0 :: f') :: caps sC |}).
  set (s2 := {| before := rev [" "] ++ before s1; after := js "Furlong" ++ tail;
                caps := caps s1 |}).
  set (s3 := {| before := rev (js "Furlong") ++ before s2; after := tail;
                caps := caps s2 |}).
  assert (HA : first_end flag_i (plus digit) s0 = Some sA).
  { apply (first_end_run flag_i digit _ 1 w _ s0 (one_char_class _ _));
      auto; reflexivity. }
  assert (HB : first_end flag_i (Lit ".") sA = Some sB) by reflexivity.
  assert (HC : first_end flag_i (plus digit) sB = Some sC).
  { apply (first_end_run flag_i digit _ 1 (f0 :: f') _ sB (one_char_class _ _));
      auto; reflexivity. }
  assert (Hopt : first_end flag_i (opt (seq [Lit "."; plus digit])) sA = Some sC).
  { apply first_end_opt_taken.
    - unfold seq. cbn [fold_right].
      eapply first_end_cat; [exact HB|].
      eapply first_end_cat; [exact HC|]. reflexivity.
    - unfold sC, sA. cbn [after]. cbn [length app]. rewrite !length_app. cbn [length]. lia. }
  assert (H1 : first_end flag_i
                         (Group 1 (seq [plus digit; opt (seq [Lit "."; plus digit])])) s0
               = Some s1).
  { rewrite (first_end_group flag_i 1 _ s0 sC).
    - f_equal. apply set_cap_reads. cbn [after s0 sC]. now rewrite <- app_assoc.
    - unfold seq at 1. cbn [fold_right].
      eapply first_end_cat; [exact HA|].
      eapply first_end_cat; [exact Hopt|]. reflexivity. }
  assert (H2 : first_end flag_i (star space) s1 = Some s2).
  { apply (first_end_run flag_i space _ 0 [" "] _ s1 (one_char_class _ _));
      auto; try reflexivity. simpl. lia. }
  assert (H3 : first_end flag_i (lit "Furlong") s2 = Some s3) by reflexivity.
  exists (s0, s3). split.
  - apply first_end_exec. unfold re_furlongs_decimal. unfold seq at 1. cbn [fold_right].
    eapply first_end_cat; [exact H1|].
    eapply first_end_cat; [exact H2|].
    eapply first_end_cat; [exact H3|]. reflexivity.
  - reflexivity.
Qed.

(** "W Furlong" is matched where it stands by the pattern of the
    decimal numbers. *)
Lemma furlongs_whole_match (bef : str) (w tail : str) :
  forallb is_digit w = true -> 1 <= length w ->
  exists m,
    exec_from flag_i re_furlongs_decimal bef (w ++ js " Furlong" ++ tail) = Some m
    /\ match_group m 1 = w.
Proof.
  intros Hw Lw.
  assert (Hdig : forallb (class_has flag_i [CDigit]) w = true)
    by now rewrite (forallb_ext_in _ is_digit w class_digit_i).
  set (s0 := {| before := bef; after := w ++ js " Furlong" ++ tail; caps := [] |}).
  set (sA := {| before := rev w ++ before s0; after := js " Furlong" ++ tail;
                caps := caps s0 |}).
  set (s1 := {| before := before sA; after := after sA; caps := (1, w) :: caps sA |}).
  set (s2 := {| before := rev [" "] ++ before s1; after := js "Furlong" ++ tail;
                caps := caps s1 |}).
  set (s3 := {| before := rev (js "Furlong") ++ before s2; after := tail;
                caps := caps s2 |}).
  assert (HA : first_end flag_i (plus digit) s0 = Some sA).
  { apply (first_end_run flag_i digit _ 1 w _ s0 (one_char_class _ _));
      auto; reflexivity. }
  assert (Hopt : first_end flag_i (opt (seq [Lit "."; plus digit])) sA = Some sA).
  { apply first_end_opt_passed. reflexivity. }
  assert (H1 : first_end flag_i
                         (Group 1 (seq [plus digit; opt (seq [Lit "."; plus digit])])) s0
               = Some s1).
  { rewrite (first_end_group flag_i 1 _ s0 sA).
    - f_equal. apply set_cap_reads. reflexivity.
    - unfold seq at 1. cbn [fold_right].
      eapply first_end_cat; [exact HA|].
      eapply first_end_cat; [exact Hopt|]. reflexivity. }
  assert (H2 : first_end flag_i (star space) s1 = Some s2).
  { apply (first_end_run flag_i space _ 0 [" "] _ s1 (one_char_class _ _));
      auto; try reflexivity. simpl. lia. }
  assert (H3 : first_end flag_i (lit "Furlong") s2 = Some s3) by reflexivity.
  exists (s0, s3). split.
  - apply first_end_exec. unfold re_furlongs_decimal. unfold seq at 1. cbn [fold_right].
    eapply first_end_cat; [exact H1|].
    eapply first_end_cat; [exact H2|].
    eapply first_end_cat; [exact H3|]. reflexivity.
  - reflexivity.
Qed.

(** A number written out, from Five to Nine, is matched where it
    stands. *)
Lemma furlongs_word_match (bef : str) (word tail : str) :
  array_includes (obj_keys furlong_words) word = true ->
  exists m,
    exec_from flag_i re_furlongs_word bef (word ++ js " Furlong" ++ tail) = Some m
    /\ match_group m 1 = word.
Proof.
  intro H.
  set (s0 := {| before := bef; after := word ++ js " Furlong" ++ tail; caps := [] |}).
  set (sA := {| before := rev word ++ before s0; after := js " Furlong" ++ tail;
                caps := caps s0 |}).
  set (s1 := {| before := before sA; after := after sA; caps := (1, word) :: caps sA |}).
  set (s2 := {| before := rev [" "] ++ before s1; after := js "Furlong" ++ tail;
                caps := caps s1 |}).
  set (s3 := {| before := rev (js "Furlong") ++ before s2; after := tail;
                caps := caps s2 |}).
  assert (HA : first_end flag_i
                         (alts [plus digit; lit "Seven"; lit "Six"; lit "Five";
                                lit "Eight"; lit "Nine"]) s0 = Some sA).
  { apply array_includes_In in H. cbn in H. subst s0 sA.
    destruct H as [<-|[<-|[<-|[<-|[<-|[]]]]]]; reflexivity. }
  assert (H1 : first_end flag_i
                         (Group 1 (alts [plus digit; lit "Seven"; lit "Six"; lit "Five";
                                         lit "Eight"; lit "Nine"])) s0 = Some s1).
  { rewrite (first_end_group flag_i 1 _ s0 sA HA).
    f_equal. apply set_cap_reads. reflexivity. }
  assert (H2 : first_end flag_i (star space) s1 = Some s2).
  { apply (first_end_run flag_i space _ 0 [" "] _ s1 (one_char_class _ _));
      auto; try reflexivity. simpl. lia. }
  assert (H3 : first_end flag_i (lit "Furlong") s2 = Some s3) by reflexivity.
  exists (s0, s3). split.
  - apply first_end_exec. unfold re_furlongs_word. unfold seq at 1. cbn [fold_right].
    eapply first_end_cat; [exact H1|].
    eapply first_end_cat; [exact H2|].
    eapply first_end_cat; [exact H3|]. reflexivity.
  - reflexivity.
Qed.


(** *** The numbers *)

Lemma Qred_whole (z : Z) : Qred (inject_Z z) = inject_Z z.
Proof.
  unfold Qred, inject_Z.
  generalize (Z.ggcd_gcd z 1) (Z.ggcd_correct_divisors z 1).
  destruct (Z.ggcd z 1) as [g [a b]]. cbn [fst snd]. intros Hg [Ha Hb].
  rewrite Z.gcd_1_r in Hg. subst g.
  assert (Ea : a = z) by lia. assert (Eb : b = 1%Z) by lia. subst a b. reflexivity.
Qed.

Lemma Qfloor_half_up (z : Z) : Qfloor (inject_Z z + (1 # 2)) = z.
Proof.
  unfold Qfloor, Qplus, inject_Z. cbn -[Z.mul Z.add Z.div].
  symmetry. apply (Z.div_unique _ _ z 1); lia.
Qed.

Lemma whole_miles_value (W : Z) : js_mul (numZ W) (numN 8) = numZ (W * 8).
Proof.
  unfold js_mul, numN, numZ. f_equal. rewrite <- (Qred_whole (W * 8)). apply Qred_complete.
  unfold Qeq, Qmult, inject_Z. cbn -[Z.mul]. lia.
Qed.

Lemma mixed_furlongs_value (W N D : Z) :
  (0 < D)%Z ->
  js_add (numZ W) (js_div (numZ N) (numZ D))
  = Num (Qred (inject_Z W + (N # Z.to_pos D))).
Proof.
  intro HD. unfold js_add, js_div, numZ, q_sign. cbn [Qnum inject_Z].
  destruct (Z.compare_spec D 0) as [H|H|H]; try lia.
  f_equal. apply Qred_complete. rewrite Qred_correct.
  apply Qplus_comp; [reflexivity|].
  unfold Qeq, Qdiv, Qmult, Qinv, inject_Z. destruct D as [|p|p]; try lia.
  cbn -[Z.mul]. lia.
Qed.

(** For halves, quarters, eighths and sixteenths of a mile the rounding to
    a tenth of a furlong changes nothing. *)
Lemma mixed_miles_value (W N D : Z) :
  D = 2%Z \/ D = 4%Z \/ D = 8%Z \/ D = 16%Z ->
  js_div (math_round
            (js_mul (js_mul (js_add (numZ W) (js_div (numZ N) (numZ D))) (numN 8))
                    (numN 10)))
         (numN 10)
  = Num (Qred ((inject_Z W + (N # Z.to_pos D)) * 8)).
Proof.
  intro HD.
  assert (Hpos : (0 < D)%Z) by lia.
  rewrite (mixed_furlongs_value W N D Hpos).
  unfold js_mul, numN, numZ, math_round, js_div, q_sign. cbn [Qnum inject_Z Z.of_nat].
  change (Z.pos (Pos.of_succ_nat 9) ?= 0)%Z with Gt. cbv iota.
  set (R := (80 * W + 80 / D * N)%Z).
  assert (HR : Qred (Qred (Qred (inject_Z W + (N # Z.to_pos D)) * inject_Z 8)
                     * inject_Z (Z.pos (Pos.of_succ_nat 9)))
               == inject_Z R).
  { rewrite !Qred_correct. subst R.
    destruct HD as [-> | [-> | [-> | ->]]];
      unfold Qeq, Qplus, Qmult, inject_Z; cbn -[Z.mul Z.add Z.div];
      match goal with
      | |- context [(80 / ?d)%Z] =>
        let v := eval vm_compute in (80 / d)%Z in change (80 / d)%Z with v
      end; lia. }
  rewrite (Qfloor_comp _ (inject_Z R + (1 # 2))) by (now rewrite HR).
  rewrite Qfloor_half_up. unfold numZ.
  f_equal. apply Qred_complete. subst R.
  destruct HD as [-> | [-> | [-> | ->]]];
    unfold Qeq, Qplus, Qmult, Qdiv, Qinv, inject_Z; cbn -[Z.mul Z.add Z.div];
    match goal with
    | |- context [(80 / ?d)%Z] =>
      let v := eval vm_compute in (80 / d)%Z in change (80 / d)%Z with v
    end; lia.
Qed.


Lemma digits_then_stop (w rest : str) (c : ascii) :
  forallb is_digit w = true -> is_digit c = false ->
  take_while is_digit (w ++ c :: rest) = w
  /\ drop_while is_digit (w ++ c :: rest) = c :: rest.
Proof.
  intros Hw Hc. induction w as [|x w IH]; cbn [app take_while drop_while].
  - now rewrite Hc.
  - cbn [forallb] in Hw. apply andb_true_iff in Hw. destruct Hw as [Hx Hw].
    rewrite Hx. destruct (IH Hw) as [-> ->]. now split.
Qed.

Lemma digits_to_the_end (w : str) :
  forallb is_digit w = true ->
  take_while is_digit w = w /\ drop_while is_digit w = [].
Proof.
  intro Hw. induction w as [|x w IH]; cbn [take_while drop_while]; [now split|].
  cbn [forallb] in Hw. apply andb_true_iff in Hw. destruct Hw as [Hx Hw].
  rewrite Hx. destruct (IH Hw) as [-> ->]. now split.
Qed.

Lemma parseFloat_whole (w : str) :
  forallb is_digit w = true -> 1 <= length w -> parseFloat w = numZ (digits_value w).
Proof.
  intros Hw Lw. unfold parseFloat. cbv zeta.
  destruct w as [|c w']; [cbn in Lw; lia|].
  pose proof Hw as Hc. cbn [forallb] in Hc. apply andb_true_iff in Hc.
  destruct Hc as [Hc _].
  rewrite trimStart_id by (now apply digit_not_space).
  destruct (digits_to_the_end (c :: w') Hw) as [-> ->]. reflexivity.
Qed.

Lemma parseFloat_decimal (w f : str) :
  forallb is_digit w = true -> 1 <= length w ->
  array_includes binary_decimals f = true ->
  parseFloat (w ++ "." :: f)
  = Num (Qred (inject_Z (digits_value w)
               + (digits_value f # Z.to_pos (10 ^ Z.of_nat (length f))))).
Proof.
  intros Hw Lw Hf. unfold parseFloat. cbv zeta.
  destruct w as [|c w']; [cbn in Lw; lia|].
  pose proof Hw as Hc. cbn [forallb] in Hc. apply andb_true_iff in Hc.
  destruct Hc as [Hc _].
  rewrite trimStart_id by (cbn [app]; now apply digit_not_space).
  destruct (digits_then_stop (c :: w') f "." Hw eq_refl) as [-> ->].
  change ("." =? ".")%char with true. cbv iota.
  apply array_includes_In in Hf.
  destruct Hf as [<-|[<-|[<-|[]]]]; cbn [take_while is_digit]; f_equal;
    apply Qred_complete; reflexivity.
Qed.

(** The spelled-out numbers are read by name. *)
Lemma word_value (word : str) :
  array_includes (obj_keys furlong_words) word = true ->
  match obj_get wordToNumber (toLowerCase word) with
  | Some n => numN n
  | None => parseInt word
  end
  = match obj_get furlong_words word with
    | Some n => numN n
    | None => NaN
    end.
Proof.
  intro H. apply array_includes_In in H. cbn in H.
  destruct H as [<-|[<-|[<-|[<-|[<-|[]]]]]]; reflexivity.
Qed.

(** *** The search for the form *)

(** The search passes over a part of the text in which the pattern matches
    nowhere. *)
Lemma exec_from_silent (r : regex) (pre rest : str) :
  forall bef,
    silent_before r bef pre rest = true ->
    exec_from flag_i r bef (pre ++ rest) = exec_from flag_i r (rev pre ++ bef) rest.
Proof.
  induction pre as [|c pre IH]; intros bef H; [reflexivity|].
  cbn [silent_before] in H. rewrite exec_from_unfold.
  destruct (run flag_i r _) as [|e l]; [|discriminate H].
  cbn [app]. rewrite (IH _ H). cbn [rev]. now rewrite <- app_assoc.
Qed.

Lemma binary_decimal_digits (f : str) :
  array_includes binary_decimals f = true ->
  forallb is_digit f = true /\ 1 <= length f.
Proof.
  intro H. apply array_includes_In in H.
  destruct H as [<-|[<-|[<-|[]]]]; (split; [reflexivity | cbn; lia]).
Qed.

Ltac earlier_none H :=
  repeat match type of H with
         | (negb (test flag_i ?r ?t) && _)%bool = true =>
           let H1 := fresh "Hnone" in
           apply andb_true_iff in H; destruct H as [H1 H];
           apply negb_true_iff, test_false_exec in H1; rewrite H1
         end.

Ltac flatten_text :=
  repeat (rewrite <- app_assoc; cbn [app]).

(** C8 (amended).  Wherever a distance in one of these forms first stands
    in a text of ASCII characters, it is read and normalized to furlongs,
    miles multiplied by 8: a mixed fraction of miles or of furlongs "W N/D"
    in halves, quarters, eighths or sixteenths, a whole number of miles
    (followed by a blank or the end of the text) or of furlongs, a decimal
    number of furlongs ending in .5, .25 or .75, and the furlong counts
    Five to Nine spelled out.  The numbers have at most nine digits, the
    pattern of the form matches nowhere before it and no pattern tried
    earlier matches in the text.  "1 1/16 Miles" yields 8.5 furlongs. *)
Theorem distance_forms_read :
  (forall (f : distance_form) (pre tail : str),
      form_ok f = true -> tail_ok f tail = true ->
      ascii_text (pre ++ tail) = true ->
      earlier_silent f (pre ++ form_text f ++ tail) = true ->
      silent_before (form_pattern f) [] pre (form_text f ++ tail) = true ->
      detect_distance (pre ++ form_text f ++ tail) = form_furlongs f)
  /\ form_furlongs (MixedMiles (js "1") (js "1") (js "16")) = Num (17 # 2)
  /\ detect_distance (js "1 1/16 Miles") = Num (17 # 2).
Proof.
  split; [|split; vm_compute; reflexivity].
  intros f pre tail Hok Htail _ He Hs.
  unfold detect_distance.
  destruct f as [w n d|w plural|w n d|w f|w|word];
    unfold earlier_silent in He;
    cbn [form_rank firstn distance_patterns forallb] in He;
    unfold form_pattern in Hs; cbn [form_rank distance_patterns nth] in Hs;
    cbn [form_ok] in Hok; cbn [tail_ok] in Htail;
    cbn [form_text form_furlongs] in *.
  - (* W N/D Mile *)
    apply andb_true_iff in Hok. destruct Hok as [Hok Hd].
    apply andb_true_iff in Hok. destruct Hok as [Hw Hn].
    apply short_number_digits in Hw, Hn. destruct Hw as [Hw Lw], Hn as [Hn Ln].
    destruct (binary_denominator_digits d Hd) as (Hdd & Ld & HD).
    unfold exec. rewrite (exec_from_silent _ _ _ _ Hs). flatten_text.
    destruct (miles_fraction_match (rev pre ++ []) w n d tail Hw Lw Hn Ln Hdd Ld)
      as (m & -> & -> & -> & ->).
    rewrite !parseInt_digits by assumption.
    apply mixed_miles_value.
    destruct HD as [-> | [-> | [-> | ->]]]; vm_compute; auto.
  - (* W Mile, W Miles *)
    apply short_number_digits in Hok. destruct Hok as [Hw Lw].
    earlier_none He.
    unfold exec. rewrite (exec_from_silent _ _ _ _ Hs). flatten_text.
    destruct (miles_whole_match (rev pre ++ []) w plural tail Hw Lw Htail)
      as (m & -> & ->).
    rewrite parseInt_digits by assumption.
    apply whole_miles_value.
  - (* W N/D Furlong *)
    apply andb_true_iff in Hok. destruct Hok as [Hok Hd].
    apply andb_true_iff in Hok. destruct Hok as [Hw Hn].
    apply short_number_digits in Hw, Hn. destruct Hw as [Hw Lw], Hn as [Hn Ln].
    destruct (binary_denominator_digits d Hd) as (Hdd & Ld & HD).
    earlier_none He.
    unfold exec. rewrite (exec_from_silent _ _ _ _ Hs). flatten_text.
    destruct (furlongs_fraction_match (rev pre ++ []) w n d tail Hw Lw Hn Ln Hdd Ld)
      as (m & -> & -> & -> & ->).
    rewrite !parseInt_digits by assumption.
    apply mixed_furlongs_value.
    destruct HD as [-> | [-> | [-> | ->]]]; vm_compute; reflexivity.
  - (* W.F Furlong *)
    apply andb_true_iff in Hok. destruct Hok as [Hw Hf].
    apply short_number_digits in Hw. destruct Hw as [Hw Lw].
    destruct (binary_decimal_digits f Hf) as [Hfd Lf].
    earlier_none He.
    unfold exec. rewrite (exec_from_silent _ _ _ _ Hs). flatten_text.
    destruct (furlongs_decimal_match (rev pre ++ []) w f tail Hw Lw Hfd Lf)
      as (m & -> & ->).
    now apply parseFloat_decimal.
  - (* W Furlong *)
    apply short_number_digits in Hok. destruct Hok as [Hw Lw].
    earlier_none He.
    unfold exec. rewrite (exec_from_silent _ _ _ _ Hs). flatten_text.
    destruct (furlongs_whole_match (rev pre ++ []) w tail Hw Lw) as (m & -> & ->).
    now apply parseFloat_whole.
  - (* Five Furlong to Nine Furlong *)
    earlier_none He.
    unfold exec. rewrite (exec_from_silent _ _ _ _ Hs). flatten_text.
    destruct (furlongs_word_match (rev pre ++ []) word tail Hok) as (m & -> & ->).
    exact (word_value word Hok).
Qed.

Lemma distance_forms_read_witness :
  detect_distance (js "SIXTH RACE Saratoga August 3, 2024 1 1/16 Miles Inner Turf")
  = Num (17 # 2)
  /\ detect_distance (js "Race 4 - 2 Miles") = numN 16
  /\ detect_distance (js "About 5 1/2 Furlongs On The Turf") = Num (11 # 2)
  /\ detect_distance (js "Race 2: 6.5 Furlongs Dirt") = Num (13 # 2)
  /\ detect_distance (js "7 Furlongs") = numN 7
  /\ detect_distance (js "THIRD RACE Six Furlongs") = numN 6.
Proof.
  destruct distance_forms_read as [H _].
  split; [|split; [|split; [|split; [|split]]]].
  - apply (H (MixedMiles (js "1") (js "1") (js "16"))
             (js "SIXTH RACE Saratoga August 3, 2024 ") (js "s Inner Turf"));
      vm_compute; reflexivity.
  - apply (H (WholeMiles (js "2") true) (js "Race 4 - ") []); vm_compute; reflexivity.
  - apply (H (MixedFurlongs (js "5") (js "1") (js "2")) (js "About ")
             (js "s On The Turf")); vm_compute; reflexivity.
  - apply (H (DecimalFurlongs (js "6") (js "5")) (js "Race 2: ") (js "s Dirt"));
      vm_compute; reflexivity.
  - apply (H (WholeFurlongs (js "7")) [] (js "s")); vm_compute; reflexivity.
  - apply (H (WordFurlongs (js "Six")) (js "THIRD RACE ") (js "s"));
      vm_compute; reflexivity.
Defined.
(** * Further properties of the code

    The theorems below cover functions and handlers around those of the
    first part. *)

(** ** The resolver over the whole mapping *)

Lemma class_alnum_lower (c : ascii) :
  class_has no_flags alnums (lower_char c) = class_has no_flags alnums c.
Proof. destruct c as [[] [] [] [] [] [] [] []]; reflexivity. Qed.

(** Two spellings equal up to letter case are equal up to letter case once
    stripped of what is not a letter or a digit. *)
Lemma stripped_lower (a b : str) :
  toLowerCase a = toLowerCase b ->
  toLowerCase (replace_all no_flags re_non_alnum a)
  = toLowerCase (replace_all no_flags re_non_alnum b).
Proof.
  unfold re_non_alnum. rewrite !replace_all_not_class. unfold toLowerCase.
  revert b. induction a as [|x a IH]; destruct b as [|y b]; cbn [map filter];
    try discriminate; auto.
  intros [= Hc Hr].
  rewrite <- (class_alnum_lower x), <- (class_alnum_lower y), Hc.
  destruct (class_has no_flags alnums (lower_char y)); cbn [map]; [|auto].
  now rewrite Hc, (IH b Hr).
Qed.

Lemma resolve_in_aliases_Some (nl ns nn : str) (m : horse_mapping) (p : str) :
  resolve_in_aliases nl ns nn m = Some p -> In p (obj_keys m).
Proof.
  induction m as [|[k d] m IH]; simpl; [discriminate|].
  destruct (match aliases d with Some _ => _ | None => _ end).
  - intros [= ->]. now left.
  - intro H. right. auto.
Qed.

Lemma resolve_in_aliases_None (nl ns nn : str) (m : horse_mapping) :
  (forall k d al a, In (k, d) m -> aliases d = Some al -> In a al ->
                    spelling_matches nl ns nn a = false) ->
  resolve_in_aliases nl ns nn m = None.
Proof.
  induction m as [|[k d] m IH]; simpl; intro H; [reflexivity|].
  destruct (aliases d) as [al|] eqn:Ea.
  - destruct (find (spelling_matches nl ns nn) al) as [a|] eqn:Ef.
    + apply find_some in Ef. destruct Ef as [Hin Hm].
      rewrite (H k d al a (or_introl eq_refl) Ea Hin) in Hm. discriminate.
    + apply IH. intros k' d' al' a' Hin. apply (H k' d' al' a'). now right.
  - apply IH. intros k' d' al' a' Hin. apply (H k' d' al' a'). now right.
Qed.

(** X1.  [resolveHorseAlias] answers with a canonical name of the mapping or
    with the name it was given, never with anything else; a name that no
    canonical name and no alias matches comes back unchanged. *)
Theorem resolveHorseAlias_range :
  (forall (horseName : str) (m : horse_mapping),
      In (resolveHorseAlias horseName m) (obj_keys m)
      \/ resolveHorseAlias horseName m = horseName)
  /\ (forall (horseName : str) (m : horse_mapping),
         (forall k, In k (obj_keys m) -> name_matches horseName k = false) ->
         (forall k d al a, In (k, d) m -> aliases d = Some al -> In a al ->
                           name_matches horseName a = false) ->
         resolveHorseAlias horseName m = horseName).
Proof.
  split.
  - intros horseName m. unfold resolveHorseAlias.
    destruct (negb (truthy horseName)); [now right|]. cbv zeta.
    set (nl := trim (toLowerCase horseName)).
    set (ns := toLowerCase (replace_all no_flags re_non_alnum horseName)).
    set (nn := normalizeHorseNameForMatch horseName).
    assert (Hal : In (match resolve_in_aliases nl ns nn m with
                      | Some primaryName => primaryName
                      | None => horseName
                      end) (obj_keys m)
                  \/ match resolve_in_aliases nl ns nn m with
                     | Some primaryName => primaryName
                     | None => horseName
                     end = horseName).
    { destruct (resolve_in_aliases nl ns nn m) as [p|] eqn:E; [left|now right].
      now apply resolve_in_aliases_Some in E. }
    destruct (find (spelling_matches nl ns nn) (obj_keys m)) as [k|] eqn:Ef; [|exact Hal].
    destruct (truthy k); [|exact Hal].
    left. now apply find_some in Ef.
  - intros horseName m Hkeys Hals. unfold resolveHorseAlias.
    destruct (negb (truthy horseName)); [reflexivity|]. cbv zeta.
    destruct (find _ (obj_keys m)) as [k|] eqn:Ef.
    + apply find_some in Ef. destruct Ef as [Hin Hm].
      unfold name_matches in Hkeys. rewrite (Hkeys k Hin) in Hm. discriminate.
    + rewrite resolve_in_aliases_None; [reflexivity|]. exact Hals.
Qed.

Lemma resolveHorseAlias_range_witness :
  resolveHorseAlias (js "Stoweshoe")
                    [(js "2022 Ginger Punch", horse_with_aliases [js "Ginger Punch"])]
  = js "Stoweshoe".
Proof.
  destruct resolveHorseAlias_range as [_ H]. apply H.
  - intros k [<-|[]]. vm_compute. reflexivity.
  - intros k d al a [[= <- <-]|[]] [= <-] [<-|[]]. vm_compute. reflexivity.
Defined.
(** ** Merge, then look up; merge, then unmerge *)

Lemma name_matches_self (a : str) : name_matches a a = true.
Proof.
  unfold name_matches, spelling_matches.
  rewrite (str_eqb_refl (toLowerCase (replace_all no_flags re_non_alnum a))).
  now rewrite orb_true_r.
Qed.

Lemma obj_set_same_value {V : Type} (o : obj V) (k : str) (v : V) :
  obj_get o k = Some v -> obj_set o k v = o.
Proof.
  induction o as [|[k0 v0] o IH]; simpl; [discriminate|].
  destruct (str_eqb k0 k) eqn:E.
  - now intros [= ->].
  - intro H. now rewrite IH.
Qed.


Lemma with_aliases_same (p : HorseData) (pl : option (list str)) :
  aliases p = pl -> with_aliases p pl = p.
Proof. destruct p. simpl. now intros ->. Qed.

(** The entry of the primary horse as the merge handler arranges it before
    its loop. *)
Lemma merge_prepare (P : str) (m : horse_mapping) :
  well_keyed m ->
  let m0 := match obj_get m P with
            | Some _ => m
            | None => obj_set m P blank_horse
            end in
  let m0' := match obj_get m0 P with
             | Some p =>
               match aliases p with
               | Some _ => m0
               | None => obj_set m0 P (with_aliases p (Some []))
               end
             | None => m0
             end in
  exists p0 pl0,
    well_keyed m0' /\ obj_get m0' P = Some p0 /\ aliases p0 = Some pl0
    /\ (forall x, In x pl0 -> exists d, In (P, d) m /\ owns d x)
    /\ (forall k d, k <> P -> In (k, d) m0' <-> In (k, d) m)
    /\ (forall p pl, obj_get m P = Some p -> aliases p = Some pl -> m0' = m /\ p0 = p).
Proof.
  intros Hwf m0 m0'.
  destruct (obj_get m P) as [p|] eqn:Ep.
  - subst m0. destruct (aliases p) as [pl|] eqn:Ea.
    + subst m0'. rewrite Ep, Ea. exists p, pl.
      split; [exact Hwf|]. split; [exact Ep|]. split; [exact Ea|]. split; [|split].
      * intros x Hx. exists p. split; [now apply obj_get_In|]. now exists pl.
      * intros k d _. tauto.
      * intros p' pl' [= <-] _. auto.
    + subst m0'. rewrite Ep, Ea. exists (with_aliases p (Some [])), [].
      split; [now apply well_keyed_set|]. split; [apply obj_get_set_same|].
      split; [reflexivity|]. split; [intros x []|]. split.
      * intros k d Hk. rewrite (In_obj_set _ _ _ _ _ Hwf). split; [|auto].
        intros [[-> _]|[_ H]]; [congruence | exact H].
      * intros p' pl' [= <-] E. congruence.
  - subst m0 m0'. rewrite obj_get_set_same. cbn [aliases blank_horse]. exists blank_horse, [].
    split; [now apply well_keyed_set|]. split; [apply obj_get_set_same|].
    split; [reflexivity|]. split; [intros x []|]. split.
    + intros k d Hk. rewrite (In_obj_set _ _ _ _ _ Hwf). split; [|auto].
      intros [[-> _]|[_ H]]; [congruence | exact H].
    + intros p' pl' [=].
Qed.

Lemma absorb_entry_shape (P a : str) (m0 : horse_mapping) (p0 : HorseData)
      (pl0 : list str) :
  well_keyed m0 -> a <> P -> obj_get m0 P = Some p0 -> aliases p0 = Some pl0 ->
  exists m2 p2 pl2,
    absorb_entry P m0 a = Some m2
    /\ well_keyed m2 /\ obj_get m2 P = Some p2 /\ aliases p2 = Some pl2
    /\ (forall x, In x pl2 -> In x pl0 \/ exists d, In (a, d) m0 /\ owns d x)
    /\ (forall k d, In (k, d) m2 -> k <> P -> k <> a /\ In (k, d) m0)
    /\ (obj_get m0 a = None -> m2 = m0 /\ p2 = p0 /\ pl2 = pl0).
Proof.
  intros Hwf Hne Hp Ha. unfold absorb_entry.
  destruct (obj_get m0 a) as [ad|] eqn:Ead.
  - rewrite Hp.
    set (p' := if negb (truthy (country _)) && truthy (country ad) then _ else _).
    assert (Hp' : aliases p' = Some pl0).
    { subst p'. rewrite <- Ha. apply aliases_copy_owner_country. }
    rewrite Hp'.
    destruct (aliases ad) as [al|] eqn:Eal.
    + exists (obj_delete (obj_set m0 P (with_aliases p' (Some (pl0 ++ al)))) a),
             (with_aliases p' (Some (pl0 ++ al))), (pl0 ++ al).
      split; [reflexivity|]. split; [now apply well_keyed_delete, well_keyed_set|].
      split; [rewrite obj_get_delete_other by congruence; apply obj_get_set_same|].
      split; [reflexivity|]. split; [|split].
      * intros x Hx. apply in_app_or in Hx. destruct Hx as [Hx|Hx]; [now left|right].
        exists ad. split; [now apply obj_get_In|]. now exists al.
      * intros k d Hin Hk. apply In_obj_delete in Hin. destruct Hin as [Hka Hin].
        split; [exact Hka|]. apply (In_obj_set _ _ _ _ _ Hwf) in Hin.
        destruct Hin as [[-> _]|[_ H]]; [congruence | exact H].
      * discriminate.
    + exists (obj_delete (obj_set m0 P p') a), p', pl0.
      split; [reflexivity|]. split; [now apply well_keyed_delete, well_keyed_set|].
      split; [rewrite obj_get_delete_other by congruence; apply obj_get_set_same|].
      split; [exact Hp'|]. split; [|split].
      * intros x Hx. now left.
      * intros k d Hin Hk. apply In_obj_delete in Hin. destruct Hin as [Hka Hin].
        split; [exact Hka|]. apply (In_obj_set _ _ _ _ _ Hwf) in Hin.
        destruct Hin as [[-> _]|[_ H]]; [congruence | exact H].
      * discriminate.
  - exists m0, p0, pl0. repeat split; auto.
    intros ->. apply obj_get_None in Ead. apply Ead. eapply In_obj_keys; eauto.
Qed.

Lemma add_alias_shape (P a : str) (m2 : horse_mapping) (p2 : HorseData)
      (pl2 : list str) :
  well_keyed m2 -> obj_get m2 P = Some p2 -> aliases p2 = Some pl2 ->
  exists m1 p1 al1,
    add_alias P m2 a = Some m1
    /\ well_keyed m1 /\ obj_get m1 P = Some p1 /\ aliases p1 = Some al1
    /\ In a al1
    /\ (forall x, In x al1 -> x = a \/ In x pl2)
    /\ (forall k d, In (k, d) m1 -> k <> P -> In (k, d) m2)
    /\ (~ In a pl2 ->
        m1 = obj_set m2 P (with_aliases p2 (Some (pl2 ++ [a]))) /\ al1 = pl2 ++ [a]).
Proof.
  intros Hwf Hp Ha. unfold add_alias. rewrite Hp, Ha.
  destruct (array_includes pl2 a) eqn:Einc.
  - apply array_includes_In in Einc. exists m2, p2, pl2. repeat split; auto; tauto.
  - exists (obj_set m2 P (with_aliases p2 (Some (pl2 ++ [a])))),
           (with_aliases p2 (Some (pl2 ++ [a]))), (pl2 ++ [a]).
    split; [reflexivity|]. split; [now apply well_keyed_set|].
    split; [apply obj_get_set_same|]. split; [reflexivity|].
    split; [apply in_or_app; right; now left|]. split; [|split].
    + intros x Hx. apply in_app_or in Hx. destruct Hx as [Hx|[<-|[]]]; auto.
    + intros k d Hin Hk. apply (In_obj_set _ _ _ _ _ Hwf) in Hin.
      destruct Hin as [[-> _]|[_ H]]; [congruence | exact H].
    + auto.
Qed.

(** What merging one spelling [a] into [P] stores, when no other entry
    already owns [a]. *)
Lemma merge_one_shape (P a : str) (m : horse_mapping) :
  truthy P = true -> a <> P -> well_keyed m ->
  (forall k d, In (k, d) m -> k <> P -> ~ owns d a) ->
  exists m1 p1 al1,
    merge_horses P [a] m = Stored m1
    /\ well_keyed m1 /\ obj_get m1 P = Some p1 /\ aliases p1 = Some al1
    /\ In a al1
    /\ (forall x, In x al1 ->
                  x = a \/ (exists d, In (P, d) m /\ owns d x)
                  \/ (exists d, In (a, d) m /\ owns d x))
    /\ (forall k d, In (k, d) m1 -> k <> P -> k <> a /\ In (k, d) m)
    /\ (forall p pl, obj_get m P = Some p -> aliases p = Some pl -> ~ In a pl ->
                     obj_get m a = None ->
                     m1 = obj_set m P (with_aliases p (Some (pl ++ [a])))).
Proof.
  intros HP Hne Hwf Hfree. unfold merge_horses. rewrite HP. cbn [negb length Nat.eqb orb].
  pose proof (merge_prepare P m Hwf) as Hprep. cbv zeta in Hprep |- *.
  cbn [merge_loop].
  match goal with |- context [merge_step P ?M a] => set (m0 := M) in * end.
  destruct Hprep as (p0 & pl0 & Hwf0 & Hp0 & Ha0 & Hown0 & Hin0 & Hsame).
  unfold merge_step.
  assert (E1 : str_eqb a P = false) by now apply str_eqb_neq.
  rewrite E1.
  assert (E2 : existsb (fun e => negb (str_eqb (fst e) P) && has_alias (snd e) a) m0
               = false).
  { apply not_true_is_false. intro H. apply existsb_exists in H.
    destruct H as ([k d] & Hin & H). simpl in H. apply andb_true_iff in H.
    destruct H as [Hk Hal]. apply negb_true_iff, str_eqb_neq in Hk.
    apply has_alias_owns in Hal. apply (Hin0 k d Hk) in Hin. exact (Hfree k d Hin Hk Hal). }
  rewrite E2.
  destruct (absorb_entry_shape P a m0 p0 pl0 Hwf0 Hne Hp0 Ha0)
    as (m2 & p2 & pl2 & Eab & Hwf2 & Hp2 & Ha2 & Hown2 & Hin2 & Hsame2).
  rewrite Eab.
  destruct (add_alias_shape P a m2 p2 pl2 Hwf2 Hp2 Ha2)
    as (m1 & p1 & al1 & Eadd & Hwf1 & Hp1 & Ha1 & Hina & Hown1 & Hin1 & Hsame1).
  rewrite Eadd. exists m1, p1, al1.
  split; [reflexivity|]. split; [exact Hwf1|]. split; [exact Hp1|]. split; [exact Ha1|].
  split; [exact Hina|]. split; [|split].
  - intros x Hx. destruct (Hown1 x Hx) as [->|Hx2]; [now left|right].
    destruct (Hown2 x Hx2) as [Hx0|(d & Hd & Ho)].
    + left. now apply Hown0.
    + right. exists d. split; [|exact Ho]. apply (Hin0 a d Hne). exact Hd.
  - intros k d Hin Hk. apply Hin1 in Hin; [|exact Hk]. apply Hin2 in Hin; [|exact Hk].
    destruct Hin as [Hka Hin]. split; [exact Hka|]. now apply (Hin0 k d Hk).
  - intros p pl Ep Epl Hnot Hnone.
    destruct (Hsame p pl Ep Epl) as [Em0 ->]. rewrite Em0 in *.
    destruct (Hsame2 Hnone) as (-> & -> & ->).
    assert (pl0 = pl) by congruence. subst pl0.
    now destruct (Hsame1 Hnot) as [-> _].
Qed.
Lemma resolve_in_aliases_at (nl ns nn P : str) (p1 : HorseData) (al1 : list str) :
  forall m1 : horse_mapping,
    obj_get m1 P = Some p1 -> aliases p1 = Some al1 ->
    (exists x, In x al1 /\ spelling_matches nl ns nn x = true) ->
    (forall x, In x al1 -> truthy x = true) ->
    (forall k d al x, In (k, d) m1 -> k <> P -> aliases d = Some al -> In x al ->
                      spelling_matches nl ns nn x = false) ->
    resolve_in_aliases nl ns nn m1 = Some P.
Proof.
  induction m1 as [|[k d] m1 IH]; simpl; intros Hget Hal Hex Htr Hno; [discriminate|].
  destruct (str_eqb k P) eqn:E.
  - apply str_eqb_eq in E. subst k. injection Hget as ->. rewrite Hal.
    destruct (find (spelling_matches nl ns nn) al1) as [x|] eqn:Ef.
    + apply find_some in Ef. now rewrite (Htr x (proj1 Ef)).
    + exfalso. destruct Hex as (x & Hin & Hx).
      rewrite (find_none _ _ Ef x Hin) in Hx. discriminate.
  - apply str_eqb_neq in E.
    assert (Hfound : match aliases d with
                     | Some al =>
                       match find (spelling_matches nl ns nn) al with
                       | Some aliasMatch => truthy aliasMatch
                       | None => false
                       end
                     | None => false
                     end = false).
    { destruct (aliases d) as [al|] eqn:Ea; [|reflexivity].
      destruct (find (spelling_matches nl ns nn) al) as [x|] eqn:Ef; [|reflexivity].
      apply find_some in Ef. destruct Ef as [Hin Hx].
      rewrite (Hno k d al x (or_introl eq_refl) E Ea Hin) in Hx. discriminate. }
    rewrite Hfound. apply IH; auto.
    intros k' d' al x Hin. apply (Hno k' d' al x). now right.
Qed.

(** A look-up goes to the entry [P] when one of its aliases passes for the
    name and nothing stored under another entry does. *)
Lemma resolve_to_primary (a P : str) (m1 : horse_mapping) (p1 : HorseData)
      (al1 : list str) :
  truthy a = true -> truthy P = true ->
  obj_get m1 P = Some p1 -> aliases p1 = Some al1 ->
  (exists x, In x al1 /\ name_matches a x = true) ->
  (forall x, In x al1 -> truthy x = true) ->
  (forall k d, In (k, d) m1 -> k <> P ->
               name_matches a k = false
               /\ forall al x, aliases d = Some al -> In x al ->
                               name_matches a x = false) ->
  resolveHorseAlias a m1 = P.
Proof.
  intros Ha HP Hget Hal Hex Htr Hno. unfold resolveHorseAlias. rewrite Ha. cbn [negb].
  cbv zeta. unfold name_matches in *.
  set (nl := trim (toLowerCase a)) in *.
  set (ns := toLowerCase (replace_all no_flags re_non_alnum a)) in *.
  set (nn := normalizeHorseNameForMatch a) in *.
  assert (Hals : resolve_in_aliases nl ns nn m1 = Some P).
  { apply (resolve_in_aliases_at nl ns nn P p1 al1); auto.
    intros k d al x Hin Hk Ea Hx. exact (proj2 (Hno k d Hin Hk) al x Ea Hx). }
  destruct (find (spelling_matches nl ns nn) (obj_keys m1)) as [k|] eqn:Ef.
  - apply find_some in Ef. destruct Ef as [Hin Hk].
    assert (k = P).
    { destruct (list_eq_dec ascii_dec k P) as [|Hne]; [assumption|exfalso].
      apply in_map_iff in Hin. destruct Hin as ([k' d] & Hfst & Hin). simpl in Hfst.
      subst k'. rewrite (proj1 (Hno k d Hin Hne)) in Hk. discriminate. }
    subst k. now rewrite HP.
  - now rewrite Hals.
Qed.

(** X2.  Merging a spelling into a horse makes the look-up of that spelling
    answer with the horse: when no alias is the empty string, the entry of
    the spelling (if there is one) does not list itself as its own alias and
    nothing stored under a third entry passes for the spelling, the merge
    is stored and [resolveHorseAlias] then returns the primary name. *)
Theorem merge_then_resolve (P a : str) (m : horse_mapping) :
  truthy P = true -> truthy a = true -> a <> P -> well_keyed m -> named m ->
  (forall d, In (a, d) m -> ~ owns d a) ->
  (forall k d, In (k, d) m -> k <> P -> k <> a ->
               name_matches a k = false
               /\ forall al x, aliases d = Some al -> In x al ->
                               name_matches a x = false) ->
  exists m1, merge_horses P [a] m = Stored m1 /\ resolveHorseAlias a m1 = P.
Proof.
  intros HP Ha Hne Hwf [_ Hnamed] Hself Hother.
  assert (Hfree : forall k d, In (k, d) m -> k <> P -> ~ owns d a).
  { intros k d Hin Hk Hown.
    destruct (list_eq_dec ascii_dec k a) as [->|Hka]; [exact (Hself d Hin Hown)|].
    destruct Hown as (al & Eal & Hina).
    pose proof (proj2 (Hother k d Hin Hk Hka) al a Eal Hina) as H.
    rewrite name_matches_self in H. discriminate. }
  destruct (merge_one_shape P a m HP Hne Hwf Hfree)
    as (m1 & p1 & al1 & Em & Hwf1 & Hp1 & Ha1 & Hina & Hown1 & Hin1 & _).
  exists m1. split; [exact Em|].
  apply (resolve_to_primary a P m1 p1 al1 Ha HP Hp1 Ha1).
  - exists a. split; [exact Hina | apply name_matches_self].
  - intros x Hx. destruct (Hown1 x Hx) as [->|[(d & Hd & al & Eal & Hxal)|(d & Hd & al & Eal & Hxal)]];
      [exact Ha | exact (Hnamed P d al x Hd Eal Hxal) | exact (Hnamed a d al x Hd Eal Hxal)].
  - intros k d Hin Hk. destruct (Hin1 k d Hin Hk) as [Hka Hm]. exact (Hother k d Hm Hk Hka).
Qed.

Lemma merge_then_resolve_witness :
  exists m1,
    merge_horses (js "2022 Ginger Punch") [js "Ginger Punch"]
                 [(js "Stoweshoe", blank_horse); (js "Ginger Punch", blank_horse)]
    = Stored m1
    /\ resolveHorseAlias (js "Ginger Punch") m1 = js "2022 Ginger Punch".
Proof.
  apply merge_then_resolve.
  - reflexivity.
  - reflexivity.
  - discriminate.
  - repeat constructor; simpl; intuition discriminate.
  - split.
    + intros k [<-|[<-|[]]]; reflexivity.
    + intros k d al x [[= <- <-]|[[= <- <-]|[]]] [= <-] [].
  - intros d [[=]|[[= <-]|[]]] (al & [= <-] & []).
  - intros k d [[= <- <-]|[[= <- <-]|[]]] Hk Hka.
    + split; [vm_compute; reflexivity|]. intros al x [= <-] [].
    + exfalso. apply Hka. reflexivity.
Defined.



(** ** Adding, updating and deleting one entry *)

Lemma find_stripped_none (name : str) (keys : list str) :
  (forall k, In k keys ->
             toLowerCase (replace_all no_flags re_non_alnum k)
             <> toLowerCase (replace_all no_flags re_non_alnum name)) ->
  find (fun k => str_eqb (toLowerCase k) (toLowerCase name)) keys = None
  /\ find (fun k => str_eqb (toLowerCase (replace_all no_flags re_non_alnum k))
                            (toLowerCase (replace_all no_flags re_non_alnum name)))
          keys = None.
Proof.
  intro Hno. split.
  - destruct (find _ keys) as [k|] eqn:E; [exfalso|reflexivity].
    apply find_some in E. destruct E as [Hin Hk]. apply str_eqb_eq in Hk.
    exact (Hno k Hin (stripped_lower _ _ Hk)).
  - destruct (find _ keys) as [k|] eqn:E; [exfalso|reflexivity].
    apply find_some in E. destruct E as [Hin Hk]. apply str_eqb_eq in Hk.
    exact (Hno k Hin Hk).
Qed.

Lemma obj_keys_set_known {V : Type} (o : obj V) (k : str) (v : V) :
  In k (obj_keys o) -> obj_keys (obj_set o k v) = obj_keys o.
Proof.
  intro H. rewrite obj_keys_set.
  replace (existsb (str_eqb k) (obj_keys o)) with true; [reflexivity|].
  symmetry. apply existsb_exists. exists k. split; [exact H | apply str_eqb_refl].
Qed.

Lemma obj_set_new {V : Type} (o : obj V) (k : str) (v : V) :
  ~ In k (obj_keys o) -> obj_set o k v = o ++ [(k, v)].
Proof.
  induction o as [|[k0 v0] o IH]; simpl; intro H; [reflexivity|].
  assert (E : str_eqb k0 k = false) by (apply str_eqb_neq; intros ->; apply H; now left).
  rewrite E, IH; [reflexivity|]. intro Hin. apply H. now right.
Qed.

Lemma obj_delete_last {V : Type} (o : obj V) (k : str) (v : V) :
  ~ In k (obj_keys o) -> obj_delete (o ++ [(k, v)]) k = o.
Proof.
  induction o as [|[k0 v0] o IH]; simpl; intro H.
  - now rewrite str_eqb_refl.
  - assert (E : str_eqb k0 k = false) by (apply str_eqb_neq; intros ->; apply H; now left).
    rewrite E, IH; [reflexivity|]. intro Hin. apply H. now right.
Qed.

(** *** Keys that spell an array index *)

Example own_set_examples :
  obj_keys (own_set [(js "7", 0); (js "Paradise", 1)] (js "22") 2)
  = [js "7"; js "22"; js "Paradise"]
  /\ obj_keys (own_set [(js "7", 0); (js "Paradise", 1)] (js "3") 2)
     = [js "3"; js "7"; js "Paradise"]
  /\ obj_keys (own_set [(js "7", 0); (js "Paradise", 1)] (js "007") 2)
     = [js "7"; js "Paradise"; js "007"]
  /\ obj_keys (own_set [(js "7", 0); (js "Paradise", 1)] (js "Paradise") 2)
     = [js "7"; js "Paradise"].
Proof. vm_compute. repeat split. Qed.

Lemma obj_delete_absent {V : Type} (o : obj V) (k : str) :
  ~ In k (obj_keys o) -> obj_delete o k = o.
Proof.
  induction o as [|[k0 v0] o IH]; simpl; intro H; [reflexivity|].
  assert (E : str_eqb k0 k = false) by (apply str_eqb_neq; intros ->; apply H; now left).
  rewrite E, IH; [reflexivity|]. intro Hin. apply H. now right.
Qed.

Lemma insert_index_spec {V : Type} (o : obj V) (k : str) (v : V) :
  ~ In k (obj_keys o) ->
  exists front back,
    o = front ++ back /\ insert_index o k v = front ++ (k, v) :: back.
Proof.
  intro Hnew. induction o as [|[k0 v0] o IH]; cbn [insert_index].
  - now exists [], [].
  - destruct (array_index k0 && (digits_value k0 <? digits_value k)%Z).
    + destruct IH as (front & back & E1 & E2); [intro H; apply Hnew; now right|].
      exists ((k0, v0) :: front), back. cbn [app]. now rewrite <- E1, E2.
    + now exists [], ((k0, v0) :: o).
Qed.

(** What [own_set] does with a key that the object does not have: the entry
    is put in, somewhere for a key that spells an array index and last for
    any other. *)
Lemma own_set_new {V : Type} (o : obj V) (k : str) (v : V) :
  ~ In k (obj_keys o) ->
  exists front back,
    o = front ++ back /\ own_set o k v = front ++ (k, v) :: back
    /\ (array_index k = false -> back = []).
Proof.
  intro Hnew. unfold own_set. destruct (array_index k) eqn:Ei; cbn [andb].
  - assert (E : existsb (str_eqb k) (obj_keys o) = false).
    { destruct (existsb _ _) eqn:E; [|reflexivity]. exfalso.
      apply existsb_exists in E. destruct E as (x & Hx & Ex).
      apply str_eqb_eq in Ex. now subst x. }
    rewrite E. cbn [negb].
    destruct (insert_index_spec o k v Hnew) as (front & back & E1 & E2).
    exists front, back. split; [exact E1|]. split; [exact E2 | discriminate].
  - exists o, []. rewrite app_nil_r. split; [reflexivity|].
    split; [now apply obj_set_new | reflexivity].
Qed.

Lemma own_set_known {V : Type} (o : obj V) (k : str) (v : V) :
  In k (obj_keys o) -> own_set o k v = obj_set o k v.
Proof.
  intro H. unfold own_set.
  replace (existsb (str_eqb k) (obj_keys o)) with true; [now rewrite andb_false_r|].
  symmetry. apply existsb_exists. exists k. split; [exact H | apply str_eqb_refl].
Qed.

Lemma obj_get_middle {V : Type} (front back : obj V) (k k' : str) (v : V) :
  ~ In k (obj_keys (front ++ back)) ->
  obj_get (front ++ (k, v) :: back) k'
  = if str_eqb k k' then Some v else obj_get (front ++ back) k'.
Proof.
  induction front as [|[k0 v0] front IH]; cbn [app obj_get obj_keys map fst]; intro H.
  - reflexivity.
  - destruct (str_eqb k0 k') eqn:E0.
    + apply str_eqb_eq in E0. subst k'.
      assert (E : str_eqb k k0 = false)
        by (apply str_eqb_neq; intros ->; apply H; now left).
      now rewrite E.
    + apply IH. intro Hin. apply H. now right.
Qed.

Lemma obj_delete_middle {V : Type} (front back : obj V) (k : str) (v : V) :
  ~ In k (obj_keys (front ++ back)) ->
  obj_delete (front ++ (k, v) :: back) k = front ++ back.
Proof.
  induction front as [|[k0 v0] front IH]; cbn [app obj_delete obj_keys map fst]; intro H.
  - rewrite str_eqb_refl. now apply obj_delete_absent.
  - assert (E : str_eqb k0 k = false)
      by (apply str_eqb_neq; intros ->; apply H; now left).
    rewrite E. f_equal. apply IH. intro Hin. apply H. now right.
Qed.

Lemma find_middle {A : Type} (p : A -> bool) (front back : list A) (x : A) :
  find p (front ++ back) = None -> p x = true -> find p (front ++ x :: back) = Some x.
Proof.
  induction front as [|y front IH]; cbn [app find]; intros Hnone Hx.
  - now rewrite Hx.
  - destruct (p y); [discriminate | now apply IH].
Qed.

Lemma own_set_get {V : Type} (o : obj V) (k k' : str) (v : V) :
  obj_get (own_set o k v) k' = if str_eqb k k' then Some v else obj_get o k'.
Proof.
  destruct (in_dec (list_eq_dec ascii_dec) k (obj_keys o)) as [Hin|Hnew].
  - rewrite (own_set_known o k v Hin). destruct (str_eqb k k') eqn:E.
    + apply str_eqb_eq in E. subst k'. apply obj_get_set_same.
    + apply str_eqb_neq in E. apply obj_get_set_other. congruence.
  - destruct (own_set_new o k v Hnew) as (front & back & E1 & E2 & _).
    rewrite E2, E1. apply obj_get_middle. now rewrite <- E1.
Qed.



(** *** Deleting by the name in the address *)

Example decodeURIComponent_examples :
  decodeURIComponent (js "Ginger Punch (IRE)") = Decoded (js "Ginger Punch (IRE)")
  /\ decodeURIComponent (js "Ginger%20Punch%2c") = Decoded (js "Ginger Punch,")
  /\ decodeURIComponent (js "50% Off") = URIError
  /\ decodeURIComponent (js "100%") = URIError
  /\ decodeURIComponent (js "%E9t%C3%A9") = URIError
  /\ decodeURIComponent (js "%C3%A9t%C3%A9") = BeyondAscii
  /\ decodeURIComponent (js "%C0%80") = URIError
  /\ decodeURIComponent (js "%ED%A0%80") = URIError
  /\ decodeURIComponent (js "%F0%9F%90%8E %zz") = URIError
  /\ decodeURIComponent (js "%F0%9F%90%8E") = BeyondAscii.
Proof. vm_compute. repeat split. Qed.

Example delete_horse_percent :
  delete_horse (js "50% Off") [(js "50% Off", blank_horse)] = Refused 500
  /\ delete_horse (js "50%25 Off") [(js "50% Off", blank_horse)] = Stored [].
Proof. vm_compute. split; reflexivity. Qed.

(** A text without a per cent sign is decoded to itself. *)
Lemma decode_uri_plain (s : str) :
  forall fuel, length s <= fuel ->
               existsb (Ascii.eqb "%") s = false -> decode_uri fuel s = Decoded s.
Proof.
  induction s as [|c s IH]; intros fuel Hlen Hs.
  - destruct fuel; reflexivity.
  - destruct fuel as [|fuel]; [cbn [length] in Hlen; lia|].
    cbn [existsb] in Hs. apply orb_false_iff in Hs. destruct Hs as [Hc Hs].
    cbn [decode_uri]. rewrite Ascii.eqb_sym, Hc.
    rewrite IH; [reflexivity | cbn [length] in Hlen; lia | exact Hs].
Qed.

Lemma decodeURIComponent_plain (s : str) :
  existsb (Ascii.eqb "%") s = false -> decodeURIComponent s = Decoded s.
Proof. intro H. apply decode_uri_plain; [apply le_n | exact H]. Qed.

(** X5.  Deleting undoes adding: a horse added under a name without a per
    cent sign that no stored key spells, up to letter case and punctuation,
    and deleted again under that name leaves the mapping as it was; and
    deleting such a name when it is not stored is refused with 404. *)
Theorem add_then_delete_horse (name o c : str) (h : bool) (m : horse_mapping) :
  truthy name = true ->
  existsb (Ascii.eqb "%") name = false ->
  (forall k, In k (obj_keys m) ->
             toLowerCase (replace_all no_flags re_non_alnum k)
             <> toLowerCase (replace_all no_flags re_non_alnum name)) ->
  delete_horse name m = Refused 404
  /\ exists m', add_horse name o c h m = Stored m' /\ delete_horse name m' = Stored m.
Proof.
  intros Hname Hplain Hnone.
  assert (Hnew : ~ In name (obj_keys m)) by (intro H; exact (Hnone name H eq_refl)).
  split.
  - unfold delete_horse. rewrite (decodeURIComponent_plain name Hplain).
    now rewrite (proj2 (obj_get_None m name) Hnew).
  - unfold add_horse. rewrite Hname. cbn [negb]. cbv zeta.
    destruct (find_stripped_none name (obj_keys m) Hnone) as [-> ->].
    eexists. split; [reflexivity|].
    unfold delete_horse. rewrite (decodeURIComponent_plain name Hplain).
    rewrite own_set_get, str_eqb_refl.
    destruct (own_set_new m name
                {| owner := o; country := c; isHistoric := h; aliases := None |} Hnew)
      as (front & back & Em & -> & _).
    rewrite obj_delete_middle; [now rewrite <- Em | now rewrite <- Em].
Qed.

Lemma add_then_delete_horse_witness :
  exists m',
    add_horse (js "22") (js "Godolphin") [] false
              [(js "2022 Ginger Punch", blank_horse)] = Stored m'
    /\ delete_horse (js "22") m' = Stored [(js "2022 Ginger Punch", blank_horse)].
Proof.
  apply (add_then_delete_horse (js "22") (js "Godolphin") [] false
                               [(js "2022 Ginger Punch", blank_horse)]).
  - reflexivity.
  - reflexivity.
  - intros k [<-|[]]. vm_compute. discriminate.
Defined.
(** ** Automatic registration of the horses of the training data *)

(** A spelling that [ensureHorsesInMapping] takes for the name is taken for
    it by [resolveHorseAlias] too: the two differ only in that the latter
    trims the lower-case name. *)
Lemma ensure_match_resolves (horseName x : str) :
  spelling_matches (toLowerCase horseName)
                   (toLowerCase (replace_all no_flags re_non_alnum horseName))
                   (normalizeHorseNameForMatch horseName) x = true ->
  name_matches horseName x = true.
Proof.
  unfold name_matches, spelling_matches. intro H.
  apply orb_true_iff in H. destruct H as [H|H].
  - apply orb_true_iff in H. destruct H as [H|H].
    + apply str_eqb_eq in H. apply stripped_lower in H.
      rewrite H, str_eqb_refl. now rewrite orb_true_r.
    + rewrite H. now rewrite orb_true_r.
  - rewrite H. now rewrite orb_true_r.
Qed.

Lemma ensure_match_self (horseName : str) :
  spelling_matches (toLowerCase horseName)
                   (toLowerCase (replace_all no_flags re_non_alnum horseName))
                   (normalizeHorseNameForMatch horseName) horseName = true.
Proof. unfold spelling_matches. now rewrite str_eqb_refl. Qed.

(** One round of the loop either leaves the mapping alone, because the name
    is a placeholder or is known already, or appends a blank entry for it. *)
Lemma ensure_step_cases (m : horse_mapping) (horseName : str) :
  (forall k, In k (obj_keys m) -> truthy k = true) ->
  (ensure_step m horseName = m
   /\ (array_includes invalidNames (trim (toLowerCase horseName)) = false ->
       known_name horseName m))
  \/ (~ In horseName (obj_keys m)
      /\ ensure_step m horseName = m ++ [(horseName, blank_horse)]).
Proof.
  intro Hkeys. unfold ensure_step.
  destruct (array_includes invalidNames (trim (toLowerCase horseName)));
    [left; split; [reflexivity | discriminate]|].
  cbv zeta.
  set (nl := toLowerCase horseName).
  set (ns := toLowerCase (replace_all no_flags re_non_alnum horseName)).
  set (nn := normalizeHorseNameForMatch horseName).
  destruct (find (spelling_matches nl ns nn) (obj_keys m)) as [k|] eqn:Ef.
  - apply find_some in Ef. destruct Ef as [Hin Hk]. rewrite (Hkeys k Hin).
    left. split; [reflexivity|]. intros _. left. exists k. split; [exact Hin|].
    now apply ensure_match_resolves.
  - cbn [negb andb].
    destruct (existsb (fun e => some_alias (spelling_matches nl ns nn) (snd e)) m) eqn:Ea.
    + left. split; [reflexivity|]. intros _. right.
      apply existsb_exists in Ea. destruct Ea as ([k d] & Hin & Hd).
      unfold some_alias in Hd. simpl in Hd.
      destruct (aliases d) as [al|] eqn:Eal; [|discriminate].
      apply existsb_exists in Hd. destruct Hd as (a & Ha & Hm).
      exists k, d, al, a. repeat split; auto. now apply ensure_match_resolves.
    + right. cbn [negb].
      assert (Hnew : ~ In horseName (obj_keys m)).
      { intro Hin. pose proof (find_none _ _ Ef horseName Hin) as H.
        subst nl ns nn. rewrite ensure_match_self in H. discriminate. }
      split; [exact Hnew | now apply obj_set_new].
Qed.

Lemma known_name_app (horseName : str) (m extra : horse_mapping) :
  known_name horseName m -> known_name horseName (m ++ extra).
Proof.
  intros [(k & Hin & Hk)|(k & d & al & a & Hin & H)].
  - left. exists k. split; [|exact Hk]. unfold obj_keys. rewrite map_app.
    apply in_or_app. now left.
  - right. exists k, d, al, a. split; [apply in_or_app; now left | exact H].
Qed.

Lemma named_app_blank (m : horse_mapping) (horseName : str) :
  named m -> truthy horseName = true -> named (m ++ [(horseName, blank_horse)]).
Proof.
  intros [Hk Ha] Hh. split.
  - intros k Hin. unfold obj_keys in Hin. rewrite map_app in Hin.
    apply in_app_or in Hin. destruct Hin as [Hin|[<-|[]]]; [now apply Hk | exact Hh].
  - intros k d al a Hin Eal Hal. apply in_app_or in Hin.
    destruct Hin as [Hin|[[= <- <-]|[]]]; [exact (Ha k d al a Hin Eal Hal)|].
    injection Eal as <-. destruct Hal.
Qed.

Lemma resolve_in_aliases_known (nl ns nn : str) (m : horse_mapping) :
  (forall k d al a, In (k, d) m -> aliases d = Some al -> In a al -> truthy a = true) ->
  (exists k d al a, In (k, d) m /\ aliases d = Some al /\ In a al
                    /\ spelling_matches nl ns nn a = true) ->
  exists p, resolve_in_aliases nl ns nn m = Some p.
Proof.
  induction m as [|[k d] m IH]; intros Htr (k0 & d0 & al0 & a0 & Hin & Eal & Ha & Hm);
    [destruct Hin|].
  simpl.
  destruct (aliases d) as [al|] eqn:Ead.
  - destruct (find (spelling_matches nl ns nn) al) as [x|] eqn:Ef.
    + apply find_some in Ef.
      rewrite (Htr k d al x (or_introl eq_refl) Ead (proj1 Ef)). eauto.
    + destruct Hin as [[= <- <-]|Hin].
      * exfalso. assert (al0 = al) by congruence. subst al0.
        rewrite (find_none _ _ Ef a0 Ha) in Hm. discriminate.
      * apply IH; [intros k' d' al' a' H; apply (Htr k' d' al' a'); now right|].
        exists k0, d0, al0, a0. auto.
  - destruct Hin as [[= <- <-]|Hin]; [congruence|].
    apply IH; [intros k' d' al' a' H; apply (Htr k' d' al' a'); now right|].
    exists k0, d0, al0, a0. auto.
Qed.

(** In a mapping without empty names, a known name resolves to a canonical
    name. *)
Lemma known_name_resolves (horseName : str) (m : horse_mapping) :
  named m -> truthy horseName = true -> known_name horseName m ->
  In (resolveHorseAlias horseName m) (obj_keys m).
Proof.
  intros [Hk Ha] Hh Hknown. unfold resolveHorseAlias. rewrite Hh. cbn [negb].
  cbv zeta. unfold known_name, name_matches in Hknown.
  set (nl := trim (toLowerCase horseName)) in *.
  set (ns := toLowerCase (replace_all no_flags re_non_alnum horseName)) in *.
  set (nn := normalizeHorseNameForMatch horseName) in *.
  destruct (find (spelling_matches nl ns nn) (obj_keys m)) as [k|] eqn:Ef.
  - apply find_some in Ef. rewrite (Hk k (proj1 Ef)). exact (proj1 Ef).
  - destruct Hknown as [(k & Hin & Hm)|Hal].
    + rewrite (find_none _ _ Ef k Hin) in Hm. discriminate.
    + destruct (resolve_in_aliases_known nl ns nn m Ha Hal) as (p & Ep).
      rewrite Ep. now apply resolve_in_aliases_Some in Ep.
Qed.
Lemma keys_app_blank (m : horse_mapping) (horseName k : str) :
  In k (obj_keys (m ++ [(horseName, blank_horse)])) <-> In k (obj_keys m) \/ k = horseName.
Proof.
  unfold obj_keys. rewrite map_app, in_app_iff. simpl. intuition.
Qed.

Lemma alias_partition_app_blank (m : horse_mapping) (horseName : str) :
  alias_partition m -> alias_partition (m ++ [(horseName, blank_horse)]).
Proof.
  intros Hpart k1 d1 k2 d2 a H1 H2 O1 O2.
  apply in_app_or in H1. apply in_app_or in H2.
  destruct H1 as [H1|[[= <- <-]|[]]]; [|exfalso; exact (owns_blank a O1)].
  destruct H2 as [H2|[[= <- <-]|[]]]; [|exfalso; exact (owns_blank a O2)].
  exact (Hpart k1 d1 k2 d2 a H1 H2 O1 O2).
Qed.

Lemma obj_get_app_known {V : Type} (o extra : obj V) (k : str) (v : V) :
  obj_get o k = Some v -> obj_get (o ++ extra) k = Some v.
Proof.
  induction o as [|[k0 v0] o IH]; simpl; [discriminate|].
  destruct (str_eqb k0 k); auto.
Qed.

(** The loop of [ensureHorsesInMapping] keeps a mapping without empty
    names in that state, changes no entry and adds blank entries only. *)
Lemma ensure_loop_keeps (dataKeys : list str) :
  forall m : horse_mapping,
    well_keyed m -> named m ->
    (forall h, In h dataKeys -> truthy h = true) ->
    well_keyed (ensureHorsesInMapping dataKeys m)
    /\ named (ensureHorsesInMapping dataKeys m)
    /\ (alias_partition m -> alias_partition (ensureHorsesInMapping dataKeys m))
    /\ (forall k d, obj_get m k = Some d ->
                    obj_get (ensureHorsesInMapping dataKeys m) k = Some d)
    /\ (forall k d, In (k, d) (ensureHorsesInMapping dataKeys m) ->
                    In (k, d) m \/ (In k dataKeys /\ d = blank_horse))
    /\ (forall h, known_name h m -> known_name h (ensureHorsesInMapping dataKeys m)).
Proof.
  unfold ensureHorsesInMapping.
  induction dataKeys as [|h0 rest IH]; intros m Hwf Hnamed Hdata; simpl.
  - repeat split; auto; apply Hnamed.
  - assert (Hh0 : truthy h0 = true) by (apply Hdata; now left).
    assert (Hrest : forall h, In h rest -> truthy h = true)
      by (intros h Hh; apply Hdata; now right).
    destruct (ensure_step_cases m h0 (proj1 Hnamed)) as [[E _]|[Hnew E]]; rewrite E.
    + destruct (IH m Hwf Hnamed Hrest) as (H1 & H2 & H3 & H4 & H5 & H6).
      repeat split; auto; try apply H2.
      intros k d Hin. destruct (H5 k d Hin) as [?|[? ?]]; auto.
    + assert (Hwf' : well_keyed (m ++ [(h0, blank_horse)])).
      { rewrite <- (obj_set_new m h0 blank_horse Hnew). now apply well_keyed_set. }
      destruct (IH _ Hwf' (named_app_blank m h0 Hnamed Hh0) Hrest)
        as (H1 & H2 & H3 & H4 & H5 & H6).
      split; [exact H1|]. split; [exact H2|]. split; [|split; [|split]].
      * intro Hp. apply H3. now apply alias_partition_app_blank.
      * intros k d Hget. apply H4. now apply obj_get_app_known.
      * intros k d Hin. destruct (H5 k d Hin) as [Hm|[? ?]]; [|auto].
        apply in_app_or in Hm. destruct Hm as [Hm|[[= <- <-]|[]]]; auto.
      * intros h Hk. apply H6. now apply known_name_app.
Qed.

(** X6.  [ensureHorsesInMapping] only ever adds: on a mapping and training
    data without empty names it changes and removes no entry, every entry
    it adds is blank and is named after a horse of the data, each key stays
    unique and the alias sets stay disjoint. *)
Theorem ensureHorsesInMapping_only_adds (dataKeys : list str) (m : horse_mapping) :
  well_keyed m -> named m -> alias_partition m ->
  (forall h, In h dataKeys -> truthy h = true) ->
  well_keyed (ensureHorsesInMapping dataKeys m)
  /\ alias_partition (ensureHorsesInMapping dataKeys m)
  /\ (forall k d, obj_get m k = Some d ->
                  obj_get (ensureHorsesInMapping dataKeys m) k = Some d)
  /\ (forall k d, In (k, d) (ensureHorsesInMapping dataKeys m) ->
                  In (k, d) m \/ (In k dataKeys /\ d = blank_horse)).
Proof.
  intros Hwf Hnamed Hpart Hdata.
  destruct (ensure_loop_keeps dataKeys m Hwf Hnamed Hdata) as (H1 & _ & H3 & H4 & H5 & _).
  auto.
Qed.

Lemma ensureHorsesInMapping_only_adds_witness :
  let m := [(js "2022 Ginger Punch", horse_with_aliases [js "Ginger Punch"])] in
  let dataKeys := [js "GINGER PUNCH 22"; js "Sheet1"; js "Stoweshoe"] in
  well_keyed (ensureHorsesInMapping dataKeys m)
  /\ alias_partition (ensureHorsesInMapping dataKeys m)
  /\ (forall k d, obj_get m k = Some d ->
                  obj_get (ensureHorsesInMapping dataKeys m) k = Some d)
  /\ (forall k d, In (k, d) (ensureHorsesInMapping dataKeys m) ->
                  In (k, d) m \/ (In k dataKeys /\ d = blank_horse)).
Proof.
  intros m dataKeys. apply ensureHorsesInMapping_only_adds.
  - repeat constructor; simpl; intuition discriminate.
  - split.
    + intros k [<-|[]]. reflexivity.
    + intros k d al a [[= <- <-]|[]] [= <-] [<-|[]]. reflexivity.
  - intros k1 d1 k2 d2 a [[= <- <-]|[]] [[= <- <-]|[]] _ _. reflexivity.
  - intros h [<-|[<-|[<-|[]]]]; reflexivity.
Defined.

(** X7.  After [ensureHorsesInMapping] every horse of the training data has
    a canonical name: on a mapping and data without empty names, each data
    name that is not a placeholder is resolved by [resolveHorseAlias],
    against the mapping returned, to a key of that mapping. *)
Theorem ensure_then_resolve (dataKeys : list str) (m : horse_mapping) (h : str) :
  well_keyed m -> named m ->
  (forall h', In h' dataKeys -> truthy h' = true) ->
  In h dataKeys ->
  array_includes invalidNames (trim (toLowerCase h)) = false ->
  In (resolveHorseAlias h (ensureHorsesInMapping dataKeys m))
     (obj_keys (ensureHorsesInMapping dataKeys m)).
Proof.
  intros Hwf Hnamed Hdata Hin Hvalid.
  assert (Hh : truthy h = true) by now apply Hdata.
  destruct (ensure_loop_keeps dataKeys m Hwf Hnamed Hdata) as (_ & Hnamed' & _).
  apply known_name_resolves; [exact Hnamed' | exact Hh |].
  clear Hnamed'. revert m Hwf Hnamed. unfold ensureHorsesInMapping.
  induction dataKeys as [|h0 rest IH]; intros m Hwf Hnamed; [destruct Hin|].
  assert (Hh0 : truthy h0 = true) by (apply Hdata; now left).
  assert (Hrest : forall h', In h' rest -> truthy h' = true)
    by (intros h' Hh'; apply Hdata; now right).
  simpl.
  assert (Hstep : well_keyed (ensure_step m h0) /\ named (ensure_step m h0)
                  /\ (h0 = h -> known_name h (ensure_step m h0))).
  { destruct (ensure_step_cases m h0 (proj1 Hnamed)) as [[E Hk]|[Hnew E]]; rewrite E.
    - split; [exact Hwf|]. split; [exact Hnamed|]. intros ->. now apply Hk.
    - split; [rewrite <- (obj_set_new m h0 blank_horse Hnew); now apply well_keyed_set|].
      split; [now apply named_app_blank|].
      intros ->. left. exists h. split; [|apply name_matches_self].
      apply keys_app_blank. now right. }
  destruct Hstep as (Hwf1 & Hnamed1 & Hknown1).
  destruct (list_eq_dec ascii_dec h0 h) as [Heq|Hne].
  - destruct (ensure_loop_keeps rest _ Hwf1 Hnamed1 Hrest) as (_ & _ & _ & _ & _ & H6).
    apply H6. now apply Hknown1.
  - destruct Hin as [Hin|Hin]; [contradiction|].
    now apply IH.
Qed.

Lemma ensure_then_resolve_witness :
  In (resolveHorseAlias (js "GINGER PUNCH 22")
        (ensureHorsesInMapping [js "GINGER PUNCH 22"; js "Sheet1"; js "Stoweshoe"]
           [(js "2022 Ginger Punch", horse_with_aliases [js "Ginger Punch"])]))
     (obj_keys
        (ensureHorsesInMapping [js "GINGER PUNCH 22"; js "Sheet1"; js "Stoweshoe"]
           [(js "2022 Ginger Punch", horse_with_aliases [js "Ginger Punch"])])).
Proof.
  apply ensure_then_resolve.
  - repeat constructor; simpl; intuition discriminate.
  - split.
    + intros k [<-|[]]. reflexivity.
    + intros k d al a [[= <- <-]|[]] [= <-] [<-|[]]. reflexivity.
  - intros h [<-|[<-|[<-|[]]]]; reflexivity.
  - now left.
  - reflexivity.
Defined.
(** ** Objects: more lemmas *)

Lemma obj_get_app_new {V : Type} (o rest : obj V) (k : str) :
  ~ In k (obj_keys o) -> obj_get (o ++ rest) k = obj_get rest k.
Proof.
  induction o as [|[k0 v0] o IH]; simpl; intro H; [reflexivity|].
  assert (E : str_eqb k0 k = false) by (apply str_eqb_neq; intros ->; apply H; now left).
  rewrite E. apply IH. intro Hin. apply H. now right.
Qed.

Lemma obj_set_app_new {V : Type} (o rest : obj V) (k : str) (v : V) :
  ~ In k (obj_keys o) -> obj_set (o ++ rest) k v = o ++ obj_set rest k v.
Proof.
  induction o as [|[k0 v0] o IH]; simpl; intro H; [reflexivity|].
  assert (E : str_eqb k0 k = false) by (apply str_eqb_neq; intros ->; apply H; now left).
  rewrite E, IH; [reflexivity|]. intro Hin. apply H. now right.
Qed.

Lemma update_each_from {V : Type} (f : str -> V -> V) (todo : obj V) :
  forall done : obj V,
    NoDup (obj_keys done ++ obj_keys todo) ->
    fold_left (fun acc k => match obj_get acc k with
                            | Some v => obj_set acc k (f k v)
                            | None => acc
                            end)
              (obj_keys todo) (done ++ todo)
    = done ++ map (fun e => (fst e, f (fst e) (snd e))) todo.
Proof.
  induction todo as [|[k v] todo IH]; intros done Hnd; [reflexivity|].
  cbn [obj_keys map fold_left fst snd] in *.
  assert (Hk : ~ In k (obj_keys done)).
  { intro Hin. apply NoDup_remove_2 in Hnd. apply Hnd, in_or_app. now left. }
  rewrite (obj_get_app_new done _ k Hk). cbn [obj_get]. rewrite str_eqb_refl.
  rewrite (obj_set_app_new done _ k _ Hk). cbn [obj_set]. rewrite str_eqb_refl.
  replace (done ++ (k, f k v) :: todo) with ((done ++ [(k, f k v)]) ++ todo)
    by (rewrite <- app_assoc; reflexivity).
  fold (obj_keys todo). rewrite IH.
  - rewrite <- app_assoc. reflexivity.
  - unfold obj_keys in *. rewrite map_app, <- app_assoc. exact Hnd.
Qed.

(** On an object, updating each property in turn is a map over the
    properties. *)
Lemma update_each_map {V : Type} (f : str -> V -> V) (o : obj V) :
  well_keyed o ->
  update_each f o = map (fun e => (fst e, f (fst e) (snd e))) o.
Proof. intro H. exact (update_each_from f o [] H). Qed.

Lemma obj_get_map {V : Type} (f : str -> V -> V) (o : obj V) (k : str) :
  obj_get (map (fun e => (fst e, f (fst e) (snd e))) o) k
  = match obj_get o k with Some v => Some (f k v) | None => None end.
Proof.
  induction o as [|[k0 v0] o IH]; simpl; [reflexivity|].
  destruct (str_eqb k0 k) eqn:E; [|exact IH].
  apply str_eqb_eq in E. now subst.
Qed.

Lemma obj_keys_map {V : Type} (f : str -> V -> V) (o : obj V) :
  obj_keys (map (fun e => (fst e, f (fst e) (snd e))) o) = obj_keys o.
Proof. unfold obj_keys. rewrite map_map. reflexivity. Qed.

Lemma obj_get_update_each {V : Type} (f : str -> V -> V) (o : obj V) (k : str) :
  well_keyed o ->
  obj_get (update_each f o) k
  = match obj_get o k with Some v => Some (f k v) | None => None end.
Proof. intro H. rewrite (update_each_map f o H). apply obj_get_map. Qed.

Lemma well_keyed_update_each {V : Type} (f : str -> V -> V) (o : obj V) :
  well_keyed o -> well_keyed (update_each f o).
Proof.
  intro H. rewrite (update_each_map f o H). unfold well_keyed. now rewrite obj_keys_map.
Qed.

Lemma obj_get_set {V : Type} (o : obj V) (k k' : str) (v : V) :
  obj_get (obj_set o k v) k' = if str_eqb k k' then Some v else obj_get o k'.
Proof.
  destruct (str_eqb k k') eqn:E.
  - apply str_eqb_eq in E. subst. apply obj_get_set_same.
  - apply str_eqb_neq in E. apply obj_get_set_other. congruence.
Qed.

Lemma get_or_nil_set {A : Type} (o : obj (list A)) (k k' : str) (v : list A) :
  get_or_nil (obj_set o k v) k' = if str_eqb k k' then v else get_or_nil o k'.
Proof. unfold get_or_nil. rewrite obj_get_set. now destruct (str_eqb k k'). Qed.

(** ** Values *)

Lemma strict_eq_eq (v w : jsval) : strict_eq v w = true <-> v = w.
Proof.
  destruct v as [|a|a], w as [|b|b]; simpl; try (split; [discriminate|discriminate]);
    try tauto.
  - destruct a, b; simpl; split; congruence.
  - rewrite str_eqb_eq. split; congruence.
Qed.

Lemma same_session_key (r existing : row) :
  same_session r existing = true <-> session_key existing = session_key r.
Proof.
  unfold same_session, session_key. rewrite andb_true_iff, !strict_eq_eq.
  split; [intros [-> ->]; reflexivity | intros [= -> ->]; auto].
Qed.

Lemma existsb_same_session (r : row) (entries : list row) :
  existsb (same_session r) entries = true <-> In (session_key r) (map session_key entries).
Proof.
  rewrite existsb_exists, in_map_iff. split.
  - intros (e & Hin & He). exists e. split; [now apply same_session_key | exact Hin].
  - intros (e & He & Hin). exists e. split; [exact Hin | now apply same_session_key].
Qed.
(** ** Merging an upload into the training data *)

Section MergeTraining.
Variable sort_rows : list row -> list row.
Hypothesis sort_rows_perm : forall l, Permutation (sort_rows l) l.

Lemma get_or_nil_sorted (m : detail_data) (k : str) :
  well_keyed m ->
  get_or_nil (update_each (fun _ rows => sort_rows rows) m) k
  = match obj_get m k with Some rows => sort_rows rows | None => [] end.
Proof.
  intro H. unfold get_or_nil. rewrite (obj_get_update_each _ m k H).
  now destruct (obj_get m k).
Qed.

Lemma sorted_perm (m : detail_data) (k : str) :
  well_keyed m ->
  Permutation (get_or_nil (update_each (fun _ rows => sort_rows rows) m) k)
              (get_or_nil m k).
Proof.
  intro H. rewrite (get_or_nil_sorted m k H). unfold get_or_nil.
  destruct (obj_get m k); [apply sort_rows_perm | constructor].
Qed.

(** What one round of the loop does: it keeps every row, adds at most the
    row it reads, under the name the row carries, never a second row of a
    session, and afterwards the session of a row with a proper horse name
    is on file. *)
Lemma merge_row_step (m m' : detail_data) (r : row) :
  merge_row m r = Some m' ->
  well_keyed m ->
  well_keyed m'
  /\ field r "horse" <> JBool true
  /\ ((forall k rows, obj_get m k = Some rows -> NoDup (map session_key rows)) ->
      forall k rows, obj_get m' k = Some rows -> NoDup (map session_key rows))
  /\ (forall k x, In x (get_or_nil m k) -> In x (get_or_nil m' k))
  /\ (forall k x, In x (get_or_nil m' k) ->
                  In x (get_or_nil m k) \/ (x = r /\ field r "horse" = JStr k))
  /\ (forall h, field r "horse" = JStr h -> truthy h = true ->
                array_includes invalidNames (trim (toLowerCase h)) = false ->
                In (session_key r) (map session_key (get_or_nil m' h))).
Proof.
  unfold merge_row. intros Hstep Hwf.
  destruct (field r "horse") as [|[]|h] eqn:Eh; try discriminate;
    try (injection Hstep as <-; repeat split; auto; try discriminate; fail).
  destruct (truthy h) eqn:Et; cbn [negb] in Hstep;
    [|injection Hstep as <-; repeat split; auto; try discriminate;
      intros h' [= <-]; congruence].
  destruct (array_includes invalidNames (trim (toLowerCase h))) eqn:Ei;
    [injection Hstep as <-; repeat split; auto; try discriminate;
     intros h' [= <-]; congruence|].
  cbv zeta in Hstep.
  destruct (existsb (same_session r) (get_or_nil m h)) eqn:Ed; injection Hstep as <-.
  - repeat split; auto; try discriminate.
    intros h' [= <-] _ _. now apply existsb_same_session.
  - split; [now apply well_keyed_set|]. split; [discriminate|]. split; [|split; [|split]].
    + intros Hnd k rows. rewrite obj_get_set.
      destruct (str_eqb h k) eqn:E; [|apply Hnd].
      intros [= <-]. rewrite map_app. apply NoDup_app.
      * unfold get_or_nil. destruct (obj_get m h) eqn:G; [eapply Hnd; eauto | constructor].
      * repeat constructor. intros [].
      * intros x Hx [<-|[]]. apply existsb_same_session in Hx. congruence.
    + intros k x Hx. rewrite get_or_nil_set.
      destruct (str_eqb h k) eqn:E; [|exact Hx].
      apply str_eqb_eq in E. subst k. apply in_or_app. now left.
    + intros k x. rewrite get_or_nil_set.
      destruct (str_eqb h k) eqn:E; [|now left].
      apply str_eqb_eq in E. subst k. intro Hx. apply in_app_or in Hx.
      destruct Hx as [Hx|[<-|[]]]; [now left | now right].
    + intros h' [= <-] _ _. rewrite get_or_nil_set, str_eqb_refl, map_app.
      apply in_or_app. right. now left.
Qed.

Lemma merge_rows_keeps (newData : list row) :
  forall m m' : detail_data,
    merge_rows m newData = Some m' ->
    well_keyed m ->
    well_keyed m'
    /\ (forall r, In r newData -> field r "horse" <> JBool true)
    /\ ((forall k rows, obj_get m k = Some rows -> NoDup (map session_key rows)) ->
        forall k rows, obj_get m' k = Some rows -> NoDup (map session_key rows))
    /\ (forall k x, In x (get_or_nil m k) -> In x (get_or_nil m' k))
    /\ (forall k x, In x (get_or_nil m' k) ->
                    In x (get_or_nil m k) \/ (In x newData /\ field x "horse" = JStr k))
    /\ (forall r h, In r newData -> field r "horse" = JStr h -> truthy h = true ->
                    array_includes invalidNames (trim (toLowerCase h)) = false ->
                    In (session_key r) (map session_key (get_or_nil m' h))).
Proof.
  induction newData as [|r rest IH]; intros m m' Hm Hwf; simpl in Hm.
  - injection Hm as <-. repeat split; auto; intros; try tauto; contradiction.
  - destruct (merge_row m r) as [m1|] eqn:E1; [|discriminate].
    destruct (merge_row_step m m1 r E1 Hwf) as (Hwf1 & Hty & Hnd1 & Hkeep1 & Hnew1 & Hcov1).
    destruct (IH m1 m' Hm Hwf1) as (Hwf' & Hty' & Hnd' & Hkeep' & Hnew' & Hcov').
    split; [exact Hwf'|]. split; [|split; [|split; [|split]]].
    + intros x [<-|Hx]; auto.
    + intro Hnd. apply Hnd'. apply Hnd1. exact Hnd.
    + intros k x Hx. apply Hkeep'. now apply Hkeep1.
    + intros k x Hx. destruct (Hnew' k x Hx) as [H1|[H1 H2]].
      * destruct (Hnew1 k x H1) as [H0|[-> H2]]; [now left|right]. split; [now left|exact H2].
      * right. split; [now right | exact H2].
    + intros x h [<-|Hx] Hh Ht Hi.
      * pose proof (Hcov1 h Hh Ht Hi) as Hc. apply in_map_iff in Hc.
        destruct Hc as (e & He & Hin). apply in_map_iff. exists e. split; [exact He|].
        now apply Hkeep'.
      * now apply (Hcov' x h).
Qed.

(** Rows whose sessions are on file already are all passed over. *)
Lemma merge_rows_settled (newData : list row) (m : detail_data) :
  (forall r, In r newData -> field r "horse" <> JBool true) ->
  (forall r h, In r newData -> field r "horse" = JStr h -> truthy h = true ->
               array_includes invalidNames (trim (toLowerCase h)) = false ->
               In (session_key r) (map session_key (get_or_nil m h))) ->
  merge_rows m newData = Some m.
Proof.
  induction newData as [|r rest IH]; intros Hty Hcov; [reflexivity|].
  simpl.
  assert (E : merge_row m r = Some m).
  { unfold merge_row.
    pose proof (Hty r (or_introl eq_refl)) as Hr.
    destruct (field r "horse") as [|[]|h] eqn:Eh; try reflexivity; [congruence|].
    destruct (truthy h) eqn:Et; [|reflexivity]. cbn [negb].
    destruct (array_includes invalidNames (trim (toLowerCase h))) eqn:Ei; [reflexivity|].
    cbv zeta.
    replace (existsb (same_session r) (get_or_nil m h)) with true; [reflexivity|].
    symmetry. apply existsb_same_session. apply (Hcov r h); auto. now left. }
  rewrite E. apply IH.
  - intros x Hx. apply Hty. now right.
  - intros x h Hx. apply Hcov. now right.
Qed.
End MergeTraining.

(** X8.  [mergeTrainingData] files no session twice and loses nothing: when
    no horse of the existing data has two rows of one date and horse, no
    horse of the merged data has; every existing row is still under its
    horse; and every other row comes from the upload and is under the horse
    name it carries. *)
Theorem mergeTrainingData_no_duplicates
        (sort_rows : list row -> list row) (existingData merged : detail_data)
        (newData : list row) :
  (forall l, Permutation (sort_rows l) l) ->
  well_keyed existingData ->
  (forall k rows, obj_get existingData k = Some rows -> NoDup (map session_key rows)) ->
  mergeTrainingData sort_rows existingData newData = Some merged ->
  well_keyed merged
  /\ (forall k rows, obj_get merged k = Some rows -> NoDup (map session_key rows))
  /\ (forall k x, In x (get_or_nil existingData k) -> In x (get_or_nil merged k))
  /\ (forall k x, In x (get_or_nil merged k) ->
                  In x (get_or_nil existingData k)
                  \/ (In x newData /\ field x "horse" = JStr k)).
Proof.
  intros Hsort Hwf Hnd Hm. unfold mergeTrainingData in Hm.
  destruct (merge_rows existingData newData) as [m1|] eqn:E1; [|discriminate].
  injection Hm as <-.
  destruct (merge_rows_keeps newData existingData m1 E1 Hwf)
    as (Hwf1 & _ & Hnd1 & Hkeep1 & Hnew1 & _).
  split; [now apply well_keyed_update_each|]. split; [|split].
  - intros k rows. rewrite (obj_get_update_each _ m1 k Hwf1).
    destruct (obj_get m1 k) as [rows1|] eqn:G; [|discriminate]. intros [= <-].
    apply (Permutation_NoDup (l := map session_key rows1)).
    + apply Permutation_map, Permutation_sym, Hsort.
    + exact (Hnd1 Hnd k rows1 G).
  - intros k x Hx. apply (Permutation_in x (Permutation_sym (sorted_perm sort_rows Hsort m1 k Hwf1))).
    now apply Hkeep1.
  - intros k x Hx. apply Hnew1.
    exact (Permutation_in x (sorted_perm sort_rows Hsort m1 k Hwf1) Hx).
Qed.

Lemma mergeTrainingData_no_duplicates_witness :
  let workout := [(js "date", JStr (js "01/19/2026")); (js "horse", JStr (js "Stoweshoe"));
                  (js "type", JStr (js "Work"))] in
  let again := [(js "date", JStr (js "01/19/2026")); (js "horse", JStr (js "Stoweshoe"));
                (js "type", JStr (js "Gallop"))] in
  mergeTrainingData (fun l => l) [(js "Stoweshoe", [workout])] [again; again]
  = Some [(js "Stoweshoe", [workout])]
  /\ forall k rows, obj_get [(js "Stoweshoe", [workout])] k = Some rows ->
                    NoDup (map session_key rows).
Proof.
  intros workout again. split; [reflexivity|].
  apply (mergeTrainingData_no_duplicates (fun l => l) [(js "Stoweshoe", [workout])]
           [(js "Stoweshoe", [workout])] [again; again]).
  - intro l. apply Permutation_refl.
  - repeat constructor. intros [].
  - intros k rows. cbn [obj_get]. destruct (str_eqb (js "Stoweshoe") k); [|discriminate].
    intros [= <-]. repeat constructor. intros [].
  - reflexivity.
Defined.

(** X9.  Merging the same upload a second time adds nothing: the second
    merge succeeds, with the same horses, and every horse has the rows it
    had after the first merge, rearranged at most by the sort. *)
Theorem mergeTrainingData_again
        (sort_rows : list row -> list row) (existingData merged : detail_data)
        (newData : list row) :
  (forall l, Permutation (sort_rows l) l) ->
  well_keyed existingData ->
  mergeTrainingData sort_rows existingData newData = Some merged ->
  exists merged2,
    mergeTrainingData sort_rows merged newData = Some merged2
    /\ obj_keys merged2 = obj_keys merged
    /\ forall k, Permutation (get_or_nil merged2 k) (get_or_nil merged k).
Proof.
  intros Hsort Hwf Hm. unfold mergeTrainingData in Hm.
  destruct (merge_rows existingData newData) as [m1|] eqn:E1; [|discriminate].
  injection Hm as <-.
  destruct (merge_rows_keeps newData existingData m1 E1 Hwf)
    as (Hwf1 & Hty & _ & _ & _ & Hcov).
  set (merged := update_each (fun _ rows => sort_rows rows) m1).
  assert (Hwfm : well_keyed merged) by now apply well_keyed_update_each.
  assert (E2 : merge_rows merged newData = Some merged).
  { apply merge_rows_settled; [exact Hty|].
    intros r h Hr Hh Ht Hi. pose proof (Hcov r h Hr Hh Ht Hi) as Hc.
    apply in_map_iff in Hc. destruct Hc as (e & He & Hin).
    apply in_map_iff. exists e. split; [exact He|].
    exact (Permutation_in e (Permutation_sym (sorted_perm sort_rows Hsort m1 h Hwf1)) Hin). }
  exists (update_each (fun _ rows => sort_rows rows) merged).
  unfold mergeTrainingData. rewrite E2. split; [reflexivity|]. split.
  - rewrite (update_each_map _ merged Hwfm).
    apply (obj_keys_map (fun _ rows => sort_rows rows)).
  - intro k. now apply sorted_perm.
Qed.

Lemma mergeTrainingData_again_witness :
  let workout := [(js "date", JStr (js "01/19/2026")); (js "horse", JStr (js "Stoweshoe"));
                  (js "type", JStr (js "Work"))] in
  exists merged2,
    mergeTrainingData (fun l => l) [(js "Stoweshoe", [workout])] [workout] = Some merged2
    /\ obj_keys merged2 = [js "Stoweshoe"].
Proof.
  intro workout.
  destruct (mergeTrainingData_again (fun l => l) [] [(js "Stoweshoe", [workout])] [workout])
    as (merged2 & E & Hk & _).
  - intro l. apply Permutation_refl.
  - constructor.
  - reflexivity.
  - exists merged2. split; [exact E | exact Hk].
Defined.
(** ** Filing the training data under canonical names *)

Lemma In_obj_keys_set {V : Type} (o : obj V) (k k' : str) (v : V) :
  In k' (obj_keys (obj_set o k v)) <-> In k' (obj_keys o) \/ k' = k.
Proof.
  rewrite obj_keys_set. destruct (existsb (str_eqb k) (obj_keys o)) eqn:E.
  - split; [now left|]. intros [H| ->]; [exact H|].
    apply existsb_exists in E. destruct E as (x & Hx & Ex). apply str_eqb_eq in Ex.
    now subst.
  - rewrite in_app_iff. simpl. intuition.
Qed.

Lemma total_rows_push {A : Type} (o : obj (list A)) (k : str) (es : list A) :
  total_rows (obj_set o k (get_or_nil o k ++ es)) = total_rows o + length es.
Proof.
  unfold total_rows, get_or_nil.
  induction o as [|[k0 v0] o IH]; simpl.
  - rewrite app_nil_r. reflexivity.
  - destruct (str_eqb k0 k) eqn:E; simpl.
    + rewrite !length_app. lia.
    + rewrite !length_app, IH. lia.
Qed.

Lemma total_rows_map {A : Type} (f : str -> list A -> list A) (o : obj (list A)) :
  (forall k l, length (f k l) = length l) ->
  total_rows (map (fun e => (fst e, f (fst e) (snd e))) o) = total_rows o.
Proof.
  intro Hf. unfold total_rows. induction o as [|[k0 v0] o IH]; simpl; [reflexivity|].
  rewrite !length_app, IH, Hf. reflexivity.
Qed.

Lemma total_rows_keys {A : Type} (o : obj (list A)) :
  well_keyed o ->
  total_rows o = list_sum (map (fun h => length (get_or_nil o h)) (obj_keys o)).
Proof.
  unfold well_keyed, total_rows, get_or_nil.
  induction o as [|[k0 v0] o IH]; simpl; intro Hnd; [reflexivity|].
  inversion Hnd as [|? ? Hnot Hnd']; subst.
  rewrite str_eqb_refl, length_app, (IH Hnd'). f_equal.
  f_equal. apply map_ext_in. intros h Hh.
  assert (E : str_eqb k0 h = false) by (apply str_eqb_neq; intros ->; contradiction).
  now rewrite E.
Qed.

Lemma field_with_field (o : row) (k k' : String.string) (v : jsval) :
  field (with_field o k v) k' = if str_eqb (js k) (js k') then v else field o k'.
Proof.
  unfold field, with_field. rewrite obj_get_set. now destruct (str_eqb (js k) (js k')).
Qed.

Section AliasedData.
Variable sort_rows : list row -> list row.
Hypothesis sort_rows_perm : forall l, Permutation (sort_rows l) l.
Variable allHorseDetailData : detail_data.
Variable horseMapping : horse_mapping.

Lemma alias_loop_keeps (keys : list str) :
  forall (processed : list str) (acc : detail_data),
    well_keyed acc ->
    (forall k r, In r (get_or_nil acc k) -> field r "horse" = JStr k) ->
    (forall k, In k (obj_keys acc)
               <-> exists h, In h processed /\ resolveHorseAlias h horseMapping = k) ->
    total_rows acc
    = list_sum (map (fun h => length (get_or_nil allHorseDetailData h)) processed) ->
    let merged := fold_left (alias_step allHorseDetailData horseMapping) keys acc in
    well_keyed merged
    /\ (forall k r, In r (get_or_nil merged k) -> field r "horse" = JStr k)
    /\ (forall k, In k (obj_keys merged)
                  <-> exists h, In h (processed ++ keys)
                                /\ resolveHorseAlias h horseMapping = k)
    /\ total_rows merged
       = list_sum (map (fun h => length (get_or_nil allHorseDetailData h))
                       (processed ++ keys)).
Proof.
  induction keys as [|h keys IH]; intros processed acc Hwf Hname Hkeys Htotal; cbn zeta.
  - simpl. rewrite app_nil_r. auto.
  - cbn [fold_left].
    replace (processed ++ h :: keys) with ((processed ++ [h]) ++ keys)
      by (rewrite <- app_assoc; reflexivity).
    apply IH; unfold alias_step; cbv zeta.
    + now apply well_keyed_set.
    + intros k r. rewrite get_or_nil_set.
      destruct (str_eqb (resolveHorseAlias h horseMapping) k) eqn:E; [|apply Hname].
      apply str_eqb_eq in E. intro Hin. apply in_app_or in Hin.
      destruct Hin as [Hin|Hin]; [rewrite <- E in *; now apply Hname|].
      apply in_map_iff in Hin. destruct Hin as (e & <- & _).
      rewrite !field_with_field. simpl. now rewrite E.
    + intro k. rewrite In_obj_keys_set, Hkeys. split.
      * intros [(h' & Hh' & E)| ->].
        -- exists h'. split; [apply in_or_app; now left | exact E].
        -- exists h. split; [apply in_or_app; right; now left | reflexivity].
      * intros (h' & Hh' & E). apply in_app_or in Hh'.
        destruct Hh' as [Hh'|[<-|[]]]; [left; now exists h' | now right].
    + rewrite total_rows_push, Htotal, length_map, map_app, list_sum_app. simpl. lia.
Qed.
End AliasedData.

(** X10.  [mergeAliasedHorseData] files every row under the canonical name
    of its horse and loses none: the keys of the result are the names to
    which the horses of the data resolve, every row under a key carries
    that key as its [horse], and the number of rows is unchanged. *)
Theorem mergeAliasedHorseData_files_by_name
        (sort_rows : list row -> list row) (allHorseDetailData : detail_data)
        (horseMapping : horse_mapping) :
  (forall l, Permutation (sort_rows l) l) ->
  well_keyed allHorseDetailData ->
  well_keyed (mergeAliasedHorseData sort_rows allHorseDetailData horseMapping)
  /\ (forall k r,
         In r (get_or_nil (mergeAliasedHorseData sort_rows allHorseDetailData horseMapping) k) ->
         field r "horse" = JStr k)
  /\ (forall k,
         In k (obj_keys (mergeAliasedHorseData sort_rows allHorseDetailData horseMapping))
         <-> exists h, In h (obj_keys allHorseDetailData)
                       /\ resolveHorseAlias h horseMapping = k)
  /\ total_rows (mergeAliasedHorseData sort_rows allHorseDetailData horseMapping)
     = total_rows allHorseDetailData.
Proof.
  intros Hsort Hwf. unfold mergeAliasedHorseData.
  destruct (alias_loop_keeps allHorseDetailData horseMapping (obj_keys allHorseDetailData)
              [] [])
    as (Hwf1 & Hname1 & Hkeys1 & Htotal1).
  - constructor.
  - intros k r [].
  - intro k. simpl. split; [intros [] | intros (h & [] & _)].
  - reflexivity.
  - cbn zeta in *.
    set (m1 := fold_left (alias_step allHorseDetailData horseMapping)
                         (obj_keys allHorseDetailData) []) in *.
    split; [now apply well_keyed_update_each|]. split; [|split].
    + intros k r Hr. apply (Hname1 k r).
      pose proof (obj_get_update_each (fun _ rows => sort_rows rows) m1 k Hwf1) as G.
      unfold get_or_nil in *. rewrite G in Hr.
      destruct (obj_get m1 k); [|destruct Hr].
      exact (Permutation_in r (Hsort l) Hr).
    + intro k. rewrite (update_each_map _ m1 Hwf1).
      rewrite (obj_keys_map (fun _ rows => sort_rows rows)). apply Hkeys1.
    + rewrite (update_each_map _ m1 Hwf1).
      rewrite (total_rows_map (fun _ rows => sort_rows rows)).
      * rewrite Htotal1. simpl. symmetry. now apply total_rows_keys.
      * intros k l. apply Permutation_length, Hsort.
Qed.

Lemma mergeAliasedHorseData_files_by_name_witness :
  let gallop := [(js "date", JStr (js "01/19/2026")); (js "horse", JStr (js "Ginger Punch"))] in
  let work := [(js "date", JStr (js "01/20/2026")); (js "horse", JStr (js "GINGER PUNCH 22"))] in
  let data := [(js "Ginger Punch", [gallop]); (js "GINGER PUNCH 22", [work])] in
  let mapping := [(js "2022 Ginger Punch", horse_with_aliases [js "Ginger Punch"])] in
  obj_keys (mergeAliasedHorseData (fun l => l) data mapping) = [js "2022 Ginger Punch"]
  /\ total_rows (mergeAliasedHorseData (fun l => l) data mapping) = total_rows data.
Proof.
  intros gallop work data mapping. split; [vm_compute; reflexivity|].
  apply (mergeAliasedHorseData_files_by_name (fun l => l) data mapping).
  - intro l. apply Permutation_refl.
  - repeat constructor; simpl; intuition discriminate.
Defined.
(** ** Edits of training entries *)

Lemma with_field_same (o : row) (k : String.string) (v : jsval) :
  obj_get o (js k) = Some v -> with_field o k v = o.
Proof. apply obj_set_same_value. Qed.

Lemma edited_twice (e : option str) (v : jsval) : edited e (edited e v) = edited e v.
Proof. now destruct e. Qed.

(** The six properties that an edit writes, as it leaves them. *)
Lemma edited_row_fixed (entry : row) (type track surface notes isRace isWork : jsval) :
  let r := with_field
             (with_field
                (with_field
                   (with_field (with_field (with_field entry "type" type) "track" track)
                               "surface" surface)
                   "notes" notes)
                "isRace" isRace)
             "isWork" isWork in
  field r "horse" = field entry "horse"
  /\ field r "date" = field entry "date"
  /\ field r "type" = type /\ field r "track" = track /\ field r "surface" = surface
  /\ field r "notes" = notes /\ field r "isRace" = isRace /\ field r "isWork" = isWork
  /\ with_field
       (with_field
          (with_field
             (with_field (with_field (with_field r "type" type) "track" track)
                         "surface" surface)
             "notes" notes)
          "isRace" isRace)
       "isWork" isWork = r.
Proof.
  intro r. subst r.
  repeat split; try (rewrite !field_with_field; reflexivity).
  repeat (rewrite with_field_same;
          [|unfold with_field; rewrite !obj_get_set; reflexivity]).
  reflexivity.
Qed.

Lemma apply_edit_twice (edits : obj Edit) (entry : row) :
  apply_edit edits (apply_edit edits entry) = apply_edit edits entry.
Proof.
  unfold apply_edit at 2.
  destruct (obj_get edits (to_string (field entry "horse") ++ js "|"
                                     ++ to_string (field entry "date"))) as [edit|] eqn:E.
  - cbv zeta.
    set (type := edited (edit_type edit) (field entry "type")).
    set (track := edited (edit_track edit) (field entry "track")).
    set (surface := edited (edit_surface edit) (field entry "surface")).
    set (notes := edited (edit_notes edit)
                         (if val_truthy (field entry "notes") then field entry "notes"
                          else JStr [])).
    set (isRace := match edit_type edit with
                   | Some t => if truthy t then JBool (includes (toLowerCase t) (js "race"))
                               else field entry "isRace"
                   | None => field entry "isRace"
                   end).
    set (isWork := match edit_type edit with
                   | Some t => if truthy t then JBool (includes (toLowerCase t) (js "work"))
                               else field entry "isWork"
                   | None => field entry "isWork"
                   end).
    destruct (edited_row_fixed entry type track surface notes isRace isWork)
      as (Hh & Hd & Ht & Htr & Hs & Hn & Hr & Hw & Hfix).
    cbv zeta in *.
    set (r := with_field _ "isWork" isWork) in *.
    unfold apply_edit. rewrite Hh, Hd, E. cbv zeta.
    rewrite Ht, Htr, Hs, Hn, Hr, Hw.
    assert (E1 : edited (edit_type edit) type = type) by apply edited_twice.
    assert (E2 : edited (edit_track edit) track = track) by apply edited_twice.
    assert (E3 : edited (edit_surface edit) surface = surface) by apply edited_twice.
    assert (E4 : edited (edit_notes edit) (if val_truthy notes then notes else JStr [])
                 = notes).
    { subst notes. destruct (edit_notes edit); [reflexivity|]. cbn [edited].
      destruct (val_truthy (field entry "notes")) eqn:Ev; [now rewrite Ev | reflexivity]. }
    assert (E5 : match edit_type edit with
                 | Some t => if truthy t then JBool (includes (toLowerCase t) (js "race"))
                             else isRace
                 | None => isRace
                 end = isRace).
    { subst isRace. destruct (edit_type edit) as [t|]; [|reflexivity].
      now destruct (truthy t). }
    assert (E6 : match edit_type edit with
                 | Some t => if truthy t then JBool (includes (toLowerCase t) (js "work"))
                             else isWork
                 | None => isWork
                 end = isWork).
    { subst isWork. destruct (edit_type edit) as [t|]; [|reflexivity].
      now destruct (truthy t). }
    rewrite E1, E2, E3, E4, E5, E6. exact Hfix.
  - unfold apply_edit. now rewrite E.
Qed.

Lemma apply_edit_session (edits : obj Edit) (entry : row) :
  session_key (apply_edit edits entry) = session_key entry.
Proof.
  unfold apply_edit, session_key.
  destruct (obj_get edits _) as [edit|]; [|reflexivity].
  cbv zeta. rewrite !field_with_field. reflexivity.
Qed.

(** X11.  [applyTrainingEdits] is idempotent and moves no row: applying the
    stored edits to data that has them applied changes nothing, the horses
    are the same, and each horse has as many rows as before, of the same
    dates and horse names, in the same order. *)
Theorem applyTrainingEdits_idempotent (allHorseDetailData : detail_data)
        (edits : obj Edit) :
  well_keyed allHorseDetailData ->
  applyTrainingEdits (applyTrainingEdits allHorseDetailData edits) edits
  = applyTrainingEdits allHorseDetailData edits
  /\ obj_keys (applyTrainingEdits allHorseDetailData edits) = obj_keys allHorseDetailData
  /\ forall k, map session_key (get_or_nil (applyTrainingEdits allHorseDetailData edits) k)
               = map session_key (get_or_nil allHorseDetailData k).
Proof.
  intro Hwf. unfold applyTrainingEdits.
  destruct (length (obj_keys edits) =? 0); [auto|].
  set (f := fun (_ : str) (rows : list row) => map (apply_edit edits) rows).
  assert (Hwf' : well_keyed (update_each f allHorseDetailData))
    by now apply well_keyed_update_each.
  split; [|split].
  - rewrite (update_each_map f _ Hwf'), (update_each_map f _ Hwf).
    rewrite map_map. apply map_ext. intros [k rows]. cbn [fst snd]. f_equal.
    subst f. cbv beta. rewrite map_map. apply map_ext. apply apply_edit_twice.
  - rewrite (update_each_map f _ Hwf). apply (obj_keys_map f).
  - intro k. unfold get_or_nil. rewrite (obj_get_update_each f _ k Hwf).
    destruct (obj_get allHorseDetailData k) as [rows|]; [|reflexivity].
    subst f. cbv beta. rewrite map_map. apply map_ext. apply apply_edit_session.
Qed.

Lemma applyTrainingEdits_idempotent_witness :
  let gallop := [(js "date", JStr (js "01/19/2026")); (js "horse", JStr (js "Stoweshoe"));
                 (js "type", JStr (js "Gallop"))] in
  let edits := [(js "Stoweshoe|01/19/2026",
                 {| edit_type := Some (js "Work - G"); edit_track := None;
                    edit_surface := None; edit_notes := None |})] in
  field (hd [] (get_or_nil (applyTrainingEdits [(js "Stoweshoe", [gallop])] edits)
                           (js "Stoweshoe"))) "isWork" = JBool true
  /\ applyTrainingEdits (applyTrainingEdits [(js "Stoweshoe", [gallop])] edits) edits
     = applyTrainingEdits [(js "Stoweshoe", [gallop])] edits.
Proof.
  intros gallop edits. split; [vm_compute; reflexivity|].
  apply (applyTrainingEdits_idempotent [(js "Stoweshoe", [gallop])] edits).
  repeat constructor. intros [].
Defined.
(** ** Notes among the training data *)

Lemma without_notes_from (todo : detail_data) :
  forall done : detail_data,
    NoDup (obj_keys done ++ obj_keys todo) ->
    fold_left (fun result horseName =>
                 obj_set result horseName
                         (filter not_note (get_or_nil (done ++ todo) horseName)))
              (obj_keys todo)
              (map (fun e => (fst e, filter not_note (snd e))) done)
    = map (fun e => (fst e, filter not_note (snd e))) (done ++ todo).
Proof.
  induction todo as [|[k v] todo IH]; intros done Hnd.
  - simpl. now rewrite app_nil_r.
  - cbn [obj_keys map fold_left fst] in *.
    assert (Hk : ~ In k (obj_keys done)).
    { intro Hin. apply NoDup_remove_2 in Hnd. apply Hnd, in_or_app. now left. }
    assert (Hg : get_or_nil (done ++ (k, v) :: todo) k = v).
    { unfold get_or_nil. rewrite (obj_get_app_new done _ k Hk). cbn [obj_get].
      now rewrite str_eqb_refl. }
    rewrite Hg, obj_set_new.
    + replace (done ++ (k, v) :: todo) with ((done ++ [(k, v)]) ++ todo)
        by (rewrite <- app_assoc; reflexivity).
      replace (map (fun e => (fst e, filter not_note (snd e))) done
                   ++ [(k, filter not_note v)])
        with (map (fun e : str * list row => (fst e, filter not_note (snd e)))
                  (done ++ [(k, v)]))
        by (rewrite map_app; reflexivity).
      fold (obj_keys todo). apply IH.
      unfold obj_keys in *. rewrite map_app, <- app_assoc. exact Hnd.
    + unfold obj_keys in *. rewrite map_map. exact Hk.
Qed.

Lemma without_notes_map (d : detail_data) :
  well_keyed d ->
  without_notes d = map (fun e => (fst e, filter not_note (snd e))) d.
Proof. intro H. exact (without_notes_from d [] H). Qed.

Lemma not_note_note_row (horseName : str) (note : Note) :
  not_note (note_row horseName note) = false.
Proof. reflexivity. Qed.

Lemma filter_not_note_rows (horseName : str) (notes : list Note) :
  filter not_note (map (note_row horseName) notes) = [].
Proof. induction notes as [|n notes IH]; [reflexivity | exact IH]. Qed.

Lemma filter_noted_rows (horseName : str) (notes : list Note) :
  filter (fun e => negb (not_note e)) (map (note_row horseName) notes)
  = map (note_row horseName) notes.
Proof.
  induction notes as [|n notes IH]; [reflexivity|].
  cbn [map filter]. rewrite not_note_note_row. cbn [negb]. now rewrite IH.
Qed.

Lemma filter_twice {A : Type} (p : A -> bool) (l : list A) :
  filter p (filter p l) = filter p l.
Proof.
  induction l as [|x l IH]; simpl; [reflexivity|].
  destruct (p x) eqn:E; simpl; [rewrite E; now f_equal | exact IH].
Qed.

Lemma filter_neither {A : Type} (p : A -> bool) (l : list A) :
  filter (fun x => negb (p x)) (filter p l) = [].
Proof.
  induction l as [|x l IH]; simpl; [reflexivity|].
  destruct (p x) eqn:E; simpl; [now rewrite E | exact IH].
Qed.

Lemma well_keyed_add_notes (notes : obj (list Note)) (keys : list str) :
  forall result : detail_data,
    well_keyed result -> well_keyed (fold_left (add_notes notes) keys result).
Proof.
  induction keys as [|h keys IH]; intros result H; [exact H|].
  simpl. apply IH. unfold add_notes.
  destruct (0 <? length (get_or_nil notes h)); [now apply well_keyed_set | exact H].
Qed.

(** What the second loop of [applyHorseNotes] leaves under a name. *)
Lemma add_notes_get (notes : obj (list Note)) (k : str) (keys : list str) :
  NoDup keys ->
  forall result : detail_data,
    obj_get (fold_left (add_notes notes) keys result) k
    = if existsb (str_eqb k) keys && (0 <? length (get_or_nil notes k))
      then Some (get_or_nil result k ++ map (note_row k) (get_or_nil notes k))
      else obj_get result k.
Proof.
  induction keys as [|h keys IH]; intros Hnd result; [reflexivity|].
  inversion Hnd as [|? ? Hnot Hnd']; subst.
  cbn [fold_left existsb]. rewrite (IH Hnd').
  destruct (str_eqb k h) eqn:E.
  - apply str_eqb_eq in E. subst h.
    assert (Hrest : existsb (str_eqb k) keys = false).
    { apply not_true_is_false. intro H. apply existsb_exists in H.
      destruct H as (x & Hx & Ex). apply str_eqb_eq in Ex. now subst. }
    rewrite Hrest. cbn [andb orb]. unfold add_notes.
    destruct (0 <? length (get_or_nil notes k)); [apply obj_get_set_same | reflexivity].
  - cbn [orb]. apply str_eqb_neq in E.
    assert (Hget : obj_get (add_notes notes result h) k = obj_get result k).
    { unfold add_notes. destruct (0 <? length (get_or_nil notes h)); [|reflexivity].
      apply obj_get_set_other. exact E. }
    assert (Hgn : get_or_nil (add_notes notes result h) k = get_or_nil result k)
      by (unfold get_or_nil; now rewrite Hget).
    now rewrite Hgn, Hget.
Qed.

Lemma get_or_nil_no_key {A : Type} (o : obj (list A)) (k : str) :
  existsb (str_eqb k) (obj_keys o) = false -> get_or_nil o k = [].
Proof.
  intro H. unfold get_or_nil.
  destruct (obj_get o k) as [v|] eqn:G; [|reflexivity].
  apply obj_get_In, In_obj_keys in G.
  assert (existsb (str_eqb k) (obj_keys o) = true); [|congruence].
  apply existsb_exists. exists k. split; [exact G | apply str_eqb_refl].
Qed.

(** The rows that [applyHorseNotes] shows for a horse: its rows that are
    not notes, then its notes. *)
Lemma applyHorseNotes_get (d : detail_data) (notes : obj (list Note)) (k : str) :
  well_keyed d -> well_keyed notes ->
  obj_get (applyHorseNotes d notes) k
  = match obj_get d k with
    | Some rows => Some (filter not_note rows ++ map (note_row k) (get_or_nil notes k))
    | None =>
      if 0 <? length (get_or_nil notes k)
      then Some (map (note_row k) (get_or_nil notes k))
      else None
    end.
Proof.
  intros Hd Hn. unfold applyHorseNotes. cbv zeta. rewrite (without_notes_map d Hd).
  assert (Hw : obj_get (map (fun e : str * list row => (fst e, filter not_note (snd e))) d) k
               = match obj_get d k with
                 | Some rows => Some (filter not_note rows)
                 | None => None
                 end)
    by apply (obj_get_map (fun _ rows => filter not_note rows)).
  destruct (length (obj_keys notes) =? 0) eqn:E0.
  - assert (Hnone : get_or_nil notes k = []).
    { apply get_or_nil_no_key. destruct (obj_keys notes); [reflexivity|discriminate]. }
    rewrite Hw, Hnone. cbn [map length Nat.ltb Nat.leb].
    destruct (obj_get d k); [now rewrite app_nil_r | reflexivity].
  - rewrite (add_notes_get notes k (obj_keys notes) Hn). unfold get_or_nil at 2.
    rewrite Hw.
    destruct (existsb (str_eqb k) (obj_keys notes)) eqn:Ek; cbn [andb].
    + destruct (0 <? length (get_or_nil notes k)) eqn:El.
      * now destruct (obj_get d k).
      * assert (Hnil : get_or_nil notes k = []).
        { apply Nat.ltb_ge in El. destruct (get_or_nil notes k); [reflexivity|].
          simpl in El. lia. }
        rewrite Hnil. cbn [map]. destruct (obj_get d k); [now rewrite app_nil_r|reflexivity].
    + rewrite (get_or_nil_no_key notes k Ek). cbn [map length Nat.ltb Nat.leb].
      destruct (obj_get d k); [now rewrite app_nil_r | reflexivity].
Qed.

Lemma well_keyed_applyHorseNotes (d : detail_data) (notes : obj (list Note)) :
  well_keyed d -> well_keyed (applyHorseNotes d notes).
Proof.
  intro Hd. unfold applyHorseNotes. cbv zeta.
  assert (Hw : well_keyed (without_notes d)).
  { rewrite (without_notes_map d Hd). unfold well_keyed.
    now rewrite (obj_keys_map (fun _ rows => filter not_note rows)). }
  destruct (length (obj_keys notes) =? 0); [exact Hw|].
  now apply well_keyed_add_notes.
Qed.

(** X12.  [applyHorseNotes] shows for each horse its rows that are not
    notes, unchanged and in order, followed by one row for each stored note
    of the horse; note rows already in the data are dropped, so applying the
    notes to data that shows them changes nothing. *)
Theorem applyHorseNotes_shows_stored_notes (d : detail_data) (notes : obj (list Note)) :
  well_keyed d -> well_keyed notes ->
  (forall k, get_or_nil (applyHorseNotes d notes) k
             = filter not_note (get_or_nil d k)
               ++ map (note_row k) (get_or_nil notes k))
  /\ (forall k, filter (fun e => negb (not_note e)) (get_or_nil (applyHorseNotes d notes) k)
                = map (note_row k) (get_or_nil notes k))
  /\ (forall k, obj_get (applyHorseNotes (applyHorseNotes d notes) notes) k
                = obj_get (applyHorseNotes d notes) k).
Proof.
  intros Hd Hn.
  assert (Hrows : forall k, get_or_nil (applyHorseNotes d notes) k
                            = filter not_note (get_or_nil d k)
                              ++ map (note_row k) (get_or_nil notes k)).
  { intro k. unfold get_or_nil at 1 2. rewrite (applyHorseNotes_get d notes k Hd Hn).
    destruct (obj_get d k); [reflexivity|].
    destruct (0 <? length (get_or_nil notes k)) eqn:El; [reflexivity|].
    apply Nat.ltb_ge in El. destruct (get_or_nil notes k); [reflexivity | simpl in El; lia]. }
  split; [exact Hrows|]. split.
  - intro k. rewrite Hrows, filter_app, filter_neither, filter_noted_rows. reflexivity.
  - intro k.
    rewrite (applyHorseNotes_get _ notes k (well_keyed_applyHorseNotes d notes Hd) Hn).
    rewrite (applyHorseNotes_get d notes k Hd Hn).
    destruct (obj_get d k) as [rows|].
    + now rewrite filter_app, filter_twice, filter_not_note_rows, app_nil_r.
    + destruct (0 <? length (get_or_nil notes k)); [|reflexivity].
      now rewrite filter_not_note_rows.
Qed.

Lemma applyHorseNotes_shows_stored_notes_witness :
  let gallop := [(js "date", JStr (js "01/19/2026")); (js "horse", JStr (js "Stoweshoe"))] in
  let stale := note_row (js "Stoweshoe")
                        {| note_date := js "01/01/2026"; note_note := js "old" |} in
  let notes := [(js "Stoweshoe",
                 [{| note_date := js "01/20/2026"; note_note := js "shod" |}])] in
  get_or_nil (applyHorseNotes [(js "Stoweshoe", [stale; gallop])] notes) (js "Stoweshoe")
  = [gallop;
     note_row (js "Stoweshoe") {| note_date := js "01/20/2026"; note_note := js "shod" |}].
Proof.
  intros gallop stale notes.
  destruct (applyHorseNotes_shows_stored_notes [(js "Stoweshoe", [stale; gallop])] notes)
    as (H & _ & _).
  - repeat constructor. intros [].
  - repeat constructor. intros [].
  - rewrite H. reflexivity.
Defined.
(** ** Deleting a training entry *)

Lemma getSession_after_getSession (st : store) :
  getSession (after_getSession st) = getSession st.
Proof.
  unfold getSession, after_getSession. simpl.
  destruct (persistent st) as [[h|]|]; reflexivity.
Qed.

Lemma getSession_saveSession (st : store) (h : history) :
  getSession (saveSession st h) = Some h.
Proof.
  unfold getSession, saveSession. simpl. destruct (persistent st); reflexivity.
Qed.

Lemma filter_length_same {A : Type} (p : A -> bool) (l : list A) :
  length (filter p l) = length l -> filter p l = l.
Proof.
  induction l as [|x l IH]; simpl; [reflexivity|].
  destruct (p x); simpl; intro H.
  - f_equal. apply IH. lia.
  - pose proof (filter_length_le p l). lia.
Qed.

Lemma filter_shorter {A : Type} (p : A -> bool) (l : list A) :
  length (filter p l) <> length l -> exists x, In x l /\ p x = false.
Proof.
  induction l as [|x l IH]; simpl; [congruence|].
  destruct (p x) eqn:E; simpl; intro H.
  - destruct IH as (y & Hy & Ey); [lia|]. exists y. auto.
  - exists x. auto.
Qed.

Lemma obj_get_delete_same {V : Type} (o : obj V) (k : str) :
  obj_get (obj_delete o k) k = None.
Proof.
  induction o as [|[k0 v0] o IH]; simpl; [reflexivity|].
  destruct (str_eqb k0 k) eqn:E; [exact IH|]. simpl. now rewrite E.
Qed.

(** X13.  [DELETE /api/training/delete] removes what it is asked to remove
    and nothing else.  A request that is refused leaves the session as it
    was.  A request that is accepted had a horse, under a key equal to the
    given name up to letter case, with an entry of the given date; the
    session it stores has, under that key, the entries of the other dates
    in their order, has no key at all for a horse left without entries, and
    has every other horse as before. *)
Theorem delete_training_removes_date (horseName entryDate : str) (st : store) :
  (snd (delete_training horseName entryDate st) <> 200 ->
   getSession (fst (delete_training horseName entryDate st)) = getSession st)
  /\ (snd (delete_training horseName entryDate st) = 200 ->
      exists detail detail' k entries,
        getSession st = Some detail
        /\ getSession (fst (delete_training horseName entryDate st)) = Some detail'
        /\ toLowerCase k = toLowerCase horseName
        /\ obj_get detail k = Some entries
        /\ (exists e, In e entries /\ date e = entryDate)
        /\ obj_get detail' k
           = match filter (fun e => negb (str_eqb (date e) entryDate)) entries with
             | [] => None
             | kept => Some kept
             end
        /\ forall k', k' <> k -> obj_get detail' k' = obj_get detail k').
Proof.
  unfold delete_training.
  destruct (negb (truthy horseName) || negb (truthy entryDate));
    [split; [reflexivity | simpl; discriminate]|].
  destruct (getSession st) as [detail|] eqn:Es;
    [|split; [intros _; simpl; rewrite getSession_after_getSession; exact Es
             | simpl; discriminate]].
  cbv zeta.
  assert (Hsame : getSession (after_getSession st) = Some detail)
    by (now rewrite getSession_after_getSession).
  destruct (find _ (obj_keys detail)) as [k|] eqn:Ef;
    [|split; [intros _; exact Hsame | simpl; discriminate]].
  destruct (truthy k); cbn [negb];
    [|split; [intros _; exact Hsame | simpl; discriminate]].
  destruct (obj_get detail k) as [entries|] eqn:Eg;
    [|split; [intros _; exact Hsame | simpl; discriminate]].
  set (kept := filter (fun entry => negb (str_eqb (date entry) entryDate)) entries).
  destruct (length kept =? length entries) eqn:El;
    [split; [intros _; exact Hsame | simpl; discriminate]|].
  split; [intro H; exfalso; apply H; reflexivity|]. intros _.
  apply Nat.eqb_neq in El. apply find_some in Ef. destruct Ef as [_ Hk].
  apply str_eqb_eq in Hk.
  eexists detail, _, k, entries. cbn [fst].
  split; [reflexivity|]. split; [apply getSession_saveSession|].
  split; [exact Hk|]. split; [exact Eg|]. split.
  - destruct (filter_shorter _ entries El) as (e & He & Hd).
    exists e. split; [exact He|]. apply negb_false_iff, str_eqb_eq in Hd. exact Hd.
  - fold kept. destruct kept as [|e0 kept'] eqn:Ek; cbn [length Nat.eqb].
    + split; [apply obj_get_delete_same|].
      intros k' Hne. now apply obj_get_delete_other.
    + split; [apply obj_get_set_same|].
      intros k' Hne. now apply obj_get_set_other.
Qed.

Lemma delete_training_removes_date_witness :
  let work := {| date := js "01/19/2026"; horse := js "Stoweshoe"; track := js "SAR";
                 isRace := false; isWork := true |} in
  let race := {| date := js "8/3/2024"; horse := js "Stoweshoe"; track := js "SAR";
                 isRace := true; isWork := false |} in
  let st := {| persistent := Redis (Some [(js "Stoweshoe", [work; race])]);
               memory := None |} in
  snd (delete_training (js "STOWESHOE") (js "8/3/2024") st) = 200
  /\ getSession (fst (delete_training (js "STOWESHOE") (js "8/3/2024") st))
     = Some [(js "Stoweshoe", [work])]
  /\ exists detail detail' k entries,
      getSession st = Some detail
      /\ getSession (fst (delete_training (js "STOWESHOE") (js "8/3/2024") st))
         = Some detail'
      /\ toLowerCase k = toLowerCase (js "STOWESHOE")
      /\ obj_get detail k = Some entries
      /\ (exists e, In e entries /\ date e = js "8/3/2024")
      /\ obj_get detail' k
         = match filter (fun e => negb (str_eqb (date e) (js "8/3/2024"))) entries with
           | [] => None
           | kept => Some kept
           end
      /\ forall k', k' <> k -> obj_get detail' k' = obj_get detail k'.
Proof.
  intros work race st. split; [reflexivity|]. split; [reflexivity|].
  apply (proj2 (delete_training_removes_date (js "STOWESHOE") (js "8/3/2024") st)).
  reflexivity.
Defined.
(** ** Arioneo CSV transformations *)

Lemma transformTrackName_range (trackName : str) :
  transformTrackName trackName = trackName \/ In (transformTrackName trackName) track_codes.
Proof.
  unfold transformTrackName.
  destruct trackName as [|c s]; [now left|]. cbn [truthy negb]. cbv zeta.
  repeat match goal with
         | |- context [if ?b then _ else _] =>
           destruct b; [right; unfold track_codes; simpl; tauto|]
         end.
  now left.
Qed.

Lemma transformSurface_range (surface : str) :
  transformSurface surface = surface \/ In (transformSurface surface) surface_codes.
Proof.
  unfold transformSurface.
  destruct surface as [|c s]; [now left|]. cbn [truthy negb]. cbv zeta.
  repeat match goal with
         | |- context [if ?b then _ else _] =>
           destruct b; [right; unfold surface_codes; simpl; tauto|]
         end.
  now left.
Qed.

(** X14.  The abbreviations of tracks and surfaces are stable: the result of
    [transformTrackName] (of [transformSurface]) is the text it was given or
    one of its eighteen (three) codes, and transforming a result again
    changes nothing. *)
Theorem transform_track_surface_idempotent :
  (forall trackName,
      (transformTrackName trackName = trackName
       \/ In (transformTrackName trackName) track_codes)
      /\ transformTrackName (transformTrackName trackName) = transformTrackName trackName)
  /\ (forall surface,
         (transformSurface surface = surface
          \/ In (transformSurface surface) surface_codes)
         /\ transformSurface (transformSurface surface) = transformSurface surface).
Proof.
  split.
  - intro t. split; [apply transformTrackName_range|].
    destruct (transformTrackName_range t) as [E|Hin]; [now rewrite E|].
    unfold track_codes in Hin. simpl in Hin.
    repeat (destruct Hin as [<-|Hin]; [vm_compute; reflexivity|]). destruct Hin.
  - intro s. split; [apply transformSurface_range|].
    destruct (transformSurface_range s) as [E|Hin]; [now rewrite E|].
    unfold surface_codes in Hin. simpl in Hin.
    repeat (destruct Hin as [<-|Hin]; [vm_compute; reflexivity|]). destruct Hin.
Qed.
(** ** The save handler: bookkeeping *)

Lemma total_rows_set {A : Type} (o : obj (list A)) (k : str) (v : list A) :
  total_rows (obj_set o k v) + length (get_or_nil o k) = total_rows o + length v.
Proof.
  unfold total_rows, get_or_nil.
  induction o as [|[k0 v0] o IH]; simpl.
  - rewrite app_nil_r. lia.
  - destruct (str_eqb k0 k) eqn:E; simpl; rewrite !length_app; lia.
Qed.

Section SaveBookkeeping.
Variable sort_by_date : list Entry -> list Entry.
Hypothesis sort_by_date_perm : forall l, Permutation (sort_by_date l) l.
Variable st : store.

Lemma save_race_accounts (s : save_state) (race : Race) :
  let s' := save_race sort_by_date st s race in
  length (savedRaces s') + length (skippedRaces s')
  = length (savedRaces s) + length (skippedRaces s) + 1
  /\ total_rows (allHorseDetailData s') + length (savedRaces s)
     = total_rows (allHorseDetailData s) + length (savedRaces s')
  /\ (forall k d t, races_on (allHorseDetailData s) k d t
                    <= races_on (allHorseDetailData s') k d t)
  /\ (length (savedRaces s') = length (savedRaces s) ->
      allHorseDetailData s' = allHorseDetailData s).
Proof.
  unfold save_race. cbv zeta.
  destruct (checkDuplicateRace _ _ _ _); cbn [allHorseDetailData savedRaces skippedRaces].
  - rewrite length_app. simpl. repeat split; auto; lia.
  - rewrite length_app. simpl.
    set (key := horse_key (allHorseDetailData s) race).
    split; [lia|]. split; [|split].
    + pose proof (total_rows_set (allHorseDetailData s) key
                    (sort_by_date (match obj_get (allHorseDetailData s) key with
                                   | Some es => es | None => [] end
                                     ++ [race_entry key race]))) as H.
      rewrite (Permutation_length (sort_by_date_perm _)), length_app in H.
      unfold get_or_nil in H. simpl in H. lia.
    + intros k d t. unfold races_on. rewrite obj_get_set.
      destruct (str_eqb key k) eqn:E; [|lia].
      apply str_eqb_eq in E. subst k.
      rewrite (filter_length_perm _ _ _ (sort_by_date_perm _)), filter_app, length_app.
      destruct (obj_get (allHorseDetailData s) key); simpl; lia.
    + lia.
Qed.

Lemma save_loop_accounts (races : list Race) :
  forall s : save_state,
    let s' := save_loop sort_by_date st s races in
    length (savedRaces s') + length (skippedRaces s')
    = length (savedRaces s) + length (skippedRaces s) + length races
    /\ total_rows (allHorseDetailData s') + length (savedRaces s)
       = total_rows (allHorseDetailData s) + length (savedRaces s')
    /\ (forall k d t, races_on (allHorseDetailData s) k d t
                      <= races_on (allHorseDetailData s') k d t).
Proof.
  unfold save_loop.
  induction races as [|race races IH]; intro s; cbn zeta.
  - simpl. repeat split; auto; lia.
  - cbn [fold_left length].
    destruct (save_race_accounts s race) as (H1 & H2 & H3 & _).
    destruct (IH (save_race sort_by_date st s race)) as (I1 & I2 & I3).
    cbv zeta in *. split; [lia|]. split; [lia|].
    intros k d t. specialize (H3 k d t). specialize (I3 k d t). lia.
Qed.
End SaveBookkeeping.

(** X15.  [POST /api/race-charts/save] accounts for every race and removes
    nothing: an empty request is refused with 400 and leaves the store as
    it is; otherwise each race of the request is either saved or reported
    as skipped, the history grows by exactly one entry for each race saved,
    and no horse has fewer race entries on any date at any track than it
    had. *)
Theorem save_races_accounts (sort_by_date : list Entry -> list Entry) (st : store)
        (races : list Race) :
  (forall l, Permutation (sort_by_date l) l) ->
  match save_races sort_by_date st races with
  | (st', inr status) => races = [] /\ status = 400 /\ st' = st
  | (st', inl s) =>
    let before := match getSession st with Some h => h | None => [] end in
    getSession st' = Some (allHorseDetailData s)
    /\ length (savedRaces s) + length (skippedRaces s) = length races
    /\ total_rows (allHorseDetailData s) = total_rows before + length (savedRaces s)
    /\ forall k d t, races_on before k d t <= races_on (allHorseDetailData s) k d t
  end.
Proof.
  intro Hsort. unfold save_races.
  destruct races as [|r races]; [cbn; auto|]. cbn [length Nat.eqb]. cbv zeta.
  set (before := match getSession st with Some h => h | None => [] end).
  destruct (save_loop_accounts sort_by_date Hsort st (r :: races)
              {| allHorseDetailData := before; savedRaces := []; skippedRaces := [] |})
    as (H1 & H2 & H3).
  cbv zeta in H1, H2, H3. cbn [savedRaces skippedRaces allHorseDetailData] in H1, H2, H3.
  change (length (@nil (str * str))) with 0 in *.
  change (length (@nil SkippedRace)) with 0 in *.
  cbn [length] in H1 |- *.
  split; [|split; [|split]].
  - unfold getSession. simpl. destruct (persistent st); reflexivity.
  - lia.
  - lia.
  - exact H3.
Qed.

Lemma save_races_accounts_witness :
  let race := {| race_horseName := js "Blanco"; race_date := js "8/3/2024";
                 race_track := js "SAR" |} in
  let other := {| race_horseName := js "Stoweshoe"; race_date := js "8/3/2024";
                  race_track := js "SAR" |} in
  let st := {| persistent := MemoryOnly; memory := None |} in
  match save_races (fun l => l) st [race; other; race] with
  | (st', inr status) => [race; other; race] = [] /\ status = 400 /\ st' = st
  | (st', inl s) =>
    let before := match getSession st with Some h => h | None => [] end in
    getSession st' = Some (allHorseDetailData s)
    /\ length (savedRaces s) + length (skippedRaces s) = length [race; other; race]
    /\ total_rows (allHorseDetailData s) = total_rows before + length (savedRaces s)
    /\ forall k d t, races_on before k d t <= races_on (allHorseDetailData s) k d t
  end.
Proof.
  intros race other st. apply save_races_accounts. intro l. apply Permutation_refl.
Defined.
(** X16.  Committing a race twice saves it once: when the guard lets the
    race through, the first request saves it and skips nothing; the same
    request sent again saves nothing and reports the race as a duplicate;
    and the stored history then has exactly one race entry of the horse on
    that date at that track. *)
Theorem commit_twice_saved_once (sort_by_date : list Entry -> list Entry) (st : store)
        (race : Race) :
  (forall l, Permutation (sort_by_date l) l) ->
  let key := horse_key (match getSession st with Some h => h | None => [] end) race in
  checkDuplicateRace (getSession st) key (race_date race) (race_track race) = false ->
  exists st1 s1 st2 s2,
    save_races sort_by_date st [race] = (st1, inl s1)
    /\ savedRaces s1 = [(key, race_date race)] /\ skippedRaces s1 = []
    /\ save_races sort_by_date st1 [race] = (st2, inl s2)
    /\ savedRaces s2 = []
    /\ (exists horseKey,
           toLowerCase horseKey = toLowerCase (race_horseName race)
           /\ In {| skipped_horseName := horseKey; skipped_date := race_date race;
                    skipped_reason := js "Duplicate entry" |} (skippedRaces s2))
    /\ getSession st2 = Some (allHorseDetailData s2)
    /\ races_on (allHorseDetailData s2) key (race_date race) (race_track race) = 1.
Proof.
  intros Hsort key Hnew.
  destruct (save_twice_one_entry sort_by_date st race Hsort)
    as (st1 & s1 & st2 & s2 & E1 & E2 & H).
  fold key in H.
  assert (Hs1 : savedRaces s1 = [(key, race_date race)] /\ skippedRaces s1 = []).
  { unfold save_races in E1. cbn [length Nat.eqb] in E1. cbv zeta in E1.
    injection E1 as _ <-. unfold save_loop. cbn [fold_left]. unfold save_race.
    cbn [allHorseDetailData]. fold key. rewrite visible_session_initially, Hnew.
    split; reflexivity. }
  destruct Hs1 as [Hsaved Hskipped].
  destruct (H Hsaved) as (Hrep & Hsess & Hone).
  exists st1, s1, st2, s2.
  split; [exact E1|]. split; [exact Hsaved|]. split; [exact Hskipped|].
  split; [exact E2|]. split; [|auto].
  unfold save_races in E2. cbn [length Nat.eqb] in E2. cbv zeta in E2.
  injection E2 as _ <-.
  match goal with
  | |- savedRaces (save_race _ _ ?s0 _) = [] =>
    destruct (save_race_accounts sort_by_date Hsort st1 s0 race) as (Hacc & _);
      cbv zeta in Hacc; cbn [savedRaces skippedRaces length] in Hacc;
      destruct Hrep as (hk & _ & Hin)
  end.
  destruct (savedRaces (save_race _ _ _ _)) as [|x l] eqn:Es; [reflexivity|exfalso].
  destruct (skippedRaces (save_race _ _ _ _)) as [|y l'] eqn:Ek; [destruct Hin|].
  simpl in Hacc. lia.
Qed.

Lemma commit_twice_saved_once_witness :
  let race := {| race_horseName := js "Blanco"; race_date := js "8/3/2024";
                 race_track := js "SAR" |} in
  let st := {| persistent := Redis (Some []); memory := None |} in
  exists st1 s1 st2 s2,
    save_races (fun l => l) st [race] = (st1, inl s1)
    /\ savedRaces s1 = [(js "Blanco", js "8/3/2024")] /\ skippedRaces s1 = []
    /\ save_races (fun l => l) st1 [race] = (st2, inl s2)
    /\ savedRaces s2 = []
    /\ (exists horseKey,
           toLowerCase horseKey = toLowerCase (race_horseName race)
           /\ In {| skipped_horseName := horseKey; skipped_date := race_date race;
                    skipped_reason := js "Duplicate entry" |} (skippedRaces s2))
    /\ getSession st2 = Some (allHorseDetailData s2)
    /\ races_on (allHorseDetailData s2) (js "Blanco") (js "8/3/2024") (js "SAR") = 1.
Proof.
  intros race st.
  apply (commit_twice_saved_once (fun l => l) st race).
  - intro l. apply Permutation_refl.
  - reflexivity.
Defined.
(** ** Saving a race, then deleting it *)

Lemma Permutation_filter_same {A : Type} (p : A -> bool) (l l' : list A) :
  Permutation l l' -> Permutation (filter p l) (filter p l').
Proof.
  induction 1; simpl.
  - constructor.
  - destruct (p x); [now constructor | assumption].
  - destruct (p x), (p y); try apply Permutation_refl; constructor.
  - eapply Permutation_trans; eassumption.
Qed.

Lemma filter_all {A : Type} (p : A -> bool) (l : list A) :
  (forall x, In x l -> p x = true) -> filter p l = l.
Proof.
  induction l as [|x l IH]; simpl; intro H; [reflexivity|].
  rewrite (H x (or_introl eq_refl)). f_equal. apply IH. intros y Hy. apply H. now right.
Qed.

Lemma find_app_none {A : Type} (p : A -> bool) (l1 l2 : list A) :
  find p l1 = None -> find p (l1 ++ l2) = find p l2.
Proof.
  induction l1 as [|x l1 IH]; simpl; [reflexivity|].
  destruct (p x); [discriminate | exact IH].
Qed.

Lemma find_app_some {A : Type} (p : A -> bool) (l1 l2 : list A) (x : A) :
  find p l1 = Some x -> find p (l1 ++ l2) = Some x.
Proof.
  induction l1 as [|y l1 IH]; simpl; [discriminate|].
  destruct (p y); [auto | exact IH].
Qed.

(** The key under which the save handler files a race is the key that the
    delete handler finds for the horse afterwards. *)
Lemma find_horse_key (detail : history) (race : Race) (v : list Entry) :
  truthy (race_horseName race) = true ->
  find (fun k => str_eqb (toLowerCase k) (toLowerCase (race_horseName race)))
       (obj_keys (obj_set detail (horse_key detail race) v))
  = Some (horse_key detail race)
  /\ truthy (horse_key detail race) = true.
Proof.
  intro Hname. unfold horse_key.
  destruct (find _ (obj_keys detail)) as [k|] eqn:Ef.
  - pose proof (find_some _ _ Ef) as [Hin Hk]. apply str_eqb_eq in Hk.
    assert (Hkt : truthy k = true).
    { destruct k; [|reflexivity]. destruct (race_horseName race); discriminate. }
    rewrite Hkt. split; [|exact Hkt].
    now rewrite (obj_keys_set_known detail k v Hin).
  - split; [|exact Hname].
    assert (Hnew : ~ In (race_horseName race) (obj_keys detail)).
    { intro Hin. pose proof (find_none _ _ Ef _ Hin) as H. cbv beta in H.
      rewrite str_eqb_refl in H. discriminate. }
    rewrite (obj_set_new detail _ v Hnew). unfold obj_keys. rewrite map_app.
    rewrite (find_app_none _ _ _ Ef). simpl. now rewrite str_eqb_refl.
Qed.

(** X17.  Deleting undoes saving: a race that the guard lets through, of a
    horse that has no entry on the date of the race, is saved by
    [POST /api/race-charts/save]; [DELETE /api/training/delete] for that
    horse and date is then accepted, and in the session it stores every
    horse has the entries it had before the race was saved, rearranged at
    most by the sort. *)
Theorem save_then_delete (sort_by_date : list Entry -> list Entry) (st : store)
        (race : Race) :
  (forall l, Permutation (sort_by_date l) l) ->
  truthy (race_horseName race) = true -> truthy (race_date race) = true ->
  let before := match getSession st with Some h => h | None => [] end in
  let key := horse_key before race in
  checkDuplicateRace (getSession st) key (race_date race) (race_track race) = false ->
  (forall e, In e (get_or_nil before key) -> date e <> race_date race) ->
  exists st1 s1 st2 detail2,
    save_races sort_by_date st [race] = (st1, inl s1)
    /\ savedRaces s1 = [(key, race_date race)]
    /\ delete_training (race_horseName race) (race_date race) st1 = (st2, 200)
    /\ getSession st2 = Some detail2
    /\ forall k, Permutation (get_or_nil detail2 k) (get_or_nil before k).
Proof.
  intros Hsort Hname Hdate before key Hnew Hfree.
  set (es := match obj_get before key with Some es => es | None => [] end).
  assert (Hes : es = get_or_nil before key) by reflexivity.
  set (entries := sort_by_date (es ++ [race_entry key race])).
  set (detail1 := obj_set before key entries).
  set (st1 := saveSession st detail1).
  assert (E1 : save_races sort_by_date st [race]
               = (st1, inl {| allHorseDetailData := detail1;
                              savedRaces := [(key, race_date race)];
                              skippedRaces := [] |})).
  { unfold save_races. cbn [length Nat.eqb]. cbv zeta. fold before.
    unfold save_loop. cbn [fold_left]. unfold save_race.
    cbn [allHorseDetailData savedRaces skippedRaces]. fold key.
    rewrite visible_session_initially, Hnew. reflexivity. }
  assert (Hs1 : getSession st1 = Some detail1) by apply getSession_saveSession.
  assert (Hperm : Permutation (filter (fun entry => negb (str_eqb (date entry)
                                                               (race_date race)))
                                      entries) es).
  { eapply Permutation_trans; [apply Permutation_filter_same, Hsort|].
    rewrite filter_app. cbn [filter race_entry date]. rewrite str_eqb_refl. cbn [negb].
    rewrite app_nil_r, filter_all; [apply Permutation_refl|].
    intros e He. apply negb_true_iff, str_eqb_neq. apply Hfree. now rewrite <- Hes. }
  assert (Hlen : length (filter (fun entry => negb (str_eqb (date entry) (race_date race)))
                                entries) <> length entries).
  { rewrite (Permutation_length Hperm). unfold entries.
    rewrite (Permutation_length (Hsort _)), length_app. simpl. lia. }
  destruct (find_horse_key before race entries Hname) as [Hfind Hkt]. fold key in Hfind, Hkt.
  eexists st1, _, _, _. split; [exact E1|]. split; [reflexivity|].
  unfold delete_training. rewrite Hname, Hdate. cbn [negb orb]. rewrite Hs1. cbv zeta.
  fold detail1 in Hfind. rewrite Hfind, Hkt. cbn [negb].
  unfold detail1 at 1. rewrite obj_get_set_same.
  apply Nat.eqb_neq in Hlen. rewrite Hlen.
  split; [reflexivity|]. split; [apply getSession_saveSession|].
  intro k.
  set (kept := filter (fun entry => negb (str_eqb (date entry) (race_date race))) entries)
    in *.
  destruct (length kept =? 0) eqn:E0.
  - apply Nat.eqb_eq in E0. destruct kept; [|discriminate].
    apply Permutation_nil in Hperm.
    destruct (list_eq_dec ascii_dec k key) as [->|Hne].
    + unfold get_or_nil at 1. rewrite obj_get_delete_same, <- Hes, Hperm. constructor.
    + unfold get_or_nil. rewrite obj_get_delete_other by exact Hne.
      unfold detail1. rewrite obj_get_set_other by exact Hne. apply Permutation_refl.
  - destruct (list_eq_dec ascii_dec k key) as [->|Hne].
    + unfold get_or_nil at 1. rewrite obj_get_set_same, <- Hes. exact Hperm.
    + unfold get_or_nil. rewrite obj_get_set_other by exact Hne.
      unfold detail1. rewrite obj_get_set_other by exact Hne. apply Permutation_refl.
Qed.

Lemma save_then_delete_witness :
  let work := {| date := js "01/19/2026"; horse := js "Blanco"; track := js "SAR";
                 isRace := false; isWork := true |} in
  let race := {| race_horseName := js "BLANCO"; race_date := js "8/3/2024";
                 race_track := js "SAR" |} in
  let st := {| persistent := Redis (Some [(js "Blanco", [work])]); memory := None |} in
  exists st1 s1 st2 detail2,
    save_races (fun l => l) st [race] = (st1, inl s1)
    /\ savedRaces s1 = [(js "Blanco", js "8/3/2024")]
    /\ delete_training (js "BLANCO") (js "8/3/2024") st1 = (st2, 200)
    /\ getSession st2 = Some detail2
    /\ forall k, Permutation (get_or_nil detail2 k) (get_or_nil [(js "Blanco", [work])] k).
Proof.
  intros work race st.
  apply (save_then_delete (fun l => l) st race).
  - intro l. apply Permutation_refl.
  - reflexivity.
  - reflexivity.
  - reflexivity.
  - intros e [<-|[]]. discriminate.
Defined.
(** ** Renaming a horse, then looking up its old name *)

Lemma find_only {A : Type} (p : A -> bool) (l : list A) (x : A) :
  In x l -> p x = true -> (forall y, In y l -> p y = true -> y = x) ->
  find p l = Some x.
Proof.
  intros Hin Hx Honly.
  destruct (find p l) as [y|] eqn:E.
  - apply find_some in E. f_equal. now apply Honly.
  - rewrite (find_none _ _ E x Hin) in Hx. discriminate.
Qed.

(** A key that the rename handler takes for the old name is one that
    [resolveHorseAlias] takes for it. *)
Lemma rename_match_resolves (oldName k : str) :
  str_eqb (toLowerCase k) (toLowerCase oldName)
  || str_eqb (toLowerCase (replace_all no_flags re_non_alnum k))
             (toLowerCase (replace_all no_flags re_non_alnum oldName)) = true ->
  name_matches oldName k = true.
Proof.
  intro H. unfold name_matches, spelling_matches.
  apply orb_true_iff in H. destruct H as [H|H].
  - apply str_eqb_eq, stripped_lower in H. rewrite H, str_eqb_refl.
    now rewrite orb_true_r.
  - rewrite H. now rewrite orb_true_r.
Qed.

(** X18.  After a rename the old name leads to the new one: when the old
    name is a key of the mapping, nothing stored under another entry passes
    for it, no alias is the empty string and no key spells the new name,
    [POST /api/horses/rename] is stored, the entry is found under the new
    name with the owner, country and flag it had, the old key is gone, and
    [resolveHorseAlias] of the old name returns the new name. *)
Theorem rename_then_resolve (oldName newName : str) (m : horse_mapping) (d : HorseData) :
  truthy oldName = true -> truthy newName = true ->
  toLowerCase oldName <> toLowerCase newName ->
  well_keyed m -> named m ->
  obj_get m oldName = Some d ->
  (forall k, In k (obj_keys m) -> toLowerCase k <> toLowerCase newName) ->
  (forall k d', In (k, d') m -> k <> oldName ->
                name_matches oldName k = false
                /\ forall al x, aliases d' = Some al -> In x al ->
                                name_matches oldName x = false) ->
  exists m1 p1,
    rename_horse oldName newName m = Stored m1
    /\ obj_get m1 oldName = None
    /\ obj_get m1 newName = Some p1
    /\ owner p1 = owner d /\ country p1 = country d /\ isHistoric p1 = isHistoric d
    /\ resolveHorseAlias oldName m1 = newName.
Proof.
  intros Hold Hnew Hdiff Hwf [_ Hnamed] Hget Hfresh Hother.
  assert (Hne : newName <> oldName) by (intros ->; now apply Hdiff).
  assert (Hin : In oldName (obj_keys m)) by (eapply In_obj_keys, obj_get_In; eauto).
  unfold rename_horse. rewrite Hold, Hnew. cbn [negb orb].
  assert (E0 : str_eqb (toLowerCase oldName) (toLowerCase newName) = false)
    by now apply str_eqb_neq.
  rewrite E0. cbv zeta.
  rewrite (find_only
             (fun k => str_eqb (toLowerCase k) (toLowerCase oldName)
                       || str_eqb (toLowerCase (replace_all no_flags re_non_alnum k))
                                  (toLowerCase (replace_all no_flags re_non_alnum oldName)))
             (obj_keys m) oldName Hin).
  2:{ cbv beta. now rewrite str_eqb_refl. }
  2:{ intros y Hy Hp. cbv beta in Hp. destruct (list_eq_dec ascii_dec y oldName) as [|Hny]; [assumption|].
      exfalso. apply in_map_iff in Hy. destruct Hy as ([k d'] & Hk & Hkd). simpl in Hk.
      subst k. pose proof (proj1 (Hother y d' Hkd Hny)) as Hno.
      rewrite (rename_match_resolves oldName y Hp) in Hno. discriminate. }
  rewrite Hold, Hget.
  assert (E1 : find (fun k => str_eqb (toLowerCase k) (toLowerCase newName)) (obj_keys m)
               = None).
  { destruct (find _ (obj_keys m)) as [k|] eqn:E; [exfalso|reflexivity].
    apply find_some in E. destruct E as [Hk Hp]. apply str_eqb_eq in Hp.
    exact (Hfresh k Hk Hp). }
  rewrite E1. rewrite str_eqb_refl. cbn [negb andb].
  set (al := match aliases d with Some l => l | None => [] end).
  set (al1 := if array_includes al oldName then al else al ++ [oldName]).
  set (p1 := with_aliases d (Some al1)).
  exists (obj_delete (obj_set m newName p1) oldName), p1.
  assert (Hg1 : obj_get (obj_delete (obj_set m newName p1) oldName) newName = Some p1).
  { rewrite obj_get_delete_other by exact Hne. apply obj_get_set_same. }
  split; [reflexivity|]. split; [apply obj_get_delete_same|]. split; [exact Hg1|].
  split; [reflexivity|]. split; [reflexivity|]. split; [reflexivity|].
  assert (Hal1 : In oldName al1 /\ forall x, In x al1 -> x = oldName \/ In x al).
  { subst al1. destruct (array_includes al oldName) eqn:Ei.
    - apply array_includes_In in Ei. auto.
    - split; [apply in_or_app; right; now left|].
      intros x Hx. apply in_app_or in Hx. destruct Hx as [Hx|[<-|[]]]; auto. }
  apply (resolve_to_primary oldName newName _ p1 al1 Hold Hnew Hg1 eq_refl).
  - exists oldName. split; [apply Hal1 | apply name_matches_self].
  - intros x Hx. destruct (proj2 Hal1 x Hx) as [->|Hxal]; [exact Hold|].
    subst al. destruct (aliases d) as [l|] eqn:Ea; [|destruct Hxal].
    exact (Hnamed oldName d l x (obj_get_In _ _ _ Hget) Ea Hxal).
  - intros k d' Hkd Hk. apply In_obj_delete in Hkd. destruct Hkd as [Hko Hkd].
    apply (In_obj_set _ _ _ _ _ Hwf) in Hkd.
    destruct Hkd as [[-> _]|[_ Hkd]]; [contradiction|].
    exact (Hother k d' Hkd Hko).
Qed.

Lemma rename_then_resolve_witness :
  exists m1 p1,
    rename_horse (js "Ginger Punch") (js "2022 Ginger Punch")
                 [(js "Stoweshoe", blank_horse);
                  (js "Ginger Punch",
                   {| owner := js "Godolphin"; country := js "IRE"; isHistoric := false;
                      aliases := Some [js "GP"] |})]
    = Stored m1
    /\ obj_get m1 (js "Ginger Punch") = None
    /\ obj_get m1 (js "2022 Ginger Punch") = Some p1
    /\ owner p1 = js "Godolphin" /\ country p1 = js "IRE" /\ isHistoric p1 = false
    /\ resolveHorseAlias (js "Ginger Punch") m1 = js "2022 Ginger Punch".
Proof.
  apply (rename_then_resolve (js "Ginger Punch") (js "2022 Ginger Punch") _
           {| owner := js "Godolphin"; country := js "IRE"; isHistoric := false;
              aliases := Some [js "GP"] |}).
  - reflexivity.
  - reflexivity.
  - discriminate.
  - repeat constructor; simpl; intuition discriminate.
  - split.
    + intros k [<-|[<-|[]]]; reflexivity.
    + intros k d al a [[= <- <-]|[[= <- <-]|[]]] [= <-]; [intros []|].
      intros [<-|[]]. reflexivity.
  - reflexivity.
  - intros k [<-|[<-|[]]]; discriminate.
  - intros k d' [[= <- <-]|[[= <- <-]|[]]] Hk.
    + split; [vm_compute; reflexivity|]. intros al x [= <-] [].
    + exfalso. apply Hk. reflexivity.
Defined.
(** ** The position digit disambiguator: what it never does *)

Lemma scan_positions_two (longer : bool) (c d : ascii) (rest : str) :
  scan_positions longer (c :: d :: rest)
  = if (c =? "1")%char && (d =? "0")%char then numN 10 :: scan_positions longer rest
    else if (c =? "1")%char && ((d =? "1")%char || (d =? "2")%char) && longer
         then parseInt [c; d] :: scan_positions longer rest
         else parseInt [c] :: scan_positions longer (d :: rest).
Proof. reflexivity. Qed.

Lemma scan_positions_blocks (longer : bool) :
  forall n ds, length ds <= n ->
    exists blocks,
      concat blocks = ds
      /\ scan_positions longer ds = map parseInt blocks
      /\ Forall (fun b => length b = 1 \/ b = js "10" \/ b = js "11" \/ b = js "12") blocks.
Proof.
  induction n as [|n IH]; intros ds Hlen.
  - destruct ds; [|simpl in Hlen; lia]. exists []. repeat split; constructor.
  - destruct ds as [|c [|d rest]].
    + exists []. repeat split; constructor.
    + exists [[c]]. repeat split. repeat constructor.
    + rewrite scan_positions_two.
      destruct ((c =? "1")%char && (d =? "0")%char) eqn:E10.
      { apply andb_true_iff in E10. destruct E10 as [Ec Ed].
        apply Ascii.eqb_eq in Ec, Ed. subst c d.
        destruct (IH rest) as (bs & Hc & Hs & Hf); [simpl in Hlen; lia|].
        exists (js "10" :: bs). split; [simpl; now rewrite Hc|].
        split; [cbn [map]; now rewrite Hs|]. constructor; [auto | exact Hf]. }
      destruct ((c =? "1")%char && ((d =? "1")%char || (d =? "2")%char) && longer) eqn:E1x.
      { apply andb_true_iff in E1x. destruct E1x as [E1x _].
        apply andb_true_iff in E1x. destruct E1x as [Ec Ed].
        apply Ascii.eqb_eq in Ec. subst c.
        destruct (IH rest) as (bs & Hc & Hs & Hf); [simpl in Hlen; lia|].
        exists (["1"; d] :: bs). split; [simpl; now rewrite Hc|].
        split; [cbn [map]; now rewrite Hs|]. constructor; [|exact Hf].
        apply orb_true_iff in Ed. destruct Ed as [Ed|Ed]; apply Ascii.eqb_eq in Ed;
          subst d; auto. }
      destruct (IH (d :: rest)) as (bs & Hc & Hs & Hf); [simpl in Hlen |- *; lia|].
      exists ([c] :: bs). split; [simpl; now rewrite Hc|].
      split; [cbn [map]; now rewrite Hs|]. constructor; [auto | exact Hf].
Qed.

Lemma singles_blocks (ds : str) :
  concat (map (fun d => [d]) ds) = ds
  /\ map (fun d => parseInt [d]) ds = map parseInt (map (fun d => [d]) ds)
  /\ Forall (fun b => length b = 1 \/ b = js "10" \/ b = js "11" \/ b = js "12")
            (map (fun d : ascii => [d]) ds).
Proof.
  induction ds as [|c ds (H1 & H2 & H3)]; simpl.
  - repeat split; constructor.
  - split; [now rewrite H1|]. split; [now rewrite H2|]. constructor; [auto | exact H3].
Qed.

Lemma parseInt_one_digit (c : ascii) :
  is_digit c = true -> exists k, parseInt [c] = numN k /\ k <= 9.
Proof.
  intro H. exists (code c - 48).
  destruct c as [[] [] [] [] [] [] [] []]; try discriminate H;
    (split; [reflexivity | vm_compute; repeat constructor]).
Qed.

(** X19.  [parsePositions] drops, adds and reorders no digit: the run is cut
    into consecutive blocks, each a single character or one of "10", "11",
    "12", and the positions are the numbers of the blocks in order.  Hence
    there are never more positions than characters, and on a run of digits
    every position is a whole number from 0 to 12. *)
Theorem parsePositions_blocks (digitsStr : str) (expectedCount : nat) :
  (exists blocks,
      concat blocks = digitsStr
      /\ parsePositions digitsStr expectedCount = map parseInt blocks
      /\ Forall (fun b => length b = 1 \/ b = js "10" \/ b = js "11" \/ b = js "12")
                blocks)
  /\ length (parsePositions digitsStr expectedCount) <= length digitsStr
  /\ (forallb is_digit digitsStr = true ->
      Forall (fun p => exists k, p = numN k /\ k <= 12)
             (parsePositions digitsStr expectedCount)).
Proof.
  assert (Hblocks : exists blocks,
             concat blocks = digitsStr
             /\ parsePositions digitsStr expectedCount = map parseInt blocks
             /\ Forall (fun b => length b = 1 \/ b = js "10" \/ b = js "11"
                                 \/ b = js "12") blocks).
  { rewrite parsePositions_disambiguate. unfold disambiguate.
    destruct (length digitsStr =? expectedCount).
    - exists (map (fun d => [d]) digitsStr). apply singles_blocks.
    - apply (scan_positions_blocks _ (length digitsStr)). lia. }
  split; [exact Hblocks|].
  destruct Hblocks as (blocks & Hc & Hp & Hf). rewrite Hp. subst digitsStr. split.
  - rewrite length_map. clear Hp. induction Hf as [|b bs Hb Hf IH]; simpl; [lia|].
    rewrite length_app.
    assert (1 <= length b) by (destruct Hb as [->|[->|[->| ->]]]; simpl; lia). lia.
  - clear Hp. induction Hf as [|b bs Hb Hf IH]; simpl; intro Hd; [constructor|].
    rewrite forallb_app in Hd. apply andb_true_iff in Hd. destruct Hd as [Hb1 Hd].
    constructor; [|now apply IH].
    destruct Hb as [Hlen|[->|[->| ->]]].
    + destruct b as [|c [|]]; try discriminate Hlen.
      simpl in Hb1. rewrite andb_true_r in Hb1.
      destruct (parseInt_one_digit c Hb1) as (k & Hk & Hle). exists k. split; [exact Hk|lia].
    + exists 10. split; [reflexivity | lia].
    + exists 11. split; [reflexivity | lia].
    + exists 12. split; [reflexivity | lia].
Qed.

Lemma parsePositions_blocks_witness :
  Forall (fun p => exists k, p = numN k /\ k <= 12) (parsePositions (js "1110765") 5).
Proof.
  apply (proj2 (proj2 (parsePositions_blocks (js "1110765") 5))). reflexivity.
Defined.
(** ** Times of the training data and their colour *)

Lemma exec_from_anchored (r : regex) :
  forall aft bef, bef <> [] -> exec_from no_flags (Cat Bol r) bef aft = None.
Proof.
  intros aft bef Hbef. apply exec_from_nowhere. intros i _.
  apply run_bol_inside. cbn [before]. destruct (rev (firstn i aft)); [exact Hbef|discriminate].
Qed.

(** A pattern anchored at the start matches a text when it matches from its
    first character. *)
Lemma test_anchored (r : regex) (s : str) :
  test no_flags (Cat Bol r) s
  = match run no_flags (Cat Bol r) {| before := []; after := s; caps := [] |} with
    | [] => false
    | _ => true
    end.
Proof.
  unfold test, exec. rewrite exec_from_unfold.
  destruct (run no_flags (Cat Bol r) _); [|reflexivity].
  destruct s as [|c s]; [reflexivity|].
  now rewrite exec_from_anchored.
Qed.

Lemma run_valid_time (s : str) :
  map after (run no_flags re_valid_time {| before := []; after := s; caps := [] |})
  = if clock_shaped s then [[]] else [].
Proof.
  unfold clock_shaped.
  destruct s as [|m1 [|m2 [|colon [|s1 [|s2 [|dot [|h1 [|h2 [|x rest]]]]]]]]];
    cbn -[is_digit Ascii.eqb]; try reflexivity.
  all: destruct (is_digit m1); cbn -[is_digit Ascii.eqb]; try reflexivity.
  all: try (destruct (is_digit m2); cbn -[is_digit Ascii.eqb]; try reflexivity).
  all: try (destruct (colon =? ":")%char; cbn -[is_digit Ascii.eqb]; try reflexivity).
  all: try (destruct (is_digit s1); cbn -[is_digit Ascii.eqb]; try reflexivity).
  all: try (destruct (is_digit s2); cbn -[is_digit Ascii.eqb]; try reflexivity).
  all: try (destruct (dot =? ".")%char; cbn -[is_digit Ascii.eqb]; try reflexivity).
  all: try (destruct (is_digit h1); cbn -[is_digit Ascii.eqb]; try reflexivity).
  all: try (destruct (is_digit h2); cbn -[is_digit Ascii.eqb]; try reflexivity).
Qed.

Lemma test_valid_time (s : str) : test no_flags re_valid_time s = clock_shaped s.
Proof.
  change re_valid_time
    with (Cat Bol (seq [times 2 digit; Lit ":"; times 2 digit; Lit "."; times 2 digit; Eol])).
  rewrite test_anchored.
  change (Cat Bol (seq [times 2 digit; Lit ":"; times 2 digit; Lit "."; times 2 digit; Eol]))
    with re_valid_time.
  pose proof (run_valid_time s) as H.
  destruct (run no_flags re_valid_time _), (clock_shaped s); try reflexivity; discriminate H.
Qed.

Lemma isValidTime_clock (timeStr : str) :
  isValidTime timeStr = clock_shaped (trim timeStr).
Proof.
  unfold isValidTime. destruct timeStr as [|c t]; [reflexivity|]. cbn [truthy negb].
  cbv zeta. rewrite test_valid_time.
  destruct (str_eqb (trim (c :: t)) (js "-")) eqn:E1;
    [apply str_eqb_eq in E1; now rewrite E1|].
  destruct (str_eqb (trim (c :: t)) []) eqn:E2;
    [apply str_eqb_eq in E2; now rewrite E2|].
  destruct (str_eqb (trim (c :: t)) (js "NaN")) eqn:E3;
    [apply str_eqb_eq in E3; now rewrite E3|].
  reflexivity.
Qed.

Lemma clock_shaped_spec (s : str) :
  clock_shaped s = true
  <-> exists m1 m2 s1 s2 h1 h2,
      forallb is_digit [m1; m2; s1; s2; h1; h2] = true
      /\ s = [m1; m2; ":"; s1; s2; "."; h1; h2].
Proof.
  split.
  - unfold clock_shaped.
    destruct s as [|m1 [|m2 [|colon [|s1 [|s2 [|dot [|h1 [|h2 [|x rest]]]]]]]]];
      try discriminate.
    intro H. do 7 (apply andb_true_iff in H; destruct H as [H ?]).
    exists m1, m2, s1, s2, h1, h2.
    repeat match goal with
           | E : (_ =? _)%char = true |- _ => apply Ascii.eqb_eq in E; subst
           end.
    split; [|reflexivity]. cbn [forallb].
    repeat match goal with E : is_digit _ = true |- _ => rewrite E; clear E end.
    reflexivity.
  - intros (m1 & m2 & s1 & s2 & h1 & h2 & Hd & ->). cbn [forallb] in Hd.
    repeat (apply andb_true_iff in Hd; destruct Hd as [? Hd]).
    unfold clock_shaped.
    repeat match goal with E : is_digit _ = true |- _ => rewrite E; clear E end.
    reflexivity.
Qed.

(** The arithmetic of [timeToSeconds] against whole seconds. *)
Lemma seconds_le (m s h k : Z) :
  js_le (js_add (js_add (js_mul (numZ m) (numN 60)) (numZ s))
                (js_div (numZ h) (numN 100)))
        (numZ k)
  = (6000 * m + 100 * s + h <=? 100 * k)%Z.
Proof.
  unfold js_add, js_mul, js_div, numN, numZ, js_le.
  change (q_sign (inject_Z (Z.of_nat 100))) with Gt. cbv iota.
  apply eq_true_iff_eq. rewrite Qle_bool_iff, Z.leb_le.
  rewrite !Qred_correct.
  unfold Qle, Qplus, Qmult, Qdiv, Qinv, inject_Z. cbn -[Z.mul Z.add Z.le]. lia.
Qed.

Lemma digit_not_colon (c : ascii) : is_digit c = true -> (c =? ":")%char = false.
Proof. destruct c as [[] [] [] [] [] [] [] []]; simpl; intro H; try reflexivity; discriminate H. Qed.

Lemma digit_not_point (c : ascii) : is_digit c = true -> (c =? ".")%char = false.
Proof. destruct c as [[] [] [] [] [] [] [] []]; simpl; intro H; try reflexivity; discriminate H. Qed.

Lemma parseInt_two_digits (a b : ascii) :
  is_digit a = true -> is_digit b = true -> parseInt [a; b] = numZ (digits_value [a; b]).
Proof.
  intros Ha Hb. apply parseInt_digits; [|simpl; lia].
  cbn [forallb]. now rewrite Ha, Hb.
Qed.

Lemma timeToSeconds_clock (timeStr : str) (m1 m2 s1 s2 h1 h2 : ascii) :
  forallb is_digit [m1; m2; s1; s2; h1; h2] = true ->
  trim timeStr = [m1; m2; ":"; s1; s2; "."; h1; h2] ->
  timeToSeconds timeStr
  = Some (js_add (js_add (js_mul (numZ (digits_value [m1; m2])) (numN 60))
                         (numZ (digits_value [s1; s2])))
                 (js_div (numZ (digits_value [h1; h2])) (numN 100))).
Proof.
  intros Hd Ht. cbn [forallb] in Hd.
  repeat (apply andb_true_iff in Hd; destruct Hd as [? Hd]).
  unfold timeToSeconds. rewrite Ht. cbn [split_on].
  rewrite (digit_not_colon m1), (digit_not_colon m2), (digit_not_colon s1),
    (digit_not_colon s2), (digit_not_colon h1), (digit_not_colon h2) by assumption.
  change ("." =? ":")%char with false. change (":" =? ":")%char with true.
  cbv iota. cbn [nth nth_error split_on].
  rewrite (digit_not_point s1), (digit_not_point s2), (digit_not_point h1),
    (digit_not_point h2) by assumption.
  change ("." =? ".")%char with true. cbv iota. cbn [nth nth_error].
  rewrite !parseInt_two_digits by assumption.
  reflexivity.
Qed.

(** X20.  [isValidTime] accepts exactly the texts that, once trimmed, are
    written MM:SS.hh with six digits; [getBest5FColor] gives no colour to
    any other text, and gives such a time the colour of its length in
    hundredths of a second: up to 60 s, 65 s, 70 s, 75 s, or more. *)
Theorem best5f_colour_of_valid_time :
  (forall timeStr,
      isValidTime timeStr = true
      <-> exists m1 m2 s1 s2 h1 h2,
          forallb is_digit [m1; m2; s1; s2; h1; h2] = true
          /\ trim timeStr = [m1; m2; ":"; s1; s2; "."; h1; h2])
  /\ (forall timeStr, isValidTime timeStr = false -> getBest5FColor timeStr = None)
  /\ (forall timeStr m1 m2 s1 s2 h1 h2,
         forallb is_digit [m1; m2; s1; s2; h1; h2] = true ->
         trim timeStr = [m1; m2; ":"; s1; s2; "."; h1; h2] ->
         getBest5FColor timeStr
         = Some (colour_of_hundredths
                   (6000 * digits_value [m1; m2] + 100 * digits_value [s1; s2]
                    + digits_value [h1; h2]))).
Proof.
  split; [|split].
  - intro t. rewrite isValidTime_clock. apply clock_shaped_spec.
  - intros t H. unfold getBest5FColor. rewrite H. cbn [negb]. now rewrite !orb_true_r.
  - intros t m1 m2 s1 s2 h1 h2 Hd Ht.
    assert (Hv : isValidTime t = true).
    { rewrite isValidTime_clock. apply clock_shaped_spec.
      exists m1, m2, s1, s2, h1, h2. auto. }
    unfold getBest5FColor. rewrite Hv.
    assert (Htr : truthy t = true).
    { destruct t; [discriminate Ht | reflexivity]. }
    assert (Hdash : str_eqb t (js "-") = false).
    { apply str_eqb_neq. intros ->. discriminate Ht. }
    rewrite Htr, Hdash. cbn [negb orb].
    rewrite (timeToSeconds_clock t m1 m2 s1 s2 h1 h2 Hd Ht).
    change (numN 60) with (numZ 60) at 2. change (numN 65) with (numZ 65).
    change (numN 70) with (numZ 70). change (numN 75) with (numZ 75).
    rewrite !seconds_le. unfold colour_of_hundredths.
    change (100 * 60)%Z with 6000%Z. change (100 * 65)%Z with 6500%Z.
    change (100 * 70)%Z with 7000%Z. change (100 * 75)%Z with 7500%Z.
    repeat match goal with |- context [if ?b then _ else _] => destruct b end;
      reflexivity.
Qed.

Lemma best5f_colour_of_valid_time_witness :
  getBest5FColor (js " 01:02.50 ") = Some (js "#d4edda").
Proof.
  destruct best5f_colour_of_valid_time as (_ & _ & H).
  exact (H (js " 01:02.50 ") "0" "1" "0" "2" "5" "0" eq_refl eq_refl).
Defined.
(** ** Position tokens *)

(** [/^(\d+)/] captures the digits that the text begins with, and fails
    when it begins with none. *)
Lemma leading_digits_exec (token : str) :
  match take_while is_digit token with
  | [] => exec no_flags re_leading_digits token = None
  | w => exists m, exec no_flags re_leading_digits token = Some m /\ match_group m 1 = w
  end.
Proof.
  destruct (take_drop_while is_digit token) as (Hsplit & _ & Hstop).
  destruct (take_while is_digit token) as [|c w] eqn:Etake.
  - unfold exec. rewrite exec_from_unfold.
    assert (Hrun : run no_flags re_leading_digits
                       {| before := []; after := token; caps := [] |} = []).
    { unfold re_leading_digits, seq. cbn [fold_right run at_bol before flat_map].
      rewrite app_nil_r.
      assert (Hg : run no_flags (plus digit) {| before := []; after := token; caps := [] |}
                   = []).
      { apply (run_rep_cannot_start no_flags digit (class_has no_flags [CDigit]));
          [apply one_char_class | lia |].
        cbn [after]. simpl in Hsplit. rewrite Hsplit.
        destruct (drop_while is_digit token); [exact I|]. now rewrite class_digit. }
      rewrite Hg. reflexivity. }
    rewrite Hrun. destruct token as [|x token]; [reflexivity|].
    change re_leading_digits with (Cat Bol (seq [Group 1 (plus digit)])).
    now apply exec_from_anchored.
  - set (s0 := {| before := []; after := token; caps := [] |}).
    assert (Hall : forallb (class_has no_flags [CDigit]) (c :: w) = true).
    { rewrite (forallb_ext_in _ is_digit (c :: w) class_digit).
      destruct (take_drop_while is_digit token) as (_ & Hf & _). rewrite Etake in Hf.
      rewrite <- Hf. apply forallb_forall. intros x Hx. apply filter_In in Hx. apply Hx. }
    assert (Hg : first_end no_flags (Group 1 (plus digit)) s0
                 = Some {| before := rev (c :: w) ++ before s0;
                           after := drop_while is_digit token;
                           caps := (1, c :: w) :: caps s0 |}).
    { apply (first_end_group_run no_flags 1 digit (class_has no_flags [CDigit])).
      - apply one_char_class.
      - exact Hsplit.
      - exact Hall.
      - simpl. lia.
      - destruct (drop_while is_digit token); [exact I|]. now rewrite class_digit. }
    eexists. split.
    + unfold exec. apply first_end_exec. unfold re_leading_digits, seq. cbn [fold_right].
      eapply first_end_cat; [reflexivity|].
      eapply first_end_cat; [exact Hg | reflexivity].
    + reflexivity.
Qed.

Lemma take_while_all (p : ascii -> bool) (s : str) :
  forallb p s = true -> take_while p s = s.
Proof.
  induction s as [|c s IH]; simpl; [reflexivity|].
  intro H. apply andb_true_iff in H. destruct H as [-> H]. now rewrite IH.
Qed.

Lemma digit_value_small (c : ascii) :
  is_digit c = true ->
  parseInt [c] = numN (code c - 48) /\ code c - 48 <= 9
  /\ (code c - 48 = 0 <-> c = "0").
Proof.
  intro H.
  destruct c as [[] [] [] [] [] [] [] []]; try discriminate H;
    (split; [reflexivity | split; [vm_compute; repeat constructor|]]);
    (split; intro E; [try reflexivity; discriminate E | try reflexivity; discriminate E]).
Qed.

(** X21.  [extractPositionFromToken] reads a position from the digits a
    token begins with: 0 when it begins with none, 10 when they are "10",
    11 or 12 when the whole token is "11" or "12", and otherwise the first
    digit alone.  The result is always a whole number from 0 to 12. *)
Theorem extractPositionFromToken_reads_first_digit (token : str) :
  extractPositionFromToken token
  = match take_while is_digit token with
    | [] => numN 0
    | (c :: _) as digits =>
      if str_eqb digits (js "10") then numN 10
      else if str_eqb token (js "11") then numN 11
      else if str_eqb token (js "12") then numN 12
      else numN (code c - 48)
    end
  /\ exists k, extractPositionFromToken token = numN k /\ k <= 12.
Proof.
  assert (Hmain : extractPositionFromToken token
                  = match take_while is_digit token with
                    | [] => numN 0
                    | (c :: _) as digits =>
                      if str_eqb digits (js "10") then numN 10
                      else if str_eqb token (js "11") then numN 11
                      else if str_eqb token (js "12") then numN 12
                      else numN (code c - 48)
                    end).
  { unfold extractPositionFromToken.
    pose proof (leading_digits_exec token) as Hexec.
    destruct (take_drop_while is_digit token) as (Hsplit & Hfil & _).
    destruct token as [|t0 token']; [reflexivity|]. cbn [truthy negb].
    set (token := t0 :: token') in *.
    destruct (take_while is_digit token) as [|c w] eqn:Etake.
    - now rewrite Hexec.
    - destruct Hexec as (m & -> & Hg). cbv zeta. rewrite Hg.
      assert (Hc : is_digit c = true).
      { assert (In c (filter is_digit (c :: w))) by (rewrite Hfil; now left).
        apply filter_In in H. apply H. }
      destruct (str_eqb (c :: w) (js "10")); [reflexivity|].
      assert (H11 : forall two, length two = 2 -> forallb is_digit two = true ->
                      str_eqb (c :: w) two && (length token =? 2) = str_eqb token two).
      { intros two Htwo Hdig.
        destruct (str_eqb token two) eqn:E.
        - apply str_eqb_eq in E.
          assert (Ecw : c :: w = two).
          { rewrite <- Etake, E. now apply take_while_all. }
          now rewrite Ecw, str_eqb_refl, E, Htwo.
        - destruct (str_eqb (c :: w) two) eqn:E2; [|reflexivity].
          apply str_eqb_eq in E2. cbn [andb].
          apply Nat.eqb_neq. intro El. apply str_eqb_neq in E. apply E.
          rewrite Hsplit, E2 in El |- *. rewrite length_app, Htwo in El.
          destruct (drop_while is_digit token); [now rewrite app_nil_r | simpl in El; lia]. }
      rewrite (H11 (js "11") eq_refl eq_refl), (H11 (js "12") eq_refl eq_refl).
      destruct (str_eqb token (js "11")); [reflexivity|].
      destruct (str_eqb token (js "12")); [reflexivity|].
      cbn [charAt nth_error char_str].
      rewrite (proj1 (digit_value_small c Hc)).
      destruct (length (c :: w) <? length token); [reflexivity|].
      destruct (js_gt _ _); reflexivity. }
  split; [exact Hmain|]. rewrite Hmain.
  destruct (take_drop_while is_digit token) as (_ & Hfil & _).
  destruct (take_while is_digit token) as [|c w]; [exists 0; split; [reflexivity|lia]|].
  destruct (str_eqb (c :: w) (js "10")); [exists 10; split; [reflexivity|lia]|].
  destruct (str_eqb token (js "11")); [exists 11; split; [reflexivity|lia]|].
  destruct (str_eqb token (js "12")); [exists 12; split; [reflexivity|lia]|].
  assert (Hc : is_digit c = true).
  { assert (In c (filter is_digit (c :: w))) by (rewrite Hfil; now left).
    apply filter_In in H. apply H. }
  exists (code c - 48). split; [reflexivity|].
  pose proof (proj1 (proj2 (digit_value_small c Hc))). lia.
Qed.
(** ** The horses named in a chart *)

Example findAllHorsesInChart_example :
  findAllHorsesInChart
    (js "Last Raced Horse H Wt" ++ ["010"] ++ js "Paradise3.80" ++ ["010"]
        ++ js "Ginger Punch (IRE)6.15" ++ ["010"] ++ js "PARADISE12.00" ++ ["010"]
        ++ js "Pool1.50" ++ ["010"])
  = [js "Paradise"; js "Ginger Punch (IRE)"].
Proof. vm_compute. reflexivity. Qed.

Lemma add_horse_name_keeps (heading : regex) (horses : list str) (m : mstate * mstate) :
  NoDup (map toLowerCase horses) ->
  Forall (fun h => 2 < length h) horses ->
  NoDup (map toLowerCase (add_horse_name heading horses m))
  /\ Forall (fun h => 2 < length h) (add_horse_name heading horses m).
Proof.
  intros Hnd Hlen. unfold add_horse_name. cbv zeta.
  set (name := trim (match_group m 1)).
  destruct (2 <? length name) eqn:E2; [|auto]. cbn [andb].
  destruct (test flag_i heading name); [auto|]. cbn [negb andb].
  destruct (existsb _ horses) eqn:Ex; [auto|]. cbn [negb]. split.
  - rewrite map_app. apply NoDup_app; [exact Hnd | repeat constructor; intros [] |].
    intros x Hx [<-|[]]. apply in_map_iff in Hx. destruct Hx as (h & Hh & Hin).
    assert (existsb (fun h => str_eqb (toLowerCase h) (toLowerCase name)) horses = true);
      [|congruence].
    apply existsb_exists. exists h. split; [exact Hin|]. now apply str_eqb_eq.
  - apply Forall_app. split; [exact Hlen|]. constructor; [|constructor].
    now apply Nat.ltb_lt.
Qed.

Lemma add_horse_names_keep (heading : regex) (ms : list (mstate * mstate)) :
  forall horses,
    NoDup (map toLowerCase horses) ->
    Forall (fun h => 2 < length h) horses ->
    NoDup (map toLowerCase (fold_left (add_horse_name heading) ms horses))
    /\ Forall (fun h => 2 < length h) (fold_left (add_horse_name heading) ms horses).
Proof.
  induction ms as [|m ms IH]; intros horses Hnd Hlen; [auto|].
  simpl. destruct (add_horse_name_keeps heading horses m Hnd Hlen). now apply IH.
Qed.

(** X22.  [findAllHorsesInChart] names no horse twice: no two names of the
    list it returns are equal up to letter case, every name has at least
    three characters, and a chart without the heading "H Wt" has no horses. *)
Theorem findAllHorsesInChart_no_repeats (text : str) :
  NoDup (map toLowerCase (findAllHorsesInChart text))
  /\ Forall (fun h => 2 < length h) (findAllHorsesInChart text)
  /\ (test flag_i re_h_wt text = false -> findAllHorsesInChart text = []).
Proof.
  unfold findAllHorsesInChart, second_part, test.
  destruct (exec flag_i re_h_wt text) as [[st e1]|].
  - destruct (add_horse_names_keep
                re_not_a_horse
                (exec_all no_flags re_horse_odds
                   match exec_from flag_i re_h_wt (before e1) (after e1) with
                   | Some (st2, _) =>
                     firstn (length (after e1) - length (after st2)) (after e1)
                   | None => after e1
                   end) [])
      as [H1 H2]; [constructor | constructor|].
    destruct (add_horse_names_keep re_not_a_horse_alt
                                   (exec_all no_flags re_horse_jockey text) _ H1 H2)
      as [H3 H4].
    split; [exact H3|]. split; [exact H4 | discriminate].
  - repeat split; constructor.
Qed.

Lemma findAllHorsesInChart_no_repeats_witness :
  findAllHorsesInChart (js "Paradise3.80") = [].
Proof.
  apply (findAllHorsesInChart_no_repeats (js "Paradise3.80")). reflexivity.
Defined.
(** ** The owner shown in the summary *)

(** X23.  What [POST /api/horses] stores is what the summary shows: in a
    mapping without an empty key, after a horse is added or updated under a
    name, the row that [generateHorseSummary] makes for a horse of the
    training data whose name equals that name up to letter case (a horse
    with entries, not a placeholder name) carries the owner, country and
    flag of the request. *)
Theorem add_horse_then_summary (name o c : str) (h : bool) (m : horse_mapping)
        (horseName : str) (entries : list row) :
  truthy name = true ->
  (forall k, In k (obj_keys m) -> truthy k = true) ->
  toLowerCase horseName = toLowerCase name ->
  entries <> [] ->
  array_includes invalidNames (trim (toLowerCase horseName)) = false ->
  exists m', add_horse name o c h m = Stored m'
             /\ summary_ownership horseName entries m' = Some (o, c, h).
Proof.
  intros Hname Hkeys Hsame Hentries Hvalid.
  pose proof (stripped_lower _ _ Hsame) as Hstripped.
  unfold add_horse. rewrite Hname. cbn [negb]. cbv zeta.
  set (d := {| owner := o; country := c; isHistoric := h; aliases := None |}).
  eexists. split; [reflexivity|].
  unfold summary_ownership. destruct entries as [|e entries]; [congruence|].
  rewrite Hvalid. unfold summary_mapping. cbv zeta. rewrite Hsame, Hstripped.
  set (byLower := fun k => str_eqb (toLowerCase k) (toLowerCase name)).
  set (byStripped := fun k => str_eqb (toLowerCase (replace_all no_flags re_non_alnum k))
                                      (toLowerCase (replace_all no_flags re_non_alnum name))).
  destruct (find byLower (obj_keys m)) as [k|] eqn:E1.
  - pose proof (find_some _ _ E1) as [Hin _]. rewrite (Hkeys k Hin), (Hkeys k Hin).
    rewrite (own_set_known m k d Hin).
    rewrite (obj_keys_set_known m k d Hin), E1, (Hkeys k Hin), (Hkeys k Hin).
    now rewrite obj_get_set_same.
  - destruct (find byStripped (obj_keys m)) as [k|] eqn:E2.
    + pose proof (find_some _ _ E2) as [Hin _]. rewrite (Hkeys k Hin).
      rewrite (own_set_known m k d Hin).
      rewrite (obj_keys_set_known m k d Hin), E1, E2, (Hkeys k Hin).
      now rewrite obj_get_set_same.
    + assert (Hnew : ~ In name (obj_keys m)).
      { intro Hin. pose proof (find_none _ _ E1 name Hin) as H. subst byLower.
        cbv beta in H. rewrite str_eqb_refl in H. discriminate. }
      destruct (own_set_new m name d Hnew) as (front & back & Em & Eset & _).
      assert (Hfind : find byLower (obj_keys (own_set m name d)) = Some name).
      { rewrite Eset. unfold obj_keys. rewrite map_app. cbn [map fst].
        apply find_middle.
        - rewrite <- map_app, <- Em. exact E1.
        - subst byLower. cbv beta. apply str_eqb_refl. }
      rewrite Hfind, Hname, Hname, own_set_get, str_eqb_refl.
      reflexivity.
Qed.

Lemma add_horse_then_summary_witness :
  exists m',
    add_horse (js "ginger punch") (js "Godolphin") (js "IRE") false
              [(js "Ginger-Punch", horse_with_aliases [js "GP"])] = Stored m'
    /\ summary_ownership (js "GINGER PUNCH") [[(js "date", JStr (js "2024-05-01"))]] m'
       = Some (js "Godolphin", js "IRE", false).
Proof.
  apply add_horse_then_summary.
  - reflexivity.
  - intros k [<-|[]]. reflexivity.
  - reflexivity.
  - discriminate.
  - reflexivity.
Defined.
(** ** Editing a training entry *)

Lemma applyTrainingEdits_get (data : detail_data) (edits : obj Edit) (k : str) :
  well_keyed data ->
  get_or_nil (applyTrainingEdits data edits) k
  = map (apply_edit edits) (get_or_nil data k).
Proof.
  intro Hwk. unfold applyTrainingEdits.
  destruct (length (obj_keys edits) =? 0) eqn:E.
  - apply Nat.eqb_eq in E. destruct edits as [|[k0 e0] edits]; [|discriminate].
    symmetry. erewrite map_ext; [apply map_id|]. intro r. reflexivity.
  - unfold get_or_nil.
    rewrite (obj_get_update_each (fun _ rows => map (apply_edit edits) rows) data k Hwk).
    now destruct (obj_get data k).
Qed.

Lemma applyTrainingEdits_keys (data : detail_data) (edits : obj Edit) :
  well_keyed data -> obj_keys (applyTrainingEdits data edits) = obj_keys data.
Proof.
  intro Hwk. unfold applyTrainingEdits.
  destruct (length (obj_keys edits) =? 0); [reflexivity|].
  rewrite (update_each_map _ data Hwk).
  apply (obj_keys_map (fun _ rows => map (apply_edit edits) rows)).
Qed.

(** X24.  An edit shows in the session it is applied to: after
    [PUT /api/training/edit] for a horse and a date, the saved detail data
    has the horses and as many rows per horse as before, and every row of
    it with that horse and that date carries the type, track, surface and
    notes that the request gave; a type that is not empty also decides
    whether the row counts as a race. *)
Theorem edit_training_shows (horse date : str) (edit : Edit) (stored : obj Edit)
        (data : detail_data) :
  truthy horse = true -> truthy date = true -> well_keyed data ->
  exists data',
    edit_training horse date edit stored (Some data)
    = Some (obj_set stored (horse ++ js "|" ++ date) edit, Some data')
    /\ obj_keys data' = obj_keys data
    /\ (forall k, length (get_or_nil data' k) = length (get_or_nil data k))
    /\ (forall k r, In r (get_or_nil data' k) ->
                    field r "horse" = JStr horse -> field r "date" = JStr date ->
                    (forall t, edit_type edit = Some t -> field r "type" = JStr t)
                    /\ (forall t, edit_track edit = Some t -> field r "track" = JStr t)
                    /\ (forall t, edit_surface edit = Some t -> field r "surface" = JStr t)
                    /\ (forall t, edit_notes edit = Some t -> field r "notes" = JStr t)
                    /\ (forall t, edit_type edit = Some t -> truthy t = true ->
                                  field r "isRace"
                                  = JBool (includes (toLowerCase t) (js "race")))).
Proof.
  intros Hh Hd Hwk. unfold edit_training. rewrite Hh, Hd. cbn [negb orb]. cbv zeta.
  set (edits := obj_set stored (horse ++ js "|" ++ date) edit).
  eexists. split; [reflexivity|]. split; [now apply applyTrainingEdits_keys|].
  split.
  { intro k. rewrite (applyTrainingEdits_get data edits k Hwk). apply length_map. }
  intros k r Hin Hrh Hrd.
  rewrite (applyTrainingEdits_get data edits k Hwk) in Hin.
  apply in_map_iff in Hin. destruct Hin as [r0 [<- _]].
  pose proof (apply_edit_session edits r0) as Hkey. unfold session_key in Hkey.
  injection Hkey as Hkd Hkh. rewrite Hkh in Hrh. rewrite Hkd in Hrd.
  unfold apply_edit. rewrite Hrh, Hrd. cbn [to_string].
  subst edits. rewrite obj_get_set_same. cbv zeta. rewrite !field_with_field.
  repeat match goal with
         | |- context [str_eqb (js ?a) (js ?b)] =>
           let v := eval vm_compute in (str_eqb (js a) (js b)) in
           change (str_eqb (js a) (js b)) with v
         end.
  cbv iota.
  split; [intros t ->; reflexivity|].
  split; [intros t ->; reflexivity|].
  split; [intros t ->; reflexivity|].
  split; [intros t ->; reflexivity|].
  intros t -> Ht. rewrite Ht. reflexivity.
Qed.

Lemma edit_training_shows_witness :
  exists data',
    edit_training (js "Paradise") (js "2024-05-01")
                  {| edit_type := Some (js "Race"); edit_track := None;
                     edit_surface := Some (js "T"); edit_notes := None |}
                  []
                  (Some [(js "Paradise",
                          [[(js "date", JStr (js "2024-05-01"));
                            (js "horse", JStr (js "Paradise"));
                            (js "type", JStr (js "Work"))]])])
    = Some (obj_set [] (js "Paradise" ++ js "|" ++ js "2024-05-01")
                    {| edit_type := Some (js "Race"); edit_track := None;
                       edit_surface := Some (js "T"); edit_notes := None |},
            Some data')
    /\ In (js "Paradise") (obj_keys data').
Proof.
  destruct (edit_training_shows
              (js "Paradise") (js "2024-05-01")
              {| edit_type := Some (js "Race"); edit_track := None;
                 edit_surface := Some (js "T"); edit_notes := None |}
              []
              [(js "Paradise",
                [[(js "date", JStr (js "2024-05-01"));
                  (js "horse", JStr (js "Paradise"));
                  (js "type", JStr (js "Work"))]])])
    as [data' [H1 [H2 _]]].
  - reflexivity.
  - reflexivity.
  - repeat constructor. intros [].
  - exists data'. split; [exact H1|]. rewrite H2. left. reflexivity.
Defined.
(** ** Notes *)

Lemma applyHorseNotes_rows (d : detail_data) (notes : obj (list Note)) (k : str) :
  well_keyed d -> well_keyed notes ->
  get_or_nil (applyHorseNotes d notes) k
  = filter not_note (get_or_nil d k) ++ map (note_row k) (get_or_nil notes k).
Proof.
  intros Hd Hn. unfold get_or_nil at 1 2. rewrite (applyHorseNotes_get d notes k Hd Hn).
  destruct (obj_get d k); [reflexivity|].
  destruct (0 <? length (get_or_nil notes k)) eqn:El; [reflexivity|].
  apply Nat.ltb_ge in El. destruct (get_or_nil notes k); [reflexivity | simpl in El; lia].
Qed.

Lemma add_note_stored (horseName date note : str) (stored : obj (list Note)) :
  truthy horseName = true -> truthy date = true -> truthy note = true ->
  well_keyed stored ->
  exists notes,
    add_note horseName date note stored = Some notes
    /\ well_keyed notes
    /\ forall k, get_or_nil notes k
                 = if str_eqb horseName k
                   then get_or_nil stored k ++ [{| note_date := date; note_note := note |}]
                   else get_or_nil stored k.
Proof.
  intros Hh Hd Hn Hwk. unfold add_note. rewrite Hh, Hd, Hn. cbn [negb orb]. cbv zeta.
  eexists. split; [reflexivity|].
  destruct (obj_get stored horseName) as [l|] eqn:G.
  - split; [now apply well_keyed_set|]. intro k. rewrite get_or_nil_set.
    destruct (str_eqb horseName k) eqn:E; [|reflexivity].
    apply str_eqb_eq in E. now subst k.
  - split; [now apply well_keyed_set, well_keyed_set|]. intro k.
    rewrite !get_or_nil_set, str_eqb_refl.
    destruct (str_eqb horseName k) eqn:E.
    + apply str_eqb_eq in E. subst k. unfold get_or_nil. rewrite G. reflexivity.
    + reflexivity.
Qed.

(** X25.  A note that is added is shown: after [POST /api/notes] for a
    horse, [applyHorseNotes] with the stored notes shows for that horse the
    rows it showed before followed by a row for the new note, and for every
    other horse the rows it showed before.  The horse is looked up by its
    exact name and need not be in the data. *)
Theorem add_note_then_shown (horseName date note : str) (stored : obj (list Note))
        (data : detail_data) :
  truthy horseName = true -> truthy date = true -> truthy note = true ->
  well_keyed stored -> well_keyed data ->
  exists notes,
    add_note horseName date note stored = Some notes
    /\ get_or_nil (applyHorseNotes data notes) horseName
       = get_or_nil (applyHorseNotes data stored) horseName
                    ++ [note_row horseName {| note_date := date; note_note := note |}]
    /\ (forall k, k <> horseName ->
                  get_or_nil (applyHorseNotes data notes) k
                  = get_or_nil (applyHorseNotes data stored) k).
Proof.
  intros Hh Hd Hn Hwk Hdata.
  destruct (add_note_stored horseName date note stored Hh Hd Hn Hwk)
    as [notes [Hadd [Hwk' Hget]]].
  exists notes. split; [exact Hadd|]. split.
  - rewrite !applyHorseNotes_rows by assumption.
    rewrite Hget, str_eqb_refl, map_app, app_assoc. reflexivity.
  - intros k Hk. rewrite !applyHorseNotes_rows by assumption.
    rewrite Hget. destruct (str_eqb horseName k) eqn:E; [|reflexivity].
    apply str_eqb_eq in E. congruence.
Qed.

Lemma add_note_then_shown_witness :
  exists notes,
    add_note (js "Paradise") (js "2024-05-01") (js "Shod") [] = Some notes
    /\ get_or_nil (applyHorseNotes [(js "Stoweshoe", [])] notes) (js "Paradise")
       = get_or_nil (applyHorseNotes [(js "Stoweshoe", [])] []) (js "Paradise")
                    ++ [note_row (js "Paradise")
                                 {| note_date := js "2024-05-01"; note_note := js "Shod" |}]
    /\ (forall k, k <> js "Paradise" ->
                  get_or_nil (applyHorseNotes [(js "Stoweshoe", [])] notes) k
                  = get_or_nil (applyHorseNotes [(js "Stoweshoe", [])] []) k).
Proof.
  apply add_note_then_shown.
  - reflexivity.
  - reflexivity.
  - reflexivity.
  - constructor.
  - repeat constructor. intros [].
Defined.

(** X26.  [DELETE /api/notes] removes every note of the horse with the
    given date, not just one: it answers 200 exactly when the horse has a
    note of that date, the notes of the horse are then the others, in their
    order, and the notes of the other horses are kept; in every other case
    the stored notes are left as they are. *)
Theorem delete_note_removes_date (horseName date : str) (stored : obj (list Note)) :
  truthy horseName = true -> truthy date = true ->
  let notes := fst (delete_note horseName date stored) in
  let status := snd (delete_note horseName date stored) in
  (status = 200
   <-> exists n, In n (get_or_nil stored horseName) /\ note_date n = date)
  /\ (status = 200 ->
      get_or_nil notes horseName
      = filter (fun n => negb (str_eqb (note_date n) date)) (get_or_nil stored horseName)
      /\ (forall n, In n (get_or_nil notes horseName) -> note_date n <> date)
      /\ (forall k, k <> horseName -> obj_get notes k = obj_get stored k))
  /\ (status <> 200 -> status = 404 /\ notes = stored).
Proof.
  intros Hh Hd. cbv zeta. unfold delete_note. rewrite Hh, Hd. cbn [negb orb]. cbv zeta.
  unfold get_or_nil at 1 3.
  destruct (obj_get stored horseName) as [horseNotes|] eqn:G.
  2:{ cbn [fst snd]. split; [|split].
      - split; [discriminate | intros [n [[] _]]].
      - discriminate.
      - intros _. split; reflexivity. }
  set (kept := filter (fun n => negb (str_eqb (note_date n) date)) horseNotes).
  assert (Hall : length kept = length horseNotes ->
                 forall n, In n horseNotes -> note_date n <> date).
  { intros Hlen n Hin Hdate.
    pose proof (filter_length_same _ _ Hlen) as Hsame. fold kept in Hsame.
    assert (Hk : In n kept) by (rewrite Hsame; exact Hin).
    apply filter_In in Hk. destruct Hk as [_ Hk]. rewrite Hdate, str_eqb_refl in Hk.
    discriminate. }
  destruct (length horseNotes =? 0) eqn:E0.
  { apply Nat.eqb_eq in E0. destruct horseNotes; [|discriminate].
    cbn [fst snd]. split; [|split].
    - split; [discriminate | intros [n [[] _]]].
    - discriminate.
    - intros _. split; reflexivity. }
  destruct (length kept =? length horseNotes) eqn:E1.
  { apply Nat.eqb_eq in E1. cbn [fst snd]. split; [|split].
    - split; [discriminate|]. intros [n [Hin Hdate]]. exfalso. exact (Hall E1 n Hin Hdate).
    - discriminate.
    - intros _. split; reflexivity. }
  apply Nat.eqb_neq in E1. cbn [fst snd]. split; [|split].
  - split; [|reflexivity]. intros _.
    destruct (existsb (fun n => str_eqb (note_date n) date) horseNotes) eqn:Ex.
    + apply existsb_exists in Ex. destruct Ex as [n [Hin Hn]].
      apply str_eqb_eq in Hn. now exists n.
    + exfalso. apply E1. subst kept. f_equal. apply filter_all.
      intros n Hin. destruct (str_eqb (note_date n) date) eqn:En; [|reflexivity].
      assert (existsb (fun n => str_eqb (note_date n) date) horseNotes = true);
        [|congruence].
      apply existsb_exists. now exists n.
  - intros _. rewrite get_or_nil_set, str_eqb_refl. split; [reflexivity|]. split.
    + intros n Hin Hdate. apply filter_In in Hin. destruct Hin as [_ Hk].
      rewrite Hdate, str_eqb_refl in Hk. discriminate.
    + intros k Hk. apply obj_get_set_other. congruence.
  - intro H. exfalso. now apply H.
Qed.

Lemma delete_note_removes_date_witness :
  let stored := [(js "Paradise",
                  [{| note_date := js "2024-05-01"; note_note := js "Shod" |};
                   {| note_date := js "2024-05-02"; note_note := js "Rest" |};
                   {| note_date := js "2024-05-01"; note_note := js "Vet" |}])] in
  snd (delete_note (js "Paradise") (js "2024-05-01") stored) = 200
  /\ get_or_nil (fst (delete_note (js "Paradise") (js "2024-05-01") stored)) (js "Paradise")
     = filter (fun n => negb (str_eqb (note_date n) (js "2024-05-01")))
              (get_or_nil stored (js "Paradise")).
Proof.
  intro stored.
  destruct (delete_note_removes_date (js "Paradise") (js "2024-05-01") stored)
    as [_ [H _]]; [reflexivity | reflexivity |].
  split; [reflexivity|]. apply H. reflexivity.
Defined.
(** ** Times of a race chart *)

Example parseTime_examples :
  parseTime (js "1:10.45")
  = Some {| display := js "1:10.45"; seconds := total_seconds (numN 1) (numN 10) (numN 45) |}
  /\ parseTime (js "00:05.07")
     = Some {| display := js "5.07"; seconds := total_seconds (numN 0) (numN 5) (numN 7) |}
  /\ parseTime (js "odds 3.50 and 58.40")
     = Some {| display := js "3.50"; seconds := total_seconds (numN 0) (numN 3) (numN 50) |}
  /\ parseTime (js "fast") = None.
Proof. vm_compute. repeat split. Qed.

Ltac run_time H1 H2 H3 H4 H5 H6 :=
  repeat (cbn -[is_digit Ascii.eqb];
          rewrite ?H1, ?H2, ?H3, ?H4, ?H5, ?H6,
            ?(digit_not_colon _ H1), ?(digit_not_colon _ H2), ?(digit_not_colon _ H3),
            ?(digit_not_colon _ H4), ?(digit_not_point _ H1), ?(digit_not_point _ H2),
            ?(digit_not_point _ H3), ?(digit_not_point _ H4);
          change (is_digit ".") with false;
          change (is_digit ":") with false;
          change ("." =? ":")%char with false;
          change (":" =? ".")%char with false;
          change (":" =? ":")%char with true;
          change ("." =? ".")%char with true).

Lemma parseTime_run (t : str) (e : mstate) :
  truthy t = true ->
  hd_error (run no_flags re_parse_time {| before := []; after := t; caps := [] |}) = Some e ->
  parseTime t
  = Some (time_of_match (match assoc_nat (caps e) 1 with Some v => v | None => [] end)
                        (match assoc_nat (caps e) 2 with Some v => v | None => [] end)
                        (match assoc_nat (caps e) 3 with Some v => v | None => [] end)).
Proof.
  intros Ht Hrun. unfold parseTime, exec. rewrite Ht, exec_from_unfold. cbn [negb].
  destruct (run no_flags re_parse_time _) as [|e' l]; [discriminate|].
  injection Hrun as ->. reflexivity.
Qed.

Lemma parseTime_4 (s h1 h2 : ascii) :
  is_digit s = true -> is_digit h1 = true -> is_digit h2 = true ->
  parseTime [s; "."; h1; h2] = Some (time_of_match [] [s] [h1; h2]).
Proof.
  intros H1 H3 H4.
  rewrite (parseTime_run _ {| before := [h2; h1; "."; s]; after := [];
                              caps := [(3, [h1; h2]); (2, [s])] |}); [reflexivity..|].
  unfold re_parse_time. run_time H1 H3 H4 H1 H1 H1. reflexivity.
Qed.

Lemma parseTime_5 (s1 s2 h1 h2 : ascii) :
  is_digit s1 = true -> is_digit s2 = true -> is_digit h1 = true -> is_digit h2 = true ->
  parseTime [s1; s2; "."; h1; h2] = Some (time_of_match [] [s1; s2] [h1; h2]).
Proof.
  intros H1 H2 H3 H4.
  rewrite (parseTime_run _ {| before := [h2; h1; "."; s2; s1]; after := [];
                              caps := [(3, [h1; h2]); (2, [s1; s2])] |}); [reflexivity..|].
  unfold re_parse_time. run_time H1 H2 H3 H4 H1 H1. reflexivity.
Qed.

Lemma parseTime_7 (m s1 s2 h1 h2 : ascii) :
  is_digit m = true ->
  is_digit s1 = true -> is_digit s2 = true -> is_digit h1 = true -> is_digit h2 = true ->
  parseTime [m; ":"; s1; s2; "."; h1; h2] = Some (time_of_match [m] [s1; s2] [h1; h2]).
Proof.
  intros H0 H1 H2 H3 H4.
  rewrite (parseTime_run _ {| before := [h2; h1; "."; s2; s1; ":"; m]; after := [];
                              caps := [(3, [h1; h2]); (2, [s1; s2]); (1, [m])] |});
    [reflexivity..|].
  unfold re_parse_time. run_time H0 H1 H2 H3 H4 H1. reflexivity.
Qed.

Lemma parseTime_8 (m1 m2 s1 s2 h1 h2 : ascii) :
  is_digit m1 = true -> is_digit m2 = true ->
  is_digit s1 = true -> is_digit s2 = true -> is_digit h1 = true -> is_digit h2 = true ->
  parseTime [m1; m2; ":"; s1; s2; "."; h1; h2]
  = Some (time_of_match [m1; m2] [s1; s2] [h1; h2]).
Proof.
  intros H0 H0' H1 H2 H3 H4.
  rewrite (parseTime_run _ {| before := [h2; h1; "."; s2; s1; ":"; m2; m1]; after := [];
                              caps := [(3, [h1; h2]); (2, [s1; s2]); (1, [m1; m2])] |});
    [reflexivity..|].
  unfold re_parse_time. run_time H0 H0' H1 H2 H3 H4. reflexivity.
Qed.

Lemma one_digit_number (a : ascii) :
  is_digit a = true ->
  parseInt [a] = numZ (digits_value [a])
  /\ number_to_string (numZ (digits_value [a])) = [a]
  /\ js_gt (numZ (digits_value [a])) (numN 0) = negb (a =? "0")%char.
Proof.
  intro Ha. destruct a as [[] [] [] [] [] [] [] []]; try discriminate Ha;
    vm_compute; repeat split.
Qed.

Lemma two_digit_number (a b : ascii) :
  is_digit a = true -> is_digit b = true ->
  parseInt [a; b] = numZ (digits_value [a; b])
  /\ number_to_string (numZ (digits_value [a; b]))
     = (if (a =? "0")%char then [b] else [a; b])
  /\ js_gt (numZ (digits_value [a; b])) (numN 0)
     = negb ((a =? "0")%char && (b =? "0")%char).
Proof.
  intros Ha Hb.
  destruct a as [[] [] [] [] [] [] [] []]; try discriminate Ha;
    destruct b as [[] [] [] [] [] [] [] []]; try discriminate Hb;
      vm_compute; repeat split.
Qed.

Lemma pad_two_digits (a b : ascii) :
  is_digit a = true -> is_digit b = true ->
  padStart (number_to_string (parseInt [a; b])) 2 "0" = [a; b].
Proof.
  intros Ha Hb. destruct (two_digit_number a b Ha Hb) as [-> [-> _]].
  destruct (a =? "0")%char eqn:E; [|reflexivity].
  apply Ascii.eqb_eq in E. subst a. reflexivity.
Qed.

Lemma time_of_match_seconds (s1 s2 h1 h2 : ascii) :
  is_digit s1 = true -> is_digit s2 = true -> is_digit h1 = true -> is_digit h2 = true ->
  time_of_match [] [s1; s2] [h1; h2]
  = {| display := (if (s1 =? "0")%char then [s2] else [s1; s2]) ++ ["."; h1; h2];
       seconds := total_seconds (numZ 0) (numZ (digits_value [s1; s2]))
                                (numZ (digits_value [h1; h2])) |}.
Proof.
  intros H1 H2 H3 H4. unfold time_of_match. cbn [truthy]. cbv zeta.
  destruct (two_digit_number s1 s2 H1 H2) as [-> [-> _]].
  rewrite (pad_two_digits h1 h2 H3 H4).
  destruct (two_digit_number h1 h2 H3 H4) as [-> _].
  reflexivity.
Qed.

Lemma time_of_match_second (s h1 h2 : ascii) :
  is_digit s = true -> is_digit h1 = true -> is_digit h2 = true ->
  time_of_match [] [s] [h1; h2]
  = {| display := [s; "."; h1; h2];
       seconds := total_seconds (numZ 0) (numZ (digits_value [s]))
                                (numZ (digits_value [h1; h2])) |}.
Proof.
  intros H1 H3 H4. unfold time_of_match. cbn [truthy]. cbv zeta.
  destruct (one_digit_number s H1) as [-> [-> _]].
  rewrite (pad_two_digits h1 h2 H3 H4).
  destruct (two_digit_number h1 h2 H3 H4) as [-> _].
  reflexivity.
Qed.

Lemma time_of_match_minute (m s1 s2 h1 h2 : ascii) :
  is_digit m = true ->
  is_digit s1 = true -> is_digit s2 = true -> is_digit h1 = true -> is_digit h2 = true ->
  time_of_match [m] [s1; s2] [h1; h2]
  = {| display := if (m =? "0")%char
                  then (if (s1 =? "0")%char then [s2] else [s1; s2]) ++ ["."; h1; h2]
                  else [m; ":"; s1; s2; "."; h1; h2];
       seconds := total_seconds (numZ (digits_value [m])) (numZ (digits_value [s1; s2]))
                                (numZ (digits_value [h1; h2])) |}.
Proof.
  intros H0 H1 H2 H3 H4. unfold time_of_match. cbn [truthy]. cbv zeta.
  rewrite (pad_two_digits h1 h2 H3 H4), (pad_two_digits s1 s2 H1 H2).
  destruct (one_digit_number m H0) as [-> [-> ->]].
  destruct (two_digit_number s1 s2 H1 H2) as [-> [-> _]].
  destruct (two_digit_number h1 h2 H3 H4) as [-> _].
  f_equal. destruct (m =? "0")%char; reflexivity.
Qed.

Lemma time_of_match_minutes (m1 m2 s1 s2 h1 h2 : ascii) :
  is_digit m1 = true -> is_digit m2 = true ->
  is_digit s1 = true -> is_digit s2 = true -> is_digit h1 = true -> is_digit h2 = true ->
  time_of_match [m1; m2] [s1; s2] [h1; h2]
  = {| display := if (m1 =? "0")%char
                  then if (m2 =? "0")%char
                       then (if (s1 =? "0")%char then [s2] else [s1; s2]) ++ ["."; h1; h2]
                       else [m2; ":"; s1; s2; "."; h1; h2]
                  else [m1; m2; ":"; s1; s2; "."; h1; h2];
       seconds := total_seconds (numZ (digits_value [m1; m2]))
                                (numZ (digits_value [s1; s2]))
                                (numZ (digits_value [h1; h2])) |}.
Proof.
  intros H0 H0' H1 H2 H3 H4. unfold time_of_match. cbn [truthy]. cbv zeta.
  rewrite (pad_two_digits h1 h2 H3 H4), (pad_two_digits s1 s2 H1 H2).
  destruct (two_digit_number m1 m2 H0 H0') as [-> [-> ->]].
  destruct (two_digit_number s1 s2 H1 H2) as [-> [-> _]].
  destruct (two_digit_number h1 h2 H3 H4) as [-> _].
  f_equal. destruct (m1 =? "0")%char, (m2 =? "0")%char; reflexivity.
Qed.

Lemma seconds_display_again (s1 s2 h1 h2 : ascii) :
  is_digit s1 = true -> is_digit s2 = true -> is_digit h1 = true -> is_digit h2 = true ->
  parseTime ((if (s1 =? "0")%char then [s2] else [s1; s2]) ++ ["."; h1; h2])
  = Some (time_of_match [] [s1; s2] [h1; h2]).
Proof.
  intros H1 H2 H3 H4. rewrite (time_of_match_seconds s1 s2 h1 h2 H1 H2 H3 H4).
  destruct (s1 =? "0")%char eqn:E.
  - apply Ascii.eqb_eq in E. subst s1. cbn [app].
    rewrite (parseTime_4 s2 h1 h2 H2 H3 H4), (time_of_match_second s2 h1 h2 H2 H3 H4).
    reflexivity.
  - cbn [app].
    rewrite (parseTime_5 s1 s2 h1 h2 H1 H2 H3 H4),
      (time_of_match_seconds s1 s2 h1 h2 H1 H2 H3 H4), E.
    reflexivity.
Qed.

Lemma seconds_display_suffix (s1 s2 h1 h2 : ascii) (front : str) :
  forallb (fun c => (c =? "0")%char || (c =? ":")%char) front = true ->
  exists zeros,
    front ++ [s1; s2; "."; h1; h2]
    = zeros ++ (if (s1 =? "0")%char then [s2] else [s1; s2]) ++ ["."; h1; h2]
    /\ forallb (fun c => (c =? "0")%char || (c =? ":")%char) zeros = true.
Proof.
  intro Hf. destruct (s1 =? "0")%char eqn:E.
  - exists (front ++ [s1]). split; [now rewrite <- app_assoc|].
    rewrite forallb_app, Hf. cbn [forallb]. now rewrite E.
  - exists front. split; [reflexivity | exact Hf].
Qed.

(** X27.  [parseTime] and the text it displays: for a time as the result
    rows give them (MM:SS.hh, M:SS.hh or SS.hh) it returns a time whose
    display is the text without its leading zeros (and without zero
    minutes), hence the text itself when it does not begin with 0; parsing
    the display again returns the same time. *)
Theorem parseTime_display_round_trip (t : str) :
  race_time t = true ->
  exists d,
    parseTime t = Some d
    /\ parseTime (display d) = Some d
    /\ (exists zeros,
           t = zeros ++ display d
           /\ forallb (fun c => (c =? "0")%char || (c =? ":")%char) zeros = true)
    /\ (forall c rest, t = c :: rest -> c <> "0"%char -> display d = t).
Proof.
  intro Ht.
  destruct t as [|a [|b [|c [|d [|e [|f [|g [|h [|i rest]]]]]]]]]; try discriminate Ht;
    cbn [race_time] in Ht.
  - (* SS.hh *)
    do 4 (apply andb_true_iff in Ht; destruct Ht as [Ht ?]).
    apply Ascii.eqb_eq in H1. subst c.
    exists (time_of_match [] [a; b] [d; e]).
    split; [now apply parseTime_5|].
    rewrite (time_of_match_seconds a b d e) by assumption. cbn [display].
    split; [rewrite seconds_display_again by assumption;
            now rewrite (time_of_match_seconds a b d e) by assumption|].
    split; [exact (seconds_display_suffix a b d e [] eq_refl)|].
    intros c0 rest0 [= <- <-] Hc. apply Ascii.eqb_neq in Hc. now rewrite Hc.
  - (* M:SS.hh *)
    do 6 (apply andb_true_iff in Ht; destruct Ht as [Ht ?]).
    apply Ascii.eqb_eq in H1, H4. subst b e.
    exists (time_of_match [a] [c; d] [f; g]).
    split; [now apply parseTime_7|].
    rewrite (time_of_match_minute a c d f g) by assumption. cbn [display].
    destruct (a =? "0")%char eqn:E.
    + apply Ascii.eqb_eq in E. subst a.
      split; [rewrite seconds_display_again by assumption;
              now rewrite (time_of_match_seconds c d f g) by assumption|].
      split; [exact (seconds_display_suffix c d f g (js "0:") eq_refl)|].
      intros c0 rest0 [= <- <-] Hc. now elim Hc.
    + split; [rewrite parseTime_7 by assumption;
              now rewrite (time_of_match_minute a c d f g), E by assumption|].
      split; [exists []; split; reflexivity|].
      reflexivity.
  - (* MM:SS.hh *)
    do 7 (apply andb_true_iff in Ht; destruct Ht as [Ht ?]).
    apply Ascii.eqb_eq in H1, H4. subst c f.
    exists (time_of_match [a; b] [d; e] [g; h]).
    split; [now apply parseTime_8|].
    rewrite (time_of_match_minutes a b d e g h) by assumption. cbn [display].
    destruct (a =? "0")%char eqn:Ea; [destruct (b =? "0")%char eqn:Eb|].
    + apply Ascii.eqb_eq in Ea, Eb. subst a b.
      split; [rewrite seconds_display_again by assumption;
              now rewrite (time_of_match_seconds d e g h) by assumption|].
      split; [exact (seconds_display_suffix d e g h (js "00:") eq_refl)|].
      intros c0 rest0 [= <- <-] Hc. now elim Hc.
    + apply Ascii.eqb_eq in Ea. subst a.
      split; [rewrite parseTime_7 by assumption;
              now rewrite (time_of_match_minute b d e g h), Eb by assumption|].
      split; [exists (js "0"); split; reflexivity|].
      intros c0 rest0 [= <- <-] Hc. now elim Hc.
    + split; [rewrite parseTime_8 by assumption;
              now rewrite (time_of_match_minutes a b d e g h), Ea by assumption|].
      split; [exists []; split; reflexivity|].
      reflexivity.
Qed.

Lemma parseTime_display_round_trip_witness :
  exists d,
    parseTime (js "01:05.40") = Some d
    /\ parseTime (display d) = Some d
    /\ (exists zeros,
           js "01:05.40" = zeros ++ display d
           /\ forallb (fun c => (c =? "0")%char || (c =? ":")%char) zeros = true)
    /\ (forall c rest, js "01:05.40" = c :: rest -> c <> "0"%char
                       -> display d = js "01:05.40").
Proof. apply parseTime_display_round_trip. reflexivity. Defined.
(** ** The type of a training *)

Example transformTrainingType_examples :
  transformTrainingType (js "Easy breeze, then BREEZE") = js "Easy Work, then Work"
  /\ transformTrainingType (js " Breeze Gate ") = js "Work - G"
  /\ transformTrainingType (js "N/A") = []
  /\ transformTrainingType (js "Gallop") = js "Gallop".
Proof. vm_compute. repeat split. Qed.

Lemma breeze_letter (c : ascii) :
  ("b" =? lower_char c)%char = lit_has flag_i "b" c
  /\ ("r" =? lower_char c)%char = lit_has flag_i "r" c
  /\ ("e" =? lower_char c)%char = lit_has flag_i "e" c
  /\ ("z" =? lower_char c)%char = lit_has flag_i "z" c.
Proof. destruct c as [[] [] [] [] [] [] [] []]; repeat split. Qed.

Lemma run_breeze (s : mstate) :
  run flag_i re_breeze s
  = if breeze_here (after s)
    then [{| before := rev (firstn 6 (after s)) ++ before s;
             after := skipn 6 (after s); caps := caps s |}]
    else [].
Proof.
  destruct s as [bef aft cs]. unfold re_breeze, breeze_here. cbn [after before caps].
  destruct aft as [|c1 [|c2 [|c3 [|c4 [|c5 [|c6 rest]]]]]];
    cbn -[lit_has lower_char Ascii.eqb]; [reflexivity|..].
  all: rewrite ?(proj1 (breeze_letter c1)), ?(proj1 (proj2 (breeze_letter c2))),
         ?(proj1 (proj2 (proj2 (breeze_letter c3)))),
         ?(proj1 (proj2 (proj2 (breeze_letter c4)))),
         ?(proj2 (proj2 (proj2 (breeze_letter c5)))),
         ?(proj1 (proj2 (proj2 (breeze_letter c6)))).
  all: destruct (lit_has flag_i "b" c1); cbn -[lit_has lower_char Ascii.eqb];
    try reflexivity.
  all: destruct (lit_has flag_i "r" c2); cbn -[lit_has lower_char Ascii.eqb];
    try reflexivity.
  all: destruct (lit_has flag_i "e" c3); cbn -[lit_has lower_char Ascii.eqb];
    try reflexivity.
  all: destruct (lit_has flag_i "e" c4); cbn -[lit_has lower_char Ascii.eqb];
    try reflexivity.
  all: destruct (lit_has flag_i "z" c5); cbn -[lit_has lower_char Ascii.eqb];
    try reflexivity.
  all: destruct (lit_has flag_i "e" c6); cbn -[lit_has lower_char Ascii.eqb];
    try reflexivity.
Qed.

Lemma exec_breeze_none :
  forall aft bef, exec_from flag_i re_breeze bef aft = None -> no_breeze aft = true.
Proof.
  induction aft as [|c aft IH]; intros bef H; [reflexivity|].
  rewrite exec_from_unfold, run_breeze in H. cbn [after] in H.
  cbn [no_breeze]. destruct (breeze_here (c :: aft)); [discriminate|].
  cbn [negb andb]. exact (IH _ H).
Qed.

(** The first "breeze" of a text: what is before it, and that "breeze"
    begins nowhere before it. *)
Lemma exec_breeze_some :
  forall aft bef st e,
    exec_from flag_i re_breeze bef aft = Some (st, e) ->
    aft = firstn (length aft - length (after st)) aft ++ after st
    /\ breeze_here (after st) = true
    /\ after e = skipn 6 (after st)
    /\ (forall a t, firstn (length aft - length (after st)) aft = a ++ t -> t <> [] ->
                    breeze_here (t ++ after st) = false).
Proof.
  induction aft as [|c aft IH]; intros bef st e H;
    rewrite exec_from_unfold, run_breeze in H; cbn [after] in H.
  - discriminate.
  - destruct (breeze_here (c :: aft)) eqn:E.
    + injection H as <- <-. cbn [after]. rewrite Nat.sub_diag. cbn [firstn app].
      split; [reflexivity|]. split; [exact E|]. split; [reflexivity|].
      intros a t Ha Ht. symmetry in Ha. apply app_eq_nil in Ha. now destruct Ha.
    + destruct (IH _ _ _ H) as [H1 [H2 [H3 H4]]].
      assert (Hlen : length (after st) <= length aft).
      { pose proof (f_equal (@length ascii) H1) as HL. rewrite length_app in HL. lia. }
      replace (length (c :: aft) - length (after st))
        with (S (length aft - length (after st))) by (cbn [length]; lia).
      cbn [firstn]. split; [cbn [app]; now rewrite <- H1|]. split; [exact H2|].
      split; [exact H3|]. intros a t Ha Ht.
      destruct a as [|c' a].
      * cbn [app] in Ha. subst t. cbn [app]. now rewrite <- H1.
      * injection Ha as _ Ha. exact (H4 a t Ha Ht).
Qed.

Lemma no_breeze_glue (rest0 out : str) :
  no_breeze out = true ->
  forall skipped,
    (forall a t, skipped = a ++ t -> t <> [] -> breeze_here (t ++ rest0) = false) ->
    no_breeze (skipped ++ js "Work" ++ out) = true.
Proof.
  intros Hout. induction skipped as [|c sk IH]; intro H.
  - cbn. exact Hout.
  - cbn [app no_breeze]. apply andb_true_iff. split.
    + apply negb_true_iff.
      pose proof (H [] (c :: sk) eq_refl ltac:(discriminate)) as H0.
      destruct sk as [|s1 [|s2 [|s3 [|s4 [|s5 sk']]]]];
        first [exact H0 | unfold breeze_here; cbn; now rewrite ?andb_false_r].
    + apply IH. intros a t Ha Ht. apply (H (c :: a) t); [now rewrite Ha | exact Ht].
Qed.

Lemma replace_breeze_clean :
  forall fuel aft bef,
    length aft < fuel ->
    no_breeze (replace_all_with_from fuel flag_i re_breeze (js "Work") bef aft) = true.
Proof.
  induction fuel as [|fuel IH]; intros aft bef Hlen; [lia|].
  cbn [replace_all_with_from].
  destruct (exec_from flag_i re_breeze bef aft) as [[st e]|] eqn:E.
  - destruct (exec_breeze_some _ _ _ _ E) as [H1 [H2 [H3 H4]]].
    assert (H6 : 6 <= length (after st)).
    { unfold breeze_here in H2. destruct (after st) as [|c1 [|c2 [|c3 [|c4 [|c5 [|c6 r]]]]]];
        cbn in H2; rewrite ?andb_false_r in H2; try discriminate H2. cbn [length]. lia. }
    assert (Hle : length (after st) <= length aft).
    { pose proof (f_equal (@length ascii) H1) as HL. rewrite length_app in HL. lia. }
    assert (He : length (after e) = length (after st) - 6)
      by (rewrite H3; apply length_skipn).
    assert (Hlt : (length (after e) <? length (after st)) = true)
      by (apply Nat.ltb_lt; lia).
    rewrite Hlt. apply (no_breeze_glue (after st)); [|exact H4].
    apply IH. lia.
  - exact (exec_breeze_none _ _ E).
Qed.

Lemma no_breeze_includes (s : str) :
  no_breeze s = true -> includes (toLowerCase s) (js "breeze") = false.
Proof.
  unfold includes. induction s as [|c s IH]; intro H; [reflexivity|].
  cbn [no_breeze] in H. apply andb_true_iff in H. destruct H as [H1 H2].
  apply negb_true_iff in H1. unfold breeze_here in H1.
  change (toLowerCase (c :: s)) with (lower_char c :: toLowerCase s) in *.
  cbn [indexOf]. rewrite H1. specialize (IH H2).
  destruct (indexOf (toLowerCase s) (js "breeze")); [discriminate | reflexivity].
Qed.

Lemma includes_trimStart (s p : str) (x : ascii) :
  is_space x = false -> includes (trimStart s) (x :: p) = includes s (x :: p).
Proof.
  intro Hx. induction s as [|c s IH]; [reflexivity|].
  cbn [trimStart]. destruct (is_space c) eqn:Ec; [|reflexivity].
  rewrite IH. unfold includes. cbn [indexOf starts_with].
  assert (Hxc : (x =? c)%char = false).
  { apply Ascii.eqb_neq. intros ->. congruence. }
  rewrite Hxc. cbn [andb]. now destruct (indexOf s (x :: p)).
Qed.

Lemma includes_rev (s p : str) : includes (rev s) (rev p) = includes s p.
Proof.
  apply eq_true_iff_eq. rewrite !includes_spec. split; intros (a & b & H).
  - exists (rev b), (rev a). rewrite <- (rev_involutive s), H.
    now rewrite !rev_app_distr, rev_involutive, app_assoc.
  - exists (rev b), (rev a). rewrite H. now rewrite !rev_app_distr, app_assoc.
Qed.

Lemma includes_trim_breeze (s : str) :
  includes (trim s) (js "breeze") = includes s (js "breeze").
Proof.
  unfold trim, trimEnd.
  rewrite <- (includes_rev (rev _)), rev_involutive.
  change (rev (js "breeze")) with (js "ezeerb").
  change (js "ezeerb") with ("e"%char :: js "zeerb").
  rewrite includes_trimStart by reflexivity.
  change ("e"%char :: js "zeerb") with (rev (js "breeze")).
  rewrite includes_rev.
  change (js "breeze") with ("b"%char :: js "reeze").
  now apply includes_trimStart.
Qed.

(** X28.  No training stays a breeze: the type that [transformTrainingType]
    returns never contains "breeze", in whatever letter case. *)
Theorem transformTrainingType_no_breeze (type : str) :
  includes (toLowerCase (transformTrainingType type)) (js "breeze") = false.
Proof.
  unfold transformTrainingType.
  destruct (truthy type) eqn:Et; cbn [negb]; [|reflexivity].
  cbv zeta. destruct (str_eqb _ (js "n/a")); [reflexivity|].
  match goal with |- context [if ?b then js "Work - G" else _] => destruct b end;
    [reflexivity|].
  destruct (includes (trim (toLowerCase type)) (js "breeze")) eqn:Eb.
  - apply no_breeze_includes. unfold replace_all_with. apply replace_breeze_clean. lia.
  - now rewrite includes_trim_breeze in Eb.
Qed.
(** ** Track abbreviations *)

Lemma upper_upper_char (c : ascii) : upper_char (upper_char c) = upper_char c.
Proof. destruct c as [[] [] [] [] [] [] [] []]; reflexivity. Qed.

Lemma toUpperCase_twice (s : str) : toUpperCase (toUpperCase s) = toUpperCase s.
Proof.
  unfold toUpperCase. rewrite map_map. apply map_ext. exact upper_upper_char.
Qed.

Lemma split_words_nonempty (s : str) :
  forall cur, Forall (fun w => w <> []) (split_words s cur).
Proof.
  assert (Hrev : forall (c : ascii) cur, rev (c :: cur) <> []).
  { intros c cur H. apply (f_equal (@length ascii)) in H.
    rewrite length_rev in H. discriminate H. }
  induction s as [|c s IH]; intro cur; cbn [split_words].
  - destruct cur; [constructor|]. constructor; [apply Hrev | constructor].
  - destruct (c =? " ")%char; [|apply IH].
    destruct cur; [apply IH|]. constructor; [apply Hrev | apply IH].
Qed.

Lemma table_abbreviations_shaped :
  forallb (fun e => abbreviation_shaped (snd e)) trackAbbreviations = true.
Proof. vm_compute. reflexivity. Qed.

Lemma table_churchill_fragments :
  forallb (fun e => negb (includes (js "churchill downs") (fst e))
                    || str_eqb (snd e) (js "CD"))
          trackAbbreviations = true.
Proof. vm_compute. reflexivity. Qed.

(** X29.  The abbreviation of a track is one to three characters long and
    has no small letter.  The table is searched in its order for a name
    that contains the text or is contained in it, so that every fragment of
    "churchill downs", the first name, is Churchill Downs: a blank text as
    well. *)
Theorem getTrackAbbreviation_shape (trackName : str) :
  1 <= length (getTrackAbbreviation trackName) <= 3
  /\ toUpperCase (getTrackAbbreviation trackName) = getTrackAbbreviation trackName
  /\ (truthy trackName = true ->
      includes (js "churchill downs") (trim (toLowerCase trackName)) = true ->
      getTrackAbbreviation trackName = js "CD").
Proof.
  assert (Hshape : forall a, abbreviation_shaped a = true ->
                             1 <= length a <= 3 /\ toUpperCase a = a).
  { intros a H. unfold abbreviation_shaped in H.
    apply andb_true_iff in H. destruct H as [H H3].
    apply andb_true_iff in H. destruct H as [H1 H2].
    apply Nat.leb_le in H1, H2. apply str_eqb_eq in H3. now repeat split. }
  assert (Htable : forall k a, In (k, a) trackAbbreviations ->
                               abbreviation_shaped a = true
                               /\ (includes (js "churchill downs") k = true -> a = js "CD")).
  { intros k a Hin. split.
    - exact (proj1 (forallb_forall _ _) table_abbreviations_shaped (k, a) Hin).
    - intro Hk.
      pose proof (proj1 (forallb_forall _ _) table_churchill_fragments (k, a) Hin) as H.
      cbn [fst snd] in H. rewrite Hk in H. cbn [negb orb] in H.
      now apply str_eqb_eq in H. }
  unfold getTrackAbbreviation.
  destruct (truthy trackName) eqn:Et; cbn [negb].
  2:{ split; [cbn; lia|]. split; [reflexivity | discriminate]. }
  cbv zeta. set (lower := trim (toLowerCase trackName)).
  destruct (obj_get trackAbbreviations lower) as [abbrev|] eqn:G.
  { apply obj_get_In in G. destruct (Htable _ _ G) as [Hs Hc].
    destruct (Hshape _ Hs) as [Hl Hu]. split; [exact Hl|]. split; [exact Hu|].
    intros _. exact Hc. }
  destruct (find _ trackAbbreviations) as [[name abbrev]|] eqn:F.
  { pose proof (find_some _ _ F) as [Hin _]. destruct (Htable _ _ Hin) as [Hs _].
    destruct (Hshape _ Hs) as [Hl Hu]. split; [exact Hl|]. split; [exact Hu|].
    intros _ Hfrag. unfold trackAbbreviations in F. cbn [find fst] in F.
    rewrite Hfrag, orb_true_r in F. now injection F as _ <-. }
  split; [|split].
  - pose proof (split_words_nonempty trackName []) as Hw.
    destruct (split_words trackName []) as [|w0 [|w1 ws]].
    + unfold toUpperCase, substring. rewrite length_map, length_firstn. cbn [skipn].
      destruct trackName; [discriminate Et | cbn [length]; lia].
    + unfold toUpperCase, substring. rewrite length_map, length_firstn. cbn [skipn].
      destruct trackName; [discriminate Et | cbn [length]; lia].
    + inversion Hw as [|? ? Hw0 Hw']. inversion Hw' as [|? ? Hw1 _].
      destruct w0; [congruence|]. destruct w1; [congruence|]. cbn. lia.
  - destruct (split_words trackName []) as [|w0 [|w1 ws]]; apply toUpperCase_twice.
  - intros _ Hfrag. exfalso.
    pose proof (find_none _ _ F (js "churchill downs", js "CD")) as H.
    cbn [fst] in H. fold lower in Hfrag. rewrite Hfrag, orb_true_r in H.
    discriminate H. left. reflexivity.
Qed.

Lemma getTrackAbbreviation_shape_witness : getTrackAbbreviation (js " hill ") = js "CD".
Proof. apply (getTrackAbbreviation_shape (js " hill ")); reflexivity. Defined.
(** ** Uploading training data *)

Example upload_arioneo_row_of_known_horse :
  let gallop := [(js "date", JStr (js "01/19/2026")); (js "horse", JStr (js "Stoweshoe"))] in
  let work := [(js "date", JStr (js "01/20/2026")); (js "horse", JStr (js "Stoweshoe"))] in
  upload_arioneo (fun l => l) [work] (Some [(js "Stoweshoe", [gallop])]) []
  = Some ([(js "Stoweshoe", [gallop; work])], 0%Z)
  /\ upload_arioneo (fun l => l) [work] None []
     = Some ([(js "Stoweshoe", [work])], 1%Z).
Proof. vm_compute. split; reflexivity. Qed.

(** The rows of the horses [keys], counted in the data [m]. *)
Lemma total_rows_shared {A : Type} (m : obj (list A)) (o : obj (list A)) :
  total_rows (map (fun e => (fst e, get_or_nil m (fst e))) o)
  = list_sum (map (fun k => length (get_or_nil m k)) (obj_keys o)).
Proof.
  unfold total_rows. induction o as [|[k v] o IH]; [reflexivity|].
  unfold obj_keys in *. cbn [map fst snd concat]. rewrite length_app, IH.
  reflexivity.
Qed.

Lemma list_sum_le {A : Type} (f g : A -> nat) (l : list A) :
  (forall x, In x l -> f x <= g x) -> list_sum (map f l) <= list_sum (map g l).
Proof.
  induction l as [|x l IH]; intro H; [apply le_n|].
  pose proof (H x (or_introl eq_refl)).
  assert (list_sum (map f l) <= list_sum (map g l)) by (apply IH; intros; apply H; now right).
  change (f x + list_sum (map f l) <= g x + list_sum (map g l)). lia.
Qed.

Lemma merge_row_keys (m m' : detail_data) (r : row) :
  merge_row m r = Some m' ->
  (exists extra, obj_keys m' = obj_keys m ++ extra)
  /\ (forall k, length (get_or_nil m k) <= length (get_or_nil m' k))
  /\ ((forall h, field r "horse" = JStr h -> In h (obj_keys m)) ->
      obj_keys m' = obj_keys m).
Proof.
  unfold merge_row. intro Hstep.
  assert (Hsame : Some m = Some m' ->
                  (exists extra, obj_keys m' = obj_keys m ++ extra)
                  /\ (forall k, length (get_or_nil m k) <= length (get_or_nil m' k))
                  /\ ((forall h, field r "horse" = JStr h -> In h (obj_keys m)) ->
                      obj_keys m' = obj_keys m)).
  { intros [= <-]. split; [exists []; now rewrite app_nil_r|]. split; auto. }
  destruct (field r "horse") as [|[]|h] eqn:Eh; try discriminate; auto.
  destruct (negb (truthy h)); auto.
  destruct (array_includes invalidNames (trim (toLowerCase h))); auto.
  cbv zeta in Hstep.
  destruct (existsb (same_session r) (get_or_nil m h)); auto.
  injection Hstep as <-. split; [|split].
  - rewrite obj_keys_set. destruct (existsb (str_eqb h) (obj_keys m)).
    + exists []. now rewrite app_nil_r.
    + now exists [h].
  - intro k. rewrite get_or_nil_set. destruct (str_eqb h k) eqn:E; [|apply le_n].
    apply str_eqb_eq in E. subst k. rewrite length_app. lia.
  - intro Hknown. apply obj_keys_set_known. now apply Hknown.
Qed.

Lemma merge_rows_keys (newData : list row) :
  forall m m' : detail_data,
    merge_rows m newData = Some m' ->
    (exists extra, obj_keys m' = obj_keys m ++ extra)
    /\ (forall k, length (get_or_nil m k) <= length (get_or_nil m' k))
    /\ ((forall r h, In r newData -> field r "horse" = JStr h -> In h (obj_keys m)) ->
        obj_keys m' = obj_keys m).
Proof.
  induction newData as [|r rest IH]; intros m m' Hm; simpl in Hm.
  - injection Hm as <-. split; [exists []; now rewrite app_nil_r|]. split; auto.
  - destruct (merge_row m r) as [m1|] eqn:E1; [|discriminate].
    destruct (merge_row_keys m m1 r E1) as ([x1 Hx1] & Hg1 & Hk1).
    destruct (IH m1 m' Hm) as ([x2 Hx2] & Hg2 & Hk2).
    split; [|split].
    + exists (x1 ++ x2). now rewrite Hx2, Hx1, app_assoc.
    + intro k. exact (Nat.le_trans _ _ _ (Hg1 k) (Hg2 k)).
    + intro Hknown.
      assert (E : obj_keys m1 = obj_keys m).
      { apply Hk1. intros h Hh. apply (Hknown r h); [now left | exact Hh]. }
      rewrite <- E. apply Hk2. intros x h Hx Hh. rewrite E.
      apply (Hknown x h); [now right | exact Hh].
Qed.

Lemma merge_rows_count (newData : list row) :
  forall m m' : detail_data,
    merge_rows m newData = Some m' ->
    total_rows m <= total_rows m' <= total_rows m + length newData.
Proof.
  induction newData as [|r rest IH]; intros m m' Hm; simpl in Hm.
  - injection Hm as <-. simpl. lia.
  - destruct (merge_row m r) as [m1|] eqn:E1; [|discriminate].
    specialize (IH m1 m' Hm). cbn [length].
    enough (total_rows m <= total_rows m1 <= total_rows m + 1) by lia.
    unfold merge_row in E1.
    destruct (field r "horse") as [|[]|h]; try discriminate;
      try (injection E1 as <-; lia).
    destruct (negb (truthy h)); [injection E1 as <-; lia|].
    destruct (array_includes invalidNames (trim (toLowerCase h)));
      [injection E1 as <-; lia|].
    cbv zeta in E1.
    destruct (existsb (same_session r) (get_or_nil m h)); injection E1 as <-; [lia|].
    rewrite total_rows_push. cbn [length]. lia.
Qed.

Lemma total_rows_edited (m : detail_data) (edits : obj Edit) :
  well_keyed m -> total_rows (applyTrainingEdits m edits) = total_rows m.
Proof.
  intro H. unfold applyTrainingEdits.
  destruct (length (obj_keys edits) =? 0); [reflexivity|].
  rewrite (update_each_map _ m H).
  apply (total_rows_map (fun _ rows => map (apply_edit edits) rows)).
  intros _ l. apply length_map.
Qed.

Lemma well_keyed_edited (m : detail_data) (edits : obj Edit) :
  well_keyed m -> well_keyed (applyTrainingEdits m edits).
Proof.
  intro H. unfold well_keyed. now rewrite applyTrainingEdits_keys.
Qed.

Section Upload.
Variable sort_rows : list row -> list row.
Hypothesis sort_rows_perm : forall l, Permutation (sort_rows l) l.

Lemma total_rows_sorted (m : detail_data) :
  well_keyed m -> total_rows (update_each (fun _ rows => sort_rows rows) m) = total_rows m.
Proof.
  intro H. rewrite (update_each_map _ m H).
  apply (total_rows_map (fun _ rows => sort_rows rows)).
  intros _ l. apply Permutation_length, sort_rows_perm.
Qed.

Lemma length_sorted (m : detail_data) (k : str) :
  well_keyed m ->
  length (get_or_nil (update_each (fun _ rows => sort_rows rows) m) k)
  = length (get_or_nil m k).
Proof. intro H. apply Permutation_length. now apply sorted_perm. Qed.

Lemma keys_sorted (m : detail_data) :
  well_keyed m -> obj_keys (update_each (fun _ rows => sort_rows rows) m) = obj_keys m.
Proof.
  intro H. rewrite (update_each_map _ m H).
  apply (obj_keys_map (fun _ rows => sort_rows rows)).
Qed.
End Upload.

(** X30.  [POST /api/upload/arioneo] counts as new only the rows of horses
    new to the session: the number of new entries it reports is between 0
    and the number of rows of the file, and it is 0 when every row of the
    file is of a horse that the session has already, whatever was added to
    that horse.  A second upload of the same rows on what the first has
    saved reports 0 new entries and saves the same horses with the same
    rows, rearranged at most by the sort. *)
Theorem upload_arioneo_again
        (sort_rows : list row -> list row) (processedRows : list row)
        (existing saved : detail_data) (edits : obj Edit) (n : Z) :
  (forall l, Permutation (sort_rows l) l) ->
  well_keyed existing ->
  upload_arioneo sort_rows processedRows (Some existing) edits = Some (saved, n) ->
  (0 <= n <= Z.of_nat (length processedRows))%Z
  /\ ((forall r h, In r processedRows -> field r "horse" = JStr h ->
                   In h (obj_keys existing)) -> n = 0%Z)
  /\ exists saved2,
      upload_arioneo sort_rows processedRows (Some saved) edits = Some (saved2, 0%Z)
      /\ obj_keys saved2 = obj_keys saved
      /\ forall k, Permutation (get_or_nil saved2 k) (get_or_nil saved k).
Proof.
  intros Hsort Hwf Hup. unfold upload_arioneo in Hup. cbv zeta in Hup.
  unfold mergeTrainingData in Hup.
  destruct (merge_rows existing processedRows) as [m1|] eqn:E1; [|discriminate].
  injection Hup as <- <-.
  destruct (merge_rows_keeps processedRows existing m1 E1 Hwf)
    as (Hwf1 & Hty & _ & _ & _ & Hcov).
  pose proof (merge_rows_count processedRows existing m1 E1) as Hcount.
  destruct (merge_rows_keys processedRows existing m1 E1) as ([extra Hextra] & Hgrow & Hknown).
  set (merged := update_each (fun _ rows => sort_rows rows) m1).
  assert (Hwfm : well_keyed merged) by now apply well_keyed_update_each.
  set (saved := applyTrainingEdits merged edits).
  assert (Hwfs : well_keyed saved) by now apply well_keyed_edited.
  assert (Htotal : total_rows saved = total_rows m1).
  { subst saved. rewrite (total_rows_edited merged edits Hwfm).
    subst merged. now apply (total_rows_sorted sort_rows Hsort). }
  assert (Hprev : total_rows (map (fun e => (fst e, get_or_nil merged (fst e))) existing)
                  = list_sum (map (fun k => length (get_or_nil m1 k)) (obj_keys existing))).
  { rewrite total_rows_shared. f_equal. apply map_ext. intro k.
    subst merged. now apply (length_sorted sort_rows Hsort). }
  assert (Hsplit : total_rows m1
                   = list_sum (map (fun k => length (get_or_nil m1 k)) (obj_keys existing))
                     + list_sum (map (fun k => length (get_or_nil m1 k)) extra)).
  { rewrite (total_rows_keys m1 Hwf1), Hextra, map_app. apply list_sum_app. }
  assert (Hold : total_rows existing
                 <= list_sum (map (fun k => length (get_or_nil m1 k)) (obj_keys existing))).
  { rewrite (total_rows_keys existing Hwf). apply list_sum_le. intros k _. apply Hgrow. }
  rewrite Htotal, Hprev.
  split; [lia|]. split.
  { intro Hk. specialize (Hknown Hk).
    assert (Hnil : extra = []).
    { apply (f_equal (@length str)) in Hextra. rewrite Hknown, length_app in Hextra.
      destruct extra; [reflexivity | cbn [length] in Hextra; lia]. }
    rewrite Hnil in Hsplit. change (list_sum (map _ [])) with 0 in Hsplit. lia. }
  assert (E2 : merge_rows saved processedRows = Some saved).
  { apply merge_rows_settled; [exact Hty|].
    intros r h Hr Hh Ht Hi. pose proof (Hcov r h Hr Hh Ht Hi) as Hc.
    subst saved. rewrite (applyTrainingEdits_get merged edits h Hwfm), map_map.
    rewrite (map_ext _ _ (apply_edit_session edits)).
    apply in_map_iff in Hc. destruct Hc as (e & He & Hin).
    apply in_map_iff. exists e. split; [exact He|].
    exact (Permutation_in e (Permutation_sym (sorted_perm sort_rows Hsort m1 h Hwf1))
                          Hin). }
  set (merged2 := update_each (fun _ rows => sort_rows rows) saved).
  assert (Hwfm2 : well_keyed merged2) by now apply well_keyed_update_each.
  exists (applyTrainingEdits merged2 edits).
  split; [|split].
  - unfold upload_arioneo, mergeTrainingData. rewrite E2. cbv zeta. fold merged2.
    rewrite (total_rows_edited merged2 edits Hwfm2), total_rows_shared.
    rewrite (total_rows_keys merged2 Hwfm2).
    subst merged2. rewrite (keys_sorted sort_rows saved Hwfs).
    now rewrite Z.sub_diag.
  - rewrite (applyTrainingEdits_keys merged2 edits Hwfm2). subst merged2.
    now apply (keys_sorted sort_rows).
  - intro k. rewrite (applyTrainingEdits_get merged2 edits k Hwfm2).
    assert (Hfix : map (apply_edit edits) (get_or_nil saved k) = get_or_nil saved k).
    { subst saved. rewrite (applyTrainingEdits_get merged edits k Hwfm), map_map.
      apply map_ext. apply apply_edit_twice. }
    apply (Permutation_trans (l' := map (apply_edit edits) (get_or_nil saved k)));
      [|rewrite Hfix; apply Permutation_refl].
    apply Permutation_map. subst merged2. now apply (sorted_perm sort_rows Hsort).
Qed.

Lemma upload_arioneo_again_witness :
  let workout := [(js "date", JStr (js "01/19/2026")); (js "horse", JStr (js "Stoweshoe"));
                  (js "type", JStr (js "Breeze"))] in
  let edits := [(js "Stoweshoe|01/19/2026",
                 {| edit_type := Some (js "Work"); edit_track := None;
                    edit_surface := None; edit_notes := None |})] in
  exists saved saved2,
    upload_arioneo (fun l => l) [workout; workout] (Some []) edits = Some (saved, 1%Z)
    /\ upload_arioneo (fun l => l) [workout; workout] (Some saved) edits
       = Some (saved2, 0%Z)
    /\ obj_keys saved2 = obj_keys saved.
Proof.
  intros workout edits.
  set (saved := applyTrainingEdits [(js "Stoweshoe", [workout])] edits).
  destruct (upload_arioneo_again (fun l => l) [workout; workout] [] saved edits 1%Z)
    as (_ & _ & saved2 & E & Hk & _).
  - intro l. apply Permutation_refl.
  - constructor.
  - reflexivity.
  - exists saved, saved2. split; [reflexivity|]. split; [exact E | exact Hk].
Defined.
